(** * kmerspace: locality-sensitive partition of the k-mer space

    A shallow embedding of the C / C++ sources of the repository and the
    properties established about them.

    - [Util]            : util.c (edit-distance oracle, packed codec, center reader)
    - [Layers]          : the single-edit generators and [getNextLayer], whose
                          text is the same in both partition drivers
    - [CliqueDriver]    : partitionByCliquesCheckByNeighbors.c
    - [CenterDriver]    : partitionByLayersCheckByCenters.c
    - [NoRandPairwise]  : NoRandPairwise.cpp (greedy independent set)
    - [ListLSH]         : centerListLSH.c (center lists, signatures, collisions)
    - [P1M1Driver]      : partitionByLayersCheckByCentersWithP1M1 (the driver
                          that also labels (k-1)-mers and (k+1)-mers)
    - [UtilStr]         : util.c, the oracle on character strings
    - [VisitedArray]    : VisitedArray.cpp (bit array)

    Conventions.  A [kmer] is an unsigned 64-bit word, written as a [Z] in
    [0, 2^64) with the wrap-around of left shifts spelled out ([shl64]).
    Plain [int] values (labels, distances, thresholds) are [Z]; string
    lengths and loop counters that only count upwards are [nat].  C arrays
    are lists read with [!!] and written with [<[ _ := _ ]>]. *)

From Stdlib Require Import ZArith List Lia Ascii String Bool.
From stdpp Require Import base decidable option list gmap.

Local Open Scope Z_scope.

(** ** Machine words *)

Definition wrap64 (z : Z) : Z := z mod 2 ^ 64.

(** [x << n] on an unsigned 64-bit word. *)
Definition shl64 (x : Z) (n : Z) : Z := wrap64 (Z.shiftl x n).

(** [x >> n] on an unsigned 64-bit word. *)
Definition shr64 (x : Z) (n : Z) : Z := Z.shiftr x n.

(** The [j]-th 2-bit field of a packed word, counted from the least
    significant end: [(s >> 2j) & 3]. *)
Definition sym (s : Z) (j : nat) : Z := Z.land (Z.shiftr s (2 * Z.of_nat j)) 3.

(** The [n] low fields of [s], most significant first: the symbol string a
    packed word of length [n] stands for. *)
Fixpoint syms (s : Z) (n : nat) : list Z :=
  match n with
  | O => []
  | S n' => sym s n' :: syms s n'
  end.

(** ** Reference Levenshtein distance (textbook recursion) *)

Section Levenshtein.
Context {A : Type} `{EqDecision A}.

Definition neq_cost (a b : A) : nat := if decide (a = b) then 0%nat else 1%nat.

Fixpoint lev (s t : list A) {struct s} : nat :=
  match s with
  | [] => length t
  | a :: s' =>
      (fix lev_row (t : list A) : nat :=
         match t with
         | [] => S (length s')
         | b :: t' =>
             Nat.min (Nat.min (S (lev s' t)) (S (lev_row t')))
                     (lev s' t' + neq_cost a b)
         end) t
  end.
End Levenshtein.

(** ** util.c *)

Module Util.

Definition kmer := Z.

(** The [switch] of [encode]: no [default] branch, so any other byte
    leaves [x] as it was. *)
Definition encode_switch (c : ascii) (x : Z) : Z :=
  if Ascii.eqb c "A" then 0
  else if Ascii.eqb c "C" then 1
  else if Ascii.eqb c "G" then 2
  else if Ascii.eqb c "T" then 3
  else x.

(** Loop of [encode]; [str] is the not yet consumed part of the buffer
    ([str[i]] past the end of the model buffer reads NUL). *)
Fixpoint encode_loop (k : nat) (str : list ascii) (enc x : Z) : Z :=
  match k with
  | O => enc
  | S k' =>
      let x' := encode_switch (hd zero str) x in
      encode_loop k' (tl str) (Z.lor (shl64 enc 2) (wrap64 x')) x'
  end.

(** [encode(str, k)].  The local [x] is not initialised in the source;
    [x0] is the indeterminate value it starts with. *)
Definition encode (x0 : Z) (str : list ascii) (k : nat) : kmer :=
  encode_loop k str 0 x0.

Definition base (z : Z) : ascii :=
  nth (Z.to_nat z) ["A"; "C"; "G"; "T"]%char zero.

(** Loop of [decode], filling [str[k-1]] down to [str[0]]; [acc] holds the
    bytes already written. *)
Fixpoint decode_loop (n : nat) (enc_copy : Z) (acc : list ascii) : list ascii :=
  match n with
  | O => acc
  | S n' => decode_loop n' (shr64 enc_copy 2) (base (Z.land enc_copy 3) :: acc)
  end.

(** [decode(enc, k, str)]: the [k] bytes written to the buffer. *)
Definition decode (enc : kmer) (k : nat) : list ascii := decode_loop k enc [].

(** One cell of the single-row dynamic program. *)
Definition dp_cell (diag up left : Z) (c1 c2 : Z) : Z :=
  let cur := diag + (if Z.land c1 3 =? Z.land c2 3 then 0 else 1) in
  let tmp := up + 1 in
  let cur := if cur >? tmp then tmp else cur in
  let tmp := left + 1 in
  if cur >? tmp then tmp else cur.

(** Inner loop of [editDist2]: [n] cells starting at column [j]. *)
Fixpoint editDist2_inner (n j : nat) (s1_copy s2_copy diag : Z) (row : list Z)
  : list Z :=
  match n with
  | O => row
  | S n' =>
      let cur := dp_cell diag (row !!! j) (row !!! (j - 1)%nat) s1_copy s2_copy in
      editDist2_inner n' (S j) s1_copy (shr64 s2_copy 2) (row !!! j) (<[j := cur]> row)
  end.

(** Outer loop of [editDist2]: [n] rows starting at row [i]. *)
Fixpoint editDist2_outer (n i : nat) (s1_copy s2 : Z) (k2 : nat) (max_d : Z)
    (diag_index : nat) (row : list Z) : Z :=
  match n with
  | O => row !!! diag_index
  | S n' =>
      let diag_index := S diag_index in
      let diag := row !!! 0%nat in
      let row := <[0%nat := Z.of_nat i]> row in
      let row := editDist2_inner k2 1 s1_copy s2 diag row in
      if (max_d >=? 0) && (row !!! diag_index >=? max_d) then row !!! diag_index
      else editDist2_outer n' (S i) (shr64 s1_copy 2) s2 k2 max_d diag_index row
  end.

(** [editDist2] once [k1 <= k2] holds. *)
Definition editDist2_body (s1 : kmer) (k1 : nat) (s2 : kmer) (k2 : nat) (max_d : Z) : Z :=
  let diag_index := (k2 - k1)%nat in
  if (max_d >=? 0) && (Z.of_nat diag_index >=? max_d) then Z.of_nat diag_index
  else
    let row := map Z.of_nat (seq 0 (k2 + 1)) in
    editDist2_outer k1 1 s1 s2 k2 max_d diag_index row.

Definition editDist2 (s1 : kmer) (k1 : nat) (s2 : kmer) (k2 : nat) (max_d : Z) : Z :=
  if (k2 <? k1)%nat then editDist2_body s2 k2 s1 k1 max_d
  else editDist2_body s1 k1 s2 k2 max_d.

Definition editDist (s1 s2 : kmer) (k : nat) (max_id : Z) : Z :=
  editDist2 s1 k s2 k max_id.

End Util.

(** ** Outcome of a program run *)

(** A [main] either leaves early with a diagnostic ([return 1] after the
    usage message is the only such path in the sources) or runs to the end.
    [Undefined] stands for the runs on which the C program has no defined
    behaviour (a shift that overflows [int], a write outside an array):
    nothing is said of what such a run does. *)
Inductive outcome (A : Type) : Type :=
| Aborted (diagnostic : string)
| Completed (result : A)
| Undefined (cause : string).
Arguments Aborted {A} diagnostic.
Arguments Completed {A} result.
Arguments Undefined {A} cause.

(** ** A small model of the stdio calls of [readCentersFromFile] *)

Module Stdio.

Definition newline : ascii := ascii_of_nat 10.

Definition is_space (c : ascii) : bool :=
  let n := nat_of_ascii c in
  (n =? 32)%nat || ((9 <=? n)%nat && (n <=? 13)%nat).

Definition is_digit (c : ascii) : bool :=
  let n := nat_of_ascii c in (48 <=? n)%nat && (n <=? 57)%nat.

Definition digit_val (c : ascii) : Z := Z.of_nat (nat_of_ascii c) - 48.

Fixpoint skip_space (f : list ascii) : list ascii :=
  match f with
  | c :: f' => if is_space c then skip_space f' else f
  | [] => []
  end.

Fixpoint scan_digits (f : list ascii) (acc : Z) : Z * list ascii :=
  match f with
  | c :: f' => if is_digit c then scan_digits f' (acc * 10 + digit_val c) else (acc, f)
  | [] => (acc, [])
  end.

Definition is_sign (c : ascii) : bool :=
  let n := nat_of_ascii c in (n =? 43)%nat || (n =? 45)%nat.

(** [fscanf(fin, "%zu\n", &n)]: skip blanks, read an optional sign and a
    run of digits, skip blanks again.  A minus sign negates the value in
    the unsigned type.  When no digit is found the conversion fails and
    [n] keeps the value [old] it had; a sign read before the failure is
    consumed.  A run of digits whose value does not fit 64 bits has no
    defined conversion; the value returned for it here is at least
    [2^64] in magnitude before negation, and every [main] below treats
    such a count as it treats any count its loop counter cannot hold. *)
Definition fscanf_zu_nl (old : Z) (f : list ascii) : Z * list ascii :=
  match skip_space f with
  | c :: f1 =>
      if is_digit c then
        let '(n, f2) := scan_digits (c :: f1) 0 in (n, skip_space f2)
      else if is_sign c then
        match f1 with
        | c1 :: _ =>
            if is_digit c1 then
              let '(n, f2) := scan_digits f1 0 in
              (if (nat_of_ascii c =? 45)%nat then wrap64 (- n) else n, skip_space f2)
            else (old, f1)
        | [] => (old, [])
        end
      else (old, c :: f1)
  | [] => (old, [])
  end.

(** The bytes one [fgets] consumes: at most [n], ending after a newline. *)
Fixpoint fgets_take (n : nat) (f : list ascii) : list ascii * list ascii :=
  match n, f with
  | S n', c :: f' =>
      if Ascii.eqb c newline then ([c], f')
      else let '(l, r) := fgets_take n' f' in (c :: l, r)
  | _, _ => ([], f)
  end.

(** [fgets(buf, size, fin)]: the bytes read and a NUL overwrite the front
    of [buf]; at end of file [buf] is left as it was. *)
Definition fgets (buf : list ascii) (size : nat) (f : list ascii)
  : list ascii * list ascii :=
  match f with
  | [] => (buf, [])
  | _ :: _ =>
      let '(l, r) := fgets_take (size - 1) f in
      (l ++ zero :: skipn (length l + 1) buf, r)
  end.

End Stdio.

Module Reader.

(** What the source leaves uninitialised: the count before [fscanf]
    stores it, the stack buffer [kmer_str], and the local [x] of each
    call of [encode]. *)
Record indeterminate : Type := {
  ind_count : Z;
  ind_buffer : list ascii;
  ind_x : nat -> Z
}.

(** Loop of [readCentersFromFile]: [n] more records, the next one being
    record [i]. *)
Fixpoint read_records (ind : indeterminate) (k n i : nat) (kmer_str fin : list ascii)
  : list Util.kmer :=
  match n with
  | O => []
  | S n' =>
      let '(kmer_str, fin) := Stdio.fgets kmer_str (k + 2) fin in
      Util.encode (ind_x ind i) kmer_str k
        :: read_records ind k n' (S i) kmer_str fin
  end.

(** [readCentersFromFile(filename, k, &numOfCenters)] on a file with the
    content [fin]: the centers and the count. *)
Definition readCentersFromFile (ind : indeterminate) (fin : list ascii) (k : nat)
  : list Util.kmer * Z :=
  let '(numOfCenters, fin) := Stdio.fscanf_zu_nl (ind_count ind) fin in
  (read_records ind k (Z.to_nat numOfCenters) 0 (ind_buffer ind) fin, numOfCenters).

End Reader.

(** ** Labels and the label store *)

Definition UNASSIGNED : Z := -3.
Definition BFS_VISITED : Z := -2.
Definition GRAY : Z := -1.

(** Tag of (k-1)-mers. *)
Definition luMSB : Z := 0x8000000000000000.

(** [h[x]] and [h[x] = v] on an [int] array; [x] is an unsigned index. *)
Definition rd (h : list Z) (x : Z) : Z := h !!! Z.to_nat x.
Definition wr (h : list Z) (x v : Z) : list Z := <[Z.to_nat x := v]> h.

(** The same on the [bool] array of (k-1)-mers. *)
Definition rdb (a : list bool) (x : Z) : bool := a !!! Z.to_nat x.
Definition wrb (a : list bool) (x : Z) (v : bool) : list bool := <[Z.to_nat x := v]> a.

(** ** Single-edit generators and frontier expansion *)

Module Layers.

(** [(1lu << n) - 1] *)
Definition low_mask (n : Z) : Z := wrap64 (shl64 1 n - 1).

(** Deletion of field [j] of a k-mer. *)
Definition del_at (s : Z) (j : nat) : Z :=
  let head := shl64 (shr64 s (2 * (Z.of_nat j + 1))) (2 * Z.of_nat j) in
  let tail := Z.land (low_mask (2 * Z.of_nat j)) s in
  Z.lor head tail.

(** Substitution of field [j-1] by [m] ([j] counts from 1 as in the source). *)
Definition sub_at (s : Z) (j : nat) (m : Z) : Z :=
  let head := shl64 (shr64 s (2 * Z.of_nat j)) (2 * Z.of_nat j) in
  let tail := Z.land (low_mask (2 * (Z.of_nat j - 1))) s in
  let body := shl64 m (2 * (Z.of_nat j - 1)) in
  Z.lor (Z.lor head body) tail.

(** Insertion of [m] as field [j] of a (tagged) (k-1)-mer. *)
Definition ins_at (s : Z) (j : nat) (m : Z) : Z :=
  let head := shl64 (shr64 s (2 * Z.of_nat j)) (2 * (Z.of_nat j + 1)) in
  let tail := Z.land (low_mask (2 * Z.of_nat j)) s in
  let body := shl64 m (2 * Z.of_nat j) in
  Z.lor (Z.lor head body) tail.

(** The values the three loop nests produce, in loop order. *)
Definition deletions (s : Z) (k : nat) : list Z :=
  map (del_at s) (seq 0 k).
Definition substitutions (s : Z) (k : nat) : list Z :=
  flat_map (fun j => map (sub_at s j) [0; 1; 2; 3]) (seq 1 k).
Definition insertions (s : Z) (k : nat) : list Z :=
  flat_map (fun j => map (ins_at s j) [0; 1; 2; 3]) (seq 0 k).

(** State of one call of [getNextLayer]. *)
Record expansion : Type := {
  new_layer : list Z;
  labels : list Z;
  visited : list bool
}.

(** Body of the deletion loop. *)
Definition admit_km1 (st : expansion) (x : Z) : expansion :=
  if rdb (visited st) x then st
  else {| new_layer := new_layer st ++ [Z.lor x luMSB];
          labels := labels st;
          visited := wrb (visited st) x true |}.

(** Body of the substitution and insertion loops. *)
Definition admit_k (st : expansion) (x : Z) : expansion :=
  if negb (rd (labels st) x =? -3) then st
  else {| new_layer := new_layer st ++ [x];
          labels := wr (labels st) x (-2);
          visited := visited st |}.

(** Body of the loop over the current layer. *)
Definition expand (k : nat) (st : expansion) (s : Z) : expansion :=
  if s <? luMSB then
    let st := fold_left admit_km1 (deletions s k) st in
    fold_left admit_k (substitutions s k) st
  else
    fold_left admit_k (insertions s k) st.

(** [getNextLayer] on the island's layer: the new layer and both arrays.
    An empty layer returns at once. *)
Definition next_layer (bfs_layer : list Z) (k : nat) (h : list Z) (visited : list bool)
  : expansion :=
  if (length bfs_layer =? 0)%nat then
    {| new_layer := bfs_layer; labels := h; visited := visited |}
  else
    fold_left (expand k) bfs_layer
      {| new_layer := []; labels := h; visited := visited |}.

End Layers.

(** ** partitionByCliquesCheckByNeighbors.c *)

Module CliqueDriver.

Record Island : Type := {
  num_centers : nat;
  centers : list Util.kmer;
  bfs_layer : list Z
}.

(** [IslandInit]: the first [num_centers] members seed the layer. *)
Definition IslandInit (num_centers : nat) (c : list Util.kmer) : Island :=
  {| num_centers := num_centers;
     centers := c;
     bfs_layer := firstn num_centers c |}.

Definition getNextLayer (id : Island) (k : nat) (h : list Z) (visited : list bool)
  : Island * list Z * list bool :=
  let st := Layers.next_layer (bfs_layer id) k h visited in
  ({| num_centers := num_centers id;
      centers := centers id;
      bfs_layer := Layers.new_layer st |},
   Layers.labels st, Layers.visited st).

(** State of the probe of [conflictWithNeighbors] inside one pass over
    [cur_layer]: the hash set of vertices seen and [next_layer].  [None]
    stands for the early [return TRUE]. *)
Definition probe : Type := option (gset Z * list Z).

(** Loop body for a generated k-mer [x]: conflict test, then insertion. *)
Definition probe_k (c : Z) (h : list Z) (st : probe) (x : Z) : probe :=
  match st with
  | None => None
  | Some (seen, next) =>
      if (rd h x >=? 0) && negb (rd h x =? c) then None
      else if decide (x ∈ seen) then Some (seen, next)
      else Some ({[x]} ∪ seen, next ++ [x])
  end.

(** Loop body for a generated (k-1)-mer (already tagged): insertion only. *)
Definition probe_km1 (st : probe) (x : Z) : probe :=
  match st with
  | None => None
  | Some (seen, next) =>
      if decide (x ∈ seen) then Some (seen, next)
      else Some ({[x]} ∪ seen, next ++ [x])
  end.

(** Body of the loop over [cur_layer]. *)
Definition probe_vertex (k : nat) (c : Z) (h : list Z) (st : probe) (s : Z) : probe :=
  if s >=? luMSB then
    fold_left (probe_k c h) (Layers.insertions s k) st
  else
    let st := fold_left probe_km1
                (map (fun x => Z.lor x luMSB) (Layers.deletions s k)) st in
    fold_left (probe_k c h) (Layers.substitutions s k) st.

(** The [while(depth > 0)] loop, [depth] iterations at most. *)
Fixpoint probe_layers (depth : nat) (k : nat) (c : Z) (h : list Z)
    (seen : gset Z) (cur_layer : list Z) : bool :=
  match depth with
  | O => false
  | S depth' =>
      match fold_left (probe_vertex k c h) cur_layer (Some (seen, [])) with
      | None => true
      | Some (seen, next) => probe_layers depth' k c h seen next
      end
  end.

(** [conflictWithNeighbors(s, k, depth, c, h)].  The comparison
    [h[x] != c] is made after the test [h[x] >= 0], so the conversion of
    [h[x]] to [size_t] changes nothing. *)
Definition conflictWithNeighbors (s : Util.kmer) (k : nat) (depth : Z) (c : Z)
    (h : list Z) : bool :=
  probe_layers (Z.to_nat depth) k c h {[s]} [s].

(** Pre-labelling of one clique member. *)
Definition seed_member (i : nat) (st : list Z * list bool) (cur : Util.kmer)
  : list Z * list bool :=
  let '(h, h_m1) := st in
  if cur >=? luMSB then (h, wrb h_m1 (Z.lxor cur luMSB) true)
  else (wr h cur (Z.of_nat i), h_m1).

(** The loop over the cliques read from the file, from clique [i] on. *)
Fixpoint seed_cliques (i : nat) (cliques : list (list Util.kmer))
    (st : list Z * list bool) : list Island * (list Z * list bool) :=
  match cliques with
  | [] => ([], st)
  | c :: rest =>
      let isl := IslandInit (length c) c in
      let st := fold_left (seed_member i) c st in
      let '(isls, st) := seed_cliques (S i) rest st in
      (isl :: isls, st)
  end.

(** Body of the loop over the new layer in [main]; the [||] of the source
    does not read [h[s]] for a tagged [s]. *)
Definition commit (k : nat) (p : Z) (i : nat) (h : list Z) (s : Z) : list Z :=
  if s >=? luMSB then h
  else if rd h s >? -2 then h
  else
    let conflict := conflictWithNeighbors s k (p - 1) (Z.of_nat i) h in
    if negb conflict then wr h s (Z.of_nat i) else wr h s (-1).

Definition state : Type := list Island * list Z * list bool.

(** First half of the body of the loop over the islands: the call of
    [getNextLayer] on island [i]. *)
Definition expand_island (k : nat) (st : state) (i : nat) : state :=
  let '(islands, h, h_m1) := st in
  match islands !! i with
  | None => st
  | Some cur_center =>
      let '(cur_center, h, h_m1) := getNextLayer cur_center k h h_m1 in
      (<[i := cur_center]> islands, h, h_m1)
  end.

(** Second half: the loop over the layer of island [i]. *)
Definition commit_island (k : nat) (p : Z) (st : state) (i : nat) : state :=
  let '(islands, h, h_m1) := st in
  match islands !! i with
  | None => st
  | Some cur_center =>
      (islands, fold_left (commit k p i) (bfs_layer cur_center) h, h_m1)
  end.

(** Body of the loop over the islands. *)
Definition process_island (k : nat) (p : Z) (st : state) (i : nat) : state :=
  commit_island k p (expand_island k st i) i.

(** One value of [radius]. *)
Definition round (k : nat) (p : Z) (st : state) : state :=
  fold_left (process_island k p) (seq 0 (length st.1.1)) st.

(** The loop [for(radius=1; radius<=threshold; radius+=1)]. *)
Fixpoint rounds (n : nat) (k : nat) (p : Z) (st : state) : state :=
  match n with
  | O => st
  | S n' => rounds n' k p (round k p st)
  end.

(** The arrays as allocated: every k-mer UNASSIGNED, no (k-1)-mer visited.
    [NUM_KMERS = 1<<(k<<1)] is computed in [int] in the source, which is
    defined for [k <= 15] only; the results on whole runs are stated for
    such [k]. *)
Definition allocated (k : nat) : list Z * list bool :=
  let NUM_KMERS := Z.to_nat (Z.shiftl 1 (Z.shiftl (Z.of_nat k) 1)) in
  let NUM_KM1MERS := Z.to_nat (Z.shiftr (Z.of_nat NUM_KMERS) 2) in
  (replicate NUM_KMERS (-3), replicate NUM_KM1MERS false).

(** State after the pre-labelling loop.  [readCliquesFromFile] is not part
    of the sources: the cliques it returns are the input here, (k-1)-mer
    members carrying the tag [luMSB]. *)
Definition seeded (k : nat) (cliques : list (list Util.kmer)) : state :=
  let '(islands, (h, h_m1)) := seed_cliques 0 cliques (allocated k) in
  (islands, h, h_m1).

(** The labelling [h] at the end of [main]. *)
Definition run (k : nat) (p q : Z) (cliques : list (list Util.kmer)) : list Z :=
  let threshold := Z.shiftr q 1 in
  (rounds (Z.to_nat threshold) k p (seeded k cliques)).1.2.

(** The lines written to the output file. *)
Definition output (k : nat) (h : list Z) : list (list ascii * Z) :=
  omap (fun i => let x := Z.of_nat i in
                 if rd h x >? -3 then Some (Util.decode x k, rd h x) else None)
       (seq 0 (length h)).

(** A clique member indexes [h], or [h_m1] when it carries the tag. *)
Definition in_bounds (k : nat) (cur : Util.kmer) : bool :=
  let NUM_KMERS := Z.shiftl 1 (Z.shiftl (Z.of_nat k) 1) in
  if cur >=? luMSB then Z.lxor cur luMSB <? Z.shiftr NUM_KMERS 2
  else (0 <=? cur) && (cur <? NUM_KMERS).

(** [main] on the cliques read from the file.  The program has no defined
    behaviour when [1<<(k<<1)] overflows [int], that is for [k > 15], or
    when a clique member lies outside the array the pre-labelling writes
    it to.  The allocations are taken to succeed. *)
Definition main (argc : Z) (k : nat) (p q : Z) (cliques : list (list Util.kmer))
  : outcome (list Z) :=
  if negb (argc =? 5)
  then Aborted "usage: partitionByCliquesCheckByNeighbors.out k p q centers_file"
  else if (15 <? k)%nat then Undefined "1<<(k<<1) overflows int"
  else if forallb (forallb (in_bounds k)) cliques then Completed (run k p q cliques)
  else Undefined "a clique member is written outside its array".

End CliqueDriver.

(** ** partitionByLayersCheckByCenters.c *)

Module CenterDriver.

Record Island : Type := {
  center : Util.kmer;
  neighbor_indices : list nat;
  bfs_layer : list Z
}.

Definition IslandInit (c : Util.kmer) : Island :=
  {| center := c; neighbor_indices := []; bfs_layer := [c] |}.

#[global] Instance Island_inhabited : Inhabited Island := populate (IslandInit 0).

Definition getNextLayer (id : Island) (k : nat) (h : list Z) (visited : list bool)
  : Island * list Z * list bool :=
  let st := Layers.next_layer (bfs_layer id) k h visited in
  ({| center := center id;
      neighbor_indices := neighbor_indices id;
      bfs_layer := Layers.new_layer st |},
   Layers.labels st, Layers.visited st).

(** [cmpKmerByDist]: the indices [s1], [s2] are compared by the distance
    of their centers to the origin [o]. *)
Definition cmpKmerByDist (centers : list Util.kmer) (o : Util.kmer) (k : nat)
    (s1 s2 : nat) : Z :=
  let a := centers !!! s1 in
  let d1 := Util.editDist a o k (-1) in
  let b := centers !!! s2 in
  let d2 := Util.editDist b o k (d1 + 1) in
  d1 - d2.

(** [qsort_r], taken to be a stable insertion sort: [x] goes before the
    first element it compares smaller than. *)
Fixpoint qsort_insert (cmp : nat -> nat -> Z) (x : nat) (l : list nat) : list nat :=
  match l with
  | [] => [x]
  | y :: l' => if cmp x y <? 0 then x :: y :: l' else y :: qsort_insert cmp x l'
  end.

Definition qsort_r (cmp : nat -> nat -> Z) (l : list nat) : list nat :=
  fold_left (fun acc x => qsort_insert cmp x acc) l [].

Definition add_neighbor (islands : list Island) (i j : nat) : list Island :=
  match islands !! i with
  | None => islands
  | Some isl =>
      <[i := {| center := center isl;
                neighbor_indices := neighbor_indices isl ++ [j];
                bfs_layer := bfs_layer isl |}]> islands
  end.

(** Body of the inner loop over [j > i] of the neighbour computation. *)
Definition link (k : nat) (threshold : Z) (i : nat) (islands : list Island) (j : nat)
  : list Island :=
  let dist := Util.editDist (center (islands !!! i)) (center (islands !!! j)) k (-1) in
  if dist <=? threshold then add_neighbor (add_neighbor islands i j) j i
  else islands.

(** Body of the outer loop: link island [i] to the later ones, then sort
    its list. *)
Definition neighbors_of (k : nat) (threshold : Z) (centers : list Util.kmer)
    (islands : list Island) (i : nat) : list Island :=
  let n := length islands in
  let islands := fold_left (link k threshold i) (seq (S i) (n - S i)) islands in
  match islands !! i with
  | None => islands
  | Some isl =>
      <[i := {| center := center isl;
                neighbor_indices :=
                  qsort_r (cmpKmerByDist centers (center isl) k) (neighbor_indices isl);
                bfs_layer := bfs_layer isl |}]> islands
  end.

(** The loop over the neighbour list in [main]: [true] when some
    neighbour center [c'] has [dist(s, c') - radius < p]. *)
Definition conflict_with_centers (k : nat) (p radius : Z) (islands : list Island)
    (cur_center : Island) (s : Util.kmer) : bool :=
  existsb (fun m =>
             let neighbor := islands !!! m in
             let dist := Util.editDist s (center neighbor) k (-1) in
             dist - radius <? p)
          (neighbor_indices cur_center).

Definition commit (k : nat) (p radius : Z) (islands : list Island) (cur_center : Island)
    (i : nat) (h : list Z) (s : Z) : list Z :=
  if s >=? luMSB then h
  else if rd h s >? -2 then h
  else if conflict_with_centers k p radius islands cur_center s then wr h s (-1)
  else wr h s (Z.of_nat i).

Definition state : Type := list Island * list Z * list bool.

Definition process_island (k : nat) (p radius : Z) (st : state) (i : nat) : state :=
  let '(islands, h, visited) := st in
  match islands !! i with
  | None => st
  | Some cur_center =>
      let '(cur_center, h, visited) := getNextLayer cur_center k h visited in
      let islands := <[i := cur_center]> islands in
      let h := fold_left (commit k p radius islands cur_center i) (bfs_layer cur_center) h in
      (islands, h, visited)
  end.

Definition round (k : nat) (p radius : Z) (st : state) : state :=
  fold_left (process_island k p radius) (seq 0 (length st.1.1)) st.

Fixpoint rounds (n : nat) (k : nat) (p radius : Z) (st : state) : state :=
  match n with
  | O => st
  | S n' => rounds n' k p (radius + 1) (round k p radius st)
  end.

(** The loop [h[centers[i]] = i; IslandInit(&islands[i], centers[i])]. *)
Fixpoint seed_centers (i : nat) (centers : list Util.kmer) (h : list Z)
  : list Island * list Z :=
  match centers with
  | [] => ([], h)
  | c :: rest =>
      let h := wr h c (Z.of_nat i) in
      let '(isls, h) := seed_centers (S i) rest h in
      (IslandInit c :: isls, h)
  end.

(** State when the round loop starts ([NUM_KMERS] as in the clique driver). *)
Definition seeded (k : nat) (p q : Z) (centers : list Util.kmer) : state :=
  let NUM_KMERS := Z.to_nat (Z.shiftl 1 (Z.shiftl (Z.of_nat k) 1)) in
  let h := replicate NUM_KMERS (-3) in
  let visited := replicate (Z.to_nat (Z.shiftr (Z.of_nat NUM_KMERS) 2)) false in
  let '(islands, h) := seed_centers 0 centers h in
  let threshold := p + q in
  let islands :=
    fold_left (neighbors_of k threshold centers) (seq 0 (length islands)) islands in
  (islands, h, visited).

(** The labelling [h] at the end of [main], from the centers read. *)
Definition run (k : nat) (p q : Z) (centers : list Util.kmer) : list Z :=
  let threshold := Z.shiftr q 1 in
  (rounds (Z.to_nat threshold) k p 1 (seeded k p q centers)).1.2.

(** [main] on a centers file with the content [fin]: only the first
    [NUM_CENTERS] values read make up the center array.  The program has
    no defined behaviour when [1<<(k<<1)] overflows [int], that is for
    [k > 15]; when the count exceeds what the [int] loop counter of
    [readCentersFromFile] can hold; or when a value read is not below
    [NUM_KMERS], for [h[centers[i]] = i] then writes outside [h].  The
    allocations are taken to succeed. *)
Definition main (ind : Reader.indeterminate) (argc : Z) (k : nat) (p q : Z)
    (fin : list ascii) : outcome (list Z) :=
  if negb (argc =? 5)
  then Aborted "usage: partitionByLayersCheckByCenters.out k p q centers_file"
  else if (15 <? k)%nat then Undefined "1<<(k<<1) overflows int"
  else
    let NUM_KMERS := Z.shiftl 1 (Z.shiftl (Z.of_nat k) 1) in
    let '(centers, NUM_CENTERS) := Reader.readCentersFromFile ind fin k in
    if 2 ^ 31 <=? NUM_CENTERS
    then Undefined "the loop counter of readCentersFromFile overflows int"
    else if forallb (fun c => (0 <=? c) && (c <? NUM_KMERS)) centers
    then Completed (run k p q centers)
    else Undefined "h[centers[i]] is outside h".

End CenterDriver.

(** ** NoRandPairwise.cpp *)

Module NoRandPairwise.

(** [DPtable[i][j]] and [DPtable[i][j] = v] on the two-dimensional table. *)
Definition tget (t : list (list Z)) (i j : nat) : Z := (t !!! i) !!! j.
Definition tset (t : list (list Z)) (i j : nat) (v : Z) : list (list Z) :=
  <[i := <[j := v]> (t !!! i)]> t.

(** The first loop: [DPtable[0][i] = i; DPtable[i][0] = i]. *)
Definition init_table (k : nat) : list (list Z) :=
  fold_left (fun t i => tset (tset t 0 i (Z.of_nat i)) i 0 (Z.of_nat i))
            (seq 0 (k + 1))
            (replicate (k + 1) (replicate (k + 1) 0)).

(** Body of the loop over [j]. *)
Definition fill_cell (s1 s2 : Z) (i j : nat) (t : list (list Z)) : list (list Z) :=
  let c1 := Z.land (Z.shiftr s1 (2 * (Z.of_nat i - 1))) 3 in
  let c2 := Z.land (Z.shiftr s2 (2 * (Z.of_nat j - 1))) 3 in
  let t :=
    if negb (c1 =? c2) then tset t i j (tget t (i - 1) (j - 1) + 1)
    else tset t i j (tget t (i - 1) (j - 1)) in
  let t :=
    if tget t (i - 1) j + 1 <? tget t i j then tset t i j (tget t (i - 1) j + 1)
    else t in
  if tget t i (j - 1) + 1 <? tget t i j then tset t i j (tget t i (j - 1) + 1)
  else t.

Fixpoint fill_row (n : nat) (s1 s2 : Z) (i j : nat) (t : list (list Z))
  : list (list Z) :=
  match n with
  | O => t
  | S n' => fill_row n' s1 s2 i (S j) (fill_cell s1 s2 i j t)
  end.

(** The loop over [i]: [n] rows from row [i] on, leaving early when the
    diagonal cell exceeds [d]. *)
Fixpoint fill_rows (n : nat) (s1 s2 : Z) (k : nat) (d : Z) (i : nat)
    (t : list (list Z)) : Z :=
  match n with
  | O => tget t k k
  | S n' =>
      let t := fill_row k s1 s2 i 1 t in
      if tget t i i >? d then tget t i i
      else fill_rows n' s1 s2 k d (S i) t
  end.

Definition editDist (s1 s2 : Z) (k : nat) (d : Z) : Z :=
  fill_rows k s1 s2 k d 1 (init_table k).

(** [MIS[j]] for an unsigned index. *)
Definition at_index (MIS : list Z) (j : Z) : Z := MIS !!! Z.to_nat j.

Definition size (MIS : list Z) : Z := Z.of_nat (length MIS).

(** The search around [lastFound]: [n] more values of [j].  The result is
    the new [lastFound] and [flag]. *)
Fixpoint search_around (n : nat) (k : nat) (d : Z) (MIS : list Z) (i : Z)
    (lastFound j : Z) : Z * bool :=
  match n with
  | O => (lastFound, false)
  | S n' =>
      if editDist i (at_index MIS (wrap64 (lastFound + j))) k d <=? d
      then (wrap64 (lastFound + j), true)
      else if editDist i (at_index MIS (wrap64 (lastFound - j))) k d <=? d
      then (wrap64 (lastFound - j), true)
      else search_around n' k d MIS i lastFound (j + 1)
  end.

(** The upward scan [for (j = ...; j < MIS.size(); ++j)]. *)
Fixpoint search_up (n : nat) (k : nat) (d : Z) (MIS : list Z) (i : Z)
    (st : Z * bool) (j : Z) : Z * bool :=
  match n with
  | O => st
  | S n' =>
      if editDist i (at_index MIS j) k d <=? d then (j, true)
      else search_up n' k d MIS i st (j + 1)
  end.

(** The downward scan [for (j = ...; j >= 0 && j < MIS.size(); --j)];
    [j] is unsigned, so the scan ends when [--j] wraps around below 0.
    The values of [j] that pass the test decrease from below
    [MIS.size()], so [n = MIS.size()] iterations are never exceeded. *)
Fixpoint search_down (n : nat) (k : nat) (d : Z) (MIS : list Z) (i : Z)
    (st : Z * bool) (j : Z) : Z * bool :=
  match n with
  | O => st
  | S n' =>
      if j <? size MIS then
        if editDist i (at_index MIS j) k d <=? d then (j, true)
        else search_down n' k d MIS i st (wrap64 (j - 1))
      else st
  end.

(** Body of the loop over the candidates [i]: the new [MIS] and
    [lastFound]. *)
Definition step (k : nat) (d : Z) (st : list Z * Z) (i : Z) : list Z * Z :=
  let '(MIS, lastFound) := st in
  let dist := lastFound in
  let dist :=
    if wrap64 (size MIS - lastFound - 1) <? dist
    then wrap64 (size MIS - lastFound - 1) else dist in
  let st1 := search_around (Z.to_nat (dist + 1)) k d MIS i lastFound 0 in
  let st2 :=
    if dist =? st1.1 then
      let j := wrap64 (st1.1 + dist + 1) in
      search_up (Z.to_nat (size MIS - j)) k d MIS i st1 j
    else
      let j := wrap64 (st1.1 - dist - 1) in
      search_down (length MIS) k d MIS i st1 j in
  if st2.2 then (MIS, st2.1)
  else (MIS ++ [i], size (MIS ++ [i]) - 1).

(** The candidates [1 .. kmerSpaceSize - 1]. *)
Definition candidates (k : nat) : list Z :=
  let kmerSpaceSize := shl64 1 (2 * Z.of_nat k) in
  map (fun n => Z.of_nat n + 1) (seq 0 (Z.to_nat (kmerSpaceSize - 1))).

(** The vector [MIS] at the end of [main]. *)
Definition main (k : nat) (d : Z) : list Z :=
  (fold_left (step k d) (candidates k) ([0], 0)).1.

End NoRandPairwise.

(** ** Center lists and signatures (centerListLSH.c) *)

Module ListLSH.

Record Center : Type := {
  center : Z;
  last_idx : Z
}.

Record HashList : Type := {
  len : Z;
  total : Z;
  centers : list Center
}.

#[global] Instance Center_inhabited : Inhabited Center :=
  populate {| center := 0; last_idx := 0 |}.
#[global] Instance HashList_inhabited : Inhabited HashList :=
  populate {| len := 0; total := 0; centers := [] |}.

(** [list[i]] *)
Definition entry (list : list Center) (i : Z) : Center := list !!! Z.to_nat i.

(** The loop [while(st < ed)] of [binarySearch], [n] iterations at most;
    the result is the index of the entry whose center is returned, [mid]
    on the early return and [st] after the loop.  Every iteration makes
    [ed - st] smaller, so [n >= ed - st] iterations are never exceeded.
    The operands of [/] are not negative, where the division of C and
    [Z.quot] agree. *)
Fixpoint search (n : nat) (list : list Center) (roll st ed : Z) : Z :=
  match n with
  | O => st
  | S n' =>
      if st <? ed then
        let mid := Z.quot (st + ed) 2 in
        let r := last_idx (entry list mid) - roll in
        if r =? 0 then mid
        else if r >? 0 then search n' list roll st mid
        else search n' list roll (mid + 1) ed
      else st
  end.

Definition binarySearch (list : list Center) (len roll : Z) : Z :=
  center (entry list (search (Z.to_nat len) list roll 0 len)).

(** First inner loop of [distributeHash]: [prod *= list[j].last_idx]. *)
Definition product (list : list Center) (size : Z) : Z :=
  fold_left (fun prod j => prod * last_idx (entry list (Z.of_nat j)))
            (seq 0 (Z.to_nat size)) 1.

(** Body of the second inner loop: [total += prod/list[j].last_idx;
    list[j].last_idx = total - 1]. *)
Definition accumulate (prod : Z) (st : Z * list Center) (j : nat) : Z * list Center :=
  let '(total, list) := st in
  let total := total + Z.quot prod (last_idx (entry list (Z.of_nat j))) in
  (total,
   <[j := {| center := center (entry list (Z.of_nat j)); last_idx := total - 1 |}]> list).

(** Body of the loop of [distributeHash] over the k-mers. *)
Definition distribute (hl : HashList) : HashList :=
  let size := len hl in
  let list := centers hl in
  if size =? 1 then
    {| len := size; total := 1;
       centers := <[0%nat := {| center := center (entry list 0); last_idx := 0 |}]> list |}
  else
    let prod := product list size in
    let '(total, list) := fold_left (accumulate prod) (seq 0 (Z.to_nat size)) (0, list) in
    {| len := size; total := total; centers := list |}.

Definition distributeHash (h : list HashList) (n : Z) : list HashList :=
  fold_left (fun h i => <[i := distribute (h !!! i)]> h) (seq 0 (Z.to_nat n)) h.

(** [calcSig]: the [sig_len] values written to [sig_s]; [rand] holds the
    values the successive calls of [rand()] return. *)
Definition calcSig (rand : list Z) (s : Z) (sig_len : Z) (h : list HashList) : list Z :=
  let hs := h !!! Z.to_nat s in
  map (fun r => let roll := Z.rem r (total hs) in
                binarySearch (centers hs) (len hs) roll)
      (firstn (Z.to_nat sig_len) rand).

(** Inner loop of [hasCollisionSizeT] on the band starting at [i]: the
    value of [found] after it. *)
Definition band_equal (sig_s sig_t : list Z) (i size_band : Z) : bool :=
  forallb (fun j => (sig_s !!! Z.to_nat (i + Z.of_nat j))
                    =? (sig_t !!! Z.to_nat (i + Z.of_nat j)))
          (seq 0 (Z.to_nat size_band)).

(** Outer loop [for(i=0; i<len; i+=size_band)], [n] iterations at most,
    entered with the current value of [found]. *)
Fixpoint bands (n : nat) (sig_s sig_t : list Z) (len size_band i : Z) (found : Z) : Z :=
  match n with
  | O => found
  | S n' =>
      if i <? len then
        if band_equal sig_s sig_t i size_band then 1
        else bands n' sig_s sig_t len size_band (i + size_band) 0
      else found
  end.

(** [hasCollisionSizeT]; [found] is not initialised in the source, [found0]
    is the value it holds when the loop is not entered.  A band of size
    zero or less is found equal at once, so the loop is left in its first
    iteration; otherwise [i] grows and [len] iterations are enough. *)
Definition hasCollisionSizeT (found0 : Z) (sig_s sig_t : list Z) (len num_bands : Z) : Z :=
  let size_band := Z.quot len num_bands in
  bands (Z.to_nat len) sig_s sig_t len size_band 0 found0.

(** Inner loop of [hasCollisionInt]: is [x] among the entries of [sig_t]
    before the first negative one? *)
Fixpoint scan_t (n : nat) (sig_t : list Z) (len x j : Z) : bool :=
  match n with
  | O => false
  | S n' =>
      if (j <? len) && (sig_t !!! Z.to_nat j >=? 0) then
        if x =? sig_t !!! Z.to_nat j then true
        else scan_t n' sig_t len x (j + 1)
      else false
  end.

Fixpoint scan_s (n : nat) (sig_s sig_t : list Z) (len i : Z) : Z :=
  match n with
  | O => 0
  | S n' =>
      if (i <? len) && (sig_s !!! Z.to_nat i >=? 0) then
        if scan_t (Z.to_nat len) sig_t len (sig_s !!! Z.to_nat i) 0 then 1
        else scan_s n' sig_s sig_t len (i + 1)
      else 0
  end.

Definition hasCollisionInt (sig_s sig_t : list Z) (len : Z) : Z :=
  scan_s (Z.to_nat len) sig_s sig_t len 0.

(** [shareCenter]: the two nested loops return 1 at the first pair of
    equal centers. *)
Definition shareCenter (s t : Z) (h : list HashList) : Z :=
  let ls := len (h !!! Z.to_nat s) in
  let cs := centers (h !!! Z.to_nat s) in
  let lt := len (h !!! Z.to_nat t) in
  let ct := centers (h !!! Z.to_nat t) in
  if existsb (fun i =>
       existsb (fun j => center (entry cs (Z.of_nat i)) =? center (entry ct (Z.of_nat j)))
               (seq 0 (Z.to_nat lt)))
     (seq 0 (Z.to_nat ls))
  then 1 else 0.

(** First loop of [calcSig2] from shot [i] on: the array and [j] when it
    ends. *)
Fixpoint shots_loop (shots : list Z) (i : Z) (s : Z) (h : list HashList) (len : Z)
    (sig_s : list Z) (j : Z) : list Z * Z :=
  match shots with
  | [] => (sig_s, j)
  | shot :: rest =>
      if negb (shareCenter s shot h =? 0) then
        let sig_s := <[Z.to_nat j := i]> sig_s in
        let j := j + 1 in
        if j >=? len then (sig_s, j)
        else shots_loop rest (i + 1) s h len sig_s j
      else shots_loop rest (i + 1) s h len sig_s j
  end.

(** [calcSig2]: the array [sig_s] after the call. *)
Definition calcSig2 (s : Z) (sig_s : list Z) (len : Z) (h : list HashList)
    (rand_shots : list Z) (num_shots : Z) : list Z :=
  let '(sig_s, j) :=
    shots_loop (firstn (Z.to_nat num_shots) rand_shots) 0 s h len sig_s 0 in
  fold_left (fun sig j' => <[j' := -1]> sig)
            (seq (Z.to_nat j) (Z.to_nat len - Z.to_nat j)) sig_s.

End ListLSH.

(** ** partitionByLayersCheckByCentersWithP1M1 *)

(** The variant of the partition driver that also labels the (k-1)-mers
    and the (k+1)-mers the search meets: three [int] arrays [h], [h_m1]
    and [h_p1], and a second tag for the (k+1)-mers. *)

(** Tag of (k+1)-mers. *)
Definition luSMSB : Z := 0x4000000000000000.

Module P1M1Driver.

Record Island : Type := {
  center : Util.kmer;
  bfs_layer : list Z
}.

Definition IslandInit (c : Util.kmer) : Island :=
  {| center := c; bfs_layer := [c] |}.

(** State of one call of [getNextLayer]: the new layer and the arrays. *)
Record expansion : Type := {
  new_layer : list Z;
  labels : list Z;
  labels_m1 : list Z;
  labels_p1 : list Z
}.

(** Body of the substitution loop, and of the insertion loop of a
    (k-1)-mer: a k-mer [x]. *)
Definition admit_k (st : expansion) (x : Z) : expansion :=
  if negb (rd (labels st) x =? -3) then st
  else {| new_layer := new_layer st ++ [x];
          labels := wr (labels st) x (-2);
          labels_m1 := labels_m1 st;
          labels_p1 := labels_p1 st |}.

(** Body of the deletion loop: a (k-1)-mer [x]. *)
Definition admit_km1 (st : expansion) (x : Z) : expansion :=
  if negb (rd (labels_m1 st) x =? -3) then st
  else {| new_layer := new_layer st ++ [Z.lor x luMSB];
          labels := labels st;
          labels_m1 := wr (labels_m1 st) x (-2);
          labels_p1 := labels_p1 st |}.

(** Body of the insertion loop of a k-mer: a (k+1)-mer [x]. *)
Definition admit_kp1 (st : expansion) (x : Z) : expansion :=
  if negb (rd (labels_p1 st) x =? -3) then st
  else {| new_layer := new_layer st ++ [Z.lor x luSMSB];
          labels := labels st;
          labels_m1 := labels_m1 st;
          labels_p1 := wr (labels_p1 st) x (-2) |}.

(** Body of the loop over the current layer: a (k-1)-mer is expanded by
    insertions, a k-mer by insertions, deletions and substitutions, a
    (k+1)-mer not at all. *)
Definition expand (k : nat) (st : expansion) (s : Z) : expansion :=
  if s >=? luMSB then
    fold_left admit_k (Layers.insertions s k) st
  else if s <? luSMSB then
    let st := fold_left admit_kp1 (Layers.insertions s (S k)) st in
    let st := fold_left admit_km1 (Layers.deletions s k) st in
    fold_left admit_k (Layers.substitutions s k) st
  else st.

(** [getNextLayer]; an empty layer returns at once. *)
Definition getNextLayer (id : Island) (k : nat) (h h_m1 h_p1 : list Z)
  : Island * (list Z * list Z * list Z) :=
  if (length (bfs_layer id) =? 0)%nat then (id, (h, h_m1, h_p1))
  else
    let st := fold_left (expand k) (bfs_layer id)
                {| new_layer := []; labels := h; labels_m1 := h_m1; labels_p1 := h_p1 |} in
    ({| center := center id; bfs_layer := new_layer st |},
     (labels st, labels_m1 st, labels_p1 st)).

(** State of the probe of [conflictWithNeighbors] inside one pass over
    [cur_layer]: the hash set of vertices seen and [next_layer].  [None]
    stands for the early [return TRUE]. *)
Definition probe : Type := option (gset Z * list Z).

(** Loop body for a generated k-mer [x]: conflict test on [h], else
    insertion when not seen. *)
Definition probe_k (c : Z) (h : list Z) (st : probe) (x : Z) : probe :=
  match st with
  | None => None
  | Some (seen, next) =>
      if (rd h x >=? 0) && negb (rd h x =? c) then None
      else if decide (x ∈ seen) then Some (seen, next)
      else Some ({[x]} ∪ seen, next ++ [x])
  end.

(** Loop body for a generated (k-1)-mer or (k+1)-mer [x]: conflict test on
    its array [a], then [x |= tag] and insertion when not seen. *)
Definition probe_tagged (tag : Z) (c : Z) (a : list Z) (st : probe) (x : Z) : probe :=
  match st with
  | None => None
  | Some (seen, next) =>
      if (rd a x >=? 0) && negb (rd a x =? c) then None
      else
        let x := Z.lor x tag in
        if decide (x ∈ seen) then Some (seen, next)
        else Some ({[x]} ∪ seen, next ++ [x])
  end.

(** Body of the loop over [cur_layer]: here a (k+1)-mer is expanded, by
    deletions. *)
Definition probe_vertex (k : nat) (c : Z) (h h_m1 h_p1 : list Z) (st : probe) (s : Z)
  : probe :=
  if s >=? luMSB then
    fold_left (probe_k c h) (Layers.insertions s k) st
  else if s >=? luSMSB then
    let s := Z.lxor s luSMSB in
    fold_left (probe_k c h) (Layers.deletions s (S k)) st
  else
    let st := fold_left (probe_tagged luSMSB c h_p1) (Layers.insertions s (S k)) st in
    let st := fold_left (probe_tagged luMSB c h_m1) (Layers.deletions s k) st in
    fold_left (probe_k c h) (Layers.substitutions s k) st.

(** The [while(depth > 0)] loop, [depth] iterations at most. *)
Fixpoint probe_layers (depth : nat) (k : nat) (c : Z) (h h_m1 h_p1 : list Z)
    (seen : gset Z) (cur_layer : list Z) : bool :=
  match depth with
  | O => false
  | S depth' =>
      match fold_left (probe_vertex k c h h_m1 h_p1) cur_layer (Some (seen, [])) with
      | None => true
      | Some (seen, next) => probe_layers depth' k c h h_m1 h_p1 seen next
      end
  end.

(** [conflictWithNeighbors(s, k, ks, depth, c, h, h_m1, h_p1)]: [s] comes
    without its tag and gets it back from [ks]. *)
Definition conflictWithNeighbors (s : Util.kmer) (k : nat) (ks : Z) (depth : Z) (c : Z)
    (h h_m1 h_p1 : list Z) : bool :=
  let s := if Z.of_nat k >? ks then Z.lor s luMSB
           else if Z.of_nat k <? ks then Z.lor s luSMSB
           else s in
  probe_layers (Z.to_nat depth) k c h h_m1 h_p1 {[s]} [s].

(** The three arrays [(h, h_m1, h_p1)]. *)
Definition store : Type := list Z * list Z * list Z.

(** Body of the loop over the new layer in [main]. *)
Definition commit (k : nat) (p : Z) (i : nat) (st : store) (s : Z) : store :=
  let '(h, h_m1, h_p1) := st in
  if s >=? luMSB then
    let k2 := Z.of_nat k - 1 in
    let s := Z.lxor s luMSB in
    if rd h_m1 s >? -2 then st
    else if negb (conflictWithNeighbors s k k2 (p - 1) (Z.of_nat i) h h_m1 h_p1)
    then (h, wr h_m1 s (Z.of_nat i), h_p1)
    else (h, wr h_m1 s (-1), h_p1)
  else if s >=? luSMSB then
    let k2 := Z.of_nat k + 1 in
    let s := Z.lxor s luSMSB in
    if rd h_p1 s >? -2 then st
    else if negb (conflictWithNeighbors s k k2 (p - 1) (Z.of_nat i) h h_m1 h_p1)
    then (h, h_m1, wr h_p1 s (Z.of_nat i))
    else (h, h_m1, wr h_p1 s (-1))
  else
    let k2 := Z.of_nat k in
    if rd h s >? -2 then st
    else if negb (conflictWithNeighbors s k k2 (p - 1) (Z.of_nat i) h h_m1 h_p1)
    then (wr h s (Z.of_nat i), h_m1, h_p1)
    else (wr h s (-1), h_m1, h_p1).

Definition state : Type := list Island * store.

(** Body of the loop over the centers. *)
Definition process_island (k : nat) (p : Z) (st : state) (i : nat) : state :=
  let '(islands, (h, h_m1, h_p1)) := st in
  match islands !! i with
  | None => st
  | Some cur_center =>
      let '(cur_center, arrays) := getNextLayer cur_center k h h_m1 h_p1 in
      (<[i := cur_center]> islands,
       fold_left (commit k p i) (bfs_layer cur_center) arrays)
  end.

(** One value of [radius]. *)
Definition round (k : nat) (p : Z) (st : state) : state :=
  fold_left (process_island k p) (seq 0 (length st.1)) st.

(** The loop [for(radius=1; radius<=threshold; radius+=1)]. *)
Fixpoint rounds (n : nat) (k : nat) (p : Z) (st : state) : state :=
  match n with
  | O => st
  | S n' => rounds n' k p (round k p st)
  end.

(** The arrays as allocated, every entry UNASSIGNED.  [NUM_KMERS] is
    computed in [int] as in the other drivers; the two other sizes are
    shifts of the [size_t] value. *)
Definition allocated (k : nat) : store :=
  let NUM_KMERS := Z.shiftl 1 (Z.shiftl (Z.of_nat k) 1) in
  let NUM_KM1MERS := shr64 NUM_KMERS 2 in
  let NUM_KP1MERS := shl64 NUM_KMERS 2 in
  (replicate (Z.to_nat NUM_KMERS) (-3),
   replicate (Z.to_nat NUM_KM1MERS) (-3),
   replicate (Z.to_nat NUM_KP1MERS) (-3)).

(** The loop [h[centers[i]] = i; IslandInit(&islands[i], centers[i])]. *)
Fixpoint seed_centers (i : nat) (centers : list Util.kmer) (h : list Z)
  : list Island * list Z :=
  match centers with
  | [] => ([], h)
  | c :: rest =>
      let h := wr h c (Z.of_nat i) in
      let '(isls, h) := seed_centers (S i) rest h in
      (IslandInit c :: isls, h)
  end.

(** State when the round loop starts. *)
Definition seeded (k : nat) (centers : list Util.kmer) : state :=
  let '(h, h_m1, h_p1) := allocated k in
  let '(islands, h) := seed_centers 0 centers h in
  (islands, (h, h_m1, h_p1)).

(** The three arrays at the end of the round loop. *)
Definition run (k : nat) (p q : Z) (centers : list Util.kmer) : store :=
  let threshold := Z.shiftr q 1 in
  (rounds (Z.to_nat threshold) k p (seeded k centers)).2.

(** One section of the output file: the entries of an array of [n]-mers
    above UNASSIGNED. *)
Definition section (n : nat) (a : list Z) : list (list ascii * Z) :=
  omap (fun i => let x := Z.of_nat i in
                 if rd a x >? -3 then Some (Util.decode x n, rd a x) else None)
       (seq 0 (length a)).

(** The three sections written to the output file, under the headings
    [k-mers], [(k-1)-mers] and [(k+1)-mers]. *)
Definition output (k : nat) (st : store)
  : list (list ascii * Z) * list (list ascii * Z) * list (list ascii * Z) :=
  let '(h, h_m1, h_p1) := st in
  (section k h, section (k - 1) h_m1, section (k + 1) h_p1).

(** [main] on a centers file with the content [fin]; the runs without
    defined behaviour are those of the driver with one array. *)
Definition main (ind : Reader.indeterminate) (argc : Z) (k : nat) (p q : Z)
    (fin : list ascii) : outcome store :=
  if negb (argc =? 5)
  then Aborted "usage: partitionByLayersCheckByCentersWithP1M1.out k p q centers_file"
  else if (15 <? k)%nat then Undefined "1<<(k<<1) overflows int"
  else
    let NUM_KMERS := Z.shiftl 1 (Z.shiftl (Z.of_nat k) 1) in
    let '(centers, NUM_CENTERS) := Reader.readCentersFromFile ind fin k in
    if 2 ^ 31 <=? NUM_CENTERS
    then Undefined "the loop counter of readCentersFromFile overflows int"
    else if forallb (fun c => (0 <=? c) && (c <? NUM_KMERS)) centers
    then Completed (run k p q centers)
    else Undefined "h[centers[i]] is outside h".

End P1M1Driver.

(** ** The oracle on strings ([editDist3]) *)

Module UtilStr.

(** [s[i]] *)
Definition char_at (s : list ascii) (i : nat) : ascii := nth i s zero.

(** One cell of the single-row dynamic program. *)
Definition dp_cell (diag up left : Z) (c1 c2 : ascii) : Z :=
  let cur := diag + (if Ascii.eqb c1 c2 then 0 else 1) in
  let tmp := up + 1 in
  let cur := if cur >? tmp then tmp else cur in
  let tmp := left + 1 in
  if cur >? tmp then tmp else cur.

(** Inner loop of [editDist3]: [n] cells starting at column [j]. *)
Fixpoint editDist3_inner (n j : nat) (c1 : ascii) (s2 : list ascii) (diag : Z)
    (row : list Z) : list Z :=
  match n with
  | O => row
  | S n' =>
      let cur := dp_cell diag (row !!! j) (row !!! (j - 1)%nat) c1
                         (char_at s2 (j - 1)) in
      editDist3_inner n' (S j) c1 s2 (row !!! j) (<[j := cur]> row)
  end.

(** Outer loop of [editDist3]: [n] rows starting at row [i]. *)
Fixpoint editDist3_outer (n i : nat) (s1 s2 : list ascii) (l2 : nat) (max_d : Z)
    (diag_index : nat) (row : list Z) : Z :=
  match n with
  | O => row !!! diag_index
  | S n' =>
      let diag_index := S diag_index in
      let diag := row !!! 0%nat in
      let row := <[0%nat := Z.of_nat i]> row in
      let row := editDist3_inner l2 1 (char_at s1 (i - 1)) s2 diag row in
      if (max_d >=? 0) && (row !!! diag_index >=? max_d) then row !!! diag_index
      else editDist3_outer n' (S i) s1 s2 l2 max_d diag_index row
  end.

(** [editDist3] once [l1 <= l2] holds. *)
Definition editDist3_body (s1 : list ascii) (l1 : nat) (s2 : list ascii) (l2 : nat)
    (max_d : Z) : Z :=
  let diag_index := (l2 - l1)%nat in
  if (max_d >=? 0) && (Z.of_nat diag_index >=? max_d) then Z.of_nat diag_index
  else
    let row := map Z.of_nat (seq 0 (l2 + 1)) in
    editDist3_outer l1 1 s1 s2 l2 max_d diag_index row.

Definition editDist3 (s1 : list ascii) (l1 : nat) (s2 : list ascii) (l2 : nat)
    (max_d : Z) : Z :=
  if (l2 <? l1)%nat then editDist3_body s2 l2 s1 l1 max_d
  else editDist3_body s1 l1 s2 l2 max_d.

End UtilStr.

(** ** The bit array (VisitedArray.cpp) *)

Module VisitedArray.

(** The object: [aptrs] holds the [num_subs] sub-arrays, each of
    [sub_size] bytes.  The header declaring the fields is not part of the
    sources; they are taken wide enough for the values stored. *)
Record t : Type := {
  sub_size : Z;
  num_subs : Z;
  aptrs : list (list Z);
  size : Z
}.

(** [VisitedArray(s, ss)]: sub-arrays of [2^ss] bytes, all zero. *)
Definition make (s : Z) (ss : Z) : t :=
  let sub_size := shl64 1 ss in
  let num_subs := s / 8 / sub_size in
  let num_subs :=
    if negb ((s / 8) mod sub_size =? 0) then num_subs + 1 else num_subs in
  {| sub_size := sub_size;
     num_subs := num_subs;
     aptrs := replicate (Z.to_nat num_subs) (replicate (Z.to_nat sub_size) 0);
     size := s |}.

(** [VisitedArray(s)]: the default [sub_size] is [2^20] bytes. *)
Definition make_default (s : Z) : t := make s 20.

(** [aptrs[bytePos/sub_size][bytePos%sub_size]], when inside the
    allocation. *)
Definition byte_at (a : t) (bytePos : Z) : option Z :=
  match aptrs a !! Z.to_nat (bytePos / sub_size a) with
  | Some sub => sub !! Z.to_nat (bytePos mod sub_size a)
  | None => None
  end.

(** [unsigned int temp; memcpy(&temp, &byte, 1)]: the lowest-addressed
    byte of [temp], its least significant one on a little-endian machine,
    is replaced; the other three keep what the uninitialised [temp] held,
    here [junk]. *)
Definition load_byte (junk byte : Z) : Z :=
  Z.lor (Z.shiftl (Z.shiftr junk 8) 8) byte.

(** [memcpy(&byte, &temp, 1)]: the same byte of [temp]. *)
Definition store_byte (temp : Z) : Z := Z.land temp 255.

(** [operator[]]; [None] stands for a read outside the allocation. *)
Definition get (a : t) (junk : Z) (sub : Z) : option bool :=
  let offset := sub mod 8 in
  let bytePos := sub / 8 in
  match byte_at a bytePos with
  | None => None
  | Some byte =>
      let temp := load_byte junk byte in
      let temp := Z.land temp (Z.shiftl 1 offset) in
      Some (temp =? Z.shiftl 1 offset)
  end.

(** [setVisit]; [None] stands for an access outside the allocation. *)
Definition setVisit (a : t) (junk : Z) (sub : Z) : option t :=
  let offset := sub mod 8 in
  let bytePos := sub / 8 in
  match byte_at a bytePos with
  | None => None
  | Some byte =>
      let temp := load_byte junk byte in
      let temp := Z.lor temp (Z.shiftl 1 offset) in
      let i := Z.to_nat (bytePos / sub_size a) in
      let j := Z.to_nat (bytePos mod sub_size a) in
      Some {| sub_size := sub_size a;
              num_subs := num_subs a;
              aptrs := <[i := <[j := store_byte temp]> (aptrs a !!! i)]> (aptrs a);
              size := size a |}
  end.

End VisitedArray.

(** ** Vocabulary of the properties *)

(** Entry [(i, j)] of the full edit-distance table: the distance between the
    strings of the [i] low fields of [s1] and the [j] low fields of [s2]. *)
Definition dp_entry (s1 s2 : Z) (i j : nat) : Z :=
  Z.of_nat (lev (syms s1 i) (syms s2 j)).

(** A [(k+1) x (k+1)] table. *)
Definition table_shape (k : nat) (t : list (list Z)) : Prop :=
  length t = S k /\ forall i, (i <= k)%nat -> length (t !!! i) = S k.

(** Levenshtein distance between two packed k-mers, read as strings. *)
Definition kmer_dist (k : nat) (x y : Z) : Z :=
  Z.of_nat (lev (Util.decode x k) (Util.decode y k)).

(** The table is filled up to row [i], and column 0 is filled throughout. *)
Definition rows_filled (s1 s2 : Z) (k i : nat) (t : list (list Z)) : Prop :=
  table_shape k t /\
  (forall i' j', (i' <= i)%nat -> (j' <= k)%nat ->
                 NoRandPairwise.tget t i' j' = dp_entry s1 s2 i' j') /\
  (forall i', (i' <= k)%nat -> NoRandPairwise.tget t i' 0 = dp_entry s1 s2 i' 0).

(** State of the greedy loop once the candidates [1 .. m] are processed:
    [lastFound] is an index of [MIS], the members are among [0 .. m], any
    two distinct members are more than [d] apart, and every k-mer up to [m]
    is within [d] of a member. *)
Definition greedy_inv (k : nat) (d m : Z) (st : list Z * Z) : Prop :=
  0 <= st.2 < NoRandPairwise.size st.1 /\
  NoRandPairwise.size st.1 <= m + 1 /\
  (forall y, In y st.1 -> 0 <= y <= m) /\
  (forall x y, In x st.1 -> In y st.1 -> x <> y -> d < kmer_dist k x y) /\
  (forall x, 0 <= x <= m -> exists y, In y st.1 /\ kmer_dist k x y <= d).

(** Vertices of the graph the drivers search: k-mers, and (k-1)-mers
    carrying the tag [luMSB]. *)
Definition is_kmer (k : nat) (x : Z) : Prop := 0 <= x < 4 ^ Z.of_nat k.
Definition is_km1mer (k : nat) (v : Z) : Prop :=
  exists y, 0 <= y < 4 ^ Z.of_nat (k - 1) /\ v = Z.lor y luMSB.
Definition vertex (k : nat) (v : Z) : Prop := is_kmer k v \/ is_km1mer k v.

(** The symbol string of a vertex. *)
Definition vstr (k : nat) (v : Z) : list Z :=
  if v <? luMSB then syms v k else syms v (k - 1).

(** The vertices the loops of [getNextLayer] and [conflictWithNeighbors]
    generate from [s], in loop order. *)
Definition neighbors (k : nat) (s : Z) : list Z :=
  if s <? luMSB then
    map (fun x => Z.lor x luMSB) (Layers.deletions s k) ++ Layers.substitutions s k
  else Layers.insertions s k.

(** A vertex is marked once frontier expansion has reached it: a k-mer by
    a label other than UNASSIGNED, a (k-1)-mer by its visited flag. *)
Definition marked (h : list Z) (visited : list bool) (v : Z) : Prop :=
  if v <? luMSB then rd h v <> -3 else rdb visited (Z.lxor v luMSB) = true.

(** The arrays have the sizes [main] allocates. *)
Definition store_sized (k : nat) (h : list Z) (visited : list bool) : Prop :=
  Z.of_nat (length h) = 4 ^ Z.of_nat k /\
  (4 ^ Z.of_nat (k - 1) <= Z.of_nat (length visited) \/ k = 0%nat).

(** From [(h, vis)] to [(h', vis')] marks were only added: a label changed
    goes from UNASSIGNED to BFS_VISITED, a flag changed goes from unset to set. *)
Definition marks_grow (h : list Z) (vis : list bool) (h' : list Z) (vis' : list bool)
  : Prop :=
  length h' = length h /\
  length vis' = length vis /\
  (forall x, 0 <= x -> rd h' x = rd h x \/ (rd h x = -3 /\ rd h' x = -2)) /\
  (forall y, 0 <= y -> rdb vis' y = rdb vis y \/ (rdb vis y = false /\ rdb vis' y = true)).

(** What one call of [getNextLayer] has done so far, relative to the arrays
    [h], [vis] it started from: marks were only added, and the new layer
    holds exactly the vertices it marked. *)
Definition expansion_inv (k : nat) (h : list Z) (vis : list bool)
    (st : Layers.expansion) : Prop :=
  marks_grow h vis (Layers.labels st) (Layers.visited st) /\
  (forall x, is_kmer k x ->
             (In x (Layers.new_layer st) <->
              rd h x = -3 /\ rd (Layers.labels st) x = -2)) /\
  (forall y, 0 <= y < 4 ^ Z.of_nat (k - 1) ->
             (In (Z.lor y luMSB) (Layers.new_layer st) <->
              rdb vis y = false /\ rdb (Layers.visited st) y = true)) /\
  (forall v, In v (Layers.new_layer st) -> vertex k v).

(** One step of the label state machine
    UNASSIGNED -> BFS_VISITED -> {GRAY | center index}. *)
Definition label_step (a b : Z) : Prop :=
  (a = -3 /\ b = -2) \/ (a = -2 /\ (b = -1 \/ 0 <= b)).

(** The round loop as the sequence of its phases: for each radius and each
    island, the call of [getNextLayer], then the loop over the new layer. *)
Inductive phase : Type :=
| Expand (i : nat)
| Commit (i : nat).

Definition do_phase (k : nat) (p : Z) (st : CliqueDriver.state) (ph : phase)
  : CliqueDriver.state :=
  match ph with
  | Expand i => CliqueDriver.expand_island k st i
  | Commit i => CliqueDriver.commit_island k p st i
  end.

Definition schedule (islands rounds : nat) : list phase :=
  concat (replicate rounds (flat_map (fun i => [Expand i; Commit i]) (seq 0 islands))).

(** Well-formed arrays and frontiers: the arrays have their allocated
    sizes, no label is below UNASSIGNED, and every frontier holds vertices
    whose k-mers are no longer UNASSIGNED. *)
Definition frontier_ok (k : nat) (h : list Z) (layer : list Z) : Prop :=
  Forall (fun v => vertex k v /\ (v < luMSB -> rd h v <> -3)) layer.

Definition store_ok (k : nat) (h : list Z) (vis : list bool) : Prop :=
  store_sized k h vis /\ forall x, 0 <= x -> -3 <= rd h x.

Definition driver_wf (k : nat) (st : CliqueDriver.state) : Prop :=
  store_ok k st.1.2 st.2 /\
  Forall (fun isl => frontier_ok k st.1.2 (CliqueDriver.bfs_layer isl)) st.1.1.

(** Well-formed input: every clique member is a k-mer or a tagged (k-1)-mer. *)
Definition cliques_ok (k : nat) (cliques : list (list Util.kmer)) : Prop :=
  Forall (Forall (vertex k)) cliques.

(** From [h] to [h'] the commit loop of island [i] has run: a label changed
    was BFS_VISITED and is now GRAY or [i]. *)
Definition commits (i : Z) (h h' : list Z) : Prop :=
  length h' = length h /\
  forall x, 0 <= x ->
            rd h' x = rd h x \/ (rd h x = -2 /\ (rd h' x = -1 \/ rd h' x = i)).

(** ** Single edits on strings *)

Section Edits.
Context {A : Type} `{EqDecision A}.

Inductive del1 : list A -> list A -> Prop :=
| del1_at u a w : del1 (u ++ a :: w) (u ++ w).

Inductive ins1 : list A -> list A -> Prop :=
| ins1_at u b w : ins1 (u ++ w) (u ++ b :: w).

Inductive sub1 : list A -> list A -> Prop :=
| sub1_at u a b w : sub1 (u ++ a :: w) (u ++ b :: w).

(** One insertion, deletion or substitution. *)
Definition edit1 (s t : list A) : Prop := del1 s t \/ ins1 s t \/ sub1 s t.

(** [n] steps of a relation. *)
Inductive steps (R : list A -> list A -> Prop) : nat -> list A -> list A -> Prop :=
| steps_0 s : steps R 0 s s
| steps_S n s u t : R s u -> steps R n u t -> steps R (S n) s t.

(** The edits the drivers make: on a string of length [k] a substitution or
    a deletion, on a string of length [k - 1] an insertion. *)
Definition kstep (k : nat) (s t : list A) : Prop :=
  (length s = k /\ (sub1 s t \/ del1 s t)) \/
  (length s = (k - 1)%nat /\ (1 <= k)%nat /\ ins1 s t).

(** Alignments: columns pairing a symbol of the source with one of the
    target, or deleting a source symbol, or inserting a target symbol. *)
Inductive column : Type :=
| Pair (a b : A)
| Del (a : A)
| Ins (b : A).

Definition col_src (c : column) : list A :=
  match c with Pair a _ => [a] | Del a => [a] | Ins _ => [] end.
Definition col_dst (c : column) : list A :=
  match c with Pair _ b => [b] | Del _ => [] | Ins b => [b] end.
Definition col_cost (c : column) : nat :=
  match c with Pair a b => neq_cost a b | Del _ => 1 | Ins _ => 1 end.
Definition col_del (c : column) : nat :=
  match c with Del _ => 1 | _ => 0 end.
Definition col_ins (c : column) : nat :=
  match c with Ins _ => 1 | _ => 0 end.

Definition al_src (al : list column) : list A := flat_map col_src al.
Definition al_dst (al : list column) : list A := flat_map col_dst al.
Definition al_sum (f : column -> nat) (al : list column) : nat :=
  fold_right (fun c n => (f c + n)%nat) 0%nat al.

End Edits.

(** ** Island radius *)

(** Levenshtein distance between the strings of two vertices. *)
Definition vdist (k : nat) (u v : Z) : Z := Z.of_nat (lev (vstr k u) (vstr k v)).

(** [v] is within distance [r] of some member of the clique [c]. *)
Definition near_clique (k : nat) (c : list Util.kmer) (r : nat) (v : Z) : Prop :=
  exists m, In m c /\ (lev (vstr k m) (vstr k v) <= r)%nat.

(** With [rho i] the number of expansions island [i] has made: its layer,
    and every k-mer labelled [i], lie within [rho i] of clique [i]. *)
Definition radius_inv (k : nat) (cliques : list (list Util.kmer)) (rho : nat -> nat)
    (st : CliqueDriver.state) : Prop :=
  (forall i isl c, st.1.1 !! i = Some isl -> cliques !! i = Some c ->
     Forall (near_clique k c (rho i)) (CliqueDriver.bfs_layer isl)) /\
  (forall x, is_kmer k x -> 0 <= rd st.1.2 x ->
     exists i c, rd st.1.2 x = Z.of_nat i /\ cliques !! i = Some c /\
                 near_clique k c (rho i) x).

Definition bump (i : nat) (rho : nat -> nat) : nat -> nat :=
  fun j => if decide (j = i) then S (rho j) else rho j.

Definition radius_step (rho : nat -> nat) (ph : phase) : nat -> nat :=
  match ph with
  | Expand i => bump i rho
  | Commit _ => rho
  end.

Definition radius_after (phs : list phase) (rho : nat -> nat) : nat -> nat :=
  fold_left radius_step phs rho.

(** ** The probe of [conflictWithNeighbors] *)

(** [n] steps along generated neighbours. *)
Inductive walk (k : nat) : nat -> Z -> Z -> Prop :=
| walk_0 u : walk k 0 u u
| walk_S n u v w : In v (neighbors k u) -> walk k n v w -> walk k (S n) u w.

(** The test the probe makes on a generated k-mer [x]: it does not carry
    the label of an island other than [c]. *)
Definition unclaimed (c : Z) (h : list Z) (x : Z) : Prop :=
  ~ (0 <= rd h x /\ rd h x <> c).

(** During one pass over the current layer, started with the hash set
    [seen0]: the set has grown by the vertices of the next layer. *)
Definition probe_inv (seen0 : gset Z) (st : gset Z * list Z) : Prop :=
  seen0 ⊆ st.1 /\
  (forall v, v ∈ st.1 -> v ∈ seen0 \/ In v st.2) /\
  (forall v, In v st.2 -> v ∈ st.1).

(** [x] is a member of clique [i]. *)
Definition seed_of (cliques : list (list Util.kmer)) (i : nat) (x : Z) : Prop :=
  exists c, cliques !! i = Some c /\ In x c.

(** Two k-mers with different center labels are at least [p] apart, unless
    both are pre-labelled clique members. *)
Definition separated (k : nat) (p : Z) (cliques : list (list Util.kmer)) (h : list Z)
  : Prop :=
  forall x y, is_kmer k x -> is_kmer k y ->
    0 <= rd h x -> 0 <= rd h y -> rd h x <> rd h y ->
    p <= kmer_dist k x y \/
    exists i j, rd h x = Z.of_nat i /\ rd h y = Z.of_nat j /\
                seed_of cliques i x /\ seed_of cliques j y.

(** ** The two conflict strategies side by side *)

(** Labels [hC] of the neighbour-list run against labels [hB] of the
    probe run: equal, or GRAY where the probe run has a center index. *)
Definition stricter (hC hB : list Z) : Prop :=
  length hC = length hB /\
  forall x, 0 <= x -> rd hC x = rd hB x \/ (rd hC x = -1 /\ 0 <= rd hB x).

(** Two calls of [getNextLayer] in step. *)
Definition exp_sim (eC eB : Layers.expansion) : Prop :=
  Layers.new_layer eC = Layers.new_layer eB /\
  Layers.visited eC = Layers.visited eB /\
  stricter (Layers.labels eC) (Layers.labels eB).

(** The neighbour list of every island holds every other center within
    [threshold] of its own. *)
Definition neighbor_lists_ok (k : nat) (threshold : Z)
    (islands : list CenterDriver.Island) : Prop :=
  forall i j ci cj, islands !! i = Some ci -> islands !! j = Some cj -> i <> j ->
    kmer_dist k (CenterDriver.center ci) (CenterDriver.center cj) <= threshold ->
    In j (CenterDriver.neighbor_indices ci).

(** Islands [i] and [j] list each other. *)
Definition linked (islands : list CenterDriver.Island) (i j : nat) : Prop :=
  exists ci cj, islands !! i = Some ci /\ islands !! j = Some cj /\
                In j (CenterDriver.neighbor_indices ci) /\
                In i (CenterDriver.neighbor_indices cj).

(** Islands [i] and [j] hold the centers [a] and [b]. *)
Definition holds (islands : list CenterDriver.Island) (i j : nat) (a b : Util.kmer)
  : Prop :=
  exists ci cj, islands !! i = Some ci /\ islands !! j = Some cj /\
                CenterDriver.center ci = a /\ CenterDriver.center cj = b.

(** From [islands] to [islands']: only neighbour indices were added or
    reordered. *)
Definition lists_grow (islands islands' : list CenterDriver.Island) : Prop :=
  length islands' = length islands /\
  forall i isl, islands !! i = Some isl ->
    exists isl', islands' !! i = Some isl' /\
                 CenterDriver.center isl' = CenterDriver.center isl /\
                 CenterDriver.bfs_layer isl' = CenterDriver.bfs_layer isl /\
                 forall m, In m (CenterDriver.neighbor_indices isl) ->
                           In m (CenterDriver.neighbor_indices isl').

(** Every center label sits within [R] of its center. *)
Definition labels_near (k : nat) (centers : list Util.kmer) (R : nat) (h : list Z) : Prop :=
  forall x, is_kmer k x -> 0 <= rd h x ->
    exists j c, rd h x = Z.of_nat j /\ centers !! j = Some c /\
                (lev (vstr k c) (vstr k x) <= R)%nat.

(** The states of the two drivers in step, [rho i] expansions of island
    [i] made. *)
Definition sim (k : nat) (p q : Z) (centers : list Util.kmer) (rho : nat -> nat)
    (stC : CenterDriver.state) (stB : CliqueDriver.state) : Prop :=
  stC.2 = stB.2 /\
  stricter stC.1.2 stB.1.2 /\
  map CenterDriver.bfs_layer stC.1.1 = map CliqueDriver.bfs_layer stB.1.1 /\
  map CenterDriver.center stC.1.1 = centers /\
  neighbor_lists_ok k (p + q) stC.1.1 /\
  driver_wf k stB /\
  radius_inv k (map (fun c => [c]) centers) rho stB.

(** ** Further vocabulary *)

(** The layer under construction holds each vertex once, and only marked
    vertices. *)
Definition layer_fresh (st : Layers.expansion) : Prop :=
  NoDup (Layers.new_layer st) /\
  forall v, In v (Layers.new_layer st) ->
            0 <= v /\ marked (Layers.labels st) (Layers.visited st) v.


(** No k-mer is left BFS_VISITED. *)
Definition settled (k : nat) (h : list Z) : Prop :=
  forall x, is_kmer k x -> rd h x <> -2.

(** ** Coverage of the frontier expansion *)

(** All the neighbours the generators produce from [u] are marked. *)
Definition closed (k : nat) (st : CliqueDriver.state) (u : Z) : Prop :=
  forall v, In v (neighbors k u) -> marked st.1.2 st.2 v.

(** Between two rounds: a marked vertex has been expanded from, or waits
    in some island's frontier. *)
Definition frontier_closed (k : nat) (st : CliqueDriver.state) : Prop :=
  forall u, vertex k u -> marked st.1.2 st.2 u ->
    closed k st u \/
    exists i isl, st.1.1 !! i = Some isl /\ In u (CliqueDriver.bfs_layer isl).

(** Inside a round, with [S] the vertices marked when it began and [L] the
    islands still to take their turn. *)
Definition round_inv (k : nat) (S : Z -> Prop) (L : list nat) (st : CliqueDriver.state)
  : Prop :=
  (forall u, vertex k u -> S u ->
     closed k st u \/
     exists i isl, In i L /\ st.1.1 !! i = Some isl /\ In u (CliqueDriver.bfs_layer isl)) /\
  (forall u, vertex k u -> marked st.1.2 st.2 u ->
     S u \/
     exists i isl, ~ In i L /\ st.1.1 !! i = Some isl /\
                   In u (CliqueDriver.bfs_layer isl)).

(** Every vertex a walk of at most [r] steps leads to from a clique member
    is marked. *)
Definition covered (k : nat) (cliques : list (list Util.kmer)) (r : nat)
    (st : CliqueDriver.state) : Prop :=
  forall c m x n, In c cliques -> In m c -> walk k n m x -> (n <= r)%nat ->
                  marked st.1.2 st.2 x.

(** Every marked k-mer is within the radius of some island. *)
Definition marked_near (k : nat) (cliques : list (list Util.kmer)) (rho : nat -> nat)
    (st : CliqueDriver.state) : Prop :=
  forall x, is_kmer k x -> rd st.1.2 x <> -3 ->
    exists i c, cliques !! i = Some c /\ near_clique k c (rho i) x.


(** ** Well-formed centers files *)

Definition is_dna (r : list ascii) : Prop :=
  Forall (fun c => In c ["A"; "C"; "G"; "T"]%char) r.

(** The number a run of decimal digits stands for. *)
Definition decimal (hdr : list ascii) : Z :=
  fold_left (fun acc c => acc * 10 + Stdio.digit_val c) hdr 0.

(** A centers file: the count on a line of its own, then one record per
    line. *)
Definition centers_file (hdr : list ascii) (records : list (list ascii)) : list ascii :=
  hdr ++ Stdio.newline :: concat (map (fun r => r ++ [Stdio.newline]) records).

(** ** The greedy constructor as first fit *)

Definition increasing (l : list Z) : Prop :=
  forall i j a b, l !! i = Some a -> l !! j = Some b -> (i < j)%nat -> a < b.

(** Once the candidates [1 .. m] are processed: [MIS] is increasing, and
    holds exactly the values up to [m] that are more than [d] away from
    every smaller member. *)
Definition first_fit (k : nat) (d m : Z) (st : list Z * Z) : Prop :=
  0 <= st.2 < NoRandPairwise.size st.1 /\
  NoRandPairwise.size st.1 <= m + 1 /\
  increasing st.1 /\
  forall x, In x st.1 <->
            0 <= x <= m /\ forall y, In y st.1 -> y < x -> d < kmer_dist k x y.

(** ** Center lists *)

(** The field [last_idx] grows strictly along the first [len] entries. *)
Definition idx_increasing (list : list ListLSH.Center) (len : Z) : Prop :=
  forall i j, 0 <= i < j -> j < len ->
    ListLSH.last_idx (ListLSH.entry list i) < ListLSH.last_idx (ListLSH.entry list j).

(** The number of rolls [distributeHash] gives to entry [j] of a list
    still holding distances: one for the single entry of a center, and
    else the product of all the distances divided by the distance of the
    entry. *)
Definition weight (list : list ListLSH.Center) (size : Z) (j : Z) : Z :=
  if size =? 1 then 1
  else Z.quot (ListLSH.product list size) (ListLSH.last_idx (ListLSH.entry list j)).

(** The weights of the entries before entry [j], summed. *)
Definition cum (list : list ListLSH.Center) (size : Z) (j : nat) : Z :=
  fold_left (fun a i => a + weight list size (Z.of_nat i)) (seq 0 j) 0.

(** ** Signatures of shared shots *)

(** The two lists hold a common center. *)
Definition common_center (hs ht : ListLSH.HashList) : Prop :=
  exists i j, 0 <= i < ListLSH.len hs /\ 0 <= j < ListLSH.len ht /\
    ListLSH.center (ListLSH.entry (ListLSH.centers hs) i)
    = ListLSH.center (ListLSH.entry (ListLSH.centers ht) j).

(** The leading entries of a signature that are not negative. *)
Fixpoint nn_prefix (l : list Z) : list Z :=
  match l with
  | x :: r => if x >=? 0 then x :: nn_prefix r else []
  | [] => []
  end.

(** The indices of the first [num_shots] random shots that share a center
    with [s], in increasing order. *)
Definition hits (s : Z) (h : list ListLSH.HashList) (rand_shots : list Z) (num_shots : Z)
  : list nat :=
  List.filter (fun i => negb (ListLSH.shareCenter s (rand_shots !!! i) h =? 0))
              (seq 0 (Z.to_nat num_shots)).

(** The same along a list of shots numbered from [i] on. *)
Fixpoint hits_from (s : Z) (h : list ListLSH.HashList) (shots : list Z) (i : nat)
  : list nat :=
  match shots with
  | [] => []
  | shot :: rest =>
      if negb (ListLSH.shareCenter s shot h =? 0) then i :: hits_from s h rest (S i)
      else hits_from s h rest (S i)
  end.

(** ** The bit array *)

(** The object is as a constructor leaves it, up to the bits set: the
    sub-arrays are there, each of [sub_size] bytes. *)
Definition va_wf (a : VisitedArray.t) : Prop :=
  1 <= VisitedArray.sub_size a /\ 0 <= VisitedArray.num_subs a /\
  length (VisitedArray.aptrs a) = Z.to_nat (VisitedArray.num_subs a) /\
  Forall (fun sub => length sub = Z.to_nat (VisitedArray.sub_size a) /\
                     Forall (fun b => 0 <= b < 256) sub)
         (VisitedArray.aptrs a).

(** The byte of element [sub] lies inside the allocation. *)
Definition in_alloc (a : VisitedArray.t) (sub : Z) : Prop :=
  0 <= sub /\ sub / 8 < VisitedArray.sub_size a * VisitedArray.num_subs a.

(** ** The oracle on strings *)

(** Entry [(i, j)] of the table [editDist3] fills: the distance between
    the first [i] characters of [s1] and the first [j] of [s2], read
    backwards. *)
Definition dp3 (s1 s2 : list ascii) (i j : nat) : Z :=
  Z.of_nat (lev (rev (firstn i s1)) (rev (firstn j s2))).

(** ** The driver with three arrays *)

Definition is_kp1mer (k : nat) (v : Z) : Prop :=
  exists z, 0 <= z < 4 ^ Z.of_nat (k + 1) /\ v = Z.lor z luSMSB.

(** Its vertices: k-mers, (k-1)-mers carrying the tag [luMSB] and
    (k+1)-mers carrying the tag [luSMSB]. *)
Definition vertex3 (k : nat) (v : Z) : Prop :=
  is_kmer k v \/ is_km1mer k v \/ is_kp1mer k v.

(** The symbol string of a vertex. *)
Definition vstr3 (k : nat) (v : Z) : list Z :=
  if v >=? luMSB then syms v (k - 1)
  else if v >=? luSMSB then syms v (k + 1)
  else syms v k.

(** Levenshtein distance between the strings of two vertices. *)
Definition vdist3 (k : nat) (u v : Z) : Z := Z.of_nat (lev (vstr3 k u) (vstr3 k v)).

(** The label of a vertex, read in the array of its length. *)
Definition label3 (st : P1M1Driver.store) (v : Z) : Z :=
  if v >=? luMSB then rd st.1.2 (Z.lxor v luMSB)
  else if v >=? luSMSB then rd st.2 (Z.lxor v luSMSB)
  else rd st.1.1 v.

(** The store with the label of the vertex [v] set to [a]. *)
Definition set3 (st : P1M1Driver.store) (v a : Z) : P1M1Driver.store :=
  if v >=? luMSB then (st.1.1, wr st.1.2 (Z.lxor v luMSB) a, st.2)
  else if v >=? luSMSB then (st.1.1, st.1.2, wr st.2 (Z.lxor v luSMSB) a)
  else (wr st.1.1 v a, st.1.2, st.2).

(** The arrays have the sizes [main] allocates. *)
Definition sized3 (k : nat) (st : P1M1Driver.store) : Prop :=
  Z.of_nat (length st.1.1) = 4 ^ Z.of_nat k /\
  Z.of_nat (length st.1.2) = 4 ^ Z.of_nat (k - 1) /\
  Z.of_nat (length st.2) = 4 ^ Z.of_nat (k + 1).

(** The vertices the loops of [getNextLayer] generate from [s], in loop
    order. *)
Definition neighbors3 (k : nat) (s : Z) : list Z :=
  if s >=? luMSB then Layers.insertions s k
  else if s <? luSMSB then
    map (fun x => Z.lor x luSMSB) (Layers.insertions s (S k)) ++
    map (fun x => Z.lor x luMSB) (Layers.deletions s k) ++
    Layers.substitutions s k
  else [].

(** [n] steps along generated neighbours. *)
Inductive walk3 (k : nat) : nat -> Z -> Z -> Prop :=
| walk3_0 u : walk3 k 0 u u
| walk3_S n u v w : In v (neighbors3 k u) -> walk3 k n v w -> walk3 k (S n) u w.

Definition exp_store (e : P1M1Driver.expansion) : P1M1Driver.store :=
  (P1M1Driver.labels e, P1M1Driver.labels_m1 e, P1M1Driver.labels_p1 e).

(** What one call of [getNextLayer] has done so far, from the arrays [st0]
    and with [done] the vertices generated: the new layer holds, once
    each, the vertices that went from UNASSIGNED to BFS_VISITED, all of
    them generated; no other label changed; no generated vertex is still
    UNASSIGNED. *)
Definition exp_inv3 (k : nat) (st0 : P1M1Driver.store) (e : P1M1Driver.expansion)
    (done : list Z) : Prop :=
  sized3 k (exp_store e) /\
  (forall v, vertex3 k v ->
     (In v (P1M1Driver.new_layer e) /\ label3 st0 v = -3 /\ label3 (exp_store e) v = -2) \/
     (~ In v (P1M1Driver.new_layer e) /\ label3 (exp_store e) v = label3 st0 v)) /\
  NoDup (P1M1Driver.new_layer e) /\
  (forall v, In v (P1M1Driver.new_layer e) -> vertex3 k v /\ In v done) /\
  (forall v, In v done -> vertex3 k v /\ label3 (exp_store e) v <> -3).

(** What the body of a loop of [getNextLayer] does with the generated
    vertex [v]. *)
Definition admits (k : nat) (e e' : P1M1Driver.expansion) (v : Z) : Prop :=
  if label3 (exp_store e) v =? -3 then
    P1M1Driver.new_layer e' = P1M1Driver.new_layer e ++ [v] /\
    sized3 k (exp_store e') /\
    label3 (exp_store e') v = -2 /\
    forall w, vertex3 k w -> w <> v -> label3 (exp_store e') w = label3 (exp_store e) w
  else e' = e.

(** Between two rounds of the driver, [R] rounds made. *)
Record round_inv3 (k : nat) (centers : list Util.kmer) (R : nat)
    (st : P1M1Driver.state) : Prop := {
  ri_sized : sized3 k st.2;
  ri_islands : length st.1 = length centers;
  ri_layers : forall i isl c, st.1 !! i = Some isl -> centers !! i = Some c ->
      Forall (fun u => vertex3 k u /\ label3 st.2 u <> -3 /\
                       (lev (syms c k) (vstr3 k u) <= R)%nat)
             (P1M1Driver.bfs_layer isl);
  ri_labels : forall v, vertex3 k v ->
      label3 st.2 v = -3 \/ label3 st.2 v = -1 \/
      exists i c, label3 st.2 v = Z.of_nat i /\ centers !! i = Some c /\
                  (lev (syms c k) (vstr3 k v) <= R)%nat;
  ri_near : forall v, vertex3 k v -> label3 st.2 v <> -3 ->
      exists c, In c centers /\ (lev (syms c k) (vstr3 k v) <= R)%nat;
  ri_closed : forall u, vertex3 k u -> label3 st.2 u <> -3 ->
      (forall v, In v (neighbors3 k u) -> label3 st.2 v <> -3) \/
      exists i isl, st.1 !! i = Some isl /\ In u (P1M1Driver.bfs_layer isl);
  ri_covered : forall c n x, In c centers -> (n <= R)%nat -> walk3 k n c x ->
      label3 st.2 x <> -3;
  ri_centers : forall c, In c centers ->
      exists j, label3 st.2 c = Z.of_nat j /\ centers !! j = Some c
}.

(** Inside round [R + 1], the islands below [n] having taken their turn;
    [S] holds of the vertices labelled when the round began. *)
Record turn_inv3 (k : nat) (centers : list Util.kmer) (R : nat) (S : Z -> Prop) (n : nat)
    (st : P1M1Driver.state) : Prop := {
  ti_sized : sized3 k st.2;
  ti_islands : length st.1 = length centers;
  ti_layers : forall i isl c, st.1 !! i = Some isl -> centers !! i = Some c ->
      Forall (fun u => vertex3 k u /\ label3 st.2 u <> -3 /\
                       (lev (syms c k) (vstr3 k u) <= if (i <? n)%nat then R + 1 else R)%nat)
             (P1M1Driver.bfs_layer isl);
  ti_labels : forall v, vertex3 k v ->
      label3 st.2 v = -3 \/ label3 st.2 v = -1 \/
      exists i c, label3 st.2 v = Z.of_nat i /\ centers !! i = Some c /\
                  (lev (syms c k) (vstr3 k v) <= R + 1)%nat;
  ti_near : forall v, vertex3 k v -> label3 st.2 v <> -3 ->
      exists c, In c centers /\ (lev (syms c k) (vstr3 k v) <= R + 1)%nat;
  ti_old : forall u, vertex3 k u -> S u ->
      (forall v, In v (neighbors3 k u) -> label3 st.2 v <> -3) \/
      exists i isl, (n <= i)%nat /\ st.1 !! i = Some isl /\
                    In u (P1M1Driver.bfs_layer isl);
  ti_new : forall u, vertex3 k u -> label3 st.2 u <> -3 ->
      S u \/
      exists i isl, (i < n)%nat /\ st.1 !! i = Some isl /\
                    In u (P1M1Driver.bfs_layer isl);
  ti_kept : forall u, vertex3 k u -> S u -> label3 st.2 u <> -3;
  ti_centers : forall c, In c centers ->
      exists j, label3 st.2 c = Z.of_nat j /\ centers !! j = Some c
}.

(** * Properties *)

(** ** The reference distance *)

Section LevFacts.
Context {A : Type} `{EqDecision A}.
Implicit Types (s t : list A) (a b : A).
Local Open Scope nat_scope.

Lemma lev_nil_l t : lev [] t = length t.
Proof. reflexivity. Qed.

Lemma lev_nil_r s : lev s [] = length s.
Proof. destruct s; reflexivity. Qed.

Lemma lev_cons a b s t :
  lev (a :: s) (b :: t) =
  Nat.min (Nat.min (S (lev s (b :: t))) (S (lev (a :: s) t)))
          (lev s t + neq_cost a b).
Proof. reflexivity. Qed.

Lemma neq_cost_le a b : neq_cost a b <= 1.
Proof. unfold neq_cost. case_decide; lia. Qed.

Lemma neq_cost_sym a b : neq_cost a b = neq_cost b a.
Proof. unfold neq_cost. repeat case_decide; congruence. Qed.

Lemma neq_cost_refl a : neq_cost a a = 0.
Proof. unfold neq_cost. case_decide; congruence. Qed.

Lemma lev_sym s t : lev s t = lev t s.
Proof.
  revert t. induction s as [|a s IHs]; intros t.
  - rewrite lev_nil_l, lev_nil_r. reflexivity.
  - induction t as [|b t IHt].
    + rewrite lev_nil_l, lev_nil_r. reflexivity.
    + rewrite !lev_cons, IHt, (IHs (b :: t)), (IHs t), (neq_cost_sym a b). lia.
Qed.

(** Putting one more symbol in front of either word costs at most one. *)
Lemma lev_cons_l_le a s t : lev (a :: s) t <= S (lev s t).
Proof.
  destruct t as [|b t].
  - rewrite !lev_nil_r. simpl. lia.
  - rewrite lev_cons. lia.
Qed.

Lemma lev_cons_r_le b s t : lev s (b :: t) <= S (lev s t).
Proof. rewrite (lev_sym s (b :: t)), (lev_sym s t). apply lev_cons_l_le. Qed.

(** Taking the first symbol away costs at most one as well. *)
Lemma lev_uncons_r b s t : lev s t <= S (lev s (b :: t)).
Proof.
  revert t b. induction s as [|a s IHs]; intros t b.
  - rewrite !lev_nil_l. simpl. lia.
  - rewrite lev_cons.
    pose proof (lev_cons_l_le a s t).
    pose proof (IHs t b).
    pose proof (neq_cost_le a b). lia.
Qed.

Lemma lev_uncons_l a s t : lev s t <= S (lev (a :: s) t).
Proof. rewrite (lev_sym s t), (lev_sym (a :: s) t). apply lev_uncons_r. Qed.

(** The distance never decreases along a diagonal of the table. *)
Lemma lev_diag_mono a b s t : lev s t <= lev (a :: s) (b :: t).
Proof.
  rewrite lev_cons.
  pose proof (lev_uncons_r b s t).
  pose proof (lev_uncons_l a s t). lia.
Qed.

Lemma lev_length_diff s t : length t - length s <= lev s t.
Proof.
  revert t. induction s as [|a s IHs]; intros t.
  - rewrite lev_nil_l. lia.
  - induction t as [|b t IHt].
    + simpl. lia.
    + rewrite lev_cons.
      pose proof (IHs (b :: t)). pose proof (IHs t).
      cbn [length] in *. lia.
Qed.

Lemma lev_refl s : lev s s = 0.
Proof.
  induction s as [|a s IHs]; [reflexivity|].
  rewrite lev_cons, IHs, neq_cost_refl. lia.
Qed.

Lemma lev_zero s t : lev s t = 0 -> s = t.
Proof.
  revert t. induction s as [|a s IHs]; intros t.
  - rewrite lev_nil_l. destruct t; simpl; [reflexivity | lia].
  - destruct t as [|b t].
    + simpl. lia.
    + rewrite lev_cons. intros H0.
      assert (lev s t + neq_cost a b = 0) as H1 by lia.
      unfold neq_cost in H1. case_decide; [|lia].
      subst b. f_equal. apply IHs. lia.
Qed.

Lemma lev_le_length_sum s t : lev s t <= length s + length t.
Proof.
  revert t. induction s as [|a s IHs]; intros t.
  - rewrite lev_nil_l. lia.
  - pose proof (lev_cons_l_le a s t). pose proof (IHs t). cbn [length]. lia.
Qed.

End LevFacts.

(** The distance is unchanged by a renaming of the symbols that is
    injective on the symbols in use. *)
Lemma lev_map {A B : Type} `{EqDecision A} `{EqDecision B} (f : A -> B) (P : A -> Prop) :
  (forall a b, P a -> P b -> f a = f b -> a = b) ->
  forall s t, Forall P s -> Forall P t -> lev (map f s) (map f t) = lev s t.
Proof.
  intros Hinj. induction s as [|a s IHs]; intros t Hs Ht.
  - simpl. apply length_map.
  - inversion Hs as [|? ? Ha Hs']; subst.
    induction Ht as [|b t Hb Ht IHt].
    + simpl. rewrite length_map. reflexivity.
    + change (map f (a :: s)) with (f a :: map f s) in *.
      change (map f (b :: t)) with (f b :: map f t) in *.
      rewrite !lev_cons, IHt.
      change (f b :: map f t) with (map f (b :: t)).
      rewrite (IHs (b :: t)), (IHs t) by (try constructor; assumption).
      f_equal. f_equal.
      unfold neq_cost. repeat case_decide; try reflexivity.
      * exfalso. naive_solver.
      * exfalso. subst. congruence.
Qed.

(** ** Bit-level facts about packed words *)

Lemma wrap64_small z : 0 <= z < 2 ^ 64 -> wrap64 z = z.
Proof. intros. unfold wrap64. apply Z.mod_small. assumption. Qed.

Lemma wrap64_range z : 0 <= wrap64 z < 2 ^ 64.
Proof. unfold wrap64. apply Z.mod_pos_bound. reflexivity. Qed.

Lemma testbit_wrap64 z i :
  0 <= i -> Z.testbit (wrap64 z) i = (i <? 64) && Z.testbit z i.
Proof.
  intros Hi. unfold wrap64. destruct (Z.ltb_spec i 64).
  - rewrite Z.mod_pow2_bits_low by lia. reflexivity.
  - rewrite Z.mod_pow2_bits_high by lia. reflexivity.
Qed.

Lemma testbit_shl64 x n i :
  0 <= i -> Z.testbit (shl64 x n) i = (i <? 64) && Z.testbit x (i - n).
Proof.
  intros Hi. unfold shl64. rewrite testbit_wrap64 by assumption.
  rewrite Z.shiftl_spec by assumption. reflexivity.
Qed.

Lemma testbit_shr64 x n i :
  0 <= i -> Z.testbit (shr64 x n) i = Z.testbit x (i + n).
Proof. intros Hi. unfold shr64. apply Z.shiftr_spec. assumption. Qed.

Lemma low_mask_ones n : 0 <= n < 64 -> Layers.low_mask n = Z.ones n.
Proof.
  intros Hn. unfold Layers.low_mask, shl64.
  rewrite Z.shiftl_1_l.
  assert (0 < 2 ^ n < 2 ^ 64) by (split; [apply Z.pow_pos_nonneg | apply Z.pow_lt_mono_r]; lia).
  rewrite (wrap64_small (2 ^ n)) by lia.
  rewrite wrap64_small by lia.
  rewrite Z.ones_equiv. lia.
Qed.

Lemma testbit_low_mask n i :
  0 <= n < 64 -> 0 <= i -> Z.testbit (Layers.low_mask n) i = (i <? n).
Proof.
  intros Hn Hi. rewrite low_mask_ones by assumption.
  apply Z.testbit_ones_nonneg; lia.
Qed.

Lemma testbit_small m i : 0 <= m < 4 -> 2 <= i -> Z.testbit m i = false.
Proof.
  intros Hm Hi. rewrite <- (Z.mod_small m (2 ^ 2)) by lia.
  apply Z.mod_pow2_bits_high. lia.
Qed.

Lemma testbit_sym s j i :
  0 <= i -> Z.testbit (sym s j) i = (i <? 2) && Z.testbit s (2 * Z.of_nat j + i).
Proof.
  intros Hi. unfold sym. change 3 with (Z.ones 2).
  rewrite Z.land_spec, Z.shiftr_spec, Z.testbit_ones_nonneg by lia.
  rewrite andb_comm. f_equal. f_equal. lia.
Qed.

Lemma sym_range s j : 0 <= sym s j < 4.
Proof.
  unfold sym. change 3 with (Z.ones 2). rewrite Z.land_ones by lia.
  apply Z.mod_pos_bound. reflexivity.
Qed.

(** Two fields are equal as soon as their two bits are. *)
Lemma sym_eq_bits a i b j :
  (forall n, 0 <= n < 2 ->
             Z.testbit a (2 * Z.of_nat i + n) = Z.testbit b (2 * Z.of_nat j + n)) ->
  sym a i = sym b j.
Proof.
  intros H. apply Z.bits_inj'. intros n Hn.
  rewrite !testbit_sym by assumption.
  destruct (Z.ltb_spec n 2); [|reflexivity].
  simpl. apply H. lia.
Qed.

Lemma sym_value_bits m s j :
  0 <= m < 4 ->
  (forall n, 0 <= n < 2 -> Z.testbit s (2 * Z.of_nat j + n) = Z.testbit m n) ->
  sym s j = m.
Proof.
  intros Hm H. apply Z.bits_inj'. intros n Hn.
  rewrite testbit_sym by assumption.
  destruct (Z.ltb_spec n 2).
  - simpl. apply H. lia.
  - simpl. symmetry. apply testbit_small; lia.
Qed.

Lemma sym_shiftr s m j : sym (Z.shiftr s (2 * Z.of_nat m)) j = sym s (j + m).
Proof.
  apply sym_eq_bits. intros n Hn.
  rewrite Z.shiftr_spec by lia. f_equal. lia.
Qed.

Lemma sym_0 s : sym s 0 = Z.land s 3.
Proof. unfold sym. rewrite Z.shiftr_0_r. reflexivity. Qed.

Lemma length_syms s n : length (syms s n) = n.
Proof. induction n; simpl; congruence. Qed.

Lemma syms_ext x y n :
  (forall j, (j < n)%nat -> sym x j = sym y j) -> syms x n = syms y n.
Proof.
  induction n as [|n IH]; intros H; simpl; [reflexivity|].
  f_equal; [apply H; lia | apply IH; intros; apply H; lia].
Qed.

Lemma syms_app s n m :
  syms s (n + m) = syms (Z.shiftr s (2 * Z.of_nat m)) n ++ syms s m.
Proof.
  induction n as [|n IH]; simpl; [reflexivity|].
  rewrite IH, sym_shiftr. reflexivity.
Qed.

Lemma syms_snoc s n : syms s (S n) = syms (Z.shiftr s 2) n ++ [Z.land s 3].
Proof.
  replace (S n) with (n + 1)%nat by lia.
  rewrite (syms_app s n 1). simpl. rewrite sym_0. reflexivity.
Qed.

Lemma Forall_syms_range s n : Forall (fun z => 0 <= z < 4) (syms s n).
Proof.
  induction n; simpl; constructor; [apply sym_range | assumption].
Qed.

(** A word below [4^n] is determined by its [n] low fields. *)
Lemma syms_inj x y n :
  0 <= x < 4 ^ Z.of_nat n -> 0 <= y < 4 ^ Z.of_nat n ->
  syms x n = syms y n -> x = y.
Proof.
  intros Hx Hy Heq.
  assert (Hsym : forall j, (j < n)%nat -> sym x j = sym y j).
  { clear Hx Hy. induction n as [|n IH]; intros j Hj; [lia|].
    simpl in Heq. injection Heq as H1 H2.
    destruct (decide (j = n)) as [->|]; [assumption|]. apply IH; [assumption|lia]. }
  assert (Hpow : 4 ^ Z.of_nat n = 2 ^ (2 * Z.of_nat n)).
  { rewrite Z.pow_mul_r by lia. reflexivity. }
  apply Z.bits_inj'. intros i Hi.
  destruct (Z.ltb_spec i (2 * Z.of_nat n)) as [Hlt|Hge].
  - pose proof (Hsym (Z.to_nat (i / 2))) as Hs.
    assert (Z.to_nat (i / 2) < n)%nat as Hlt' by (apply Nat2Z.inj_lt; rewrite Z2Nat.id; [Z.div_mod_to_equations; lia | Z.div_mod_to_equations; lia]).
    specialize (Hs Hlt').
    assert (Z.testbit (sym x (Z.to_nat (i / 2))) (i mod 2)
            = Z.testbit (sym y (Z.to_nat (i / 2))) (i mod 2)) as Hb by (rewrite Hs; reflexivity).
    rewrite !testbit_sym in Hb by (Z.div_mod_to_equations; lia).
    assert ((i mod 2 <? 2) = true) as Hlt2 by (apply Z.ltb_lt; Z.div_mod_to_equations; lia).
    rewrite Hlt2 in Hb. simpl in Hb.
    replace (2 * Z.of_nat (Z.to_nat (i / 2)) + i mod 2) with i in Hb
      by (rewrite Z2Nat.id; Z.div_mod_to_equations; lia).
    exact Hb.
  - rewrite <- (Z.mod_small x (2 ^ (2 * Z.of_nat n))) by lia.
    rewrite <- (Z.mod_small y (2 ^ (2 * Z.of_nat n))) by lia.
    rewrite !Z.mod_pow2_bits_high by lia. reflexivity.
Qed.

Lemma testbit_above_pow4 x n i :
  0 <= x < 4 ^ Z.of_nat n -> 2 * Z.of_nat n <= i -> Z.testbit x i = false.
Proof.
  intros Hx Hi.
  assert (Hpow : 4 ^ Z.of_nat n = 2 ^ (2 * Z.of_nat n)).
  { rewrite Z.pow_mul_r by lia. reflexivity. }
  rewrite <- (Z.mod_small x (2 ^ (2 * Z.of_nat n))) by lia.
  apply Z.mod_pow2_bits_high. lia.
Qed.

(** A non-negative word all of whose bits from [2n] on are clear is below [4^n]. *)
Lemma below_pow4_bits x n :
  0 <= x -> (forall i, 2 * Z.of_nat n <= i -> Z.testbit x i = false) ->
  x < 4 ^ Z.of_nat n.
Proof.
  intros Hx H.
  assert (Hpow : 4 ^ Z.of_nat n = 2 ^ (2 * Z.of_nat n)).
  { rewrite Z.pow_mul_r by lia. reflexivity. }
  rewrite Hpow.
  destruct (Z.eq_dec x 0) as [->|Hne].
  - apply Z.pow_pos_nonneg; lia.
  - apply Z.log2_lt_pow2; [lia|].
    destruct (Z.lt_ge_cases (Z.log2 x) (2 * Z.of_nat n)) as [|Hge]; [assumption|].
    pose proof (Z.bit_log2 x ltac:(lia)) as Hb.
    rewrite H in Hb by assumption. discriminate.
Qed.

(** ** The packed codec *)

Lemma push_field enc c :
  0 <= enc < 2 ^ 62 -> 0 <= c < 4 ->
  Z.lor (shl64 enc 2) (wrap64 c) = enc * 4 + c.
Proof.
  intros He Hc. unfold shl64.
  rewrite Z.shiftl_mul_pow2 by lia. change (2 ^ 2) with 4.
  rewrite !wrap64_small by lia.
  assert (Hland : Z.land (enc * 4) c = 0).
  { apply Z.bits_inj'. intros n Hn. rewrite Z.land_spec, Z.bits_0.
    destruct (Z.ltb_spec n 2).
    - change 4 with (2 ^ 2). rewrite Z.mul_pow2_bits_low by lia. reflexivity.
    - rewrite (testbit_small c n) by lia. apply andb_false_r. }
  rewrite <- Z.lxor_lor by assumption.
  symmetry. apply Z.add_nocarry_lxor. assumption.
Qed.

Lemma dna_code c x :
  In c ["A"; "C"; "G"; "T"]%char ->
  Util.encode_switch c x = Util.encode_switch c 0 /\
  0 <= Util.encode_switch c 0 < 4 /\
  Util.base (Util.encode_switch c 0) = c.
Proof.
  simpl. intros [<- | [<- | [<- | [<- | []]]]]; vm_compute; intuition congruence.
Qed.

Lemma base_code z x :
  0 <= z < 4 ->
  Util.encode_switch (Util.base z) x = z /\ In (Util.base z) ["A"; "C"; "G"; "T"]%char.
Proof.
  intros Hz.
  assert (z = 0 \/ z = 1 \/ z = 2 \/ z = 3) as [-> | [-> | [-> | ->]]] by lia;
    vm_compute; tauto.
Qed.

Lemma decode_loop_syms n e acc :
  Util.decode_loop n e acc = map Util.base (syms e n) ++ acc.
Proof.
  revert e acc. induction n as [|n IH]; intros e acc; [reflexivity|].
  cbn [Util.decode_loop]. rewrite IH, syms_snoc, map_app. unfold shr64.
  rewrite <- app_assoc. reflexivity.
Qed.

Lemma decode_syms e k : Util.decode e k = map Util.base (syms e k).
Proof. unfold Util.decode. rewrite decode_loop_syms. apply app_nil_r. Qed.

Lemma length_decode e k : length (Util.decode e k) = k.
Proof. rewrite decode_syms, length_map. apply length_syms. Qed.

(** The loop of [encode] appends the codes of the bytes it reads to the
    fields already in [enc]. *)
Lemma encode_loop_syms k : forall str enc x (m : nat),
  length str = k -> Forall (fun c => In c ["A"; "C"; "G"; "T"]%char) str ->
  (m + k <= 32)%nat -> 0 <= enc < 4 ^ Z.of_nat m ->
  let r := Util.encode_loop k str enc x in
  0 <= r < 4 ^ Z.of_nat (m + k) /\
  syms r (m + k) = syms enc m ++ map (fun c => Util.encode_switch c 0) str.
Proof.
  induction k as [|k IH]; intros str enc x m Hlen Hdna Hk Henc r.
  - destruct str; [|discriminate]. subst r. simpl.
    rewrite Nat.add_0_r, app_nil_r. auto.
  - destruct str as [|c str]; [discriminate|].
    inversion Hdna as [|? ? Hc Hdna']; subst.
    destruct (dna_code c x Hc) as (Hx & Hr & _).
    subst r. cbn [Util.encode_loop hd tl]. rewrite Hx.
    set (code := Util.encode_switch c 0) in *.
    assert (Hpow : 4 ^ Z.of_nat m <= 4 ^ 31) by (apply Z.pow_le_mono_r; lia).
    rewrite push_field by (change (2 ^ 62) with (4 ^ 31); lia).
    assert (Hstep : 0 <= enc * 4 + code < 4 ^ Z.of_nat (S m)).
    { rewrite Nat2Z.inj_succ, Z.pow_succ_r by lia. lia. }
    destruct (IH str (enc * 4 + code) code (S m)) as [Hrange Hsyms];
      [simpl in Hlen; lia | assumption | lia | assumption |].
    replace (m + S k)%nat with (S m + k)%nat by lia.
    split; [exact Hrange|].
    rewrite Hsyms, syms_snoc.
    assert (Z.shiftr (enc * 4 + code) 2 = enc) as ->.
    { rewrite Z.shiftr_div_pow2 by lia. change (2 ^ 2) with 4.
      Z.div_mod_to_equations; lia. }
    assert (Z.land (enc * 4 + code) 3 = code) as ->.
    { change 3 with (Z.ones 2). rewrite Z.land_ones by lia. change (2 ^ 2) with 4.
      Z.div_mod_to_equations; lia. }
    rewrite <- app_assoc. reflexivity.
Qed.

Lemma encode_syms x0 str k :
  length str = k -> Forall (fun c => In c ["A"; "C"; "G"; "T"]%char) str ->
  (k <= 32)%nat ->
  0 <= Util.encode x0 str k < 4 ^ Z.of_nat k /\
  syms (Util.encode x0 str k) k = map (fun c => Util.encode_switch c 0) str.
Proof.
  intros Hlen Hdna Hk.
  destruct (encode_loop_syms k str 0 x0 0 Hlen Hdna ltac:(lia) ltac:(simpl; lia))
    as [H1 H2].
  exact (conj H1 H2).
Qed.

Lemma decode_dna e k : Forall (fun c => In c ["A"; "C"; "G"; "T"]%char) (Util.decode e k).
Proof.
  rewrite decode_syms. apply Forall_map.
  eapply Forall_impl; [apply Forall_syms_range|].
  intros z Hz. apply (base_code z 0 Hz).
Qed.

(** C7.  Codec round trip: for a length [ell] between 1 and 32, decoding the
    encoding of a string of [ell] letters among A, C, G, T gives the string
    back, and encoding the decoding of an integer below [4^ell] gives the
    integer back, whatever the local [x] of [encode] holds at entry. *)
Theorem codec_round_trip (ell : nat) (x0 : Z) :
  (1 <= ell <= 32)%nat ->
  (forall x : list ascii,
      length x = ell -> Forall (fun c => In c ["A"; "C"; "G"; "T"]%char) x ->
      Util.decode (Util.encode x0 x ell) ell = x) /\
  (forall n : Z,
      0 <= n < 4 ^ Z.of_nat ell ->
      Util.encode x0 (Util.decode n ell) ell = n).
Proof.
  intros Hell. split.
  - intros x Hlen Hdna.
    destruct (encode_syms x0 x ell Hlen Hdna ltac:(lia)) as [_ Hs].
    rewrite decode_syms, Hs, map_map.
    clear Hs Hlen. induction Hdna as [|c x Hc Hdna IH]; [reflexivity|].
    simpl. rewrite IH. f_equal. apply (dna_code c 0 Hc).
  - intros n Hn.
    pose proof (decode_dna n ell) as Hdna.
    destruct (encode_syms x0 (Util.decode n ell) ell (length_decode n ell) Hdna
                ltac:(lia)) as [Hr Hs].
    apply (syms_inj _ _ ell Hr Hn).
    rewrite Hs, decode_syms, map_map.
    pose proof (Forall_syms_range n ell) as Hrange.
    induction Hrange as [|z l Hz Hl IH]; [reflexivity|].
    simpl. rewrite IH. f_equal. apply (base_code z 0 Hz).
Qed.

Lemma codec_round_trip_witness :
  Util.decode (Util.encode 7 ["G"; "A"; "T"; "C"]%char 4) 4 = ["G"; "A"; "T"; "C"]%char /\
  Util.encode 7 (Util.decode 141 4) 4 = 141.
Proof.
  destruct (codec_round_trip 4 7 ltac:(lia)) as [H1 H2]. split.
  - apply H1; [reflexivity|]. repeat constructor; simpl; tauto.
  - apply H2. vm_compute. split; [discriminate | reflexivity].
Defined.

(** ** The bounded edit-distance oracle ([editDist2]) *)

Lemma dp_entry_0_l s1 s2 j : dp_entry s1 s2 0 j = Z.of_nat j.
Proof. unfold dp_entry. simpl. rewrite length_syms. reflexivity. Qed.

Lemma dp_entry_0_r s1 s2 i : dp_entry s1 s2 i 0 = Z.of_nat i.
Proof. unfold dp_entry. simpl. rewrite lev_nil_r, length_syms. reflexivity. Qed.

Lemma dp_entry_sym s1 s2 i j : dp_entry s1 s2 i j = dp_entry s2 s1 j i.
Proof. unfold dp_entry. rewrite lev_sym. reflexivity. Qed.

Lemma dp_entry_diag_mono s1 s2 i j : dp_entry s1 s2 i j <= dp_entry s1 s2 (S i) (S j).
Proof. unfold dp_entry. simpl. apply inj_le, lev_diag_mono. Qed.

Lemma dp_entry_diag_le s1 s2 n i j :
  dp_entry s1 s2 i j <= dp_entry s1 s2 (n + i) (n + j).
Proof.
  induction n as [|n IH]; [simpl; lia|].
  etransitivity; [exact IH|]. apply dp_entry_diag_mono.
Qed.

Lemma dp_entry_length_diff s1 s2 i j : Z.of_nat (j - i) <= dp_entry s1 s2 i j.
Proof.
  unfold dp_entry. apply inj_le.
  pose proof (lev_length_diff (syms s1 i) (syms s2 j)) as H.
  rewrite !length_syms in H. exact H.
Qed.

Lemma dp_entry_step s1 s2 i j :
  dp_entry s1 s2 (S i) (S j) =
  Z.min (Z.min (dp_entry s1 s2 i (S j) + 1) (dp_entry s1 s2 (S i) j + 1))
        (dp_entry s1 s2 i j + (if sym s1 i =? sym s2 j then 0 else 1)).
Proof.
  unfold dp_entry. cbn [syms]. rewrite lev_cons. unfold neq_cost.
  destruct (Z.eqb_spec (sym s1 i) (sym s2 j)); case_decide; try contradiction; lia.
Qed.

Lemma gtb_min a b : (if a >? b then b else a) = Z.min a b.
Proof. destruct (Z.gtb_spec a b); lia. Qed.

(** The recurrence as the loops compute it. *)
Lemma dp_cell_entry s1 s2 i j c1 c2 :
  Z.land c1 3 = sym s1 i -> Z.land c2 3 = sym s2 j ->
  Util.dp_cell (dp_entry s1 s2 i j) (dp_entry s1 s2 i (S j)) (dp_entry s1 s2 (S i) j) c1 c2
  = dp_entry s1 s2 (S i) (S j).
Proof.
  intros H1 H2. unfold Util.dp_cell, dp_entry. rewrite H1, H2.
  cbn [syms]. rewrite lev_cons, !gtb_min. unfold neq_cost.
  destruct (Z.eqb_spec (sym s1 i) (sym s2 j)); case_decide; try contradiction; lia.
Qed.

Section Oracle.
Variables (s1 s2 : Z) (k2 : nat).

Lemma editDist2_inner_spec (i : nat) (c1 : Z) :
  Z.land c1 3 = sym s1 i ->
  forall (n j : nat) (s2c diag : Z) (row : list Z),
    length row = S k2 -> (j + n = S k2)%nat -> (1 <= j)%nat ->
    s2c = Z.shiftr s2 (2 * Z.of_nat (j - 1)) ->
    diag = dp_entry s1 s2 i (j - 1) ->
    (forall j', (j' < j)%nat -> row !!! j' = dp_entry s1 s2 (S i) j') ->
    (forall j', (j <= j' <= k2)%nat -> row !!! j' = dp_entry s1 s2 i j') ->
    let row' := Util.editDist2_inner n j c1 s2c diag row in
    length row' = S k2 /\
    forall j', (j' <= k2)%nat -> row' !!! j' = dp_entry s1 s2 (S i) j'.
Proof.
  intros Hc1. induction n as [|n IH]; intros j s2c diag row Hlen Hjn Hj Hs2c Hdiag Hlo Hhi.
  - simpl. split; [assumption|]. intros j' Hj'. apply Hlo. lia.
  - cbn [Util.editDist2_inner]. cbv zeta.
    assert (Hcell : Util.dp_cell diag (row !!! j) (row !!! (j - 1)%nat) c1 s2c
                    = dp_entry s1 s2 (S i) j).
    { rewrite Hdiag, (Hhi j) by lia. rewrite (Hlo (j - 1)%nat) by lia.
      replace j with (S (j - 1)) at 2 4 by lia.
      apply dp_cell_entry; [assumption|].
      rewrite Hs2c, <- sym_0, sym_shiftr. reflexivity. }
    rewrite Hcell.
    apply IH.
    + rewrite length_insert. assumption.
    + lia.
    + lia.
    + unfold shr64. rewrite Hs2c, Z.shiftr_shiftr by lia. f_equal. lia.
    + replace (S j - 1)%nat with j by lia. apply Hhi. lia.
    + intros j' Hj'. destruct (decide (j' = j)) as [->|Hne].
      * rewrite list_lookup_total_insert_eq by lia. reflexivity.
      * rewrite list_lookup_total_insert_ne by congruence. apply Hlo. lia.
    + intros j' Hj'. rewrite list_lookup_total_insert_ne by lia. apply Hhi. lia.
Qed.

(** The outer loop returns the last entry of the table, or, when the
    early exit is enabled, a diagonal entry that reached [max_d]. *)
Lemma editDist2_outer_spec (k1 : nat) (max_d : Z) :
  forall (n i : nat) (s1c : Z) (diag_index : nat) (row : list Z),
    (k1 <= k2)%nat -> (i + n = S k1)%nat -> (1 <= i)%nat ->
    s1c = Z.shiftr s1 (2 * Z.of_nat (i - 1)) ->
    diag_index = (k2 - k1 + (i - 1))%nat ->
    length row = S k2 ->
    (forall j', (j' <= k2)%nat -> row !!! j' = dp_entry s1 s2 (i - 1) j') ->
    let r := Util.editDist2_outer n i s1c s2 k2 max_d diag_index row in
    r = dp_entry s1 s2 k1 k2 \/
    (0 <= max_d /\ max_d <= r <= dp_entry s1 s2 k1 k2).
Proof.
  induction n as [|n IH]; intros i s1c diag_index row Hk Hin Hi Hs1c Hdi Hlen Hrow.
  - simpl. left. rewrite Hrow by lia. f_equal; lia.
  - cbn [Util.editDist2_outer]. cbv zeta.
    destruct (editDist2_inner_spec (i - 1) s1c
                ltac:(rewrite Hs1c, <- sym_0, sym_shiftr; reflexivity)
                k2 1%nat s2 (row !!! 0%nat) (<[0%nat := Z.of_nat i]> row))
      as [Hlen' Hrow'].
    + rewrite length_insert. assumption.
    + lia.
    + lia.
    + simpl. rewrite Z.shiftr_0_r. reflexivity.
    + rewrite Hrow by lia. reflexivity.
    + intros j' Hj'. assert (j' = 0%nat) as -> by lia.
      rewrite list_lookup_total_insert_eq by lia.
      rewrite dp_entry_0_r. f_equal. lia.
    + intros j' Hj'. rewrite list_lookup_total_insert_ne by lia. apply Hrow. lia.
    + replace (S (i - 1)) with i in Hrow' by lia.
      set (row' := Util.editDist2_inner k2 1 s1c s2 (row !!! 0%nat)
                     (<[0%nat := Z.of_nat i]> row)) in *.
      destruct ((max_d >=? 0) && (row' !!! S diag_index >=? max_d)) eqn:Hexit.
      * apply andb_true_iff in Hexit as [H0 H1].
        apply Z.geb_le in H0. apply Z.geb_le in H1.
        right. split; [assumption|]. split; [assumption|].
        rewrite Hrow' by lia.
        pose proof (dp_entry_diag_le s1 s2 (k1 - i) i (S diag_index)) as Hd.
        replace (k1 - i + i)%nat with k1 in Hd by lia.
        replace (k1 - i + S diag_index)%nat with k2 in Hd by lia.
        exact Hd.
      * apply IH; try assumption; try lia.
        -- unfold shr64. rewrite Hs1c, Z.shiftr_shiftr by lia. f_equal. lia.
        -- intros j' Hj'. replace (S i - 1)%nat with i by lia. apply Hrow'. lia.
Qed.

End Oracle.

Lemma initial_row_lookup (k2 j : nat) :
  (j <= k2)%nat -> (map Z.of_nat (seq 0 (k2 + 1))) !!! j = Z.of_nat j.
Proof.
  intros Hj. apply list_lookup_total_correct.
  change (map Z.of_nat (seq 0 (k2 + 1))) with (Z.of_nat <$> seq 0 (k2 + 1)).
  rewrite list_lookup_fmap, lookup_seq_lt by lia. reflexivity.
Qed.

Lemma editDist2_body_spec s1 k1 s2 k2 max_d :
  (k1 <= k2)%nat ->
  let r := Util.editDist2_body s1 k1 s2 k2 max_d in
  r = dp_entry s1 s2 k1 k2 \/ (0 <= max_d /\ max_d <= r <= dp_entry s1 s2 k1 k2).
Proof.
  intros Hk. unfold Util.editDist2_body. cbv zeta.
  destruct ((max_d >=? 0) && (Z.of_nat (k2 - k1) >=? max_d)) eqn:Hexit.
  - apply andb_true_iff in Hexit as [H0 H1].
    apply Z.geb_le in H0. apply Z.geb_le in H1.
    right. split; [assumption|]. split; [assumption|].
    apply dp_entry_length_diff.
  - apply editDist2_outer_spec; try lia.
    + simpl. rewrite Z.shiftr_0_r. reflexivity.
    + rewrite length_map, length_seq. lia.
    + intros j' Hj'. rewrite initial_row_lookup by assumption.
      simpl. rewrite dp_entry_0_l. reflexivity.
Qed.

Lemma editDist2_spec s1 k1 s2 k2 max_d :
  let r := Util.editDist2 s1 k1 s2 k2 max_d in
  r = dp_entry s1 s2 k1 k2 \/ (0 <= max_d /\ max_d <= r <= dp_entry s1 s2 k1 k2).
Proof.
  unfold Util.editDist2. cbv zeta.
  destruct (Nat.ltb_spec k2 k1).
  - rewrite (dp_entry_sym s1 s2). apply editDist2_body_spec. lia.
  - apply editDist2_body_spec. lia.
Qed.

(** The table entry, read on the decoded strings. *)
Lemma dp_entry_decode s1 s2 k1 k2 :
  dp_entry s1 s2 k1 k2 = Z.of_nat (lev (Util.decode s1 k1) (Util.decode s2 k2)).
Proof.
  unfold dp_entry. rewrite !decode_syms. f_equal. symmetry.
  apply (lev_map Util.base (fun z => 0 <= z < 4)); try apply Forall_syms_range.
  intros a b Ha Hb Hab.
  rewrite <- (proj1 (base_code a 0 Ha)), <- (proj1 (base_code b 0 Hb)), Hab.
  reflexivity.
Qed.

Lemma editDist2_exact s1 k1 s2 k2 max_d :
  max_d < 0 -> Util.editDist2 s1 k1 s2 k2 max_d = dp_entry s1 s2 k1 k2.
Proof.
  intros Hd. destruct (editDist2_spec s1 k1 s2 k2 max_d) as [H|[H _]]; [exact H | lia].
Qed.

(** C5.  Oracle exactness: with [maxD = -1] the oracle returns exactly the
    Levenshtein distance (the reference recursion [lev]) between the two
    decoded strings, for lengths up to 32. *)
Theorem oracle_exact (s1 : Util.kmer) (k1 : nat) (s2 : Util.kmer) (k2 : nat) :
  (k1 <= 32)%nat -> (k2 <= 32)%nat ->
  Util.editDist2 s1 k1 s2 k2 (-1) =
  Z.of_nat (lev (Util.decode s1 k1) (Util.decode s2 k2)).
Proof.
  intros _ _. rewrite editDist2_exact by lia. apply dp_entry_decode.
Qed.

Lemma oracle_exact_witness :
  Util.editDist2 27 4 228 3 (-1) = Z.of_nat (lev (Util.decode 27 4) (Util.decode 228 3)).
Proof. apply oracle_exact; lia. Defined.

(** C6.  Early-exit consistency: for [maxD >= 0] the oracle returns a value
    at least [maxD] exactly when the true distance is at least [maxD], and
    it returns the true distance whenever that is below [maxD]. *)
Theorem oracle_early_exit (s1 : Util.kmer) (k1 : nat) (s2 : Util.kmer) (k2 : nat)
    (maxD : Z) :
  (k1 <= 32)%nat -> (k2 <= 32)%nat -> 0 <= maxD ->
  let r := Util.editDist2 s1 k1 s2 k2 maxD in
  let L := Z.of_nat (lev (Util.decode s1 k1) (Util.decode s2 k2)) in
  (maxD <= r <-> maxD <= L) /\ (L < maxD -> r = L).
Proof.
  intros _ _ Hd r L. subst r L. rewrite <- dp_entry_decode.
  destruct (editDist2_spec s1 k1 s2 k2 maxD) as [H|(_ & H1 & H2)].
  - rewrite H. split; [tauto | reflexivity].
  - split; [split; lia | lia].
Qed.

Lemma oracle_early_exit_witness :
  (2 <= Util.editDist2 0 4 255 4 2 <->
   2 <= Z.of_nat (lev (Util.decode 0 4) (Util.decode 255 4))) /\
  (Z.of_nat (lev (Util.decode 0 4) (Util.decode 255 4)) < 2 ->
   Util.editDist2 0 4 255 4 2 = Z.of_nat (lev (Util.decode 0 4) (Util.decode 255 4))).
Proof. apply (oracle_early_exit 0 4 255 4 2); lia. Defined.

(** ** The greedy independent set ([NoRandPairwise]) *)

Section Table.
Import NoRandPairwise.
Variable k : nat.

Lemma tset_shape t i j v : table_shape k t -> table_shape k (tset t i j v).
Proof.
  intros [Hlen Hrows]. unfold tset. split.
  - rewrite length_insert. assumption.
  - intros i' Hi'. destruct (decide (i = i')) as [->|Hne].
    + rewrite list_lookup_total_insert_eq by lia.
      rewrite length_insert. apply Hrows. assumption.
    + rewrite list_lookup_total_insert_ne by assumption. apply Hrows. assumption.
Qed.

Lemma tget_tset_eq t i j v :
  table_shape k t -> (i <= k)%nat -> (j <= k)%nat -> tget (tset t i j v) i j = v.
Proof.
  intros [Hlen Hrows] Hi Hj. unfold tget, tset.
  rewrite list_lookup_total_insert_eq by lia.
  apply list_lookup_total_insert_eq. rewrite Hrows by assumption. lia.
Qed.

Lemma tget_tset_ne t i j v i' j' :
  table_shape k t -> (i <= k)%nat -> (i <> i' \/ j <> j') ->
  tget (tset t i j v) i' j' = tget t i' j'.
Proof.
  intros [Hlen Hrows] Hi Hne. unfold tget, tset.
  destruct (decide (i = i')) as [->|Hii].
  - rewrite list_lookup_total_insert_eq by lia.
    apply list_lookup_total_insert_ne. intros ->. destruct Hne; congruence.
  - rewrite list_lookup_total_insert_ne by assumption. reflexivity.
Qed.

Lemma replicate_shape : table_shape k (replicate (S k) (replicate (S k) 0)).
Proof.
  split; [apply length_replicate|].
  intros i Hi. rewrite lookup_total_replicate_2 by lia. apply length_replicate.
Qed.

(** After the first loop the borders of the table hold [0 .. k]. *)
Lemma init_table_spec :
  let t := init_table k in
  table_shape k t /\
  (forall j, (j <= k)%nat -> tget t 0 j = Z.of_nat j) /\
  (forall i, (i <= k)%nat -> tget t i 0 = Z.of_nat i).
Proof.
  unfold init_table. replace (k + 1)%nat with (S k) by lia.
  assert (H : forall m, (m <= S k)%nat ->
    let t := fold_left (fun t i => tset (tset t 0 i (Z.of_nat i)) i 0 (Z.of_nat i))
               (seq 0 m) (replicate (S k) (replicate (S k) 0)) in
    table_shape k t /\
    (forall j, (j < m)%nat -> tget t 0 j = Z.of_nat j) /\
    (forall i, (i < m)%nat -> tget t i 0 = Z.of_nat i)).
  { induction m as [|m IH]; intros Hm.
    - simpl. split; [apply replicate_shape|]. split; intros; lia.
    - rewrite seq_S, fold_left_app. simpl.
      destruct (IH ltac:(lia)) as (Hs & H0 & H1).
      set (t := fold_left _ (seq 0 m) _) in *.
      split; [apply tset_shape, tset_shape, Hs|].
      split.
      + intros j Hj. destruct (decide (j = m)) as [->|Hne].
        * destruct (decide (m = 0%nat)) as [->|Hm0].
          -- apply tget_tset_eq; [apply tset_shape, Hs|lia|lia].
          -- rewrite tget_tset_ne by (try apply tset_shape; try assumption; lia).
             apply tget_tset_eq; [assumption|lia|lia].
        * destruct (decide (m = 0%nat)) as [->|Hm0]; [lia|].
          rewrite tget_tset_ne by (try apply tset_shape; try assumption; lia).
          rewrite tget_tset_ne by (try assumption; lia).
          apply H0. lia.
      + intros i Hi. destruct (decide (i = m)) as [->|Hne].
        * apply tget_tset_eq; [apply tset_shape, Hs|lia|lia].
        * rewrite tget_tset_ne by (try apply tset_shape; try assumption; lia).
          destruct (decide (i = 0%nat)) as [->|Hi0].
          -- rewrite tget_tset_ne by (try assumption; lia). apply H1. lia.
          -- rewrite tget_tset_ne by (try assumption; lia). apply H1. lia. }
  destruct (H (S k) ltac:(lia)) as (Hs & H0 & H1).
  split; [assumption|]. split; intros; [apply H0 | apply H1]; lia.
Qed.

End Table.

Section EditDist.
Import NoRandPairwise.
Variables (s1 s2 : Z) (k : nat).

Lemma fill_cell_spec t i j :
  table_shape k t -> (i < k)%nat -> (j < k)%nat ->
  tget t i j = dp_entry s1 s2 i j ->
  tget t i (S j) = dp_entry s1 s2 i (S j) ->
  tget t (S i) j = dp_entry s1 s2 (S i) j ->
  let t' := fill_cell s1 s2 (S i) (S j) t in
  table_shape k t' /\
  tget t' (S i) (S j) = dp_entry s1 s2 (S i) (S j) /\
  forall i' j', (i' <> S i \/ j' <> S j) -> tget t' i' j' = tget t i' j'.
Proof.
  intros Hs Hi Hj Hd Hu Hl. unfold fill_cell. cbv zeta.
  replace (Z.of_nat (S i) - 1) with (Z.of_nat i) by lia.
  replace (Z.of_nat (S j) - 1) with (Z.of_nat j) by lia.
  fold (sym s1 i). fold (sym s2 j).
  replace (S i - 1)%nat with i by lia. replace (S j - 1)%nat with j by lia.
  rewrite dp_entry_step.
  set (v0 := if negb (sym s1 i =? sym s2 j) then tget t i j + 1 else tget t i j).
  assert (Ht1 : (if negb (sym s1 i =? sym s2 j)
                 then tset t (S i) (S j) (tget t i j + 1)
                 else tset t (S i) (S j) (tget t i j)) = tset t (S i) (S j) v0)
    by (subst v0; destruct (negb _); reflexivity).
  rewrite Ht1. clear Ht1.
  assert (Hv0 : v0 = dp_entry s1 s2 i j + (if sym s1 i =? sym s2 j then 0 else 1))
    by (subst v0; rewrite Hd; destruct (sym s1 i =? sym s2 j); simpl; lia).
  clearbody v0.
  pose proof (tset_shape k t (S i) (S j) v0 Hs) as Hs1.
  rewrite (tget_tset_ne k t (S i) (S j) v0 i (S j)) by (try assumption; lia).
  rewrite (tget_tset_eq k t (S i) (S j) v0) by (try assumption; lia).
  set (t1 := tset t (S i) (S j) v0) in *.
  set (v1 := if tget t i (S j) + 1 <? v0 then tget t i (S j) + 1 else v0).
  assert (Hs2 : table_shape k
                  (if tget t i (S j) + 1 <? v0
                   then tset t1 (S i) (S j) (tget t i (S j) + 1) else t1))
    by (destruct (_ <? _); [apply tset_shape|]; assumption).
  assert (Hg2 : forall i' j',
             tget (if tget t i (S j) + 1 <? v0
                   then tset t1 (S i) (S j) (tget t i (S j) + 1) else t1) i' j'
             = if decide (i' = S i /\ j' = S j) then v1 else tget t i' j').
  { intros i' j'. subst v1. case_decide as Hij.
    - destruct Hij as [-> ->]. destruct (_ <? _).
      + apply (tget_tset_eq k); (assumption || lia).
      + subst t1. apply (tget_tset_eq k); (assumption || lia).
    - assert (S i <> i' \/ S j <> j') by lia.
      destruct (_ <? _).
      + rewrite (tget_tset_ne k) by (assumption || lia).
        subst t1. apply (tget_tset_ne k); (assumption || lia).
      + subst t1. apply (tget_tset_ne k); (assumption || lia). }
  set (t2 := if tget t i (S j) + 1 <? v0
             then tset t1 (S i) (S j) (tget t i (S j) + 1) else t1) in *.
  assert (Hv1 : v1 = Z.min (tget t i (S j) + 1) v0)
    by (subst v1; destruct (Z.ltb_spec (tget t i (S j) + 1) v0); lia).
  clearbody t2 v1. clear t1 Hs1.
  rewrite !Hg2.
  rewrite (decide_True (P := (S i = S i /\ S j = S j))) by auto.
  rewrite (decide_False (P := (S i = S i /\ j = S j))) by lia.
  destruct (Z.ltb_spec (tget t (S i) j + 1) v1) as [Hlt|Hge].
  - split; [apply tset_shape; assumption|].
    split.
    + rewrite (tget_tset_eq k) by (assumption || lia). lia.
    + intros i' j' Hne.
      rewrite (tget_tset_ne k) by (assumption || lia).
      rewrite Hg2. apply decide_False. lia.
  - split; [assumption|].
    split.
    + rewrite Hg2, decide_True by auto. lia.
    + intros i' j' Hne. rewrite Hg2. apply decide_False. lia.
Qed.

Lemma fill_row_spec i :
  (i < k)%nat ->
  forall n j t,
    (j + n = S k)%nat -> (1 <= j)%nat ->
    rows_filled s1 s2 k i t ->
    (forall j', (j' < j)%nat -> tget t (S i) j' = dp_entry s1 s2 (S i) j') ->
    rows_filled s1 s2 k (S i) (fill_row n s1 s2 (S i) j t).
Proof.
  intros Hi. induction n as [|n IH]; intros j t Hjn Hj (Hs & Hrows & Hcol) Hrow.
  - simpl. split; [assumption|]. split; [|assumption].
    intros i' j' Hi' Hj'. destruct (decide (i' = S i)) as [->|Hne].
    + apply Hrow. lia.
    + apply Hrows; lia.
  - cbn [fill_row].
    destruct j as [|j]; [lia|].
    destruct (fill_cell_spec t i j Hs Hi ltac:(lia)) as (Hs' & Hv & Hframe).
    + apply Hrows; lia.
    + apply Hrows; lia.
    + apply Hrow. lia.
    + apply IH; [lia | lia | |].
      * split; [assumption|]. split.
        -- intros i' j' Hi' Hj'. rewrite Hframe by lia. apply Hrows; assumption.
        -- intros i' Hi'. rewrite Hframe by lia. apply Hcol. assumption.
      * intros j' Hj'. destruct (decide (j' = S j)) as [->|Hne].
        -- assumption.
        -- rewrite Hframe by lia. apply Hrow. lia.
Qed.

(** The loop over the rows returns the last entry of the table, or a
    diagonal entry that exceeds [d]. *)
Lemma fill_rows_spec d :
  forall n i t,
    (i + n = S k)%nat -> (1 <= i)%nat ->
    rows_filled s1 s2 k (i - 1) t ->
    let r := fill_rows n s1 s2 k d i t in
    r = dp_entry s1 s2 k k \/ (d < r <= dp_entry s1 s2 k k).
Proof.
  induction n as [|n IH]; intros i t Hin Hi Hrows.
  - simpl. left. destruct Hrows as (_ & Hrows & _). apply Hrows; lia.
  - cbn [fill_rows]. cbv zeta.
    destruct i as [|i]; [lia|]. replace (S i - 1)%nat with i in Hrows by lia.
    pose proof (fill_row_spec i ltac:(lia) k 1%nat t ltac:(lia) ltac:(lia) Hrows) as Hrows'.
    destruct Hrows as (Hs & Hr & Hc).
    specialize (Hrows' ltac:(intros j' Hj'; assert (j' = 0%nat) as -> by lia; apply Hc; lia)).
    set (t' := fill_row k s1 s2 (S i) 1 t) in *.
    destruct (Z.gtb_spec (tget t' (S i) (S i)) d) as [Hgt|Hle].
    + right. split; [lia|].
      destruct Hrows' as (_ & Hr' & _). rewrite Hr' by lia.
      pose proof (dp_entry_diag_le s1 s2 (k - S i) (S i) (S i)) as Hd.
      replace (k - S i + S i)%nat with k in Hd by lia. exact Hd.
    + apply IH; [lia | lia |]. replace (S (S i) - 1)%nat with (S i) by lia. assumption.
Qed.

Lemma init_table_filled : rows_filled s1 s2 k 0 (init_table k).
Proof.
  destruct (init_table_spec k) as (Hs & H0 & H1).
  split; [assumption|]. split.
  - intros i' j' Hi' Hj'. assert (i' = 0%nat) as -> by lia.
    rewrite H0, dp_entry_0_l by assumption. reflexivity.
  - intros i' Hi'. rewrite H1, dp_entry_0_r by assumption. reflexivity.
Qed.

(** The test [editDist(...) <= d] of the greedy loop decides whether the
    true distance is at most [d]. *)
Lemma editDist_le_iff d :
  editDist s1 s2 k d <= d <-> dp_entry s1 s2 k k <= d.
Proof.
  unfold editDist.
  destruct (fill_rows_spec d k 1%nat (init_table k) ltac:(lia) ltac:(lia)
              init_table_filled) as [H|H].
  - rewrite H. reflexivity.
  - lia.
Qed.

End EditDist.

Section Search.
Import NoRandPairwise.
Variables (k : nat) (d : Z) (MIS : list Z) (i : Z).

(** The test of the loops. *)
Let near (y : Z) : bool := editDist i y k d <=? d.

Lemma near_iff y : near y = true <-> kmer_dist k i y <= d.
Proof.
  unfold near, kmer_dist. rewrite Z.leb_le, editDist_le_iff, dp_entry_decode.
  reflexivity.
Qed.

Lemma at_index_In j : 0 <= j < size MIS -> In (at_index MIS j) MIS.
Proof.
  intros Hj. unfold at_index, size in *.
  apply list_elem_of_In, list_elem_of_lookup. exists (Z.to_nat j).
  apply list_lookup_lookup_total_lt. lia.
Qed.

Lemma In_at_index y : In y MIS -> exists j, 0 <= j < size MIS /\ at_index MIS j = y.
Proof.
  intros Hy. apply list_elem_of_In, list_elem_of_lookup in Hy as [n Hn].
  exists (Z.of_nat n). unfold at_index, size. rewrite Nat2Z.id. split.
  - apply lookup_lt_Some in Hn. lia.
  - apply list_lookup_total_correct. assumption.
Qed.

Lemma search_around_spec lastFound :
  size MIS <= 2 ^ 63 ->
  forall n j,
    0 <= j -> j + Z.of_nat n <= lastFound + 1 ->
    lastFound + j + Z.of_nat n <= size MIS ->
    let r := search_around n k d MIS i lastFound j in
    (r.2 = true /\ 0 <= r.1 < size MIS /\ near (at_index MIS r.1) = true) \/
    (r = (lastFound, false) /\
     forall j', j <= j' < j + Z.of_nat n ->
                near (at_index MIS (lastFound + j')) = false /\
                near (at_index MIS (lastFound - j')) = false).
Proof.
  intros Hsize. induction n as [|n IH]; intros j Hj Hlo Hhi.
  - simpl. right. split; [reflexivity|]. intros; lia.
  - cbn [search_around]. fold (near (at_index MIS (wrap64 (lastFound + j)))).
    fold (near (at_index MIS (wrap64 (lastFound - j)))).
    rewrite !wrap64_small by lia.
    destruct (near (at_index MIS (lastFound + j))) eqn:H1.
    + left. simpl. split; [reflexivity|]. split; [lia|assumption].
    + destruct (near (at_index MIS (lastFound - j))) eqn:H2.
      * left. simpl. split; [reflexivity|]. split; [lia|assumption].
      * destruct (IH (j + 1) ltac:(lia) ltac:(lia) ltac:(lia)) as [Hhit|[Hr Hall]].
        -- left. assumption.
        -- right. split; [assumption|]. intros j' Hj'.
           destruct (Z.eq_dec j' j) as [->|Hne]; [auto|]. apply Hall. lia.
Qed.

Lemma search_up_spec st :
  forall n j,
    0 <= j -> j + Z.of_nat n <= size MIS ->
    let r := search_up n k d MIS i st j in
    (r.2 = true /\ 0 <= r.1 < size MIS /\ near (at_index MIS r.1) = true) \/
    (r = st /\ forall j', j <= j' < j + Z.of_nat n -> near (at_index MIS j') = false).
Proof.
  induction n as [|n IH]; intros j Hj Hhi.
  - simpl. right. split; [reflexivity|]. intros; lia.
  - cbn [search_up]. fold (near (at_index MIS j)).
    destruct (near (at_index MIS j)) eqn:H1.
    + left. simpl. split; [reflexivity|]. split; [lia|assumption].
    + destruct (IH (j + 1) ltac:(lia) ltac:(lia)) as [Hhit|[Hr Hall]].
      * left. assumption.
      * right. split; [assumption|]. intros j' Hj'.
        destruct (Z.eq_dec j' j) as [->|Hne]; [auto|]. apply Hall. lia.
Qed.

Lemma search_down_spec st :
  size MIS <= 2 ^ 63 ->
  forall n j,
    0 <= j < 2 ^ 64 -> (j < size MIS -> j + 1 <= Z.of_nat n) ->
    let r := search_down n k d MIS i st j in
    (r.2 = true /\ 0 <= r.1 < size MIS /\ near (at_index MIS r.1) = true) \/
    (r = st /\ (j < size MIS -> forall j', 0 <= j' <= j -> near (at_index MIS j') = false)).
Proof.
  intros Hsize. induction n as [|n IH]; intros j Hj Hfuel.
  - simpl. right. split; [reflexivity|]. intros; lia.
  - cbn [search_down]. fold (near (at_index MIS j)).
    destruct (Z.ltb_spec j (size MIS)) as [Hlt|Hge].
    + destruct (near (at_index MIS j)) eqn:H1.
      * left. simpl. split; [reflexivity|]. split; [lia|assumption].
      * destruct (Z.eq_dec j 0) as [->|Hne].
        -- destruct (IH (wrap64 (0 - 1)) (wrap64_range _)) as [Hhit|[Hr Hall]].
           ++ change (wrap64 (0 - 1)) with (2 ^ 64 - 1). lia.
           ++ left. assumption.
           ++ right. split; [assumption|]. intros _ j' Hj'.
              assert (j' = 0) as -> by lia. assumption.
        -- rewrite wrap64_small by lia.
           destruct (IH (j - 1) ltac:(lia) ltac:(lia)) as [Hhit|[Hr Hall]].
           ++ left. assumption.
           ++ right. split; [assumption|]. intros _ j' Hj'.
              destruct (Z.eq_dec j' j) as [->|Hne']; [assumption|].
              apply Hall; lia.
    + right. split; [reflexivity|]. intros; lia.
Qed.

End Search.

Lemma kmer_dist_sym k x y : kmer_dist k x y = kmer_dist k y x.
Proof. unfold kmer_dist. rewrite lev_sym. reflexivity. Qed.

Lemma kmer_dist_refl k x : kmer_dist k x x = 0.
Proof. unfold kmer_dist. rewrite lev_refl. reflexivity. Qed.

Section GreedyStep.
Import NoRandPairwise.
Variables (k : nat) (d : Z).

(** The three scans together look at every member of [MIS] before they
    give up: either a member within [d] of the candidate is found, or no
    member is within [d]. *)
Lemma step_search MIS lastFound i :
  size MIS <= 2 ^ 63 -> 0 <= lastFound < size MIS ->
  let r := step k d (MIS, lastFound) i in
  (r.1 = MIS /\ 0 <= r.2 < size MIS /\ kmer_dist k i (at_index MIS r.2) <= d) \/
  (r = (MIS ++ [i], size MIS) /\ forall y, In y MIS -> d < kmer_dist k i y).
Proof.
  intros Hsize Hlf. unfold step. cbv zeta.
  rewrite (wrap64_small (size MIS - lastFound - 1)) by lia.
  set (dist := if size MIS - lastFound - 1 <? lastFound
               then size MIS - lastFound - 1 else lastFound).
  assert (Hdist : dist = Z.min (size MIS - lastFound - 1) lastFound)
    by (subst dist; destruct (Z.ltb_spec (size MIS - lastFound - 1) lastFound); lia).
  clearbody dist.
  pose proof (search_around_spec k d MIS i lastFound ltac:(lia)
                (Z.to_nat (dist + 1)) 0 ltac:(lia) ltac:(lia) ltac:(lia)) as Har.
  cbv zeta in Har.
  set (st1 := search_around (Z.to_nat (dist + 1)) k d MIS i lastFound 0) in *.
  assert (Hst1 : 0 <= st1.1 < size MIS) by (destruct Har as [(_ & H & _)|[-> _]]; simpl; lia).
  set (st2 := if dist =? st1.1
              then search_up (Z.to_nat (size MIS - wrap64 (st1.1 + dist + 1))) k d MIS i st1
                     (wrap64 (st1.1 + dist + 1))
              else search_down (length MIS) k d MIS i st1 (wrap64 (st1.1 - dist - 1))).
  assert (Hst2 :
    (st2.2 = true /\ 0 <= st2.1 < size MIS /\
     (editDist i (at_index MIS st2.1) k d <=? d) = true) \/
    (st2 = (lastFound, false) /\
     forall j, 0 <= j < size MIS -> (editDist i (at_index MIS j) k d <=? d) = false)).
  { subst st2. destruct (Z.eqb_spec dist st1.1) as [Heq|Hne].
    - rewrite (wrap64_small (st1.1 + dist + 1)) by lia.
      destruct (Z.le_gt_cases (st1.1 + dist + 1) (size MIS)) as [Hle|Hgt].
      + destruct (search_up_spec k d MIS i st1
                    (Z.to_nat (size MIS - (st1.1 + dist + 1))) (st1.1 + dist + 1)
                    ltac:(lia) ltac:(lia)) as [Hhit|[-> Hall]]; [left; exact Hhit|].
        destruct Har as [Hhit|[Hr Haround]]; [left; exact Hhit|].
        right. split; [assumption|]. intros j Hj.
        rewrite Hr in *. simpl in *.
        destruct (Z.le_gt_cases j (2 * lastFound)) as [Hlow|Hhigh].
        * destruct (Z.le_gt_cases lastFound j).
          -- replace j with (lastFound + (j - lastFound)) by lia.
             apply Haround. lia.
          -- replace j with (lastFound - (lastFound - j)) by lia.
             apply Haround. lia.
        * apply Hall. lia.
      + replace (Z.to_nat (size MIS - (st1.1 + dist + 1))) with 0%nat by lia.
        simpl.
        destruct Har as [Hhit|[Hr Haround]]; [left; exact Hhit|].
        right. split; [assumption|]. intros j Hj.
        rewrite Hr in *. simpl in *. lia.
    - destruct (search_down_spec k d MIS i st1 ltac:(lia) (length MIS)
                  (wrap64 (st1.1 - dist - 1)) (wrap64_range _)) as [Hhit|[-> Hall]].
      + unfold size. pose proof (wrap64_range (st1.1 - dist - 1)). lia.
      + left; exact Hhit.
      + destruct Har as [Hhit|[Hr Haround]]; [left; exact Hhit|].
        right. split; [assumption|]. intros j Hj.
        rewrite Hr in *. simpl in *.
        rewrite (wrap64_small (lastFound - dist - 1)) in Hall by lia.
        destruct (Z.le_gt_cases j (lastFound - dist - 1)) as [Hlow|Hhigh].
        * apply Hall; lia.
        * destruct (Z.le_gt_cases lastFound j).
          -- replace j with (lastFound + (j - lastFound)) by lia.
             apply Haround. lia.
          -- replace j with (lastFound - (lastFound - j)) by lia.
             apply Haround. lia. }
  clearbody st2. clear Har.
  destruct Hst2 as [(Hfl & Hrange & Hnear)|[-> Hall]].
  - left. rewrite Hfl. simpl. split; [reflexivity|]. split; [assumption|].
    apply (near_iff k d i). assumption.
  - right. simpl. split.
    + f_equal. unfold size. rewrite length_app. simpl. lia.
    + intros y Hy. apply (In_at_index MIS) in Hy as (j & Hj & <-).
      specialize (Hall j Hj).
      destruct (Z.le_gt_cases (kmer_dist k i (at_index MIS j)) d) as [Hle|]; [|assumption].
      apply (near_iff k d i) in Hle. congruence.
Qed.

Lemma step_inv m st :
  0 <= d -> 0 <= m -> m + 1 < 2 ^ 63 ->
  greedy_inv k d m st -> greedy_inv k d (m + 1) (step k d st (m + 1)).
Proof.
  intros Hd Hm Hbound. destruct st as [MIS lastFound].
  intros (Hlf & Hsz & Hmem & Hind & Hcov). simpl in Hlf, Hsz, Hmem, Hind, Hcov.
  unfold greedy_inv.
  destruct (step_search MIS lastFound (m + 1) ltac:(lia) Hlf) as [(H1 & H2 & H3)|[Hr Hfar]].
  - destruct (step k d (MIS, lastFound) (m + 1)) as [MIS' lf']. simpl in H1, H2, H3 |- *.
    subst MIS'.
    split; [assumption|].
    split; [lia|]. split; [intros y Hy; specialize (Hmem y Hy); lia|].
    split; [assumption|].
    intros x Hx. destruct (Z.eq_dec x (m + 1)) as [->|Hne].
    + eexists. split; [apply at_index_In; exact H2 | exact H3].
    + apply Hcov. lia.
  - rewrite Hr. simpl.
    assert (Hsize' : size (MIS ++ [m + 1]) = size MIS + 1)
      by (unfold size; rewrite length_app; simpl; lia).
    split; [lia|]. split; [lia|].
    split.
    { intros y Hy. apply in_app_or in Hy as [Hy|[<-|[]]]; [specialize (Hmem y Hy)|]; lia. }
    split.
    { intros x y Hx Hy Hxy.
      apply in_app_or in Hx as [Hx|[<-|[]]]; apply in_app_or in Hy as [Hy|[<-|[]]].
      - apply Hind; assumption.
      - rewrite kmer_dist_sym. apply Hfar. assumption.
      - apply Hfar. assumption.
      - congruence. }
    intros x Hx. destruct (Z.eq_dec x (m + 1)) as [->|Hne].
    + exists (m + 1). split; [apply in_or_app; right; left; reflexivity|].
      rewrite kmer_dist_refl. assumption.
    + destruct (Hcov x ltac:(lia)) as (y & Hy & Hxy).
      exists y. split; [apply in_or_app; left; assumption | assumption].
Qed.

Lemma greedy_inv_init : 0 <= d -> greedy_inv k d 0 ([0], 0).
Proof.
  intros Hd. unfold greedy_inv, size. simpl.
  split; [lia|]. split; [lia|].
  split; [intros y [<-|[]]; lia|].
  split; [intros x y [<-|[]] [<-|[]]; congruence|].
  intros x Hx. exists 0. split; [left; reflexivity|].
  assert (x = 0) as -> by lia. rewrite kmer_dist_refl. assumption.
Qed.

Lemma greedy_inv_fold (n : nat) :
  0 <= d -> Z.of_nat n + 1 < 2 ^ 63 ->
  greedy_inv k d (Z.of_nat n)
    (fold_left (step k d) (map (fun n => Z.of_nat n + 1) (seq 0 n)) ([0], 0)).
Proof.
  intros Hd. induction n as [|n IH]; intros Hn.
  - simpl. apply greedy_inv_init. assumption.
  - rewrite seq_S, map_app, fold_left_app. simpl.
    replace (Z.of_nat (S n)) with (Z.of_nat n + 1) by lia.
    apply step_inv; try lia. apply IH. lia.
Qed.

End GreedyStep.

Lemma kmer_space_size (k : nat) : (k <= 31)%nat -> shl64 1 (2 * Z.of_nat k) = 4 ^ Z.of_nat k.
Proof.
  intros Hk. unfold shl64. rewrite Z.shiftl_1_l.
  assert (2 ^ (2 * Z.of_nat k) = 4 ^ Z.of_nat k) as -> by (rewrite Z.pow_mul_r by lia; reflexivity).
  apply wrap64_small. split; [apply Z.pow_nonneg; lia|].
  apply Z.lt_le_trans with (4 ^ 32); [apply Z.pow_lt_mono_r; lia | reflexivity].
Qed.

(** C10.  The greedy constructor returns an independent set that covers the
    k-mer space: any two distinct members of [MIS] are more than [d] apart
    in Levenshtein distance, and every k-mer of the [4^k] space is within
    [d] of some member. *)
Theorem greedy_independent_cover (k : nat) (d : Z) :
  (k <= 31)%nat -> 0 <= d ->
  let MIS := NoRandPairwise.main k d in
  (forall x y, In x MIS -> In y MIS -> x <> y -> d < kmer_dist k x y) /\
  (forall x, 0 <= x < 4 ^ Z.of_nat k -> exists y, In y MIS /\ kmer_dist k x y <= d).
Proof.
  intros Hk Hd. unfold NoRandPairwise.main, NoRandPairwise.candidates. cbv zeta.
  rewrite kmer_space_size by assumption.
  assert (Hpos : 0 < 4 ^ Z.of_nat k) by (apply Z.pow_pos_nonneg; lia).
  assert (Hle : 4 ^ Z.of_nat k <= 4 ^ 31) by (apply Z.pow_le_mono_r; lia).
  pose proof (greedy_inv_fold k d (Z.to_nat (4 ^ Z.of_nat k - 1)) Hd) as Hinv.
  rewrite Z2Nat.id in Hinv by lia.
  specialize (Hinv ltac:(change (2 ^ 63) with (2 * 4 ^ 31); lia)).
  destruct Hinv as (_ & _ & _ & Hind & Hcov).
  split; [exact Hind|]. intros x Hx. apply Hcov. lia.
Qed.

Lemma greedy_independent_cover_witness :
  (forall x y, In x (NoRandPairwise.main 2 1) -> In y (NoRandPairwise.main 2 1) ->
               x <> y -> 1 < kmer_dist 2 x y) /\
  (forall x, 0 <= x < 4 ^ Z.of_nat 2 ->
             exists y, In y (NoRandPairwise.main 2 1) /\ kmer_dist 2 x y <= 1).
Proof.
  assert (H1 : (2 <= 31)%nat) by lia.
  assert (H2 : 0 <= 1) by lia.
  exact (greedy_independent_cover 2 1 H1 H2).
Defined.

(** C10, a negative [d]: [d] is an [int] read from the standard input and
    the program accepts any value.  With [k = 1] and [d = -1] no test
    [editDist(...) <= d] succeeds, every candidate is accepted and
    [MIS] is the whole space; it is independent, but no k-mer is within
    distance [d] of a member, for a distance is never negative. *)
Lemma greedy_negative_d_no_cover :
  let MIS := NoRandPairwise.main 1 (-1) in
  MIS = [0; 1; 2; 3] /\
  (forall x y, In x MIS -> In y MIS -> x <> y -> -1 < kmer_dist 1 x y) /\
  ~ (forall x, 0 <= x < 4 ^ Z.of_nat 1 ->
       exists y, In y MIS /\ kmer_dist 1 x y <= -1).
Proof.
  cbv zeta. split; [vm_compute; reflexivity|]. split.
  - intros x y _ _ _. unfold kmer_dist. lia.
  - intros Hcov. destruct (Hcov 0 ltac:(cbn; lia)) as (y & _ & Hy).
    unfold kmer_dist in Hy. lia.
Qed.

(** ** The single-edit generators on packed words *)

Lemma testbit_head s a b n :
  0 <= n -> 0 <= b ->
  Z.testbit (shl64 (shr64 s a) b) n = (n <? 64) && (b <=? n) && Z.testbit s (n - b + a).
Proof.
  intros Hn Hb. rewrite testbit_shl64 by assumption.
  destruct (Z.leb_spec b n).
  - rewrite testbit_shr64 by lia. rewrite andb_true_r. reflexivity.
  - rewrite Z.testbit_neg_r by lia. rewrite andb_false_r. reflexivity.
Qed.

Lemma testbit_body m b n :
  0 <= n -> 0 <= b -> 0 <= m < 4 ->
  Z.testbit (shl64 m b) n =
  (n <? 64) && (b <=? n) && (n <? b + 2) && Z.testbit m (n - b).
Proof.
  intros Hn Hb Hm. rewrite testbit_shl64 by assumption.
  destruct (Z.leb_spec b n).
  - destruct (Z.ltb_spec n (b + 2)).
    + rewrite !andb_true_r. reflexivity.
    + rewrite (testbit_small m) by lia. rewrite !andb_false_r. reflexivity.
  - rewrite Z.testbit_neg_r by lia. rewrite !andb_false_r. reflexivity.
Qed.

Lemma testbit_tail s b n :
  0 <= b < 64 -> 0 <= n ->
  Z.testbit (Z.land (Layers.low_mask b) s) n = (n <? b) && Z.testbit s n.
Proof.
  intros Hb Hn. rewrite Z.land_spec, testbit_low_mask by assumption. reflexivity.
Qed.

Lemma testbit_luMSB n : 0 <= n -> Z.testbit luMSB n = (n =? 63).
Proof.
  intros Hn. change luMSB with (2 ^ 63). rewrite Z.pow2_bits_eqb by lia.
  apply Z.eqb_sym.
Qed.

Lemma testbit_tagged y n :
  0 <= n -> Z.testbit (Z.lor y luMSB) n = Z.testbit y n || (n =? 63).
Proof. intros Hn. rewrite Z.lor_spec, testbit_luMSB by assumption. reflexivity. Qed.

Lemma tagged_add y : 0 <= y < 2 ^ 62 -> Z.lor y luMSB = y + luMSB.
Proof.
  intros Hy.
  assert (Hland : Z.land y luMSB = 0).
  { apply Z.bits_inj'. intros n Hn.
    rewrite Z.land_spec, testbit_luMSB, Z.bits_0 by assumption.
    destruct (Z.eqb_spec n 63) as [->|]; [|apply andb_false_r].
    rewrite <- (Z.mod_small y (2 ^ 62)) by assumption.
    rewrite Z.mod_pow2_bits_high by lia. reflexivity. }
  rewrite <- Z.lxor_lor by assumption.
  symmetry. apply Z.add_nocarry_lxor. assumption.
Qed.

Lemma pow4_le_62 (k : nat) : (k <= 31)%nat -> 4 ^ Z.of_nat k <= 2 ^ 62.
Proof. intros Hk. change (2 ^ 62) with (4 ^ 31). apply Z.pow_le_mono_r; lia. Qed.

(** Case analysis on the comparisons a bit formula contains. *)
Ltac split_cmp :=
  repeat match goal with
    | |- context [?a <? ?b] => destruct (Z.ltb_spec a b)
    | |- context [?a <=? ?b] => destruct (Z.leb_spec a b)
    | |- context [?a =? ?b] => destruct (Z.eqb_spec a b)
    end;
  cbn [andb orb negb];
  try reflexivity; try lia.

Ltac same_bit := rewrite ?orb_false_r; try reflexivity; f_equal; lia.

Section Generators.
Import Layers.
Variable k : nat.
Hypothesis Hk : (k <= 31)%nat.

(** Fields of the result of a deletion. *)
Lemma sym_del_at s j i :
  (j < k)%nat -> (i < k - 1)%nat ->
  sym (del_at s j) i = if (i <? j)%nat then sym s i else sym s (S i).
Proof.
  intros Hj Hi. unfold del_at.
  destruct (Nat.ltb_spec i j) as [Hlt|Hge]; apply sym_eq_bits; intros n Hn;
    rewrite Z.lor_spec, testbit_head, testbit_tail by lia;
    split_cmp; same_bit.
Qed.

Lemma del_at_range s j :
  0 <= s < 4 ^ Z.of_nat k -> (j < k)%nat ->
  0 <= del_at s j < 4 ^ Z.of_nat (k - 1).
Proof.
  intros Hs Hj. unfold del_at.
  assert (H0 : 0 <= Z.lor (shl64 (shr64 s (2 * (Z.of_nat j + 1))) (2 * Z.of_nat j))
                       (Z.land (low_mask (2 * Z.of_nat j)) s)).
  { apply Z.lor_nonneg. split; [apply wrap64_range|].
    apply Z.land_nonneg. right. lia. }
  split; [exact H0|].
  apply below_pow4_bits; [exact H0|]. intros n Hn.
  rewrite Z.lor_spec, testbit_head, testbit_tail by lia.
  rewrite (testbit_above_pow4 s k (n - 2 * Z.of_nat j + 2 * (Z.of_nat j + 1))) by lia.
  split_cmp.
Qed.

(** Fields of the result of a substitution. *)
Lemma sym_sub_at s j m i :
  (1 <= j <= k)%nat -> 0 <= m < 4 -> (i < k)%nat ->
  sym (sub_at s j m) i = if (i =? j - 1)%nat then m else sym s i.
Proof.
  intros Hj Hm Hi. unfold sub_at.
  destruct (Nat.eqb_spec i (j - 1)) as [Heq|Hneq].
  - apply sym_value_bits; [assumption|]. intros n Hn.
    rewrite !Z.lor_spec, testbit_head, testbit_tail, testbit_body by lia.
    split_cmp. same_bit.
  - apply sym_eq_bits. intros n Hn.
    rewrite !Z.lor_spec, testbit_head, testbit_tail, testbit_body by lia.
    split_cmp; same_bit.
Qed.

Lemma sub_at_range s j m :
  0 <= s < 4 ^ Z.of_nat k -> (1 <= j <= k)%nat -> 0 <= m < 4 ->
  0 <= sub_at s j m < 4 ^ Z.of_nat k.
Proof.
  intros Hs Hj Hm. unfold sub_at.
  set (x := Z.lor _ _).
  assert (H0 : 0 <= x).
  { subst x. apply Z.lor_nonneg. split.
    - apply Z.lor_nonneg. split; apply wrap64_range.
    - apply Z.land_nonneg. right. lia. }
  split; [exact H0|].
  apply below_pow4_bits; [exact H0|]. intros n Hn. subst x.
  rewrite !Z.lor_spec, testbit_head, testbit_tail, testbit_body by lia.
  rewrite (testbit_above_pow4 s k (n - 2 * Z.of_nat j + 2 * Z.of_nat j)) by lia.
  split_cmp.
Qed.

(** Fields of the result of an insertion into a tagged (k-1)-mer. *)
Lemma sym_ins_at y j m i :
  0 <= y < 4 ^ Z.of_nat (k - 1) -> (j < k)%nat -> 0 <= m < 4 -> (i < k)%nat ->
  sym (ins_at (Z.lor y luMSB) j m) i =
  if (i <? j)%nat then sym y i else if (i =? j)%nat then m else sym y (i - 1).
Proof.
  intros Hy Hj Hm Hi. unfold ins_at.
  destruct (Nat.ltb_spec i j) as [Hlt|Hge]; [|destruct (Nat.eqb_spec i j) as [Heq|Hneq]].
  - apply sym_eq_bits. intros n Hn.
    rewrite !Z.lor_spec, testbit_head, testbit_tail, testbit_body by lia.
    split_cmp; rewrite ?testbit_tagged by lia; split_cmp; same_bit.
  - apply sym_value_bits; [assumption|]. intros n Hn.
    rewrite !Z.lor_spec, testbit_head, testbit_tail, testbit_body by lia.
    split_cmp. same_bit.
  - apply sym_eq_bits. intros n Hn.
    rewrite !Z.lor_spec, testbit_head, testbit_tail, testbit_body by lia.
    split_cmp; rewrite ?testbit_tagged by lia; split_cmp; same_bit.
Qed.

Lemma ins_at_range y j m :
  0 <= y < 4 ^ Z.of_nat (k - 1) -> (j < k)%nat -> 0 <= m < 4 ->
  0 <= ins_at (Z.lor y luMSB) j m < 4 ^ Z.of_nat k.
Proof.
  intros Hy Hj Hm. unfold ins_at.
  set (x := Z.lor _ _).
  assert (H0 : 0 <= x).
  { subst x. apply Z.lor_nonneg. split.
    - apply Z.lor_nonneg. split; apply wrap64_range.
    - apply Z.land_nonneg. left. unfold low_mask. apply wrap64_range. }
  split; [exact H0|].
  apply below_pow4_bits; [exact H0|]. intros n Hn. subst x.
  rewrite !Z.lor_spec, testbit_head, testbit_tail, testbit_body by lia.
  split_cmp; rewrite ?testbit_tagged by lia;
    rewrite ?(testbit_above_pow4 y (k - 1)) by lia; split_cmp.
Qed.

End Generators.

Lemma syms_split s n j :
  (j <= n)%nat -> syms s n = syms (Z.shiftr s (2 * Z.of_nat j)) (n - j) ++ syms s j.
Proof.
  intros Hj. rewrite <- syms_app. f_equal. lia.
Qed.

Lemma syms_tagged y n : (n <= 31)%nat -> syms (Z.lor y luMSB) n = syms y n.
Proof.
  intros Hn. apply syms_ext. intros j Hj. apply sym_eq_bits. intros i Hi.
  rewrite testbit_tagged by lia. split_cmp. apply orb_false_r.
Qed.

Section GeneratorStrings.
Import Layers.
Variable k : nat.
Hypothesis Hk : (k <= 31)%nat.

(** A deletion removes one symbol of the string. *)
Lemma del_at_syms s j :
  (j < k)%nat ->
  syms (del_at s j) (k - 1) =
  syms (Z.shiftr s (2 * Z.of_nat (S j))) (k - 1 - j) ++ syms s j.
Proof.
  intros Hj. rewrite (syms_split (del_at s j) (k - 1) j) by lia. f_equal.
  - apply syms_ext. intros i Hi.
    rewrite !sym_shiftr, (sym_del_at k Hk) by lia.
    destruct (Nat.ltb_spec (i + j) j); [lia|]. f_equal. lia.
  - apply syms_ext. intros i Hi.
    rewrite (sym_del_at k Hk) by lia.
    destruct (Nat.ltb_spec i j); [reflexivity|lia].
Qed.

(** A substitution replaces one symbol of the string. *)
Lemma sub_at_syms s j m :
  (1 <= j <= k)%nat -> 0 <= m < 4 ->
  syms (sub_at s j m) k =
  syms (Z.shiftr s (2 * Z.of_nat j)) (k - j) ++ m :: syms s (j - 1).
Proof.
  intros Hj Hm. rewrite (syms_split (sub_at s j m) k j) by lia. f_equal.
  - apply syms_ext. intros i Hi.
    rewrite !sym_shiftr, (sym_sub_at k Hk) by lia.
    destruct (Nat.eqb_spec (i + j) (j - 1)); [lia|reflexivity].
  - destruct j as [|j]; [lia|]. replace (S j - 1)%nat with j by lia.
    cbn [syms]. f_equal.
    + rewrite (sym_sub_at k Hk) by lia.
      replace (S j - 1)%nat with j by lia. rewrite Nat.eqb_refl. reflexivity.
    + apply syms_ext. intros i Hi.
      rewrite (sym_sub_at k Hk) by lia.
      destruct (Nat.eqb_spec i (S j - 1)); [lia|reflexivity].
Qed.

(** An insertion adds one symbol to the string. *)
Lemma ins_at_syms y j m :
  0 <= y < 4 ^ Z.of_nat (k - 1) -> (j < k)%nat -> 0 <= m < 4 ->
  syms (ins_at (Z.lor y luMSB) j m) k =
  syms (Z.shiftr y (2 * Z.of_nat j)) (k - 1 - j) ++ m :: syms y j.
Proof.
  intros Hy Hj Hm.
  rewrite (syms_split (ins_at (Z.lor y luMSB) j m) k (S j)) by lia. f_equal.
  - replace (k - S j)%nat with (k - 1 - j)%nat by lia.
    apply syms_ext. intros i Hi.
    rewrite !sym_shiftr, (sym_ins_at k Hk) by (assumption || lia).
    destruct (Nat.ltb_spec (i + S j) j); [lia|].
    destruct (Nat.eqb_spec (i + S j) j); [lia|]. f_equal. lia.
  - cbn [syms]. f_equal.
    + rewrite (sym_ins_at k Hk) by (assumption || lia).
      rewrite Nat.ltb_irrefl, Nat.eqb_refl. reflexivity.
    + apply syms_ext. intros i Hi.
      rewrite (sym_ins_at k Hk) by (assumption || lia).
      destruct (Nat.ltb_spec i j); [reflexivity|lia].
Qed.

End GeneratorStrings.

(** ** The label store *)

Lemma rd_wr_eq h x v : 0 <= x -> Z.of_nat (length h) > x -> rd (wr h x v) x = v.
Proof.
  intros Hx Hlen. unfold rd, wr. apply list_lookup_total_insert_eq. lia.
Qed.

Lemma rd_wr_ne h x y v : 0 <= x -> 0 <= y -> x <> y -> rd (wr h x v) y = rd h y.
Proof.
  intros Hx Hy Hne. unfold rd, wr. apply list_lookup_total_insert_ne. lia.
Qed.

Lemma length_wr h x v : length (wr h x v) = length h.
Proof. apply length_insert. Qed.

Lemma rdb_wrb_eq a x v : 0 <= x -> Z.of_nat (length a) > x -> rdb (wrb a x v) x = v.
Proof.
  intros Hx Hlen. unfold rdb, wrb. apply list_lookup_total_insert_eq. lia.
Qed.

Lemma rdb_wrb_ne a x y v : 0 <= x -> 0 <= y -> x <> y -> rdb (wrb a x v) y = rdb a y.
Proof.
  intros Hx Hy Hne. unfold rdb, wrb. apply list_lookup_total_insert_ne. lia.
Qed.

Lemma length_wrb a x v : length (wrb a x v) = length a.
Proof. apply length_insert. Qed.

(** ** Vertices *)

Lemma luMSB_value : luMSB = 2 ^ 63.
Proof. reflexivity. Qed.

Lemma kmer_below_tag k x : (k <= 31)%nat -> is_kmer k x -> x < luMSB.
Proof.
  intros Hk [_ Hx]. pose proof (pow4_le_62 k Hk). rewrite luMSB_value. lia.
Qed.

Lemma km1mer_above_tag k v : (k <= 31)%nat -> is_km1mer k v -> luMSB <= v.
Proof.
  intros Hk (y & Hy & ->). pose proof (pow4_le_62 (k - 1) ltac:(lia)).
  rewrite tagged_add by lia. lia.
Qed.

Lemma untag_tagged y : 0 <= y < 2 ^ 62 -> Z.lxor (Z.lor y luMSB) luMSB = y.
Proof.
  intros Hy. apply Z.bits_inj'. intros n Hn.
  rewrite Z.lxor_spec, testbit_tagged, testbit_luMSB by assumption.
  destruct (Z.eqb_spec n 63) as [->|].
  - rewrite <- (Z.mod_small y (2 ^ 62)) by assumption.
    rewrite Z.mod_pow2_bits_high by lia. reflexivity.
  - rewrite orb_false_r. apply xorb_false_r.
Qed.

Lemma kmer_vertex k x : is_kmer k x -> vertex k x.
Proof. intros H. left. exact H. Qed.

(** Closed well-formedness goals on concrete inputs. *)
Ltac kmers_ok :=
  repeat match goal with
    | |- cliques_ok _ _ => unfold cliques_ok
    | |- Forall _ _ => constructor
    | |- vertex _ _ => apply kmer_vertex; split; first [lia | reflexivity]
    end.

Lemma vertex_cases k v :
  (k <= 31)%nat -> vertex k v ->
  (v < luMSB /\ is_kmer k v) \/ (luMSB <= v /\ is_km1mer k v).
Proof.
  intros Hk [H|H].
  - left. split; [eapply kmer_below_tag; eassumption | assumption].
  - right. split; [eapply km1mer_above_tag; eassumption | assumption].
Qed.

Lemma vstr_kmer k x : (k <= 31)%nat -> is_kmer k x -> vstr k x = syms x k.
Proof.
  intros Hk Hx. unfold vstr. pose proof (kmer_below_tag k x Hk Hx).
  destruct (Z.ltb_spec x luMSB); [reflexivity|lia].
Qed.

Lemma vstr_tagged k y :
  (k <= 31)%nat -> 0 <= y < 4 ^ Z.of_nat (k - 1) ->
  vstr k (Z.lor y luMSB) = syms y (k - 1).
Proof.
  intros Hk Hy. unfold vstr.
  pose proof (km1mer_above_tag k (Z.lor y luMSB) Hk (ex_intro _ y (conj Hy eq_refl))).
  destruct (Z.ltb_spec (Z.lor y luMSB) luMSB); [lia|].
  apply syms_tagged. lia.
Qed.

(** ** What the generators produce *)

Lemma in_deletions s k x :
  In x (Layers.deletions s k) <-> exists j, (j < k)%nat /\ x = Layers.del_at s j.
Proof.
  unfold Layers.deletions. rewrite in_map_iff. split.
  - intros (j & <- & Hj). apply in_seq in Hj. exists j. split; [lia|reflexivity].
  - intros (j & Hj & ->). exists j. split; [reflexivity|]. apply in_seq. lia.
Qed.

Lemma in_symbols m : In m [0; 1; 2; 3] <-> 0 <= m < 4.
Proof. simpl. lia. Qed.

Lemma in_substitutions s k x :
  In x (Layers.substitutions s k) <->
  exists j m, (1 <= j <= k)%nat /\ 0 <= m < 4 /\ x = Layers.sub_at s j m.
Proof.
  unfold Layers.substitutions. rewrite in_flat_map. split.
  - intros (j & Hj & Hx). apply in_seq in Hj. apply in_map_iff in Hx as (m & <- & Hm).
    apply in_symbols in Hm. exists j, m. split; [lia|]. split; [assumption|reflexivity].
  - intros (j & m & Hj & Hm & ->). exists j. split; [apply in_seq; lia|].
    apply in_map_iff. exists m. split; [reflexivity|]. apply in_symbols. assumption.
Qed.

Lemma in_insertions s k x :
  In x (Layers.insertions s k) <->
  exists j m, (j < k)%nat /\ 0 <= m < 4 /\ x = Layers.ins_at s j m.
Proof.
  unfold Layers.insertions. rewrite in_flat_map. split.
  - intros (j & Hj & Hx). apply in_seq in Hj. apply in_map_iff in Hx as (m & <- & Hm).
    apply in_symbols in Hm. exists j, m. split; [lia|]. split; [assumption|reflexivity].
  - intros (j & m & Hj & Hm & ->). exists j. split; [apply in_seq; lia|].
    apply in_map_iff. exists m. split; [reflexivity|]. apply in_symbols. assumption.
Qed.

Section GeneratedVertices.
Variable k : nat.
Hypothesis Hk : (k <= 31)%nat.

Lemma deletions_km1mer s :
  is_kmer k s -> Forall (fun x => 0 <= x < 4 ^ Z.of_nat (k - 1)) (Layers.deletions s k).
Proof.
  intros Hs. apply Forall_forall. intros x Hx.
  apply list_elem_of_In, in_deletions in Hx as (j & Hj & ->).
  apply del_at_range; assumption.
Qed.

Lemma substitutions_kmer s :
  is_kmer k s -> Forall (is_kmer k) (Layers.substitutions s k).
Proof.
  intros Hs. apply Forall_forall. intros x Hx.
  apply list_elem_of_In, in_substitutions in Hx as (j & m & Hj & Hm & ->).
  apply sub_at_range; assumption.
Qed.

Lemma insertions_kmer v :
  is_km1mer k v -> Forall (is_kmer k) (Layers.insertions v k).
Proof.
  intros (y & Hy & ->). apply Forall_forall. intros x Hx.
  apply list_elem_of_In, in_insertions in Hx as (j & m & Hj & Hm & ->).
  apply ins_at_range; assumption.
Qed.

Lemma neighbors_vertex s v : vertex k s -> In v (neighbors k s) -> vertex k v.
Proof.
  intros Hs Hv. unfold neighbors in Hv.
  destruct (vertex_cases k s Hk Hs) as [[Hlt Hkm]|[Hge Hkm]].
  - destruct (Z.ltb_spec s luMSB); [|lia].
    apply in_app_or in Hv as [Hv|Hv].
    + right. apply in_map_iff in Hv as (x & <- & Hx).
      exists x. split; [|reflexivity].
      pose proof (deletions_km1mer s Hkm) as HF.
      rewrite Forall_forall in HF. apply HF, list_elem_of_In. assumption.
    + left. pose proof (substitutions_kmer s Hkm) as HF.
      rewrite Forall_forall in HF. apply HF, list_elem_of_In. assumption.
  - destruct (Z.ltb_spec s luMSB); [lia|].
    left. pose proof (insertions_kmer s Hkm) as HF.
    rewrite Forall_forall in HF. apply HF, list_elem_of_In. assumption.
Qed.

End GeneratedVertices.

(** ** Frontier expansion *)

Lemma marks_grow_refl h vis : marks_grow h vis h vis.
Proof. unfold marks_grow. auto. Qed.

Lemma marks_grow_trans h0 v0 h1 v1 h2 v2 :
  marks_grow h0 v0 h1 v1 -> marks_grow h1 v1 h2 v2 -> marks_grow h0 v0 h2 v2.
Proof.
  intros (L1 & L2 & H1 & H2) (L1' & L2' & H1' & H2').
  split; [congruence|]. split; [congruence|]. split.
  - intros x Hx. destruct (H1 x Hx) as [E|[E1 E2]], (H1' x Hx) as [E'|[E1' E2']];
      try (left; congruence); try (right; split; congruence).
  - intros y Hy. destruct (H2 y Hy) as [E|[E1 E2]], (H2' y Hy) as [E'|[E1' E2']];
      try (left; congruence); try (right; split; congruence).
Qed.

Lemma marked_grow h vis h' vis' v :
  0 <= v -> marks_grow h vis h' vis' -> marked h vis v -> marked h' vis' v.
Proof.
  intros Hv (_ & _ & H1 & H2). unfold marked.
  destruct (Z.ltb_spec v luMSB).
  - intros Hm. destruct (H1 v Hv) as [E|[E1 E2]]; congruence.
  - intros Hm.
    assert (0 <= Z.lxor v luMSB) as Hy by (apply Z.lxor_nonneg; rewrite luMSB_value; lia).
    destruct (H2 _ Hy) as [E|[E1 E2]]; congruence.
Qed.

Lemma tagged_inj y y' :
  0 <= y < 2 ^ 62 -> 0 <= y' < 2 ^ 62 -> Z.lor y luMSB = Z.lor y' luMSB -> y = y'.
Proof. intros Hy Hy'. rewrite !tagged_add by assumption. lia. Qed.

Section Expansion.
Import Layers.
Variable k : nat.
Hypothesis Hk : (k <= 31)%nat.
Variables (h : list Z) (vis : list bool).
Hypothesis Hsized : store_sized k h vis.

Lemma admit_k_inv st x :
  is_kmer k x -> expansion_inv k h vis st -> expansion_inv k h vis (admit_k st x).
Proof.
  intros Hx Hinv. unfold admit_k.
  destruct (Z.eqb_spec (rd (labels st) x) (-3)) as [Heq|Hne]; [|exact Hinv].
  cbn [negb]. destruct Hinv as ((L1 & L2 & G1 & G2) & Hk1 & Hk2 & Hv).
  pose proof (kmer_below_tag k x Hk Hx) as Hlt.
  assert (Hhx : rd h x = -3) by (destruct (G1 x ltac:(apply Hx)) as [E|[E _]]; congruence).
  assert (Hin : Z.of_nat (length (labels st)) > x)
    by (rewrite L1; destruct Hsized as [-> _]; destruct Hx; lia).
  split; [split; [|split; [|split]]|split; [|split]]; cbn [new_layer labels visited].
  - rewrite length_wr. assumption.
  - assumption.
  - intros x' Hx'. destruct (Z.eq_dec x' x) as [->|Hne].
    + right. split; [assumption|]. apply rd_wr_eq; [apply Hx|assumption].
    + rewrite rd_wr_ne by (try apply Hx; lia). apply G1. assumption.
  - assumption.
  - intros x' Hx'. rewrite in_app_iff. destruct (Z.eq_dec x' x) as [->|Hne].
    + rewrite rd_wr_eq by (try apply Hx; assumption). simpl. tauto.
    + rewrite rd_wr_ne by (try apply Hx; try apply Hx'; lia).
      rewrite <- Hk1 by assumption. simpl. intuition congruence.
  - intros y Hy. rewrite in_app_iff. rewrite <- Hk2 by assumption.
    pose proof (km1mer_above_tag k _ Hk (ex_intro _ y (conj Hy eq_refl))).
    simpl. intuition lia.
  - intros v Hin'. apply in_app_or in Hin' as [Hin'|[<-|[]]]; [auto|left; assumption].
Qed.

Lemma admit_km1_inv st y :
  0 <= y < 4 ^ Z.of_nat (k - 1) -> (1 <= k)%nat ->
  expansion_inv k h vis st -> expansion_inv k h vis (admit_km1 st y).
Proof.
  intros Hy Hk1 Hinv. unfold admit_km1.
  destruct (rdb (visited st) y) eqn:Hvy; [exact Hinv|].
  destruct Hinv as ((L1 & L2 & G1 & G2) & Hk1' & Hk2 & Hv).
  pose proof (pow4_le_62 (k - 1) ltac:(lia)) as Hp.
  pose proof (km1mer_above_tag k _ Hk (ex_intro _ y (conj Hy eq_refl))) as Hge.
  assert (Hvis : rdb vis y = false) by (destruct (G2 y ltac:(apply Hy)) as [E|[E _]]; congruence).
  assert (Hin : Z.of_nat (length (visited st)) > y)
    by (rewrite L2; destruct Hsized as [_ [Hs|Hs]]; lia).
  split; [split; [|split; [|split]]|split; [|split]]; cbn [new_layer labels visited].
  - assumption.
  - rewrite length_wrb. assumption.
  - assumption.
  - intros y' Hy'. destruct (Z.eq_dec y' y) as [->|Hne].
    + right. split; [assumption|]. apply rdb_wrb_eq; [apply Hy|assumption].
    + rewrite rdb_wrb_ne by (try apply Hy; lia). apply G2. assumption.
  - intros x Hx. rewrite in_app_iff. rewrite <- Hk1' by assumption.
    pose proof (kmer_below_tag k x Hk Hx). simpl. intuition lia.
  - intros y' Hy'. rewrite in_app_iff. destruct (Z.eq_dec y' y) as [->|Hne].
    + rewrite rdb_wrb_eq by (try apply Hy; assumption). simpl. tauto.
    + rewrite rdb_wrb_ne by (try apply Hy; try apply Hy'; lia).
      rewrite <- Hk2 by assumption. simpl.
      pose proof (tagged_inj y y' ltac:(lia) ltac:(lia)). intuition congruence.
  - intros v Hin'. apply in_app_or in Hin' as [Hin'|[<-|[]]]; [auto|].
    right. exists y. split; [assumption|reflexivity].
Qed.

Lemma fold_admit_k_inv l st :
  Forall (is_kmer k) l -> expansion_inv k h vis st ->
  expansion_inv k h vis (fold_left admit_k l st).
Proof.
  intros Hl. revert st. induction Hl as [|x l Hx Hl IH]; intros st Hinv; [exact Hinv|].
  simpl. apply IH, admit_k_inv; assumption.
Qed.

Lemma fold_admit_km1_inv l st :
  Forall (fun y => 0 <= y < 4 ^ Z.of_nat (k - 1)) l -> (1 <= k)%nat ->
  expansion_inv k h vis st ->
  expansion_inv k h vis (fold_left admit_km1 l st).
Proof.
  intros Hl Hk1. revert st. induction Hl as [|x l Hx Hl IH]; intros st Hinv; [exact Hinv|].
  simpl. apply IH, admit_km1_inv; assumption.
Qed.

Lemma expand_inv st s :
  vertex k s -> expansion_inv k h vis st -> expansion_inv k h vis (expand k st s).
Proof.
  intros Hs Hinv. unfold expand.
  destruct (vertex_cases k s Hk Hs) as [[Hlt Hkm]|[Hge Hkm]].
  - destruct (Z.ltb_spec s luMSB); [|lia].
    apply fold_admit_k_inv; [apply substitutions_kmer; assumption|].
    destruct (Nat.eq_dec k 0%nat) as [E0|E0].
    + assert (deletions s k = []) as -> by (unfold deletions; rewrite E0; reflexivity).
      exact Hinv.
    + apply fold_admit_km1_inv; [apply deletions_km1mer; assumption | lia | assumption].
  - destruct (Z.ltb_spec s luMSB); [lia|].
    apply fold_admit_k_inv; [apply insertions_kmer; assumption | assumption].
Qed.

Lemma fold_expand_inv l st :
  Forall (vertex k) l -> expansion_inv k h vis st ->
  expansion_inv k h vis (fold_left (expand k) l st).
Proof.
  intros Hl. revert st. induction Hl as [|x l Hx Hl IH]; intros st Hinv; [exact Hinv|].
  simpl. apply IH, expand_inv; assumption.
Qed.

Lemma expansion_inv_start :
  expansion_inv k h vis {| new_layer := []; labels := h; visited := vis |}.
Proof.
  split; [apply marks_grow_refl|]. cbn [new_layer labels visited].
  split; [|split].
  - intros x _. simpl. split; [tauto|]. intros [H1 H2]. congruence.
  - intros y _. simpl. split; [tauto|]. intros [H1 H2]. congruence.
  - intros v [].
Qed.

(** [getNextLayer] leaves in the layer exactly the vertices it marked. *)
Lemma next_layer_inv bfs_layer :
  Forall (vertex k) bfs_layer ->
  expansion_inv k h vis (next_layer bfs_layer k h vis).
Proof.
  intros Hl. unfold next_layer.
  destruct bfs_layer as [|s l]; [apply expansion_inv_start|].
  cbn [length Nat.eqb]. apply fold_expand_inv; [assumption|apply expansion_inv_start].
Qed.

End Expansion.

Lemma rd_wr_cases h x v y :
  0 <= x -> 0 <= y ->
  rd (wr h x v) y = rd h y \/ (y = x /\ rd (wr h x v) y = v /\ Z.of_nat (length h) > x).
Proof.
  intros Hx Hy. destruct (Z.eq_dec y x) as [->|Hne].
  - destruct (Z_lt_le_dec x (Z.of_nat (length h))).
    + right. split; [reflexivity|]. split; [apply rd_wr_eq; lia | lia].
    + left. unfold wr. rewrite list_insert_ge by lia. reflexivity.
  - left. apply rd_wr_ne; lia.
Qed.

Lemma rdb_wrb_cases a x v y :
  0 <= x -> 0 <= y ->
  rdb (wrb a x v) y = rdb a y \/ (y = x /\ rdb (wrb a x v) y = v /\ Z.of_nat (length a) > x).
Proof.
  intros Hx Hy. destruct (Z.eq_dec y x) as [->|Hne].
  - destruct (Z_lt_le_dec x (Z.of_nat (length a))).
    + right. split; [reflexivity|]. split; [apply rdb_wrb_eq; lia | lia].
    + left. unfold wrb. rewrite list_insert_ge by lia. reflexivity.
  - left. apply rdb_wrb_ne; lia.
Qed.

Section ExpansionSteps.
Import Layers.
Variable k : nat.

(** One state of [getNextLayer] comes after another. *)
Local Abbreviation grows st st' :=
  (marks_grow (labels st) (visited st) (labels st') (visited st')).

Lemma admit_k_grows st x : 0 <= x -> grows st (admit_k st x).
Proof.
  intros Hx. unfold admit_k.
  destruct (Z.eqb_spec (rd (labels st) x) (-3)) as [Heq|Hne]; [|apply marks_grow_refl].
  cbn [negb labels visited]. split; [apply length_wr|]. split; [reflexivity|].
  split; [|auto].
  intros x' Hx'. destruct (rd_wr_cases (labels st) x (-2) x' Hx Hx') as [E|(-> & E & _)].
  - left. assumption.
  - right. split; assumption.
Qed.

Lemma admit_km1_grows st y : 0 <= y -> grows st (admit_km1 st y).
Proof.
  intros Hy. unfold admit_km1.
  destruct (rdb (visited st) y) eqn:Hvy; [apply marks_grow_refl|].
  cbn [labels visited]. split; [reflexivity|]. split; [apply length_wrb|].
  split; [auto|].
  intros y' Hy'. destruct (rdb_wrb_cases (visited st) y true y' Hy Hy') as [E|(-> & E & _)].
  - left. assumption.
  - right. split; assumption.
Qed.

Lemma fold_grows (f : expansion -> Z -> expansion) (l : list Z) :
  (forall st x, In x l -> grows st (f st x)) ->
  forall st, grows st (fold_left f l st).
Proof.
  induction l as [|x l IH]; intros Hf st; [apply marks_grow_refl|].
  simpl. eapply marks_grow_trans.
  - apply Hf. left. reflexivity.
  - apply IH. intros st' x' Hx'. apply Hf. right. assumption.
Qed.

Lemma wrap64_nonneg z : 0 <= wrap64 z.
Proof. apply wrap64_range. Qed.

Lemma generated_nonneg s x :
  In x (deletions s k) \/ In x (substitutions s k) \/ In x (insertions s k) -> 0 <= x.
Proof.
  intros [H|[H|H]].
  - apply in_deletions in H as (j & _ & ->). unfold del_at.
    apply Z.lor_nonneg. split; [apply wrap64_nonneg|].
    apply Z.land_nonneg. left. apply wrap64_nonneg.
  - apply in_substitutions in H as (j & m & _ & _ & ->). unfold sub_at.
    apply Z.lor_nonneg. split; [apply Z.lor_nonneg; split; apply wrap64_nonneg|].
    apply Z.land_nonneg. left. apply wrap64_nonneg.
  - apply in_insertions in H as (j & m & _ & _ & ->). unfold ins_at.
    apply Z.lor_nonneg. split; [apply Z.lor_nonneg; split; apply wrap64_nonneg|].
    apply Z.land_nonneg. left. apply wrap64_nonneg.
Qed.

Lemma expand_grows st s : grows st (expand k st s).
Proof.
  unfold expand. destruct (s <? luMSB).
  - eapply marks_grow_trans.
    + apply (fold_grows admit_km1). intros st' x Hx. apply admit_km1_grows.
      eapply generated_nonneg. left. eassumption.
    + apply (fold_grows admit_k). intros st' x Hx. apply admit_k_grows.
      eapply generated_nonneg. right. left. eassumption.
  - apply (fold_grows admit_k). intros st' x Hx. apply admit_k_grows.
    eapply generated_nonneg. right. right. eassumption.
Qed.

Lemma fold_expand_grows l st : grows st (fold_left (expand k) l st).
Proof. apply fold_grows. intros. apply expand_grows. Qed.

(** Where the vertices of the new layer come from. *)
Lemma fold_admit_k_layer l st v :
  In v (new_layer (fold_left admit_k l st)) -> In v (new_layer st) \/ In v l.
Proof.
  revert st. induction l as [|x l IH]; intros st Hv; [left; exact Hv|].
  simpl in Hv. apply IH in Hv as [Hv|Hv]; [|right; right; exact Hv].
  unfold admit_k in Hv. destruct (negb _); [left; exact Hv|].
  cbn [new_layer] in Hv. apply in_app_or in Hv as [Hv|[<-|[]]]; [left|right; left]; auto.
Qed.

Lemma fold_admit_km1_layer l st v :
  In v (new_layer (fold_left admit_km1 l st)) ->
  In v (new_layer st) \/ In v (map (fun x => Z.lor x luMSB) l).
Proof.
  revert st. induction l as [|x l IH]; intros st Hv; [left; exact Hv|].
  simpl in Hv. apply IH in Hv as [Hv|Hv]; [|right; right; exact Hv].
  unfold admit_km1 in Hv. destruct (rdb _ _); [left; exact Hv|].
  cbn [new_layer] in Hv. apply in_app_or in Hv as [Hv|[<-|[]]]; [left|right; left]; auto.
Qed.

Lemma expand_layer st s v :
  In v (new_layer (expand k st s)) -> In v (new_layer st) \/ In v (neighbors k s).
Proof.
  unfold expand, neighbors. destruct (s <? luMSB); intros Hv.
  - apply fold_admit_k_layer in Hv as [Hv|Hv].
    + apply fold_admit_km1_layer in Hv as [Hv|Hv]; [left; exact Hv|].
      right. apply in_or_app. left. exact Hv.
    + right. apply in_or_app. right. exact Hv.
  - apply fold_admit_k_layer in Hv. exact Hv.
Qed.

Lemma fold_expand_layer l st v :
  In v (new_layer (fold_left (expand k) l st)) ->
  In v (new_layer st) \/ exists s, In s l /\ In v (neighbors k s).
Proof.
  revert st. induction l as [|s l IH]; intros st Hv; [left; exact Hv|].
  simpl in Hv. apply IH in Hv as [Hv|(s' & Hs' & Hv)].
  - apply expand_layer in Hv as [Hv|Hv]; [left; exact Hv|].
    right. exists s. split; [left; reflexivity | exact Hv].
  - right. exists s'. split; [right; exact Hs' | exact Hv].
Qed.

(** Every vertex of the layer [getNextLayer] returns was generated from a
    vertex of the layer it was given. *)
Lemma next_layer_from bfs_layer h vis v :
  In v (new_layer (next_layer bfs_layer k h vis)) ->
  exists s, In s bfs_layer /\ In v (neighbors k s).
Proof.
  unfold next_layer. destruct bfs_layer as [|s l]; [intros []|].
  cbn [length Nat.eqb]. intros Hv.
  apply fold_expand_layer in Hv as [[]|Hv]. exact Hv.
Qed.

End ExpansionSteps.

Lemma store_sized_grow k h vis h' vis' :
  marks_grow h vis h' vis' -> store_sized k h vis -> store_sized k h' vis'.
Proof. intros (L1 & L2 & _) [H1 H2]. unfold store_sized. rewrite L1, L2. auto. Qed.

Section ExpansionCover.
Import Layers.
Variable k : nat.
Hypothesis Hk : (k <= 31)%nat.

Lemma admit_k_marks st x :
  0 <= x < Z.of_nat (length (labels st)) -> rd (labels (admit_k st x)) x <> -3.
Proof.
  intros Hx. unfold admit_k.
  destruct (Z.eqb_spec (rd (labels st) x) (-3)) as [Heq|Hne]; cbn [negb labels].
  - rewrite rd_wr_eq by lia. discriminate.
  - assumption.
Qed.

Lemma admit_km1_marks st y :
  0 <= y < Z.of_nat (length (visited st)) -> rdb (visited (admit_km1 st y)) y = true.
Proof.
  intros Hy. unfold admit_km1.
  destruct (rdb (visited st) y) eqn:E; cbn [visited]; [assumption|].
  apply rdb_wrb_eq; lia.
Qed.

Lemma fold_admit_k_marks l : forall st,
  store_sized k (labels st) (visited st) -> Forall (is_kmer k) l ->
  forall x, In x l ->
            marked (labels (fold_left admit_k l st)) (visited (fold_left admit_k l st)) x.
Proof.
  induction l as [|x0 l IH]; intros st Hsz Hl x Hx; [destruct Hx|].
  inversion Hl as [|? ? Hx0 Hl']; subst. simpl.
  pose proof (admit_k_grows st x0 ltac:(apply Hx0)) as Hg.
  destruct Hx as [<-|Hx].
  - eapply (marked_grow _ _ _ _ _ (proj1 Hx0)); [apply (fold_grows admit_k) |].
    + intros st' x' Hx'. apply admit_k_grows.
      rewrite Forall_forall in Hl'. apply (Hl' x'), list_elem_of_In, Hx'.
    + unfold marked. pose proof (kmer_below_tag k x0 Hk Hx0).
      destruct (Z.ltb_spec x0 luMSB); [|lia].
      apply admit_k_marks. destruct Hsz as [-> _]. exact Hx0.
  - apply IH; [eapply store_sized_grow; eassumption | assumption | assumption].
Qed.

Lemma fold_admit_km1_marks l : forall st,
  store_sized k (labels st) (visited st) -> (1 <= k)%nat ->
  Forall (fun y => 0 <= y < 4 ^ Z.of_nat (k - 1)) l ->
  forall y, In y l ->
            marked (labels (fold_left admit_km1 l st)) (visited (fold_left admit_km1 l st))
                   (Z.lor y luMSB).
Proof.
  induction l as [|y0 l IH]; intros st Hsz Hk1 Hl y Hy; [destruct Hy|].
  inversion Hl as [|? ? Hy0 Hl']; subst. simpl.
  pose proof (admit_km1_grows st y0 ltac:(apply Hy0)) as Hg.
  pose proof (pow4_le_62 (k - 1) ltac:(lia)) as Hp.
  destruct Hy as [<-|Hy].
  - pose proof (km1mer_above_tag k _ Hk (ex_intro _ y0 (conj Hy0 eq_refl))) as Hge.
    assert (0 <= Z.lor y0 luMSB) as Hnn by (pose proof luMSB_value; lia).
    eapply (marked_grow _ _ _ _ _ Hnn); [apply (fold_grows admit_km1) |].
    + intros st' y' Hy'. apply admit_km1_grows.
      rewrite Forall_forall in Hl'. apply (Hl' y'), list_elem_of_In, Hy'.
    + unfold marked. destruct (Z.ltb_spec (Z.lor y0 luMSB) luMSB); [lia|].
      rewrite untag_tagged by lia.
      apply admit_km1_marks. destruct Hsz as [_ [Hs|Hs]]; lia.
  - apply IH; [eapply store_sized_grow; eassumption | assumption | assumption | assumption].
Qed.

Lemma expand_marks st s v :
  store_sized k (labels st) (visited st) -> vertex k s -> In v (neighbors k s) ->
  marked (labels (expand k st s)) (visited (expand k st s)) v.
Proof.
  intros Hsz Hs Hv. unfold expand, neighbors in *.
  destruct (vertex_cases k s Hk Hs) as [[Hlt Hkm]|[Hge Hkm]].
  - destruct (Z.ltb_spec s luMSB); [|lia].
    set (st1 := fold_left admit_km1 (deletions s k) st).
    assert (Hg1 : marks_grow (labels st) (visited st) (labels st1) (visited st1)).
    { apply (fold_grows admit_km1). intros st' x Hx. apply admit_km1_grows.
      eapply generated_nonneg. left. eassumption. }
    apply in_app_or in Hv as [Hv|Hv].
    + apply in_map_iff in Hv as (y & <- & Hy).
      pose proof (deletions_km1mer k Hk s Hkm) as HF.
      assert (1 <= k)%nat as Hk1
          by (apply in_deletions in Hy as (j & Hj & _); lia).
      assert (Hy' : 0 <= y < 4 ^ Z.of_nat (k - 1))
        by (rewrite Forall_forall in HF; apply HF, list_elem_of_In, Hy).
      pose proof (km1mer_above_tag k _ Hk (ex_intro _ y (conj Hy' eq_refl))) as Hge.
      assert (0 <= Z.lor y luMSB) as Hnn by (pose proof luMSB_value; lia).
      eapply (marked_grow _ _ _ _ _ Hnn); [apply (fold_grows admit_k) |].
      * intros st' x Hx. apply admit_k_grows.
        eapply generated_nonneg. right. left. eassumption.
      * apply fold_admit_km1_marks; assumption.
    + apply fold_admit_k_marks; [eapply store_sized_grow; eassumption | | assumption].
      apply substitutions_kmer; assumption.
  - destruct (Z.ltb_spec s luMSB); [lia|].
    apply fold_admit_k_marks; [assumption | | assumption].
    apply insertions_kmer; assumption.
Qed.

Lemma neighbors_nonneg s v : In v (neighbors k s) -> 0 <= v.
Proof.
  unfold neighbors. destruct (s <? luMSB); intros Hv.
  - apply in_app_or in Hv as [Hv|Hv].
    + apply in_map_iff in Hv as (y & <- & Hy).
      apply Z.lor_nonneg. split; [|rewrite luMSB_value; lia].
      eapply generated_nonneg. left. eassumption.
    + eapply generated_nonneg. right. left. eassumption.
  - eapply generated_nonneg. right. right. eassumption.
Qed.

Lemma fold_expand_marks l : forall st,
  store_sized k (labels st) (visited st) -> Forall (vertex k) l ->
  forall s v, In s l -> In v (neighbors k s) ->
    marked (labels (fold_left (expand k) l st)) (visited (fold_left (expand k) l st)) v.
Proof.
  induction l as [|s0 l IH]; intros st Hsz Hl s v Hs Hv; [destruct Hs|].
  inversion Hl as [|? ? Hs0 Hl']; subst. simpl.
  destruct Hs as [<-|Hs].
  - eapply (marked_grow _ _ _ _ _ (neighbors_nonneg _ _ Hv)); [apply fold_expand_grows |].
    apply expand_marks; assumption.
  - eapply IH; try eassumption.
    eapply store_sized_grow; [apply expand_grows | assumption].
Qed.

(** [getNextLayer] expands from every vertex of the layer it is given:
    afterwards each generated neighbour of each such vertex is marked. *)
Lemma next_layer_marks bfs_layer h vis s v :
  store_sized k h vis -> Forall (vertex k) bfs_layer ->
  In s bfs_layer -> In v (neighbors k s) ->
  marked (labels (next_layer bfs_layer k h vis))
         (visited (next_layer bfs_layer k h vis)) v.
Proof.
  intros Hsz Hl Hs Hv. unfold next_layer.
  destruct bfs_layer as [|s0 l]; [destruct Hs|].
  cbn [length Nat.eqb].
  eapply (fold_expand_marks (s0 :: l)); try eassumption.
Qed.

End ExpansionCover.

(** ** The clique driver: well-formedness of its states *)

Lemma frontier_ok_grow k h vis h' vis' layer :
  marks_grow h vis h' vis' -> frontier_ok k h layer -> frontier_ok k h' layer.
Proof.
  intros (_ & _ & G & _) Hl. eapply Forall_impl; [exact Hl|].
  intros v [Hv Hm]. split; [assumption|]. intros Hlt.
  assert (0 <= v) as Hnn.
  { destruct Hv as [[? _]|(y & Hy & ->)]; [assumption|].
    apply Z.lor_nonneg. pose proof luMSB_value. lia. }
  destruct (G v Hnn) as [E|[E1 E2]]; [rewrite E; auto | lia].
Qed.

Lemma store_ok_grow k h vis h' vis' :
  marks_grow h vis h' vis' -> store_ok k h vis -> store_ok k h' vis'.
Proof.
  intros Hg [Hsz Hlo]. split; [eapply store_sized_grow; eassumption|].
  intros x Hx. destruct Hg as (_ & _ & G & _).
  specialize (Hlo x Hx). destruct (G x Hx) as [E|[E1 E2]]; lia.
Qed.

Lemma num_kmers_pow4 (k : nat) :
  Z.shiftl 1 (Z.shiftl (Z.of_nat k) 1) = 4 ^ Z.of_nat k.
Proof.
  rewrite (Z.shiftl_mul_pow2 (Z.of_nat k) 1) by lia.
  rewrite Z.shiftl_1_l. change (2 ^ 1) with 2.
  rewrite Z.mul_comm, Z.pow_mul_r by lia. reflexivity.
Qed.

Lemma allocated_sized k :
  (k <= 31)%nat ->
  store_ok k (CliqueDriver.allocated k).1 (CliqueDriver.allocated k).2.
Proof.
  intros Hk. unfold CliqueDriver.allocated. cbv zeta. cbn [fst snd].
  rewrite num_kmers_pow4.
  assert (Hpos : 0 < 4 ^ Z.of_nat k) by (apply Z.pow_pos_nonneg; lia).
  split; [split|].
  - rewrite length_replicate, Z2Nat.id by lia. reflexivity.
  - rewrite length_replicate. rewrite (Z2Nat.id (4 ^ Z.of_nat k)) by lia.
    rewrite Z.shiftr_div_pow2 by lia. change (2 ^ 2) with 4.
    rewrite Z2Nat.id by (apply Z.div_pos; lia).
    destruct k as [|k']; [right; reflexivity|left].
    replace (S k' - 1)%nat with k' by lia.
    rewrite Nat2Z.inj_succ, Z.pow_succ_r by lia.
    rewrite Z.mul_comm, Z.div_mul by lia. lia.
  - intros x Hx. unfold rd.
    destruct (decide (Z.to_nat x < Z.to_nat (4 ^ Z.of_nat k))%nat).
    + rewrite lookup_total_replicate_2 by assumption. lia.
    + rewrite list_lookup_total_alt, lookup_ge_None_2 by (rewrite length_replicate; lia).
      simpl. lia.
Qed.

Section Seeding.
Import CliqueDriver.
Variable k : nat.
Hypothesis Hk : (k <= 31)%nat.

Lemma vertex_nonneg v : vertex k v -> 0 <= v.
Proof.
  intros [[? _]|(y & Hy & ->)]; [assumption|].
  apply Z.lor_nonneg. pose proof luMSB_value. lia.
Qed.

(** Pre-labelling one member writes the clique index at a k-mer, and
    nothing else in [h]. *)
Lemma seed_member_spec i h v cur :
  vertex k cur -> Z.of_nat (length h) = 4 ^ Z.of_nat k ->
  let st := seed_member i (h, v) cur in
  length st.1 = length h /\ length st.2 = length v /\
  (forall x, 0 <= x -> x <> cur -> rd st.1 x = rd h x) /\
  (cur < luMSB -> rd st.1 cur = Z.of_nat i) /\
  (luMSB <= cur -> st.1 = h).
Proof.
  intros Hv Hlen. unfold seed_member.
  destruct (vertex_cases k cur Hk Hv) as [[Hlt Hkm]|[Hge Hkm]].
  - destruct (Z.geb_spec cur luMSB); [lia|]. cbn [fst snd].
    split; [apply length_wr|]. split; [reflexivity|].
    split; [|split].
    + intros x Hx Hne. apply rd_wr_ne; [apply Hkm | assumption | congruence].
    + intros _. apply rd_wr_eq; [apply Hkm | destruct Hkm; lia].
    + lia.
  - destruct (Z.geb_spec cur luMSB); [|lia]. cbn [fst snd].
    split; [reflexivity|]. split; [apply length_wrb|].
    split; [reflexivity|]. split; [lia|reflexivity].
Qed.

Lemma seed_clique_spec i c : forall h v,
  Forall (vertex k) c -> Z.of_nat (length h) = 4 ^ Z.of_nat k ->
  let st := fold_left (seed_member i) c (h, v) in
  length st.1 = length h /\ length st.2 = length v /\
  (forall x, 0 <= x -> ~ In x c \/ luMSB <= x -> rd st.1 x = rd h x) /\
  (forall x, In x c -> x < luMSB -> rd st.1 x = Z.of_nat i).
Proof.
  induction c as [|cur c IH]; intros h v Hc Hlen.
  - simpl. split; [reflexivity|]. split; [reflexivity|]. split; [reflexivity|intros ? []].
  - inversion Hc as [|? ? Hcur Hc']; subst. cbn [fold_left].
    destruct (seed_member_spec i h v cur Hcur Hlen) as (L1 & L2 & Hne & Heq & Htag).
    destruct (seed_member i (h, v) cur) as [h1 v1] eqn:E. cbn [fst snd] in *.
    destruct (IH h1 v1 Hc' ltac:(lia)) as (L1' & L2' & Hout & Hin).
    split; [lia|]. split; [lia|]. split.
    + intros x Hx Hnin.
      assert (Hnin' : ~ In x c \/ luMSB <= x)
        by (destruct Hnin as [Hnin|Hge];
            [left; intros ?; apply Hnin; right; assumption | right; assumption]).
      rewrite Hout by assumption.
      destruct (Z.eq_dec x cur) as [->|Hxc]; [|apply Hne; assumption].
      destruct Hnin as [Hnin|Hge]; [exfalso; apply Hnin; left; reflexivity|].
      rewrite Htag by assumption. reflexivity.
    + intros x [<-|Hx] Hlt.
      * destruct (in_dec Z.eq_dec cur c) as [Hi|Hni]; [apply Hin; assumption|].
        rewrite Hout by (try apply (vertex_nonneg cur); auto). apply Heq. assumption.
      * apply Hin; assumption.
Qed.

(** The pre-labelling loop: the islands carry their cliques as first
    layers, and a label written is the index of a clique the k-mer is a
    member of. *)
Lemma seed_cliques_spec cliques : forall i0 h v,
  cliques_ok k cliques -> Z.of_nat (length h) = 4 ^ Z.of_nat k ->
  let r := seed_cliques i0 cliques (h, v) in
  r.1 = map (fun c => IslandInit (length c) c) cliques /\
  length r.2.1 = length h /\ length r.2.2 = length v /\
  (forall x, 0 <= x ->
     rd r.2.1 x = rd h x \/
     exists j c, cliques !! j = Some c /\ In x c /\ rd r.2.1 x = Z.of_nat (i0 + j)) /\
  (forall c x, In c cliques -> In x c -> x < luMSB ->
     exists j c', cliques !! j = Some c' /\ In x c' /\ rd r.2.1 x = Z.of_nat (i0 + j)).
Proof.
  induction cliques as [|c cliques IH]; intros i0 h v Hok Hlen.
  - simpl. split; [reflexivity|]. split; [reflexivity|]. split; [reflexivity|].
    split; [auto | intros ? ? []].
  - inversion Hok as [|? ? Hc Hok']; subst. cbn [seed_cliques].
    destruct (seed_clique_spec i0 c h v Hc Hlen) as (L1 & L2 & Hout & Hin).
    destruct (fold_left (seed_member i0) c (h, v)) as [h1 v1] eqn:E. cbn [fst snd] in *.
    specialize (IH (S i0) h1 v1 Hok' ltac:(lia)).
    destruct (seed_cliques (S i0) cliques (h1, v1)) as [isls [h2 v2]] eqn:E2.
    cbn [fst snd] in *. destruct IH as (Hisl & L1' & L2' & Hany & Hmem).
    split; [simpl; f_equal; assumption|].
    split; [lia|]. split; [lia|].
    assert (Hany' : forall x, 0 <= x ->
      rd h2 x = rd h x \/
      exists j c', (c :: cliques) !! j = Some c' /\ In x c' /\ rd h2 x = Z.of_nat (i0 + j)).
    { intros x Hx. destruct (Hany x Hx) as [Hsame|(j & c' & Hj & Hx' & Hlab)].
      - destruct (in_dec Z.eq_dec x c) as [Hi|Hni].
        + destruct (Z_lt_le_dec x luMSB) as [Hlt|Hge].
          * right. exists 0%nat, c. split; [reflexivity|]. split; [assumption|].
            rewrite Hsame, Hin by assumption. f_equal. lia.
          * left. rewrite Hsame. apply Hout; [assumption | right; assumption].
        + left. rewrite Hsame. apply Hout; [assumption | left; assumption].
      - right. exists (S j), c'. split; [assumption|]. split; [assumption|].
        rewrite Hlab. f_equal. lia. }
    split; [exact Hany'|].
    intros c0 x [<-|Hc0] Hx Hlt.
    + destruct (Hany x ltac:(apply (vertex_nonneg x); rewrite Forall_forall in Hc;
                              apply Hc, list_elem_of_In, Hx))
        as [Hsame|(j & c' & Hj & Hx' & Hlab)].
      * exists 0%nat, c. split; [reflexivity|]. split; [assumption|].
        rewrite Hsame, Hin by assumption. f_equal. lia.
      * exists (S j), c'. split; [assumption|]. split; [assumption|].
        rewrite Hlab. f_equal. lia.
    + destruct (Hmem c0 x Hc0 Hx Hlt) as (j & c' & Hj & Hx' & Hlab).
      exists (S j), c'. split; [assumption|]. split; [assumption|].
      rewrite Hlab. f_equal. lia.
Qed.

End Seeding.

Section Phases.
Import CliqueDriver.
Variable k : nat.
Hypothesis Hk : (k <= 31)%nat.
Variable p : Z.

Lemma seeded_wf cliques : cliques_ok k cliques -> driver_wf k (seeded k cliques).
Proof.
  intros Hok. unfold seeded.
  pose proof (allocated_sized k Hk) as [[Hlen Hvis] Hlo].
  destruct (allocated k) as [h0 v0] eqn:E0. cbn [fst snd] in *.
  destruct (seed_cliques_spec k Hk cliques 0%nat h0 v0 Hok Hlen)
    as (Hisl & L1 & L2 & Hany & Hmem).
  destruct (seed_cliques 0 cliques (h0, v0)) as [isls [h v]]. cbn [fst snd] in *.
  split; [split; [split|]|]; cbn [fst snd].
  - lia.
  - rewrite L2. assumption.
  - intros x Hx. destruct (Hany x Hx) as [->|(j & c & _ & _ & ->)]; [auto|lia].
  - subst isls. apply Forall_map. unfold cliques_ok in Hok.
    rewrite Forall_forall in Hok |- *.
    intros c Hc. cbn [IslandInit bfs_layer]. rewrite firstn_all.
    unfold frontier_ok. rewrite Forall_forall.
    intros x Hx. specialize (Hok c Hc). rewrite Forall_forall in Hok.
    split; [apply Hok; assumption|]. intros Hlt.
    apply list_elem_of_In in Hc, Hx.
    destruct (Hmem c x Hc Hx Hlt) as (j & c' & _ & _ & ->). lia.
Qed.

(** The call of [getNextLayer] on island [i]: marks are only added, the
    new layer of the island is exactly what was marked, and the state stays
    well formed. *)
Lemma expand_island_spec st i isl :
  driver_wf k st -> st.1.1 !! i = Some isl ->
  let st' := expand_island k st i in
  let e := Layers.next_layer (bfs_layer isl) k st.1.2 st.2 in
  st' = (<[i := {| num_centers := num_centers isl; centers := centers isl;
                   bfs_layer := Layers.new_layer e |}]> st.1.1,
         Layers.labels e, Layers.visited e) /\
  expansion_inv k st.1.2 st.2 e /\
  driver_wf k st'.
Proof.
  destruct st as [[islands h] h_m1]. cbn [fst snd].
  intros [[Hsz Hlo] Hfr] Hi. cbn [fst snd] in *.
  unfold expand_island. rewrite Hi. unfold getNextLayer. cbv zeta.
  set (e := Layers.next_layer (bfs_layer isl) k h h_m1).
  assert (Hlayer : Forall (vertex k) (bfs_layer isl)).
  { rewrite Forall_forall in Hfr. specialize (Hfr isl (list_elem_of_lookup_2 _ _ _ Hi)).
    eapply Forall_impl; [exact Hfr|]. intros v [Hv _]. exact Hv. }
  pose proof (next_layer_inv k Hk h h_m1 Hsz (bfs_layer isl) Hlayer) as Hinv.
  fold e in Hinv. split; [reflexivity|]. split; [exact Hinv|].
  destruct Hinv as (Hg & Hk1 & Hk2 & Hv).
  split; cbn [fst snd].
  - eapply store_ok_grow; [exact Hg | split; assumption].
  - apply Forall_insert.
    + eapply Forall_impl; [exact Hfr|]. intros isl' Hl.
      eapply frontier_ok_grow; eassumption.
    + cbn [bfs_layer]. unfold frontier_ok. rewrite Forall_forall.
      intros v Hin. apply list_elem_of_In in Hin.
      split; [apply Hv; assumption|]. intros Hlt.
      destruct (Hv v Hin) as [Hkm|Hkm].
      * apply Hk1 in Hin; [|assumption]. lia.
      * pose proof (km1mer_above_tag k v Hk Hkm). lia.
Qed.

Lemma commits_refl i h : commits i h h.
Proof. unfold commits. auto. Qed.

Lemma commits_trans i h0 h1 h2 : commits i h0 h1 -> commits i h1 h2 -> commits i h0 h2.
Proof.
  intros [L1 H1] [L2 H2]. split; [congruence|].
  intros x Hx. destruct (H1 x Hx) as [E|(E1 & E2)], (H2 x Hx) as [E'|(E1' & E2')].
  - left. congruence.
  - right. split; [congruence|]. assumption.
  - right. split; [assumption|]. rewrite E'. assumption.
  - right. split; assumption.
Qed.

Lemma commit_spec i h s :
  (forall x, 0 <= x -> -3 <= rd h x) ->
  vertex k s -> (s < luMSB -> rd h s <> -3) ->
  commits (Z.of_nat i) h (commit k p i h s).
Proof.
  intros Hlo Hs Hm. unfold commit.
  destruct (Z.geb_spec s luMSB); [apply commits_refl|].
  destruct (Z.gtb_spec (rd h s) (-2)); [apply commits_refl|].
  pose proof (vertex_nonneg k Hk s Hs) as Hnn.
  assert (rd h s = -2) as Hs2 by (specialize (Hlo s Hnn); specialize (Hm ltac:(lia)); lia).
  destruct (negb _); (split; [apply length_wr|]); intros x Hx;
    match goal with
    | |- context [wr h s ?v] =>
        destruct (rd_wr_cases h s v x Hnn Hx) as [E|(-> & E & _)]
    end; auto.
Qed.

Lemma frontier_ok_commits i h h' layer :
  0 <= i -> commits i h h' -> frontier_ok k h layer -> frontier_ok k h' layer.
Proof.
  intros Hi [_ Hc] Hl. eapply Forall_impl; [exact Hl|].
  intros v [Hv Hm]. split; [assumption|]. intros Hlt.
  destruct (Hc v (vertex_nonneg k Hk v Hv)) as [E|(E1 & E2)]; [rewrite E; auto|].
  destruct E2; lia.
Qed.

Lemma lower_bound_commits i h h' :
  0 <= i -> commits i h h' ->
  (forall x, 0 <= x -> -3 <= rd h x) -> (forall x, 0 <= x -> -3 <= rd h' x).
Proof.
  intros Hi [_ Hc] Hlo x Hx. specialize (Hlo x Hx).
  destruct (Hc x Hx) as [E|(E1 & [E2|E2])]; lia.
Qed.

Lemma fold_commit_spec i layer : forall h,
  (forall x, 0 <= x -> -3 <= rd h x) -> frontier_ok k h layer ->
  commits (Z.of_nat i) h (fold_left (commit k p i) layer h).
Proof.
  induction layer as [|s layer IH]; intros h Hlo Hl; [apply commits_refl|].
  inversion Hl as [|? ? [Hs Hm] Hl']; subst. cbn [fold_left].
  pose proof (commit_spec i h s Hlo Hs Hm) as Hc.
  eapply commits_trans; [exact Hc|].
  apply IH.
  - eapply lower_bound_commits; [|exact Hc|exact Hlo]. lia.
  - eapply frontier_ok_commits; [|exact Hc|exact Hl']. lia.
Qed.

(** The loop over the layer of island [i]: only BFS_VISITED labels change,
    to GRAY or [i]; the frontiers are left as they were. *)
Lemma commit_island_spec st i isl :
  driver_wf k st -> st.1.1 !! i = Some isl ->
  let st' := commit_island k p st i in
  st'.1.1 = st.1.1 /\ st'.2 = st.2 /\
  st'.1.2 = fold_left (commit k p i) (bfs_layer isl) st.1.2 /\
  commits (Z.of_nat i) st.1.2 st'.1.2 /\
  driver_wf k st'.
Proof.
  destruct st as [[islands h] h_m1]. cbn [fst snd].
  intros [[Hsz Hlo] Hfr] Hi. cbn [fst snd] in *.
  unfold commit_island. rewrite Hi. cbn [fst snd].
  assert (Hl : frontier_ok k h (bfs_layer isl)).
  { rewrite Forall_forall in Hfr. apply Hfr. eapply list_elem_of_lookup_2. eassumption. }
  pose proof (fold_commit_spec i (bfs_layer isl) h Hlo Hl) as Hc.
  split; [reflexivity|]. split; [reflexivity|]. split; [reflexivity|].
  split; [exact Hc|].
  split; [split|]; cbn [fst snd].
  - destruct Hsz as [H1 H2]. split; [|assumption]. destruct Hc as [-> _]. assumption.
  - eapply lower_bound_commits; [|exact Hc|exact Hlo]. lia.
  - eapply Forall_impl; [exact Hfr|]. intros isl' Hl'.
    eapply frontier_ok_commits; [|exact Hc|exact Hl']. lia.
Qed.

Lemma do_phase_wf st ph : driver_wf k st -> driver_wf k (do_phase k p st ph).
Proof.
  intros Hwf. destruct ph as [i|i]; cbn [do_phase].
  - destruct (st.1.1 !! i) as [isl|] eqn:Hi.
    + apply (expand_island_spec st i isl Hwf Hi).
    + destruct st as [[islands h] h_m1]. cbn [fst snd] in Hi.
      unfold expand_island. rewrite Hi. assumption.
  - destruct (st.1.1 !! i) as [isl|] eqn:Hi.
    + apply (commit_island_spec st i isl Hwf Hi).
    + destruct st as [[islands h] h_m1]. cbn [fst snd] in Hi.
      unfold commit_island. rewrite Hi. assumption.
Qed.

Lemma fold_phase_wf phs : forall st,
  driver_wf k st -> driver_wf k (fold_left (do_phase k p) phs st).
Proof.
  induction phs as [|ph phs IH]; intros st Hwf; [exact Hwf|].
  simpl. apply IH, do_phase_wf, Hwf.
Qed.

(** Each phase moves each label by at most one step of the state machine. *)
Lemma do_phase_label st ph x :
  driver_wf k st -> 0 <= x ->
  rd (do_phase k p st ph).1.2 x = rd st.1.2 x \/
  label_step (rd st.1.2 x) (rd (do_phase k p st ph).1.2 x).
Proof.
  intros Hwf Hx. destruct ph as [i|i]; cbn [do_phase].
  - destruct (st.1.1 !! i) as [isl|] eqn:Hi.
    + destruct (expand_island_spec st i isl Hwf Hi) as (-> & ((_ & _ & G & _) & _) & _).
      cbn [fst snd]. destruct (G x Hx) as [E|E]; [left; exact E|right; left; exact E].
    + destruct st as [[islands h] h_m1]. cbn [fst snd] in Hi.
      unfold expand_island. rewrite Hi. left. reflexivity.
  - destruct (st.1.1 !! i) as [isl|] eqn:Hi.
    + destruct (commit_island_spec st i isl Hwf Hi) as (_ & _ & _ & [_ Hc] & _).
      destruct (Hc x Hx) as [E|(E1 & E2)]; [left; exact E|right; right].
      split; [exact E1|]. destruct E2 as [E2|E2]; [left; exact E2|right; lia].
    + destruct st as [[islands h] h_m1]. cbn [fst snd] in Hi.
      unfold commit_island. rewrite Hi. left. reflexivity.
Qed.

End Phases.

(** ** The round loop as a sequence of phases *)

Lemma process_island_phases k p st i :
  CliqueDriver.process_island k p st i
  = do_phase k p (do_phase k p st (Expand i)) (Commit i).
Proof. reflexivity. Qed.

Lemma fold_islands_phases k p l : forall st,
  fold_left (CliqueDriver.process_island k p) l st
  = fold_left (do_phase k p) (flat_map (fun i => [Expand i; Commit i]) l) st.
Proof.
  induction l as [|i l IH]; intros st; [reflexivity|].
  simpl. rewrite IH. reflexivity.
Qed.

Lemma do_phase_islands k p st ph : length (do_phase k p st ph).1.1 = length st.1.1.
Proof.
  destruct st as [[islands h] h_m1].
  destruct ph as [i|i]; cbn [do_phase fst snd];
    unfold CliqueDriver.expand_island, CliqueDriver.commit_island;
    destruct (islands !! i) as [isl|]; try reflexivity.
  destruct (CliqueDriver.getNextLayer isl k h h_m1) as [[isl' h'] v'].
  cbn [fst snd]. apply length_insert.
Qed.

Lemma fold_phase_islands k p phs : forall st,
  length (fold_left (do_phase k p) phs st).1.1 = length st.1.1.
Proof.
  induction phs as [|ph phs IH]; intros st; [reflexivity|].
  simpl. rewrite IH. apply do_phase_islands.
Qed.

Lemma schedule_S m n :
  schedule m (S n) = flat_map (fun i => [Expand i; Commit i]) (seq 0 m) ++ schedule m n.
Proof. reflexivity. Qed.

(** [rounds] runs the schedule. *)
Lemma rounds_schedule k p n : forall st,
  CliqueDriver.rounds n k p st
  = fold_left (do_phase k p) (schedule (length st.1.1) n) st.
Proof.
  induction n as [|n IH]; intros st; [reflexivity|].
  cbn [CliqueDriver.rounds]. rewrite IH, schedule_S, fold_left_app.
  unfold CliqueDriver.round. rewrite fold_islands_phases.
  rewrite fold_phase_islands. reflexivity.
Qed.

Lemma seeded_islands k cliques :
  length (CliqueDriver.seeded k cliques).1.1 = length cliques.
Proof.
  unfold CliqueDriver.seeded.
  assert (H : forall i st, length (CliqueDriver.seed_cliques i cliques st).1 = length cliques).
  { induction cliques as [|c cl IH]; intros i st; [reflexivity|].
    cbn [CliqueDriver.seed_cliques].
    specialize (IH (S i) (fold_left (CliqueDriver.seed_member i) c st)).
    destruct (CliqueDriver.seed_cliques _ _ _) as [isls st']. simpl in *. congruence. }
  specialize (H 0%nat (CliqueDriver.allocated k)).
  destruct (CliqueDriver.seed_cliques _ _ _) as [isls [h v]]. exact H.
Qed.

Lemma run_schedule k p q cliques :
  CliqueDriver.run k p q cliques
  = (fold_left (do_phase k p)
       (schedule (length cliques) (Z.to_nat (Z.shiftr q 1)))
       (CliqueDriver.seeded k cliques)).1.2.
Proof.
  unfold CliqueDriver.run. cbv zeta. rewrite rounds_schedule, seeded_islands. reflexivity.
Qed.

(** C3 (amended).  From the state after pre-labelling on, every phase of the
    round loop (an island's call of [getNextLayer], or its loop over the new
    layer) moves the label of each k-mer by at most one step of
    UNASSIGNED -> BFS_VISITED -> {GRAY | center index}; a label that is
    final (GRAY or a center index) is never changed; the k-mers of the
    frontier a call of [getNextLayer] builds are those it turned from
    UNASSIGNED to BFS_VISITED; and a k-mer the call generates from the
    island's frontier is admitted to the new frontier and marked
    BFS_VISITED if and only if its label was UNASSIGNED when the call
    began, and is dropped with its label unchanged otherwise.  A
    generated (k-1)-mer, which has a flag and no label, is admitted if and
    only if its flag was unset. *)
Theorem label_state_machine (k : nat) (p q : Z) (cliques : list (list Util.kmer))
    (m : nat) :
  (k <= 15)%nat -> cliques_ok k cliques ->
  let sched := schedule (length cliques) (Z.to_nat (Z.shiftr q 1)) in
  let before := fold_left (do_phase k p) (firstn m sched) (CliqueDriver.seeded k cliques) in
  let after := fold_left (do_phase k p) (firstn (S m) sched) (CliqueDriver.seeded k cliques) in
  (fold_left (do_phase k p) sched (CliqueDriver.seeded k cliques)).1.2
    = CliqueDriver.run k p q cliques /\
  (forall x, 0 <= x ->
     rd after.1.2 x = rd before.1.2 x \/ label_step (rd before.1.2 x) (rd after.1.2 x)) /\
  (forall x, 0 <= x -> -1 <= rd before.1.2 x -> rd after.1.2 x = rd before.1.2 x) /\
  (forall i isl, sched !! m = Some (Expand i) -> after.1.1 !! i = Some isl ->
     forall x, is_kmer k x ->
       (In x (CliqueDriver.bfs_layer isl) <->
        rd before.1.2 x = -3 /\ rd after.1.2 x = -2)) /\
  (forall i isl0 isl, sched !! m = Some (Expand i) ->
     before.1.1 !! i = Some isl0 -> after.1.1 !! i = Some isl ->
     forall u v, In u (CliqueDriver.bfs_layer isl0) -> In v (neighbors k u) ->
       (is_kmer k v ->
          (In v (CliqueDriver.bfs_layer isl) <-> rd before.1.2 v = -3) /\
          (rd before.1.2 v = -3 -> rd after.1.2 v = -2) /\
          (rd before.1.2 v <> -3 -> rd after.1.2 v = rd before.1.2 v)) /\
       (forall y, 0 <= y < 4 ^ Z.of_nat (k - 1) -> v = Z.lor y luMSB ->
          (In v (CliqueDriver.bfs_layer isl) <-> rdb before.2 y = false) /\
          rdb after.2 y = true)).
Proof.
  intros Hk15 Hok sched before after.
  assert (Hk : (k <= 31)%nat) by lia.
  split; [symmetry; apply run_schedule|].
  assert (Hwf : driver_wf k before)
    by (apply fold_phase_wf, seeded_wf; assumption).
  destruct (sched !! m) as [ph|] eqn:Hm.
  - assert (Hafter : after = do_phase k p before ph).
    { subst after before. rewrite (take_S_r _ _ _ Hm), fold_left_app. reflexivity. }
    rewrite Hafter.
    assert (Hstep : forall x, 0 <= x ->
              rd (do_phase k p before ph).1.2 x = rd before.1.2 x \/
              label_step (rd before.1.2 x) (rd (do_phase k p before ph).1.2 x))
      by (intros x Hx; apply do_phase_label; assumption).
    split; [exact Hstep|]. split; [|split].
    + intros x Hx Hfin. destruct (Hstep x Hx) as [E|[[E _]|[E _]]]; [exact E|lia|lia].
    + intros i isl Hph Hisl x Hx. injection Hph as ->. cbn [do_phase] in *.
      destruct (before.1.1 !! i) as [isl0|] eqn:Hi.
      * destruct (expand_island_spec k Hk before i isl0 Hwf Hi) as (E & (_ & Hk1 & _) & _).
        rewrite E in Hisl |- *. cbn [fst snd] in *.
        rewrite list_lookup_insert_eq in Hisl by (eapply lookup_lt_Some; eassumption).
        injection Hisl as <-. cbn [CliqueDriver.bfs_layer]. apply Hk1. assumption.
      * exfalso. destruct before as [[islands h] h_m1]. cbn [fst snd] in *.
        unfold CliqueDriver.expand_island in Hisl. rewrite Hi in Hisl.
        cbn [fst snd] in Hisl. congruence.
    + intros i isl0 isl Hph Hi Hisl u v Hu Hgen. injection Hph as ->. cbn [do_phase] in *.
      destruct (expand_island_spec k Hk before i isl0 Hwf Hi)
        as (E & ((_ & _ & Hgl & Hgv) & Hk1 & Hk2 & _) & _).
      assert (Hlayer : Forall (vertex k) (CliqueDriver.bfs_layer isl0)).
      { destruct Hwf as [_ Hfr]. rewrite Forall_forall in Hfr.
        specialize (Hfr isl0 (list_elem_of_lookup_2 _ _ _ Hi)).
        eapply Forall_impl; [exact Hfr|]. intros w [Hw _]. exact Hw. }
      assert (Hsz : store_sized k before.1.2 before.2) by (destruct Hwf as [[Hsz _] _]; exact Hsz).
      pose proof (next_layer_marks k Hk _ _ _ u v Hsz Hlayer Hu Hgen) as Hmk.
      rewrite E in Hisl |- *. cbn [fst snd] in *.
      rewrite list_lookup_insert_eq in Hisl by (eapply lookup_lt_Some; eassumption).
      injection Hisl as <-. cbn [CliqueDriver.bfs_layer].
      unfold marked in Hmk. split.
      * intros Hv. pose proof (kmer_below_tag k v Hk Hv) as Hlt.
        destruct (Z.ltb_spec v luMSB); [|lia].
        assert (Hv0 : 0 <= v) by (destruct Hv; lia).
        specialize (Hk1 v Hv). specialize (Hgl v Hv0).
        split; [|split].
        -- rewrite Hk1. split; [tauto|]. intros H3. split; [exact H3|].
           destruct Hgl as [Eq|[_ Eq]]; [congruence|exact Eq].
        -- intros H3. destruct Hgl as [Eq|[_ Eq]]; [congruence|exact Eq].
        -- intros H3. destruct Hgl as [Eq|[Eq _]]; [exact Eq|contradiction].
      * intros y Hy ->.
        assert (Hy62 : 0 <= y < 2 ^ 62).
        { pose proof (pow4_le_62 (k - 1) ltac:(lia)). lia. }
        pose proof (tagged_add y Hy62) as Ht. pose proof luMSB_value as HM.
        destruct (Z.ltb_spec (Z.lor y luMSB) luMSB); [lia|].
        rewrite (untag_tagged y Hy62) in Hmk.
        specialize (Hk2 y Hy). specialize (Hgv y ltac:(lia)).
        split; [|exact Hmk].
        rewrite Hk2. split; [tauto|]. intros Hf. split; [exact Hf|exact Hmk].
  - assert (Hafter : after = before).
    { subst after before. apply lookup_ge_None in Hm.
      rewrite !take_ge by lia. reflexivity. }
    rewrite Hafter. split; [auto|]. split; [auto|].
    split; [intros i isl Hph; discriminate|intros i isl0 isl Hph; discriminate].
Qed.

Lemma label_state_machine_witness :
  cliques_ok 2 [[0]; [15]] /\
  (fold_left (do_phase 2 2)
     (schedule (length [[0]; [15]]) (Z.to_nat (Z.shiftr 2 1)))
     (CliqueDriver.seeded 2 [[0]; [15]])).1.2
  = CliqueDriver.run 2 2 2 [[0]; [15]] /\
  (let after := do_phase 2 2 (CliqueDriver.seeded 2 [[0]; [15]]) (Expand 0) in
   exists isl, after.1.1 !! 0%nat = Some isl /\
               In 1 (CliqueDriver.bfs_layer isl) /\ rd after.1.2 1 = -2).
Proof.
  assert (Hk : (2 <= 15)%nat) by lia.
  assert (Hok : cliques_ok 2 [[0]; [15]]) by kmers_ok.
  pose proof (label_state_machine 2 2 2 [[0]; [15]] 0 Hk Hok) as H. cbv zeta in H.
  destruct H as (H1 & _ & _ & _ & H5).
  split; [exact Hok|]. split; [exact H1|]. cbv zeta.
  set (after := do_phase 2 2 (CliqueDriver.seeded 2 [[0]; [15]]) (Expand 0)).
  destruct (after.1.1 !! 0%nat) as [isl|] eqn:E; [|vm_compute in E; discriminate].
  exists isl. split; [reflexivity|].
  assert (Hs : schedule (length [[0]; [15]]) (Z.to_nat (Z.shiftr 2 1)) !! 0%nat
               = Some (Expand 0)) by reflexivity.
  assert (Hgen : In 1 (neighbors 2 0)) by (vm_compute; tauto).
  assert (Hv : is_kmer 2 1) by (split; [lia|reflexivity]).
  destruct (H5 0%nat (CliqueDriver.IslandInit 1 [0]) isl Hs eq_refl E 0 1
              (or_introl eq_refl) Hgen) as [Hkm _].
  destruct (Hkm Hv) as (Hiff & H2 & _).
  split; [apply Hiff; vm_compute; reflexivity|apply H2; vm_compute; reflexivity].
Defined.

(** C3 as stated fails at the pre-labelling: with the single clique [A],
    for k = 1, the label of A goes from UNASSIGNED, as allocated, to the
    center index 0 without passing through BFS_VISITED. *)
Lemma label_state_machine_not_at_seeding :
  let h0 := (CliqueDriver.allocated 1).1 in
  let h1 := (CliqueDriver.seeded 1 [[0]]).1.2 in
  rd h0 0 = -3 /\ rd h1 0 = 0 /\
  ~ (rd h1 0 = rd h0 0 \/ label_step (rd h0 0) (rd h1 0)).
Proof.
  vm_compute. split; [reflexivity|]. split; [reflexivity|].
  intros [H|[[_ H]|[H _]]]; discriminate.
Qed.

(** ** Frontiers *)

Section CommitCover.
Import CliqueDriver.
Variable k : nat.
Hypothesis Hk : (k <= 31)%nat.
Variable p : Z.

(** After the loop over a layer, no k-mer of the layer is left BFS_VISITED. *)
Lemma fold_commit_final i layer : forall h,
  Z.of_nat (length h) = 4 ^ Z.of_nat k ->
  (forall x, 0 <= x -> -3 <= rd h x) -> frontier_ok k h layer ->
  forall s, In s layer -> is_kmer k s ->
            -2 < rd (fold_left (commit k p i) layer h) s.
Proof.
  induction layer as [|s0 layer IH]; intros h Hlen Hlo Hl s Hs Hkm; [destruct Hs|].
  inversion Hl as [|? ? [Hs0 Hm0] Hl']; subst. cbn [fold_left].
  pose proof (commit_spec k Hk p i h s0 Hlo Hs0 Hm0) as Hc.
  assert (Hi0 : 0 <= Z.of_nat i) by lia.
  pose proof (lower_bound_commits k Hk _ _ _ Hi0 Hc Hlo) as Hlo'.
  pose proof (frontier_ok_commits k Hk _ _ _ _ Hi0 Hc Hl') as Hl1.
  assert (Hlen' : Z.of_nat (length (commit k p i h s0)) = 4 ^ Z.of_nat k)
    by (destruct Hc as [-> _]; assumption).
  destruct (in_dec Z.eq_dec s layer) as [Hin|Hnin]; [apply IH; assumption|].
  destruct Hs as [->|Hs]; [|contradiction].
  pose proof (fold_commit_spec k Hk p i layer _ Hlo' Hl1) as [_ Hrest].
  assert (Hnow : -2 < rd (commit k p i h s) s).
  { pose proof (kmer_below_tag k s Hk Hkm) as Hlt. unfold commit.
    destruct (Z.geb_spec s luMSB); [lia|].
    destruct (Z.gtb_spec (rd h s) (-2)); [lia|].
    destruct (negb _); rewrite rd_wr_eq by (destruct Hkm; lia); lia. }
  destruct (Hrest s ltac:(apply Hkm)) as [E|(E & _)]; lia.
Qed.

End CommitCover.

Lemma marked_commits i h h' vis v :
  0 <= i -> 0 <= v -> commits i h h' -> marked h vis v -> marked h' vis v.
Proof.
  intros Hi Hv [_ Hc]. unfold marked. destruct (v <? luMSB); [|auto].
  intros Hm. destruct (Hc v Hv) as [E|(E1 & [E2|E2])]; lia.
Qed.

(** ** Edit paths and alignments *)

Section EditTheory.
Context {A : Type} `{EqDecision A}.
Implicit Types (s t u w : list A) (a b : A) (al : list (@column A)).
Local Open Scope nat_scope.

(** A single edit of the second word changes the distance by at most one. *)
Lemma lev_del1 t t' : del1 t t' -> forall s, lev s t' <= S (lev s t).
Proof.
  intros [u a w]. induction u as [|c u IHu]; intros s.
  - simpl. apply lev_uncons_r.
  - induction s as [|d s IHs].
    + rewrite !lev_nil_l. cbn [app length]. rewrite !length_app. cbn [length]. lia.
    + cbn [app]. rewrite !lev_cons.
      pose proof (IHu s). pose proof (IHu (d :: s)). cbn [app] in IHs. lia.
Qed.

Lemma lev_ins1 t t' : ins1 t t' -> forall s, lev s t' <= S (lev s t).
Proof.
  intros [u b w]. induction u as [|c u IHu]; intros s.
  - simpl. apply lev_cons_r_le.
  - induction s as [|d s IHs].
    + rewrite !lev_nil_l. cbn [app length]. rewrite !length_app. cbn [length]. lia.
    + cbn [app]. rewrite !lev_cons.
      pose proof (IHu s). pose proof (IHu (d :: s)). cbn [app] in IHs. lia.
Qed.

Lemma lev_sub1 t t' : sub1 t t' -> forall s, lev s t' <= S (lev s t).
Proof.
  intros [u a b w]. induction u as [|c u IHu]; intros s.
  - simpl. destruct s as [|d s].
    + rewrite !lev_nil_l. simpl. lia.
    + rewrite !lev_cons.
      pose proof (neq_cost_le d a). pose proof (neq_cost_le d b).
      pose proof (lev_uncons_r a (d :: s) w).
      pose proof (lev_cons_r_le b (d :: s) w).
      pose proof (lev_uncons_r a s w). pose proof (lev_cons_r_le b s w).
      unfold neq_cost in *. lia.
  - induction s as [|d s IHs].
    + rewrite !lev_nil_l. cbn [app length]. rewrite !length_app. cbn [length]. lia.
    + cbn [app]. rewrite !lev_cons.
      pose proof (IHu s). pose proof (IHu (d :: s)). cbn [app] in IHs. lia.
Qed.

Lemma lev_edit1 t t' s : edit1 t t' -> lev s t' <= S (lev s t).
Proof.
  intros [H'|[H'|H']]; [apply lev_del1 | apply lev_ins1 | apply lev_sub1]; assumption.
Qed.

(** A path of [n] single edits moves the distance to any word by at most [n]. *)
Lemma lev_steps (R : list A -> list A -> Prop) :
  (forall s t, R s t -> edit1 s t) ->
  forall n t t' s, steps R n t t' -> lev s t' <= lev s t + n.
Proof.
  intros HR n t t' s Hp. induction Hp as [t|n t u t' Hstep Hp IH]; [lia|].
  pose proof (lev_edit1 t u s (HR _ _ Hstep)). lia.
Qed.

Lemma steps_trans (R : list A -> list A -> Prop) n m s t u :
  steps R n s t -> steps R m t u -> steps R (n + m) s u.
Proof.
  intros H1 H2. induction H1 as [s|n s v t Hstep H1 IH]; [exact H2|].
  simpl. econstructor; [exact Hstep | apply IH; exact H2].
Qed.

(** *** Alignments *)

Lemma al_src_app al1 al2 : al_src (al1 ++ al2) = al_src al1 ++ al_src al2.
Proof. unfold al_src. apply flat_map_app. Qed.

Lemma al_dst_app al1 al2 : al_dst (al1 ++ al2) = al_dst al1 ++ al_dst al2.
Proof. unfold al_dst. apply flat_map_app. Qed.

Lemma al_sum_app f al1 al2 : al_sum f (al1 ++ al2) = al_sum f al1 + al_sum f al2.
Proof. induction al1 as [|c al1 IH]; simpl; [reflexivity|]. rewrite IH. lia. Qed.

Lemma al_sum_cons f c al : al_sum f (c :: al) = f c + al_sum f al.
Proof. reflexivity. Qed.

Lemma al_src_cons c al : al_src (c :: al) = col_src c ++ al_src al.
Proof. reflexivity. Qed.

Lemma al_dst_cons c al : al_dst (c :: al) = col_dst c ++ al_dst al.
Proof. reflexivity. Qed.

(** An optimal alignment exists for any two words. *)
Lemma lev_alignment s t :
  exists al, al_src al = s /\ al_dst al = t /\ al_sum col_cost al = lev s t.
Proof.
  revert t. induction s as [|a s IHs]; intros t.
  - exists (map Ins t). rewrite lev_nil_l.
    induction t as [|b t IHt]; [auto|].
    destruct IHt as (H1 & H2 & H3). cbn [map].
    rewrite al_src_cons, al_dst_cons, al_sum_cons, H1, H2, H3. auto.
  - induction t as [|b t IHt].
    + exists (map Del (a :: s)). rewrite lev_nil_r.
      clear IHs. generalize (a :: s). intros l.
      induction l as [|c l IHl]; [auto|].
      destruct IHl as (H1 & H2 & H3). cbn [map].
      rewrite al_src_cons, al_dst_cons, al_sum_cons, H1, H2, H3. auto.
    + rewrite lev_cons.
      destruct (IHs (b :: t)) as (al1 & S1 & D1 & C1).
      destruct IHt as (al2 & S2 & D2 & C2).
      destruct (IHs t) as (al3 & S3 & D3 & C3).
      destruct (le_lt_dec (S (lev s (b :: t))) (S (lev (a :: s) t))) as [H12|H12];
        [destruct (le_lt_dec (S (lev s (b :: t))) (lev s t + neq_cost a b)) as [H3|H3]
        |destruct (le_lt_dec (S (lev (a :: s) t)) (lev s t + neq_cost a b)) as [H3|H3]].
      * exists (Del a :: al1).
        rewrite al_src_cons, al_dst_cons, al_sum_cons, S1, D1, C1.
        split; [reflexivity|]. split; [reflexivity|]. cbn [col_cost]. lia.
      * exists (Pair a b :: al3).
        rewrite al_src_cons, al_dst_cons, al_sum_cons, S3, D3, C3.
        split; [reflexivity|]. split; [reflexivity|]. cbn [col_cost]. lia.
      * exists (Ins b :: al2).
        rewrite al_src_cons, al_dst_cons, al_sum_cons, S2, D2, C2.
        split; [reflexivity|]. split; [reflexivity|]. cbn [col_cost]. lia.
      * exists (Pair a b :: al3).
        rewrite al_src_cons, al_dst_cons, al_sum_cons, S3, D3, C3.
        split; [reflexivity|]. split; [reflexivity|]. cbn [col_cost]. lia.
Qed.

Lemma al_lengths al :
  length (al_src al) + al_sum col_ins al = length (al_dst al) + al_sum col_del al.
Proof.
  induction al as [|c al IH]; [reflexivity|].
  unfold al_src, al_dst in *. destruct c; simpl; rewrite ?length_app; simpl; lia.
Qed.

(** Finding a column of a given kind. *)
Lemma al_find_del al :
  0 < al_sum col_del al -> exists al1 a al2, al = al1 ++ Del a :: al2.
Proof.
  induction al as [|c al IH]; simpl; [lia|]. intros Hpos.
  destruct c as [a b|a|b]; simpl in Hpos.
  - destruct (IH Hpos) as (al1 & a' & al2 & ->). exists (Pair a b :: al1), a', al2. reflexivity.
  - exists [], a, al. reflexivity.
  - destruct (IH Hpos) as (al1 & a' & al2 & ->). exists (Ins b :: al1), a', al2. reflexivity.
Qed.

Lemma al_find_ins al :
  0 < al_sum col_ins al -> exists al1 b al2, al = al1 ++ Ins b :: al2.
Proof.
  induction al as [|c al IH]; simpl; [lia|]. intros Hpos.
  destruct c as [a b|a|b]; simpl in Hpos.
  - destruct (IH Hpos) as (al1 & b' & al2 & ->). exists (Pair a b :: al1), b', al2. reflexivity.
  - destruct (IH Hpos) as (al1 & b' & al2 & ->). exists (Del a :: al1), b', al2. reflexivity.
  - exists [], b, al. reflexivity.
Qed.

Lemma al_find_sub al :
  al_sum col_del al + al_sum col_ins al < al_sum col_cost al ->
  exists al1 a b al2, a <> b /\ al = al1 ++ Pair a b :: al2.
Proof.
  induction al as [|c al IH]; simpl; [lia|]. intros Hlt.
  destruct c as [a b|a|b]; simpl in Hlt.
  - unfold neq_cost in Hlt. destruct (decide (a = b)) as [->|Hne].
    + destruct (IH ltac:(lia)) as (al1 & a' & b' & al2 & Hne & ->).
      exists (Pair b b :: al1), a', b', al2. split; [assumption|reflexivity].
    + exists [], a, b, al. split; [assumption|reflexivity].
  - destruct (IH ltac:(lia)) as (al1 & a' & b' & al2 & Hne & ->).
    exists (Del a :: al1), a', b', al2. split; [assumption|reflexivity].
  - destruct (IH ltac:(lia)) as (al1 & a' & b' & al2 & Hne & ->).
    exists (Ins b :: al1), a', b', al2. split; [assumption|reflexivity].
Qed.

Lemma al_cost_zero al : al_sum col_cost al = 0 -> al_src al = al_dst al.
Proof.
  induction al as [|c al IH]; [reflexivity|]. simpl. intros H0.
  destruct c as [a b|a|b]; simpl in H0; try lia.
  unfold neq_cost in H0. destruct (decide (a = b)) as [->|]; [|lia].
  unfold al_src, al_dst in *. simpl. rewrite IH by lia. reflexivity.
Qed.

Lemma al_cost_ge al : al_sum col_del al + al_sum col_ins al <= al_sum col_cost al.
Proof. induction al as [|c al IH]; [reflexivity|]. destruct c; simpl; lia. Qed.

(** An alignment of two words of length [k] turns into a path that
    alternates between lengths [k] and [k - 1]: substitutions are done in
    place, and each insertion is paid for by a deletion made just before.
    The words on the path are made of symbols of the two words. *)
Lemma al_kpath k (P : A -> Prop) : forall n al,
  al_sum col_cost al = n -> length (al_src al) = k -> length (al_dst al) = k ->
  Forall P (al_src al) -> Forall P (al_dst al) ->
  steps (fun s t => kstep k s t /\ Forall P t) n (al_src al) (al_dst al).
Proof.
  induction n as [n IH] using lt_wf_ind. intros al Hcost Hs Hd Ps Pd.
  pose proof (al_lengths al) as Hlen. pose proof (al_cost_ge al) as Hge.
  destruct (Nat.eq_dec n 0) as [->|Hn0].
  { rewrite (al_cost_zero al Hcost). constructor. }
  destruct (le_lt_dec (al_sum col_cost al) (al_sum col_del al + al_sum col_ins al))
    as [Hall|Hsub].
  - (* no substitution left: a deletion and an insertion *)
    assert (Hdel : 0 < al_sum col_del al) by lia.
    destruct (al_find_del al Hdel) as (al1 & a & al2 & ->).
    set (alm := al1 ++ al2).
    assert (Hins : 0 < al_sum col_ins alm).
    { subst alm. rewrite !al_sum_app in *. simpl in *. lia. }
    destruct (al_find_ins alm Hins) as (al3 & b & al4 & Halm).
    set (al' := al3 ++ Pair b b :: al4).
    assert (E1 : al_src (al1 ++ Del a :: al2) = al_src al1 ++ a :: al_src al2)
      by (rewrite al_src_app; reflexivity).
    assert (E2 : al_src alm = al_src al1 ++ al_src al2) by (apply al_src_app).
    assert (E3 : al_src alm = al_src al3 ++ al_src al4)
      by (rewrite Halm, al_src_app; reflexivity).
    assert (E4 : al_src al' = al_src al3 ++ b :: al_src al4)
      by (subst al'; rewrite al_src_app; reflexivity).
    assert (E5 : al_dst al' = al_dst (al1 ++ Del a :: al2)).
    { subst al'. rewrite !al_dst_app. cbn [al_dst flat_map col_dst app].
      change (flat_map col_dst al4) with (al_dst al4).
      change (flat_map col_dst al2) with (al_dst al2).
      assert (al_dst alm = al_dst al1 ++ al_dst al2) as Hd1 by apply al_dst_app.
      rewrite Halm, al_dst_app in Hd1. cbn [al_dst flat_map col_dst app] in Hd1.
      exact Hd1. }
    assert (E6 : al_sum col_cost al' + 2 = n).
    { subst al'. rewrite <- Hcost. rewrite !al_sum_app. simpl. rewrite neq_cost_refl.
      assert (al_sum col_cost alm = al_sum col_cost al1 + al_sum col_cost al2)
        as Hc1 by apply al_sum_app.
      rewrite Halm, al_sum_app in Hc1. simpl in Hc1. lia. }
    assert (Hk1 : 1 <= k) by (rewrite <- Hs, E1, length_app; simpl; lia).
    assert (Pm : Forall P (al_src alm)).
    { rewrite E2. rewrite E1 in Ps. apply Forall_app in Ps. destruct Ps as [Pa Pb].
      apply Forall_cons in Pb. apply Forall_app. tauto. }
    assert (Pb : P b).
    { rewrite <- E5 in Pd. subst al'. rewrite al_dst_app in Pd.
      apply Forall_app in Pd. destruct Pd as [_ Pd].
      change (al_dst (Pair b b :: al4)) with (b :: al_dst al4) in Pd.
      apply Forall_cons in Pd. tauto. }
    assert (P' : Forall P (al_src al')).
    { rewrite E4. rewrite E3 in Pm. apply Forall_app in Pm. destruct Pm as [Pa Pc].
      apply Forall_app. split; [assumption|]. apply Forall_cons. tauto. }
    replace n with (S (S (al_sum col_cost al'))) by lia.
    rewrite <- E5.
    econstructor.
    { split; [|exact Pm]. left. split; [exact Hs|]. right. rewrite E1, E2. constructor. }
    econstructor.
    { split; [|exact P']. right. split; [|split; [exact Hk1|]].
      - rewrite E2. rewrite E1, length_app in Hs. cbn [length] in Hs.
        rewrite length_app. lia.
      - rewrite E3, E4. apply (ins1_at _ b). }
    apply (IH (al_sum col_cost al')); [lia | reflexivity | | | exact P' | ].
    + rewrite E4, length_app. cbn [length].
      assert (length (al_src al3 ++ al_src al4) = length (al_src al1 ++ al_src al2))
        as Hl by (rewrite <- E3, E2; reflexivity).
      rewrite !length_app in Hl. rewrite E1, length_app in Hs. cbn [length] in Hs. lia.
    + rewrite E5. exact Hd.
    + rewrite E5. exact Pd.
  - (* a substitution *)
    destruct (al_find_sub al Hsub) as (al1 & a & b & al2 & Hne & ->).
    set (al' := al1 ++ Pair b b :: al2).
    assert (E1 : al_src (al1 ++ Pair a b :: al2) = al_src al1 ++ a :: al_src al2)
      by (rewrite al_src_app; reflexivity).
    assert (E4 : al_src al' = al_src al1 ++ b :: al_src al2)
      by (subst al'; rewrite al_src_app; reflexivity).
    assert (E5 : al_dst al' = al_dst (al1 ++ Pair a b :: al2))
      by (subst al'; rewrite !al_dst_app; reflexivity).
    assert (E6 : al_sum col_cost al' + 1 = n).
    { subst al'. rewrite <- Hcost. rewrite !al_sum_app. simpl. rewrite neq_cost_refl.
      unfold neq_cost. destruct (decide (a = b)); [contradiction|]. lia. }
    assert (Pb : P b).
    { rewrite al_dst_app in Pd. apply Forall_app in Pd. destruct Pd as [_ Pd].
      change (al_dst (Pair a b :: al2)) with (b :: al_dst al2) in Pd.
      apply Forall_cons in Pd. tauto. }
    assert (P' : Forall P (al_src al')).
    { rewrite E4. rewrite E1 in Ps. apply Forall_app in Ps. destruct Ps as [Pa Pc].
      apply Forall_cons in Pc. apply Forall_app. split; [assumption|].
      apply Forall_cons. tauto. }
    replace n with (S (al_sum col_cost al')) by lia.
    rewrite <- E5.
    econstructor.
    { split; [|exact P']. left. split; [exact Hs|]. left.
      rewrite E1, E4. apply (sub1_at _ a b). }
    apply (IH (al_sum col_cost al')); [lia | reflexivity | | | exact P' | ].
    + rewrite E4, length_app. cbn [length]. rewrite E1, length_app in Hs.
      cbn [length] in Hs. exact Hs.
    + rewrite E5. exact Hd.
    + rewrite E5. exact Pd.
Qed.

(** Two words of length [k] at distance [n] are joined by a path of [n]
    edits through words of lengths [k] and [k - 1] only. *)
Lemma lev_kpath k (P : A -> Prop) s t :
  length s = k -> length t = k -> Forall P s -> Forall P t ->
  steps (fun s t => kstep k s t /\ Forall P t) (lev s t) s t.
Proof.
  intros Hs Ht Ps Pt. destruct (lev_alignment s t) as (al & <- & <- & <-).
  apply al_kpath; [reflexivity | exact Hs | exact Ht | exact Ps | exact Pt].
Qed.

Lemma kstep_edit1 k s t : kstep k s t -> edit1 s t.
Proof.
  intros [[_ [H'|H']]|(_ & _ & H')]; unfold edit1; auto.
Qed.

(** The triangle inequality. *)
Lemma al_path al : forall pre,
  steps edit1 (al_sum col_cost al) (pre ++ al_src al) (pre ++ al_dst al).
Proof.
  induction al as [|c al IH]; intros pre.
  - simpl. constructor.
  - destruct c as [a b|a|b]; cbn [al_sum fold_right col_cost al_src al_dst flat_map
                                  col_src col_dst app].
    + change (flat_map col_src al) with (al_src al).
      change (flat_map col_dst al) with (al_dst al).
      specialize (IH (pre ++ [b])). rewrite <- !app_assoc in IH. cbn [app] in IH.
      unfold neq_cost. destruct (decide (a = b)) as [->|Hne]; [exact IH|].
      econstructor; [|exact IH]. right. right. constructor.
    + change (flat_map col_src al) with (al_src al).
      change (flat_map col_dst al) with (al_dst al).
      econstructor; [|apply IH]. left. constructor.
    + change (flat_map col_src al) with (al_src al).
      change (flat_map col_dst al) with (al_dst al).
      specialize (IH (pre ++ [b])). rewrite <- !app_assoc in IH. cbn [app] in IH.
      econstructor; [|exact IH]. right. left. constructor.
Qed.

Lemma lev_path s t : steps edit1 (lev s t) s t.
Proof.
  destruct (lev_alignment s t) as (al & <- & <- & <-). apply (al_path al []).
Qed.

Lemma lev_triangle s t u : lev s u <= lev s t + lev t u.
Proof.
  apply (lev_steps edit1 (fun _ _ H' => H') (lev t u) t u s). apply lev_path.
Qed.

End EditTheory.

(** ** The generated neighbours are single edits *)

Section GeneratorSound.
Variable k : nat.
Hypothesis Hk : (k <= 31)%nat.

Lemma neighbors_kstep s v :
  vertex k s -> In v (neighbors k s) -> kstep k (vstr k s) (vstr k v).
Proof.
  intros Hs Hin. unfold neighbors in Hin.
  destruct (vertex_cases k s Hk Hs) as [[Hlt Hkm]|[Hge (y & Hy & ->)]].
  - destruct (Z.ltb_spec s luMSB) as [_|]; [|lia].
    left. rewrite (vstr_kmer k s Hk Hkm). split; [apply length_syms|].
    apply in_app_or in Hin. destruct Hin as [Hin|Hin].
    + right. apply in_map_iff in Hin. destruct Hin as (x & <- & Hx).
      apply in_deletions in Hx. destruct Hx as (j & Hj & ->).
      rewrite (vstr_tagged k _ Hk (del_at_range k Hk s j Hkm Hj)).
      rewrite (del_at_syms k Hk s j Hj).
      rewrite (syms_split s k (S j)) by lia.
      cbn [syms]. replace (k - S j)%nat with (k - 1 - j)%nat by lia.
      constructor.
    + left. apply in_substitutions in Hin. destruct Hin as (j & m & Hj & Hm & ->).
      rewrite (vstr_kmer k _ Hk (sub_at_range k Hk s j m Hkm Hj Hm)).
      rewrite (sub_at_syms k Hk s j m Hj Hm).
      rewrite (syms_split s k j) by lia.
      replace j with (S (j - 1)) at 3 by lia. cbn [syms].
      constructor.
  - pose proof (km1mer_above_tag k (Z.lor y luMSB) Hk
                  (ex_intro _ y (conj Hy eq_refl))) as Hge'.
    destruct (Z.ltb_spec (Z.lor y luMSB) luMSB) as [|_]; [lia|].
    apply in_insertions in Hin. destruct Hin as (j & m & Hj & Hm & ->).
    right. rewrite (vstr_tagged k y Hk Hy).
    split; [apply length_syms|]. split; [lia|].
    rewrite (vstr_kmer k _ Hk (ins_at_range k Hk y j m Hy Hj Hm)).
    rewrite (ins_at_syms k Hk y j m Hy Hj Hm).
    rewrite (syms_split y (k - 1) j) by lia.
    constructor.
Qed.

(** One generated neighbour further from a fixed word costs one more edit
    at most. *)
Lemma neighbors_lev s v w :
  vertex k s -> In v (neighbors k s) ->
  (lev w (vstr k v) <= S (lev w (vstr k s)))%nat.
Proof.
  intros Hs Hin. apply lev_edit1. eapply kstep_edit1. apply neighbors_kstep; eassumption.
Qed.

End GeneratorSound.

(** ** The radius of an island *)

Lemma near_clique_mono k c r r' v :
  (r <= r')%nat -> near_clique k c r v -> near_clique k c r' v.
Proof. intros Hle (m & Hm & Hd). exists m. split; [assumption|lia]. Qed.

Lemma bump_ge i rho j : (rho j <= bump i rho j)%nat.
Proof. unfold bump. destruct (decide (j = i)); lia. Qed.

Lemma bump_same i rho : bump i rho i = S (rho i).
Proof. unfold bump. destruct (decide (i = i)); [reflexivity|contradiction]. Qed.

Section Radius.
Variable k : nat.
Hypothesis Hk : (k <= 31)%nat.
Variable p : Z.
Variable cliques : list (list Util.kmer).

Lemma allocated_unassigned x :
  is_kmer k x -> rd (CliqueDriver.allocated k).1 x = -3.
Proof.
  intros [Hx0 Hx1]. unfold CliqueDriver.allocated, rd. cbv zeta. cbn [fst].
  rewrite num_kmers_pow4. apply lookup_total_replicate_2.
  apply Z2Nat.inj_lt; lia.
Qed.

Lemma seeded_radius :
  cliques_ok k cliques ->
  radius_inv k cliques (fun _ => 0%nat) (CliqueDriver.seeded k cliques).
Proof.
  intros Hok. unfold CliqueDriver.seeded.
  pose proof (allocated_sized k Hk) as [[Hlen Hvis] Hlo].
  pose proof allocated_unassigned as Hun.
  destruct (CliqueDriver.allocated k) as [h0 v0] eqn:E0. cbn [fst snd] in *.
  destruct (seed_cliques_spec k Hk cliques 0%nat h0 v0 Hok Hlen)
    as (Hisl & L1 & L2 & Hany & Hmem).
  destruct (CliqueDriver.seed_cliques 0 cliques (h0, v0)) as [isls [h v]].
  cbn [fst snd] in *. split; cbn [fst snd].
  - intros i isl c Hi Hc. subst isls. rewrite list_lookup_fmap, Hc in Hi.
    cbn in Hi. injection Hi as <-.
    unfold CliqueDriver.IslandInit. cbn [CliqueDriver.bfs_layer].
    rewrite firstn_all. rewrite Forall_forall. intros m Hm.
    apply list_elem_of_In in Hm. exists m. split; [assumption|].
    rewrite lev_refl. lia.
  - intros x Hx Hlab.
    destruct (Hany x ltac:(destruct Hx; lia)) as [Heq|(j & c & Hj & Hin & Heq)].
    + exfalso. rewrite Heq, (Hun x Hx) in Hlab. lia.
    + exists j, c. split; [exact Heq|]. split; [exact Hj|].
      exists x. split; [assumption|]. rewrite lev_refl. lia.
Qed.

Lemma expand_radius rho st i :
  driver_wf k st -> radius_inv k cliques rho st ->
  radius_inv k cliques (bump i rho) (CliqueDriver.expand_island k st i).
Proof.
  intros Hwf [HR1 HR2].
  destruct (st.1.1 !! i) as [isl|] eqn:Hi.
  - destruct (expand_island_spec k Hk st i isl Hwf Hi) as (Hst' & Hinv & Hwf').
    cbv zeta in Hst', Hinv. rewrite Hst'. clear Hst'.
    set (e := Layers.next_layer (CliqueDriver.bfs_layer isl) k st.1.2 st.2) in *.
    destruct Hinv as (Hg & _ & _ & _).
    assert (Hlayer : frontier_ok k st.1.2 (CliqueDriver.bfs_layer isl)).
    { destruct Hwf as [_ Hfr]. rewrite Forall_forall in Hfr. apply Hfr.
      eapply list_elem_of_lookup_2. eassumption. }
    split; cbn [fst snd].
    + intros j isl' c Hj Hc. apply list_lookup_insert_Some in Hj.
      destruct Hj as [(<- & <- & _)|[Hne Hj]].
      * cbn [CliqueDriver.bfs_layer]. rewrite Forall_forall. intros v Hv.
        apply list_elem_of_In in Hv.
        destruct (next_layer_from k _ _ _ v Hv) as (s & Hs & Hn).
        specialize (HR1 i isl c Hi Hc). rewrite Forall_forall in HR1.
        destruct (HR1 s (proj2 (list_elem_of_In _ _) Hs)) as (m & Hm & Hd).
        exists m. split; [assumption|]. rewrite bump_same.
        unfold frontier_ok in Hlayer. rewrite Forall_forall in Hlayer.
        destruct (Hlayer s (proj2 (list_elem_of_In _ _) Hs)) as [Hvs _].
        pose proof (neighbors_lev k Hk s v (vstr k m) Hvs Hn). lia.
      * eapply Forall_impl; [exact (HR1 j isl' c Hj Hc)|].
        intros v. apply near_clique_mono, bump_ge.
    + intros x Hx Hlab. destruct Hg as (_ & _ & Hgl & _).
      destruct (Hgl x ltac:(destruct Hx; lia)) as [Heq|[_ Heq]]; [|lia].
      rewrite Heq in Hlab |- *.
      destruct (HR2 x Hx Hlab) as (j & c & E1 & E2 & E3).
      exists j, c. split; [assumption|]. split; [assumption|].
      eapply near_clique_mono; [apply bump_ge|exact E3].
  - assert (CliqueDriver.expand_island k st i = st) as ->.
    { destruct st as [[islands h] v]. cbn [fst snd] in Hi.
      unfold CliqueDriver.expand_island. rewrite Hi. reflexivity. }
    split.
    + intros j isl c Hj Hc. eapply Forall_impl; [exact (HR1 j isl c Hj Hc)|].
      intros v. apply near_clique_mono, bump_ge.
    + intros x Hx Hlab. destruct (HR2 x Hx Hlab) as (j & c & E1 & E2 & E3).
      exists j, c. split; [assumption|]. split; [assumption|].
      eapply near_clique_mono; [apply bump_ge|exact E3].
Qed.

(** The commit loop writes only at the vertices of the layer. *)
Lemma commit_writes i h s x :
  0 <= s -> 0 <= x -> rd (CliqueDriver.commit k p i h s) x <> rd h x -> x = s.
Proof.
  intros Hs Hx Hne. destruct (Z.eq_dec x s) as [|Hxs]; [assumption|exfalso].
  apply Hne. unfold CliqueDriver.commit.
  destruct (s >=? luMSB); [reflexivity|].
  destruct (rd h s >? -2); [reflexivity|].
  destruct (negb _); apply rd_wr_ne; auto.
Qed.

Lemma fold_commit_writes i layer x : forall h,
  Forall (fun s => 0 <= s) layer -> 0 <= x ->
  rd (fold_left (CliqueDriver.commit k p i) layer h) x <> rd h x -> In x layer.
Proof.
  induction layer as [|s layer IH]; intros h Hl Hx Hne; [contradiction|].
  inversion Hl as [|? ? Hs Hl']; subst. cbn [fold_left] in Hne.
  destruct (Z.eq_dec (rd (CliqueDriver.commit k p i h s) x) (rd h x)) as [Heq|Hd].
  - right. apply (IH (CliqueDriver.commit k p i h s) Hl' Hx). rewrite Heq. exact Hne.
  - left. symmetry. eapply commit_writes; eassumption.
Qed.

Lemma commit_radius rho st i :
  driver_wf k st -> radius_inv k cliques rho st ->
  length st.1.1 = length cliques ->
  radius_inv k cliques rho (CliqueDriver.commit_island k p st i).
Proof.
  intros Hwf [HR1 HR2] Hlen.
  destruct (st.1.1 !! i) as [isl|] eqn:Hi.
  - destruct (commit_island_spec k Hk p st i isl Hwf Hi) as (E1 & E2 & E3 & Hc & _).
    cbv zeta in E1, E2, E3, Hc.
    split.
    + rewrite E1. exact HR1.
    + intros x Hx Hlab. destruct Hc as [_ Hc].
      destruct (Hc x ltac:(destruct Hx; lia)) as [Heq|[Hold Hnew]].
      * rewrite Heq in Hlab |- *. exact (HR2 x Hx Hlab).
      * destruct Hnew as [Hnew|Hnew]; [lia|].
        assert (Hin : In x (CliqueDriver.bfs_layer isl)).
        { apply (fold_commit_writes i _ x st.1.2).
          - destruct Hwf as [_ Hfr]. rewrite Forall_forall in Hfr.
            specialize (Hfr isl (list_elem_of_lookup_2 _ _ _ Hi)).
            eapply Forall_impl; [exact Hfr|]. intros v [Hv _].
            apply (vertex_nonneg k Hk v Hv).
          - destruct Hx; lia.
          - rewrite <- E3. lia. }
        destruct (cliques !! i) as [c|] eqn:Hci.
        -- exists i, c. split; [assumption|]. split; [exact Hci|].
           specialize (HR1 i isl c Hi Hci). rewrite Forall_forall in HR1.
           apply HR1. apply list_elem_of_In. assumption.
        -- exfalso. apply lookup_ge_None in Hci. apply lookup_lt_Some in Hi. lia.
  - assert (CliqueDriver.commit_island k p st i = st) as ->.
    { destruct st as [[islands h] v]. cbn [fst snd] in Hi.
      unfold CliqueDriver.commit_island. rewrite Hi. reflexivity. }
    split; assumption.
Qed.

Lemma phase_radius rho st ph :
  driver_wf k st -> length st.1.1 = length cliques ->
  radius_inv k cliques rho st ->
  radius_inv k cliques (radius_step rho ph) (do_phase k p st ph).
Proof.
  intros Hwf Hlen HR. destruct ph as [i|i]; cbn [radius_step do_phase].
  - apply expand_radius; assumption.
  - apply commit_radius; assumption.
Qed.

Lemma fold_phase_radius phs : forall rho st,
  driver_wf k st -> length st.1.1 = length cliques ->
  radius_inv k cliques rho st ->
  radius_inv k cliques (radius_after phs rho) (fold_left (do_phase k p) phs st).
Proof.
  induction phs as [|ph phs IH]; intros rho st Hwf Hlen HR; [exact HR|].
  cbn [fold_left radius_after]. apply IH.
  - apply do_phase_wf; assumption.
  - rewrite do_phase_islands. assumption.
  - apply phase_radius; assumption.
Qed.

End Radius.

(** Each round expands each island once. *)
Lemma radius_after_app phs1 phs2 rho :
  radius_after (phs1 ++ phs2) rho = radius_after phs2 (radius_after phs1 rho).
Proof. unfold radius_after. apply fold_left_app. Qed.

Lemma radius_after_islands l : forall rho i,
  (radius_after (flat_map (fun i => [Expand i; Commit i]) l) rho i
   <= rho i + count_occ Nat.eq_dec l i)%nat.
Proof.
  induction l as [|j l IH]; intros rho i.
  - cbn. lia.
  - change (flat_map (fun i => [Expand i; Commit i]) (j :: l))
      with ([Expand j; Commit j] ++ flat_map (fun i => [Expand i; Commit i]) l).
    rewrite radius_after_app.
    change (radius_after [Expand j; Commit j] rho) with (bump j rho).
    pose proof (IH (bump j rho) i) as Hle.
    cbn [count_occ]. unfold bump in Hle at 2.
    destruct (Nat.eq_dec j i) as [->|Hne].
    + destruct (decide (i = i)); [lia|contradiction].
    + destruct (decide (i = j)) as [->|]; [contradiction|lia].
Qed.

Lemma radius_after_schedule m n : forall rho i,
  (radius_after (schedule m n) rho i <= rho i + n)%nat.
Proof.
  induction n as [|n IH]; intros rho i.
  - cbn. lia.
  - rewrite schedule_S, radius_after_app.
    pose proof (IH (radius_after (flat_map (fun i => [Expand i; Commit i]) (seq 0 m)) rho) i).
    pose proof (radius_after_islands (seq 0 m) rho i).
    pose proof (proj1 (NoDup_count_occ Nat.eq_dec (seq 0 m)) (seq_NoDup m 0) i).
    lia.
Qed.

(** ** Island radius and diameter *)

Lemma kmer_dist_vdist k x y :
  (k <= 31)%nat -> is_kmer k x -> is_kmer k y -> kmer_dist k x y = vdist k x y.
Proof.
  intros Hk Hx Hy. unfold kmer_dist, vdist.
  rewrite <- dp_entry_decode. unfold dp_entry.
  rewrite (vstr_kmer k x Hk Hx), (vstr_kmer k y Hk Hy). reflexivity.
Qed.

Lemma run_radius k p q cliques :
  (k <= 31)%nat -> cliques_ok k cliques ->
  exists rho st,
    st.1.2 = CliqueDriver.run k p q cliques /\
    radius_inv k cliques rho st /\
    forall i, (rho i <= Z.to_nat (Z.shiftr q 1))%nat.
Proof.
  intros Hk Hok.
  set (sched := schedule (length cliques) (Z.to_nat (Z.shiftr q 1))).
  exists (radius_after sched (fun _ => 0%nat)),
         (fold_left (do_phase k p) sched (CliqueDriver.seeded k cliques)).
  split; [symmetry; apply run_schedule|]. split.
  - apply fold_phase_radius.
    + assumption.
    + apply seeded_wf; assumption.
    + apply seeded_islands.
    + apply seeded_radius; assumption.
  - intros i. apply (radius_after_schedule _ _ (fun _ => 0%nat) i).
Qed.

(** What the code provides of C2.  For [0 <= q], every k-mer
    that ends with a center index [i] lies within Levenshtein distance
    [floor(q/2)] of some member of clique [i].  Two k-mers with the same
    label are therefore at distance at most [q] plus the distance between
    the two members they were reached from; the bound is [q] itself when
    the clique has one member only. *)
Theorem island_radius (k : nat) (p q : Z) (cliques : list (list Util.kmer)) :
  (k <= 15)%nat -> cliques_ok k cliques -> 0 <= q ->
  let h := CliqueDriver.run k p q cliques in
  (forall x, is_kmer k x -> 0 <= rd h x ->
     exists i c m, rd h x = Z.of_nat i /\ cliques !! i = Some c /\ In m c /\
                   vdist k m x <= Z.shiftr q 1) /\
  (forall x y, is_kmer k x -> is_kmer k y -> 0 <= rd h x -> rd h x = rd h y ->
     exists i c mx my, rd h x = Z.of_nat i /\ cliques !! i = Some c /\
                       In mx c /\ In my c /\
                       kmer_dist k x y <= q + vdist k mx my) /\
  (forall x y i m, is_kmer k x -> is_kmer k y ->
     rd h x = Z.of_nat i -> rd h y = Z.of_nat i -> cliques !! i = Some [m] ->
     kmer_dist k x y <= q).
Proof.
  intros Hk15 Hok Hq h.
  assert (Hk : (k <= 31)%nat) by lia.
  destruct (run_radius k p q cliques Hk Hok) as (rho & st & Hst & [_ HR2] & Hrho).
  fold h in Hst. rewrite Hst in HR2.
  assert (Hhalf : 2 * Z.shiftr q 1 <= q).
  { rewrite Z.shiftr_div_pow2 by lia. change (2 ^ 1) with 2.
    pose proof (Z.mul_div_le q 2). lia. }
  assert (Hh0 : 0 <= Z.shiftr q 1) by (apply Z.shiftr_nonneg; assumption).
  assert (Hnear : forall x, is_kmer k x -> 0 <= rd h x ->
            exists i c m, rd h x = Z.of_nat i /\ cliques !! i = Some c /\ In m c /\
                          vdist k m x <= Z.shiftr q 1).
  { intros x Hx Hlab. destruct (HR2 x Hx Hlab) as (i & c & E1 & E2 & m & Hm & Hd).
    exists i, c, m. repeat split; try assumption.
    unfold vdist. pose proof (Hrho i). lia. }
  assert (Hpair : forall x y, is_kmer k x -> is_kmer k y -> 0 <= rd h x ->
            rd h x = rd h y ->
            exists i c mx my, rd h x = Z.of_nat i /\ cliques !! i = Some c /\
                              In mx c /\ In my c /\
                              kmer_dist k x y <= q + vdist k mx my).
  { intros x y Hx Hy Hlab Hxy.
    destruct (Hnear x Hx Hlab) as (i & c & mx & E1 & E2 & Hmx & Hdx).
    destruct (Hnear y Hy ltac:(lia)) as (i' & c' & my & E1' & E2' & Hmy & Hdy).
    assert (i' = i) as -> by lia.
    rewrite E2 in E2'. injection E2' as <-.
    exists i, c, mx, my. repeat split; try assumption.
    rewrite (kmer_dist_vdist k x y Hk Hx Hy). unfold vdist in *.
    pose proof (lev_triangle (vstr k x) (vstr k mx) (vstr k y)).
    pose proof (lev_triangle (vstr k mx) (vstr k my) (vstr k y)).
    rewrite (lev_sym (vstr k x) (vstr k mx)) in *. lia. }
  split; [exact Hnear|]. split; [exact Hpair|].
  intros x y i m Hx Hy Lx Ly Hc.
  destruct (Hpair x y Hx Hy ltac:(lia) ltac:(lia)) as (i' & c & mx & my & E1 & E2 & Hmx & Hmy & Hd).
  assert (Hi : i' = i) by lia. subst i'.
  assert (Hcm : c = [m]) by (unfold Util.kmer in *; congruence). subst c.
  destruct Hmx as [<-|[]]. destruct Hmy as [<-|[]].
  unfold vdist in Hd. rewrite lev_refl in Hd. lia.
Qed.

Lemma island_radius_witness :
  exists i c m,
    rd (CliqueDriver.run 2 2 2 [[0]; [15]]) 1 = Z.of_nat i /\
    [[0]; [15]] !! i = Some c /\ In m c /\ vdist 2 m 1 <= Z.shiftr 2 1.
Proof.
  assert (H1 : (2 <= 15)%nat) by lia.
  assert (H2 : cliques_ok 2 [[0]; [15]]) by kmers_ok.
  assert (H3 : 0 <= 2) by lia.
  assert (H4 : is_kmer 2 1) by (split; [lia|reflexivity]).
  assert (H5 : 0 <= rd (CliqueDriver.run 2 2 2 [[0]; [15]]) 1)
    by (vm_compute; discriminate).
  exact (proj1 (island_radius 2 2 2 [[0]; [15]] H1 H2 H3) 1 H4 H5).
Defined.

(** C2 fails on the code.  The header of the program states condition 2,
    [dist(s, t) > q] implies [h(s) != h(t)], and that the diameter of each
    island is at most [q].  With [k = 3], [p = 1], [q = 2] and the single
    clique {AAA, AAC}, the k-mers CAA and ACC both end with label 0, at
    distance 3 from each other. *)
Lemma island_diameter_exceeds_q :
  let h := CliqueDriver.run 3 1 2 [[0; 1]] in
  cliques_ok 3 [[0; 1]] /\ kmer_dist 3 0 1 = 1 /\
  is_kmer 3 16 /\ is_kmer 3 5 /\
  rd h 16 = 0 /\ rd h 5 = 0 /\ kmer_dist 3 16 5 = 3 /\ ~ kmer_dist 3 16 5 <= 2.
Proof.
  cbv zeta. split; [kmers_ok|].
  split; [vm_compute; reflexivity|].
  split; [split; [lia|reflexivity]|].
  split; [split; [lia|reflexivity]|].
  split; [vm_compute; reflexivity|].
  split; [vm_compute; reflexivity|].
  split; [vm_compute; reflexivity|].
  vm_compute. intros H'. apply H'. reflexivity.
Qed.

(** ** One turn of the neighbour-list driver *)

Lemma next_layer_grows k layer h vis :
  marks_grow h vis (Layers.labels (Layers.next_layer layer k h vis))
                   (Layers.visited (Layers.next_layer layer k h vis)).
Proof.
  unfold Layers.next_layer. destruct (length layer =? 0)%nat.
  - apply marks_grow_refl.
  - apply (fold_expand_grows k layer
             {| Layers.new_layer := []; Layers.labels := h; Layers.visited := vis |}).
Qed.

Section CenterTurn.
Import CenterDriver.
Variable k : nat.
Hypothesis Hk : (k <= 31)%nat.
Variables (p radius : Z).

(** The body of the loop over the new layer writes at [s] only, and only
    over a label below GRAY. *)
Lemma center_commit_cases islands cc i h s x :
  0 <= s -> 0 <= x ->
  rd (commit k p radius islands cc i h s) x = rd h x \/
  (x = s /\ s < luMSB /\ rd h s <= -2 /\
   (rd (commit k p radius islands cc i h s) x = -1 \/
    rd (commit k p radius islands cc i h s) x = Z.of_nat i)).
Proof.
  intros Hs Hx. unfold commit.
  destruct (Z.geb_spec s luMSB); [left; reflexivity|].
  destruct (Z.gtb_spec (rd h s) (-2)); [left; reflexivity|].
  destruct (conflict_with_centers k p radius islands cc s);
    match goal with
    | |- context [wr h s ?v] =>
        destruct (rd_wr_cases h s v x Hs Hx) as [E|(-> & E & _)]
    end; auto; right; (split; [reflexivity|]); (split; [lia|]); (split; [lia|]); auto.
Qed.

Lemma length_center_commit islands cc i h s :
  length (commit k p radius islands cc i h s) = length h.
Proof.
  unfold commit. destruct (s >=? luMSB); [reflexivity|].
  destruct (rd h s >? -2); [reflexivity|].
  destruct (conflict_with_centers k p radius islands cc s); apply length_wr.
Qed.

(** The loop over the new layer: a label changed was below GRAY, belongs
    to a k-mer of the layer, and is now GRAY or [i]; no k-mer of the layer
    is left below GRAY. *)
Lemma center_fold_commit islands cc i layer : forall h,
  Forall (fun s => 0 <= s) layer ->
  let h' := fold_left (commit k p radius islands cc i) layer h in
  length h' = length h /\
  (forall x, 0 <= x ->
     rd h' x = rd h x \/
     (In x layer /\ x < luMSB /\ rd h x <= -2 /\
      (rd h' x = -1 \/ rd h' x = Z.of_nat i))) /\
  (forall s, In s layer -> s < luMSB -> s < Z.of_nat (length h) -> -2 < rd h' s).
Proof.
  induction layer as [|s0 layer IH]; intros h Hnn; cbn [fold_left].
  - split; [reflexivity|]. split; [intros x _; left; reflexivity|intros s []].
  - apply Forall_cons in Hnn. destruct Hnn as [Hs0 Hnn].
    set (h1 := commit k p radius islands cc i h s0).
    destruct (IH h1 Hnn) as (Hlen & Hfr & Hfin).
    assert (Hlen1 : length h1 = length h) by apply length_center_commit.
    split; [congruence|]. split.
    + intros x Hx.
      destruct (center_commit_cases islands cc i h s0 x Hs0 Hx) as [E1|(Ex & Hlt & Hlo & E1)];
        fold h1 in E1; destruct (Hfr x Hx) as [E2|(Hin & Hlt' & Hlo' & E2)].
      * left. congruence.
      * right. split; [right; assumption|]. split; [assumption|]. split; [lia|assumption].
      * right. split; [left; symmetry; assumption|]. split; [lia|]. split; [subst x; assumption|].
        rewrite E2. assumption.
      * exfalso. destruct E1 as [E1|E1]; lia.
    + intros s Hin Hlt Hsz.
      assert (Hs : 0 <= s).
      { destruct Hin as [<-|Hin]; [assumption|].
        rewrite Forall_forall in Hnn. apply Hnn. apply list_elem_of_In. assumption. }
      destruct (in_dec Z.eq_dec s layer) as [Hl|Hnl].
      { apply Hfin; [assumption|assumption|]. rewrite Hlen1. assumption. }
      destruct Hin as [->|Hin]; [|contradiction].
      assert (Hnow : -2 < rd h1 s).
      { unfold h1, commit. destruct (Z.geb_spec s luMSB); [lia|].
        destruct (Z.gtb_spec (rd h s) (-2)); [lia|].
        destruct (conflict_with_centers k p radius islands cc s);
          rewrite rd_wr_eq by lia; lia. }
      destruct (Hfr s Hs) as [E|(_ & _ & Hlo & _)]; lia.
Qed.

(** The layer a call of [getNextLayer] returns holds vertices only, when
    the layer it was given did. *)
Lemma new_layer_nonneg layer h vis :
  Forall (fun s => 0 <= s) (Layers.new_layer (Layers.next_layer layer k h vis)).
Proof.
  rewrite Forall_forall. intros v Hv. apply list_elem_of_In in Hv.
  apply next_layer_from in Hv as (s & _ & Hv).
  eapply (neighbors_nonneg k Hk). eassumption.
Qed.

(** A turn of an island leaves every label above BFS_VISITED as it is. *)
Lemma center_turn_keeps st i x :
  0 <= x -> -2 < rd st.1.2 x ->
  rd (process_island k p radius st i).1.2 x = rd st.1.2 x.
Proof.
  destruct st as [[islands h] vis]. cbn [fst snd]. intros Hx Hfin.
  unfold process_island. destruct (islands !! i) as [cur|]; [|reflexivity].
  unfold getNextLayer. cbv zeta. cbn [fst snd bfs_layer].
  set (e := Layers.next_layer (bfs_layer cur) k h vis).
  destruct (next_layer_grows k (bfs_layer cur) h vis) as (_ & _ & Hg & _). fold e in Hg.
  match goal with
  | |- rd (fold_left (commit k p radius ?isls ?cc i) _ _) x = _ =>
      destruct (center_fold_commit isls cc i (Layers.new_layer e) (Layers.labels e)
                  (new_layer_nonneg _ _ _)) as (_ & Hfr & _)
  end.
  destruct (Hg x Hx) as [E|[E _]]; [|lia].
  destruct (Hfr x Hx) as [E'|(_ & _ & Hlo & _)]; [congruence|lia].
Qed.

Lemma center_turns_keep l x : forall st,
  0 <= x -> -2 < rd st.1.2 x ->
  rd (fold_left (process_island k p radius) l st).1.2 x = rd st.1.2 x.
Proof.
  induction l as [|i l IH]; intros st Hx Hfin; [reflexivity|].
  cbn [fold_left]. pose proof (center_turn_keeps st i x Hx Hfin) as E.
  rewrite IH by (try assumption; lia). exact E.
Qed.

End CenterTurn.

Lemma center_rounds_keep k p n x : (k <= 31)%nat -> forall radius st,
  0 <= x -> -2 < rd st.1.2 x ->
  rd (CenterDriver.rounds n k p radius st).1.2 x = rd st.1.2 x.
Proof.
  intros Hk. induction n as [|n IH]; intros radius st Hx Hfin; [reflexivity|].
  cbn [CenterDriver.rounds]. unfold CenterDriver.round at 1.
  pose proof (center_turns_keep k Hk p radius (seq 0 (length st.1.1)) x st Hx Hfin) as E.
  rewrite IH by (try assumption; unfold CenterDriver.round; lia). exact E.
Qed.

(** The loop [h[centers[i]] = i] leaves at every center the index of an
    island that holds it, and writes nowhere else. *)
Lemma seed_centers_labels cs : forall i h,
  Forall (fun c => 0 <= c < Z.of_nat (length h)) cs ->
  length (CenterDriver.seed_centers i cs h).2 = length h /\
  (forall x, 0 <= x -> ~ In x cs -> rd (CenterDriver.seed_centers i cs h).2 x = rd h x) /\
  (forall c, In c cs ->
     exists j, cs !! j = Some c /\
               rd (CenterDriver.seed_centers i cs h).2 c = Z.of_nat (i + j)).
Proof.
  induction cs as [|c0 cs IH]; intros i h Hcs; cbn [CenterDriver.seed_centers].
  - split; [reflexivity|]. split; [reflexivity|intros c []].
  - apply Forall_cons in Hcs. destruct Hcs as [Hc0 Hcs].
    set (h1 := wr h c0 (Z.of_nat i)).
    assert (Hlen1 : length h1 = length h) by apply length_wr.
    assert (Hcs1 : Forall (fun c => 0 <= c < Z.of_nat (length h1)) cs)
      by (rewrite Hlen1; assumption).
    destruct (IH (S i) h1 Hcs1) as (Hlen & Hframe & Hlab).
    destruct (CenterDriver.seed_centers (S i) cs h1) as [isls h'] eqn:E.
    cbn [fst snd] in *. split; [congruence|]. split.
    + intros x Hx Hnin.
      rewrite Hframe by (first [assumption | intros H; apply Hnin; right; exact H]).
      unfold h1. apply rd_wr_ne; [lia|assumption|]. intros ->. apply Hnin. left. reflexivity.
    + intros c Hin. destruct (in_dec Z.eq_dec c cs) as [Hl|Hnl].
      * destruct (Hlab c Hl) as (j & Hj & Ej). exists (S j). split; [exact Hj|].
        rewrite Ej. f_equal. lia.
      * destruct Hin as [->|Hin]; [|contradiction]. exists 0%nat. split; [reflexivity|].
        rewrite Hframe by (try assumption; lia).
        unfold h1. rewrite rd_wr_eq by lia. f_equal. lia.
Qed.

(** Every center ends the run with the index of an island that holds it. *)
Lemma center_run_centers k p q centers :
  (k <= 31)%nat -> Forall (is_kmer k) centers ->
  forall c, In c centers ->
    exists j, centers !! j = Some c /\ rd (CenterDriver.run k p q centers) c = Z.of_nat j.
Proof.
  intros Hk Hcs c Hc. unfold CenterDriver.run. cbv zeta.
  assert (Hc0 : 0 <= c).
  { rewrite Forall_forall in Hcs. apply list_elem_of_In in Hc. destruct (Hcs c Hc). lia. }
  set (h0 := replicate (Z.to_nat (Z.shiftl 1 (Z.shiftl (Z.of_nat k) 1))) (-3)).
  assert (Hlen0 : Z.of_nat (length h0) = 4 ^ Z.of_nat k).
  { unfold h0. rewrite length_replicate, num_kmers_pow4.
    rewrite Z2Nat.id by (apply Z.pow_nonneg; lia). reflexivity. }
  assert (Hin : Forall (fun c => 0 <= c < Z.of_nat (length h0)) centers).
  { rewrite Hlen0. exact Hcs. }
  destruct (seed_centers_labels centers 0 h0 Hin) as (_ & _ & Hlab).
  destruct (Hlab c Hc) as (j & Hj & Ej). exists j. split; [exact Hj|].
  assert (Es : rd (CenterDriver.seeded k p q centers).1.2 c = Z.of_nat j).
  { unfold CenterDriver.seeded. cbv zeta. fold h0.
    destruct (CenterDriver.seed_centers 0 centers h0) as [isls h1]. cbn [fst snd] in *.
    exact Ej. }
  rewrite center_rounds_keep by (try assumption; lia). exact Es.
Qed.

(** ** The centers file is read without validation *)

Lemma length_read_records ind k n : forall i buf fin,
  length (Reader.read_records ind k n i buf fin) = n.
Proof.
  induction n as [|n IH]; intros i buf fin; [reflexivity|].
  cbn [Reader.read_records]. destruct (Stdio.fgets buf (k + 2) fin) as [buf' fin'].
  cbn [length]. rewrite IH. reflexivity.
Qed.

Lemma dna_not_newline c :
  In c ["A"; "C"; "G"; "T"]%char -> Ascii.eqb c Stdio.newline = false.
Proof. intros [<-|[<-|[<-|[<-|[]]]]]; reflexivity. Qed.

(** [fgets] on a record shorter than the buffer stops after its newline. *)
Lemma fgets_take_record str rest : forall n,
  Forall (fun c => In c ["A"; "C"; "G"; "T"]%char) str -> (length str < n)%nat ->
  Stdio.fgets_take n (str ++ Stdio.newline :: rest) = (str ++ [Stdio.newline], rest).
Proof.
  induction str as [|c str IH]; intros n Hdna Hlen.
  - destruct n as [|n]; [cbn in Hlen; lia|]. reflexivity.
  - inversion Hdna as [|? ? Hc Hdna']; subst.
    destruct n as [|n]; [cbn in Hlen; lia|].
    cbn [app Stdio.fgets_take]. rewrite (dna_not_newline c Hc).
    rewrite (IH n Hdna') by (cbn in Hlen; lia). reflexivity.
Qed.

(** After a run of DNA letters the loop of [encode] no longer depends on
    the value [x] started with, and [x] holds the code of the last letter. *)
Lemma encode_loop_dna str : forall enc,
  str <> [] -> Forall (fun c => In c ["A"; "C"; "G"; "T"]%char) str ->
  exists E, forall x n tail,
    Util.encode_loop (length str + n) (str ++ tail) enc x
    = Util.encode_loop n tail E (Util.encode_switch (List.last str "A"%char) 0).
Proof.
  induction str as [|c str IH]; intros enc Hne Hdna; [contradiction|].
  inversion Hdna as [|? ? Hc Hdna']; subst.
  destruct (dna_code c 0 Hc) as (_ & _ & _).
  destruct str as [|c' str'].
  - exists (Z.lor (shl64 enc 2) (wrap64 (Util.encode_switch c 0))).
    intros x n tail. cbn [length app Nat.add Util.encode_loop hd tl List.last].
    rewrite (proj1 (dna_code c x Hc)). reflexivity.
  - destruct (IH (Z.lor (shl64 enc 2) (wrap64 (Util.encode_switch c 0)))
                ltac:(discriminate) Hdna') as (E & HE).
    exists E. intros x n tail.
    change (length (c :: c' :: str') + n)%nat with (S (length (c' :: str') + n)).
    change ((c :: c' :: str') ++ tail) with (c :: ((c' :: str') ++ tail)).
    cbn [Util.encode_loop hd tl].
    rewrite (proj1 (dna_code c x Hc)). rewrite HE. reflexivity.
Qed.

Lemma last_dna str :
  str <> [] -> Forall (fun c => In c ["A"; "C"; "G"; "T"]%char) str ->
  In (List.last str "A"%char) ["A"; "C"; "G"; "T"]%char.
Proof.
  intros Hne Hdna. rewrite Forall_forall in Hdna. apply Hdna.
  apply list_elem_of_In. destruct (exists_last Hne) as (l & a & ->).
  rewrite last_last. apply in_or_app. right. left. reflexivity.
Qed.

(** A record one letter short is encoded as if its last letter were
    written twice. *)
Lemma encode_short_record x0 str tail k :
  (2 <= k)%nat -> length str = (k - 1)%nat ->
  Forall (fun c => In c ["A"; "C"; "G"; "T"]%char) str ->
  Util.encode x0 (str ++ Stdio.newline :: tail) k
  = Util.encode 0 (str ++ [List.last str "A"%char]) k.
Proof.
  intros Hk Hlen Hdna.
  assert (Hne : str <> []) by (intros ->; cbn in Hlen; lia).
  destruct (encode_loop_dna str 0 Hne Hdna) as (E & HE).
  unfold Util.encode. replace k with (length str + 1)%nat by lia.
  rewrite !HE. cbn [Util.encode_loop hd tl].
  pose proof (last_dna str Hne Hdna) as Hl.
  rewrite (proj1 (dna_code _ (Util.encode_switch (List.last str "A"%char) 0) Hl)).
  reflexivity.
Qed.

(** [main] runs to the end exactly when the arrays are indexed inside
    their bounds: [k <= 15], a count the reader's loop counter can hold,
    and every value read a k-mer. *)
Lemma center_main_completed ind fin k p q h :
  CenterDriver.main ind 5 k p q fin = Completed h <->
  (k <= 15)%nat /\ (Reader.readCentersFromFile ind fin k).2 < 2 ^ 31 /\
  Forall (is_kmer k) (Reader.readCentersFromFile ind fin k).1 /\
  h = CenterDriver.run k p q (Reader.readCentersFromFile ind fin k).1.
Proof.
  unfold CenterDriver.main. cbn [Z.eqb Pos.eqb negb]. rewrite num_kmers_pow4.
  destruct (Reader.readCentersFromFile ind fin k) as [centers n]. cbn [fst snd].
  destruct (Nat.ltb_spec 15 k) as [Hk|Hk].
  { split; [discriminate|intros (H & _); lia]. }
  destruct (Z.leb_spec (2 ^ 31) n) as [Hn|Hn].
  { split; [discriminate|intros (_ & H & _); lia]. }
  match goal with
  | |- context [forallb ?f centers] => destruct (forallb f centers) eqn:Hall
  end.
  - rewrite forallb_forall in Hall.
    assert (Hcs : Forall (is_kmer k) centers).
    { rewrite Forall_forall. intros c Hc. apply list_elem_of_In in Hc.
      specialize (Hall c Hc). apply andb_true_iff in Hall. unfold is_kmer. lia. }
    split.
    + intros E. injection E as <-. repeat split; assumption.
    + intros (_ & _ & _ & ->). reflexivity.
  - split; [discriminate|]. intros (_ & _ & Hcs & _).
    assert (forallb (fun c => (0 <=? c) && (c <? 4 ^ Z.of_nat k)) centers = true);
      [|congruence].
    apply forallb_forall. intros c Hc. rewrite Forall_forall in Hcs.
    apply list_elem_of_In in Hc. specialize (Hcs c Hc). unfold is_kmer in Hcs.
    apply andb_true_iff. lia.
Qed.

(** C8 (as the code has it).  [readCentersFromFile] performs no validation:
    whatever the file holds, it returns as many centers as the count it
    ends up with (the header's, or an indeterminate one when the header
    has no digits), and no file content makes [main] leave with a
    diagnostic: it does so on the number of command-line arguments only.
    Whenever the values read index the label array inside its bounds, the
    run goes to its end, and every value read, from a well-formed record or
    not, is a center: it ends the run labelled with the index of an island
    that holds it.  Outside these bounds the program has no defined
    behaviour, and still no diagnostic.  A record one letter short is not
    rejected: it is encoded with its last letter repeated. *)
Theorem reader_no_validation (ind : Reader.indeterminate) (fin : list ascii)
    (k : nat) (p q argc : Z) :
  let r := Reader.readCentersFromFile ind fin k in
  length r.1 = Z.to_nat r.2 /\
  ((exists d, CenterDriver.main ind argc k p q fin = Aborted d) <-> argc <> 5) /\
  ((k <= 15)%nat -> r.2 < 2 ^ 31 -> Forall (is_kmer k) r.1 ->
   exists h, CenterDriver.main ind 5 k p q fin = Completed h /\
     forall c, In c r.1 -> exists j, r.1 !! j = Some c /\ rd h c = Z.of_nat j) /\
  (forall h, CenterDriver.main ind 5 k p q fin = Completed h ->
     (k <= 15)%nat /\ r.2 < 2 ^ 31 /\ Forall (is_kmer k) r.1 /\
     h = CenterDriver.run k p q r.1) /\
  (forall str rest n i buf,
     (2 <= k)%nat -> length str = (k - 1)%nat ->
     Forall (fun c => In c ["A"; "C"; "G"; "T"]%char) str ->
     Reader.read_records ind k (S n) i buf (str ++ Stdio.newline :: rest)
     = Util.encode 0 (str ++ [List.last str "A"%char]) k
       :: Reader.read_records ind k n (S i)
            (str ++ Stdio.newline :: zero :: skipn (k + 1) buf) rest).
Proof.
  cbv zeta. split; [|split; [|split; [|split]]].
  - unfold Reader.readCentersFromFile.
    destruct (Stdio.fscanf_zu_nl (Reader.ind_count ind) fin) as [n fin'].
    cbn [fst snd]. apply length_read_records.
  - unfold CenterDriver.main. destruct (Z.eqb_spec argc 5) as [->|Hne]; cbn [negb].
    + split; [|intros Hne; contradiction]. intros [d Hd]. exfalso. revert Hd.
      destruct (15 <? k)%nat; [discriminate|].
      destruct (Reader.readCentersFromFile ind fin k) as [centers n].
      destruct (2 ^ 31 <=? n); [discriminate|].
      match goal with
      | |- context [forallb ?f centers] => destruct (forallb f centers)
      end; discriminate.
    + split; [intros _; assumption|intros _; eexists; reflexivity].
  - intros Hk Hn Hcs. exists (CenterDriver.run k p q (Reader.readCentersFromFile ind fin k).1).
    split.
    + apply center_main_completed. repeat split; assumption.
    + apply center_run_centers; [lia|assumption].
  - intros h Hh. apply center_main_completed. exact Hh.
  - intros str rest n i buf Hk Hlen Hdna.
    cbn [Reader.read_records]. unfold Stdio.fgets.
    assert (Hne : str <> []) by (intros ->; cbn in Hlen; lia).
    destruct (str ++ Stdio.newline :: rest) as [|c0 f0] eqn:Ef.
    { destruct str; discriminate. }
    rewrite <- Ef.
    rewrite (fgets_take_record str rest (k + 2 - 1) Hdna) by lia.
    rewrite <- app_assoc. cbn [app].
    rewrite (encode_short_record _ str _ k Hk Hlen Hdna).
    rewrite length_app. cbn [length].
    replace (length str + 1 + 1)%nat with (k + 1)%nat by lia.
    reflexivity.
Qed.

Lemma reader_no_validation_witness :
  let ind := {| Reader.ind_count := 0; Reader.ind_buffer := [];
                Reader.ind_x := fun _ => 0 |} in
  let fin := ["1"; Stdio.newline; "A"; "C"; Stdio.newline]%char in
  exists h, CenterDriver.main ind 5 4 1 2 fin = Completed h /\
    forall c, In c [21] -> exists j, [21] !! j = Some c /\ rd h c = Z.of_nat j.
Proof.
  cbv zeta.
  set (ind := {| Reader.ind_count := 0; Reader.ind_buffer := [];
                 Reader.ind_x := fun _ => 0 |}).
  set (fin := ["1"; Stdio.newline; "A"; "C"; Stdio.newline]%char).
  assert (E : Reader.readCentersFromFile ind fin 4 = ([21], 1)) by (vm_compute; reflexivity).
  pose proof (reader_no_validation ind fin 4 1 2 5) as H. cbv zeta in H.
  destruct H as (_ & _ & H3 & _). rewrite E in H3. cbn [fst snd] in H3.
  apply H3.
  - lia.
  - reflexivity.
  - constructor; [split; [lia|reflexivity]|constructor].
Defined.

(** C8, a malformed file that is read through: with [k = 4], the file
    "1\nAC\n" holds a record of length 2.  The run is not aborted; the
    record is encoded as the k-mer ACCC, which ends up the center of
    island 0. *)
Lemma short_record_is_encoded :
  let ind := {| Reader.ind_count := 0; Reader.ind_buffer := [];
                Reader.ind_x := fun _ => 0 |} in
  let fin := ["1"; Stdio.newline; "A"; "C"; Stdio.newline]%char in
  Reader.readCentersFromFile ind fin 4 = ([21], 1) /\
  Util.decode 21 4 = ["A"; "C"; "C"; "C"]%char /\
  exists h, CenterDriver.main ind 5 4 1 2 fin = Completed h /\ rd h 21 = 0.
Proof.
  cbv zeta. split; [vm_compute; reflexivity|]. split; [vm_compute; reflexivity|].
  eexists. split; [vm_compute; reflexivity|]. vm_compute. reflexivity.
Qed.

(** A header with a sign is a count: [%zu] accepts it. *)
Lemma signed_header_is_a_count :
  let ind := {| Reader.ind_count := 9; Reader.ind_buffer := [];
                Reader.ind_x := fun _ => 0 |} in
  Reader.readCentersFromFile ind
    ["+"; "2"; Stdio.newline; "A"; "C"; Stdio.newline; "T"; "G"; Stdio.newline]%char 2
  = ([1; 14], 2).
Proof. vm_compute. reflexivity. Qed.

(** A record that is not over A, C, G, T is encoded from what the local
    [x] of [encode] held, and the value can lie outside the label array:
    with [k = 2], the record "ac" and [x] holding 4096 the value read is
    20480, and [h[centers[i]] = i] writes outside [h]. *)
Lemma lowercase_record_is_out_of_range :
  let ind := {| Reader.ind_count := 0; Reader.ind_buffer := [];
                Reader.ind_x := fun _ => 4096 |} in
  let fin := ["1"; Stdio.newline; "a"; "c"; Stdio.newline]%char in
  Reader.readCentersFromFile ind fin 2 = ([20480], 1) /\
  CenterDriver.main ind 5 2 1 2 fin = Undefined "h[centers[i]] is outside h".
Proof. cbv zeta. split; vm_compute; reflexivity. Qed.

(** ** Every single edit is generated *)

Section GeneratorComplete.
Variable k : nat.
Hypothesis Hk : (k <= 31)%nat.

Lemma kstep_neighbors s t' :
  vertex k s -> Forall (fun z => 0 <= z < 4) t' -> kstep k (vstr k s) t' ->
  exists v, In v (neighbors k s) /\ vstr k v = t'.
Proof.
  intros Hs Hrange Hstep. unfold neighbors.
  destruct (vertex_cases k s Hk Hs) as [[Hlt Hkm]|[Hge (y & Hy & ->)]].
  - destruct (Z.ltb_spec s luMSB) as [_|]; [|lia].
    rewrite (vstr_kmer k s Hk Hkm) in Hstep.
    destruct Hstep as [[_ [Hsub|Hdel]]|(Hlen & Hk1 & _)].
    + (* substitution *)
      inversion Hsub as [u a b w Heq Ht]. subst t'.
      assert (Hl : length (u ++ a :: w) = k) by (rewrite Heq; apply length_syms).
      rewrite length_app in Hl. cbn [length] in Hl.
      set (j := S (length w)).
      pose proof (syms_split s k j ltac:(lia)) as Hsp.
      unfold j in Hsp at 3. cbn [syms] in Hsp.
      rewrite Hsp in Heq.
      apply app_inj_2 in Heq; [|cbn [length]; rewrite length_syms; reflexivity].
      destruct Heq as [Hu Hw]. injection Hw as Ha Hw.
      assert (Hb : 0 <= b < 4).
      { apply Forall_app in Hrange. destruct Hrange as [_ Hr].
        apply Forall_cons in Hr. tauto. }
      exists (Layers.sub_at s j b). split.
      * apply in_or_app. right. apply in_substitutions.
        exists j, b. split; [lia|]. split; [assumption|reflexivity].
      * rewrite (vstr_kmer k _ Hk (sub_at_range k Hk s j b Hkm ltac:(lia) Hb)).
        rewrite (sub_at_syms k Hk s j b ltac:(lia) Hb).
        unfold j at 3. replace (S (length w) - 1)%nat with (length w) by lia.
        rewrite <- Hu, <- Hw. reflexivity.
    + (* deletion *)
      inversion Hdel as [u a w Heq Ht]. subst t'.
      assert (Hl : length (u ++ a :: w) = k) by (rewrite Heq; apply length_syms).
      rewrite length_app in Hl. cbn [length] in Hl.
      set (j := length w).
      pose proof (syms_split s k (S j) ltac:(lia)) as Hsp.
      cbn [syms] in Hsp. rewrite Hsp in Heq.
      apply app_inj_2 in Heq; [|cbn [length]; rewrite length_syms; reflexivity].
      destruct Heq as [Hu Hw]. injection Hw as Ha Hw.
      exists (Z.lor (Layers.del_at s j) luMSB). split.
      * apply in_or_app. left. apply in_map_iff.
        exists (Layers.del_at s j). split; [reflexivity|]. apply in_deletions.
        exists j. split; [lia|reflexivity].
      * rewrite (vstr_tagged k _ Hk (del_at_range k Hk s j Hkm ltac:(lia))).
        rewrite (del_at_syms k Hk s j ltac:(lia)).
        replace (k - 1 - j)%nat with (k - S j)%nat by lia.
        rewrite <- Hu, <- Hw. reflexivity.
    + rewrite length_syms in Hlen. lia.
  - pose proof (km1mer_above_tag k (Z.lor y luMSB) Hk
                  (ex_intro _ y (conj Hy eq_refl))) as Hge'.
    destruct (Z.ltb_spec (Z.lor y luMSB) luMSB) as [|_]; [lia|].
    rewrite (vstr_tagged k y Hk Hy) in Hstep.
    destruct Hstep as [[Hlen [Hsub|Hdel]]|(_ & Hk1 & Hins)].
    + rewrite length_syms in Hlen. assert (k = 0%nat) as -> by lia.
      inversion Hsub as [u a b w Heq Ht]. destruct u; discriminate.
    + rewrite length_syms in Hlen. assert (k = 0%nat) as -> by lia.
      inversion Hdel as [u a w Heq Ht]. destruct u; discriminate.
    + inversion Hins as [u b w Heq Ht]. subst t'.
      assert (Hl : length (u ++ w) = (k - 1)%nat) by (rewrite Heq; apply length_syms).
      rewrite length_app in Hl.
      set (j := length w).
      pose proof (syms_split y (k - 1) j ltac:(lia)) as Hsp.
      rewrite Hsp in Heq.
      apply app_inj_2 in Heq; [|rewrite length_syms; reflexivity].
      destruct Heq as [Hu Hw].
      assert (Hb : 0 <= b < 4).
      { apply Forall_app in Hrange. destruct Hrange as [_ Hr].
        apply Forall_cons in Hr. tauto. }
      exists (Layers.ins_at (Z.lor y luMSB) j b). split.
      * apply in_insertions. exists j, b. split; [lia|]. split; [assumption|reflexivity].
      * rewrite (vstr_kmer k _ Hk (ins_at_range k Hk y j b Hy ltac:(lia) Hb)).
        rewrite (ins_at_syms k Hk y j b Hy ltac:(lia) Hb).
        rewrite <- Hu, <- Hw. reflexivity.
Qed.

(** A path of edits between words over the four symbols is a walk along
    generated neighbours. *)
Lemma steps_walk n : forall u w,
  vertex k u ->
  steps (fun s t => kstep k s t /\ Forall (fun z => 0 <= z < 4) t) n (vstr k u) w ->
  exists v, walk k n u v /\ vertex k v /\ vstr k v = w.
Proof.
  induction n as [|n IH]; intros u w Hu Hp.
  - inversion Hp; subst. exists u. split; [constructor|]. split; [assumption|reflexivity].
  - inversion Hp as [|n' s0 t0 w0 [Hstep Hr] Hrest]; subst.
    destruct (kstep_neighbors u t0 Hu Hr Hstep) as (v1 & Hin & Hv1).
    pose proof (neighbors_vertex k Hk u v1 Hu Hin) as Hvert.
    rewrite <- Hv1 in Hrest.
    destruct (IH v1 w Hvert Hrest) as (v & Hw & Hv & Hvw).
    exists v. split; [econstructor; eassumption|]. split; assumption.
Qed.

(** Two k-mers at distance [n] are joined by a walk of [n] steps. *)
Lemma kmer_walk s t :
  is_kmer k s -> is_kmer k t -> (1 <= k)%nat ->
  walk k (lev (syms s k) (syms t k)) s t.
Proof.
  intros Hs Ht Hk1.
  pose proof (lev_kpath k (fun z => 0 <= z < 4) (syms s k) (syms t k)
                (length_syms s k) (length_syms t k)
                (Forall_syms_range s k) (Forall_syms_range t k)) as Hp.
  rewrite <- (vstr_kmer k s Hk Hs) in Hp at 2.
  destruct (steps_walk _ s _ (kmer_vertex k s Hs) Hp) as (v & Hw & Hv & Hvt).
  assert (v = t) as ->; [|exact Hw].
  destruct (vertex_cases k v Hk Hv) as [[_ Hkm]|[_ (y & Hy & ->)]].
  - rewrite (vstr_kmer k v Hk Hkm) in Hvt. apply (syms_inj v t k); assumption.
  - rewrite (vstr_tagged k y Hk Hy) in Hvt.
    apply (f_equal (@length Z)) in Hvt. rewrite !length_syms in Hvt. lia.
Qed.

End GeneratorComplete.

(** ** The probe reaches every vertex within its depth *)

Section Probe.
Variable k : nat.
Hypothesis Hk : (k <= 31)%nat.
Variables (c : Z) (h : list Z).

Lemma fold_probe_None (f : CliqueDriver.probe -> Z -> CliqueDriver.probe) l :
  (forall x, f None x = None) -> fold_left f l None = None.
Proof. intros Hf. induction l as [|x l IH]; [reflexivity|]. cbn. rewrite Hf. exact IH. Qed.

Lemma probe_insert_spec seen0 sn nx x :
  probe_inv seen0 (sn, nx) ->
  let st' := if decide (x ∈ sn) then (sn, nx) else ({[x]} ∪ sn, nx ++ [x]) in
  probe_inv seen0 st' /\ sn ⊆ st'.1 /\ x ∈ st'.1 /\
  (forall v, In v st'.2 -> In v nx \/ v = x).
Proof.
  unfold probe_inv. cbn [fst snd]. intros (I1 & I2 & I3).
  destruct (decide (x ∈ sn)) as [Hin|Hnotin]; cbn [fst snd].
  - split; [split; [assumption|split; assumption]|].
    split; [reflexivity|]. split; [assumption|]. intros v Hv. left. assumption.
  - split; [split; [|split]|split; [|split]].
    + etrans; [exact I1|apply union_subseteq_r].
    + intros v Hv. apply elem_of_union in Hv. destruct Hv as [Hv|Hv].
      * apply elem_of_singleton in Hv. subst v. right. apply in_or_app. right. left.
        reflexivity.
      * destruct (I2 v Hv) as [Hs|Hn]; [left; assumption|].
        right. apply in_or_app. left. assumption.
    + intros v Hv. apply elem_of_union. apply in_app_or in Hv.
      destruct Hv as [Hv|[Hv|[]]].
      * right. apply I3. assumption.
      * left. apply elem_of_singleton. symmetry. assumption.
    + apply union_subseteq_r.
    + apply elem_of_union. left. apply elem_of_singleton. reflexivity.
    + intros v Hv. apply in_app_or in Hv. destruct Hv as [Hv|[Hv|[]]]; auto.
Qed.

Lemma probe_k_spec seen0 st x st' :
  CliqueDriver.probe_k c h (Some st) x = Some st' -> probe_inv seen0 st ->
  probe_inv seen0 st' /\ st.1 ⊆ st'.1 /\ x ∈ st'.1 /\ unclaimed c h x /\
  (forall v, In v st'.2 -> In v st.2 \/ v = x).
Proof.
  destruct st as [sn nx]. unfold CliqueDriver.probe_k. intros Hstep Hinv.
  destruct ((rd h x >=? 0) && negb (rd h x =? c)) eqn:Echk; [discriminate|].
  assert (Hun : unclaimed c h x).
  { intros [H0 Hne]. apply andb_false_iff in Echk. destruct Echk as [E|E].
    - rewrite Z.geb_leb in E. apply Z.leb_gt in E. lia.
    - apply negb_false_iff, Z.eqb_eq in E. contradiction. }
  destruct (probe_insert_spec seen0 sn nx x Hinv) as (H1 & H2 & H3 & H4).
  destruct (decide (x ∈ sn)); injection Hstep as <-; auto.
Qed.

Lemma probe_km1_spec seen0 st x st' :
  CliqueDriver.probe_km1 (Some st) x = Some st' -> probe_inv seen0 st ->
  probe_inv seen0 st' /\ st.1 ⊆ st'.1 /\ x ∈ st'.1 /\ True /\
  (forall v, In v st'.2 -> In v st.2 \/ v = x).
Proof.
  destruct st as [sn nx]. unfold CliqueDriver.probe_km1. intros Hstep Hinv.
  destruct (probe_insert_spec seen0 sn nx x Hinv) as (H1 & H2 & H3 & H4).
  destruct (decide (x ∈ sn)); injection Hstep as <-; auto.
Qed.

Lemma fold_probe_spec (f : CliqueDriver.probe -> Z -> CliqueDriver.probe)
    (G : Z -> Prop) seen0 :
  (forall x, f None x = None) ->
  (forall st x st', f (Some st) x = Some st' -> probe_inv seen0 st ->
     probe_inv seen0 st' /\ st.1 ⊆ st'.1 /\ x ∈ st'.1 /\ G x /\
     (forall v, In v st'.2 -> In v st.2 \/ v = x)) ->
  forall l st st', fold_left f l (Some st) = Some st' -> probe_inv seen0 st ->
     probe_inv seen0 st' /\ st.1 ⊆ st'.1 /\
     (forall x, In x l -> x ∈ st'.1 /\ G x) /\
     (forall v, In v st'.2 -> In v st.2 \/ In v l).
Proof.
  intros HNone Hstep. induction l as [|x l IH]; intros st st' Hfold Hinv.
  - cbn in Hfold. injection Hfold as <-.
    split; [assumption|]. split; [reflexivity|].
    split; [intros x []|intros v Hv; left; assumption].
  - cbn [fold_left] in Hfold. destruct (f (Some st) x) as [st1|] eqn:E1.
    + destruct (Hstep st x st1 E1 Hinv) as (Hinv1 & Hsub1 & Hx1 & HG & Hnx1).
      destruct (IH st1 st' Hfold Hinv1) as (Hinv' & Hsub' & Hall & Hnx').
      split; [assumption|]. split; [etrans; eassumption|]. split.
      * intros y [ <- | Hy]; [split; [apply Hsub'; assumption|assumption]|apply Hall; assumption].
      * intros v Hv. destruct (Hnx' v Hv) as [Hv1|Hv1]; [|right; right; assumption].
        destruct (Hnx1 v Hv1) as [Hv0|Hv0]; [left; assumption|right; left; symmetry; assumption].
    + rewrite (fold_probe_None f l HNone) in Hfold. discriminate.
Qed.

Lemma probe_vertex_spec seen0 st s st' :
  vertex k s ->
  CliqueDriver.probe_vertex k c h (Some st) s = Some st' -> probe_inv seen0 st ->
  probe_inv seen0 st' /\ st.1 ⊆ st'.1 /\
  (forall v, In v (neighbors k s) -> v ∈ st'.1 /\ (v < luMSB -> unclaimed c h v)) /\
  (forall v, In v st'.2 -> In v st.2 \/ In v (neighbors k s)).
Proof.
  intros Hs Hstep Hinv. unfold CliqueDriver.probe_vertex in Hstep. unfold neighbors.
  destruct (vertex_cases k s Hk Hs) as [[Hlt Hkm]|[Hge Hkm]].
  - destruct (Z.ltb_spec s luMSB) as [_|]; [|lia].
    destruct (Z.geb_spec s luMSB) as [|_]; [lia|].
    destruct (fold_left CliqueDriver.probe_km1
                (map (fun x => Z.lor x luMSB) (Layers.deletions s k)) (Some st))
      as [st1|] eqn:E1.
    + destruct (fold_probe_spec CliqueDriver.probe_km1 (fun _ => True) seen0
                  (fun _ => eq_refl) (probe_km1_spec seen0) _ st st1 E1 Hinv)
        as (Hinv1 & Hsub1 & Hall1 & Hnx1).
      destruct (fold_probe_spec (CliqueDriver.probe_k c h) (unclaimed c h) seen0
                  (fun _ => eq_refl) (probe_k_spec seen0) _ st1 st' Hstep Hinv1)
        as (Hinv' & Hsub' & Hall' & Hnx').
      split; [assumption|]. split; [etrans; eassumption|]. split.
      * intros v Hv. apply in_app_or in Hv. destruct Hv as [Hv|Hv].
        -- split; [apply Hsub', Hall1; assumption|]. intros Hvlt. exfalso.
           apply in_map_iff in Hv. destruct Hv as (x & <- & Hx).
           pose proof (deletions_km1mer k Hk s Hkm) as Hd.
           rewrite Forall_forall in Hd.
           specialize (Hd x (proj2 (list_elem_of_In _ _) Hx)).
           pose proof (km1mer_above_tag k (Z.lor x luMSB) Hk
                         (ex_intro _ x (conj Hd eq_refl))). lia.
        -- destruct (Hall' v Hv) as [H1 H2]. split; auto.
      * intros v Hv. destruct (Hnx' v Hv) as [Hv1|Hv1].
        -- destruct (Hnx1 v Hv1) as [|Hd]; [left; assumption|].
           right. apply in_or_app. left. assumption.
        -- right. apply in_or_app. right. assumption.
    + rewrite (fold_probe_None (CliqueDriver.probe_k c h) _ (fun _ => eq_refl)) in Hstep.
      discriminate.
  - destruct (Z.ltb_spec s luMSB) as [|_]; [lia|].
    destruct (Z.geb_spec s luMSB) as [_|]; [|lia].
    destruct (fold_probe_spec (CliqueDriver.probe_k c h) (unclaimed c h) seen0
                (fun _ => eq_refl) (probe_k_spec seen0) _ st st' Hstep Hinv)
      as (Hinv' & Hsub' & Hall' & Hnx').
    split; [assumption|]. split; [assumption|]. split.
    + intros v Hv. destruct (Hall' v Hv) as [H1 H2]. split; auto.
    + assumption.
Qed.

Lemma probe_vertex_None s : CliqueDriver.probe_vertex k c h None s = None.
Proof.
  unfold CliqueDriver.probe_vertex. destruct (s >=? luMSB).
  - apply fold_probe_None. reflexivity.
  - rewrite (fold_probe_None CliqueDriver.probe_km1 _ (fun _ => eq_refl)).
    apply fold_probe_None. reflexivity.
Qed.

Lemma pass_spec seen0 cur : forall st st',
  Forall (vertex k) cur ->
  fold_left (CliqueDriver.probe_vertex k c h) cur (Some st) = Some st' ->
  probe_inv seen0 st ->
  probe_inv seen0 st' /\ st.1 ⊆ st'.1 /\
  (forall u v, In u cur -> In v (neighbors k u) ->
               v ∈ st'.1 /\ (v < luMSB -> unclaimed c h v)) /\
  (forall v, In v st'.2 -> In v st.2 \/ exists u, In u cur /\ In v (neighbors k u)).
Proof.
  induction cur as [|s cur IH]; intros st st' Hcur Hfold Hinv.
  - cbn in Hfold. injection Hfold as <-.
    split; [assumption|]. split; [reflexivity|].
    split; [intros u v []|intros v Hv; left; assumption].
  - inversion Hcur as [|? ? Hs Hcur']; subst. cbn [fold_left] in Hfold.
    destruct (CliqueDriver.probe_vertex k c h (Some st) s) as [st1|] eqn:E1.
    + destruct (probe_vertex_spec seen0 st s st1 Hs E1 Hinv)
        as (Hinv1 & Hsub1 & Hall1 & Hnx1).
      destruct (IH st1 st' Hcur' Hfold Hinv1) as (Hinv' & Hsub' & Hall' & Hnx').
      split; [assumption|]. split; [etrans; eassumption|]. split.
      * intros u v [ <- | Hu] Hv.
        -- destruct (Hall1 v Hv) as [H1 H2]. split; [apply Hsub'; assumption|assumption].
        -- apply (Hall' u v Hu Hv).
      * intros v Hv. destruct (Hnx' v Hv) as [Hv1|(u & Hu & Hv1)].
        -- destruct (Hnx1 v Hv1) as [|Hn]; [left; assumption|].
           right. exists s. split; [left; reflexivity|assumption].
        -- right. exists u. split; [right; assumption|assumption].
    + rewrite (fold_probe_None _ cur probe_vertex_None) in Hfold. discriminate.
Qed.

(** When the probe returns FALSE, every k-mer a walk of at most [depth]
    steps leads to has passed the test. *)
Lemma probe_layers_complete depth : forall seen cur,
  Forall (vertex k) cur ->
  (forall u, u ∈ seen ->
     In u cur \/
     forall v, In v (neighbors k u) -> v ∈ seen /\ (v < luMSB -> unclaimed c h v)) ->
  CliqueDriver.probe_layers depth k c h seen cur = false ->
  forall n u w, u ∈ seen -> (n < depth)%nat -> walk k (S n) u w ->
                w < luMSB -> unclaimed c h w.
Proof.
  induction depth as [|d IH]; intros seen cur Hcur Hclosed Hres n u w Hu Hn Hwalk Hw;
    [lia|].
  cbn [CliqueDriver.probe_layers] in Hres.
  destruct (fold_left (CliqueDriver.probe_vertex k c h) cur (Some (seen, [])))
    as [[seen' next]|] eqn:Epass; [|discriminate].
  assert (Hinv0 : probe_inv seen (seen, [])).
  { unfold probe_inv. cbn [fst snd]. repeat split; auto. contradiction. }
  destruct (pass_spec seen cur (seen, []) (seen', next) Hcur Epass Hinv0)
    as ((I1 & I2 & I3) & Hsub & Hall & Hnx). cbn [fst snd] in *.
  assert (Hnb : forall u, u ∈ seen -> forall v, In v (neighbors k u) ->
                  v ∈ seen' /\ (v < luMSB -> unclaimed c h v)).
  { intros u0 Hu0 v Hv. destruct (Hclosed u0 Hu0) as [Hin|Hcl].
    - apply (Hall u0 v Hin Hv).
    - destruct (Hcl v Hv) as [H1 H2]. split; [apply Hsub; assumption|assumption]. }
  inversion Hwalk as [|n0 u0 v1 w0 Hstep Hrest]; subst.
  destruct (Hnb u Hu v1 Hstep) as [Hv1 Hgood].
  destruct n as [|n'].
  - inversion Hrest; subst. apply Hgood. assumption.
  - apply (IH seen' next) with (n := n') (u := v1); try assumption; try lia.
    + rewrite Forall_forall. intros v Hv. apply list_elem_of_In in Hv.
      destruct (Hnx v Hv) as [ [] | (u0 & Hu0 & Hv0)].
      rewrite Forall_forall in Hcur.
      apply (neighbors_vertex k Hk u0 v); [|assumption].
      apply Hcur. apply list_elem_of_In. assumption.
    + intros u0 Hu0. destruct (I2 u0 Hu0) as [Hold|Hnew]; [|left; assumption].
      right. apply Hnb. assumption.
Qed.

(** The probe of depth [depth] from a k-mer [s] covers the ball of radius
    [depth] around [s]. *)
Lemma conflict_free_ball s t depth :
  is_kmer k s -> is_kmer k t -> s <> t ->
  CliqueDriver.conflictWithNeighbors s k depth c h = false ->
  kmer_dist k s t <= depth -> unclaimed c h t.
Proof.
  intros Hs Ht Hne Hres Hd. unfold CliqueDriver.conflictWithNeighbors in Hres.
  unfold kmer_dist in Hd. rewrite <- dp_entry_decode in Hd. unfold dp_entry in Hd.
  assert (Hk1 : (1 <= k)%nat).
  { destruct k as [|k']; [|lia]. exfalso. apply Hne.
    destruct Hs as [Hs0 Hs1], Ht as [Ht0 Ht1]. cbn in Hs1, Ht1. lia. }
  pose proof (kmer_walk k Hk s t Hs Ht Hk1) as Hwalk.
  destruct (lev (syms s k) (syms t k)) as [|n] eqn:En.
  { exfalso. apply Hne. apply lev_zero in En. apply (syms_inj s t k); assumption. }
  apply (probe_layers_complete (Z.to_nat depth) {[s]} [s]) with (n := n) (u := s).
  - constructor; [apply kmer_vertex; assumption|constructor].
  - intros u Hu. apply elem_of_singleton in Hu. subst u. left. left. reflexivity.
  - exact Hres.
  - apply elem_of_singleton. reflexivity.
  - lia.
  - exact Hwalk.
  - apply (kmer_below_tag k t Hk Ht).
Qed.

End Probe.

(** ** Separation of the islands *)

Section Separation.
Variable k : nat.
Hypothesis Hk : (k <= 31)%nat.
Variable p : Z.
Variable cliques : list (list Util.kmer).

Lemma separated_same h h' :
  (forall x, is_kmer k x -> 0 <= rd h' x -> rd h' x = rd h x) ->
  separated k p cliques h -> separated k p cliques h'.
Proof.
  intros Hsame Hsep x y Hx Hy Lx Ly Hne.
  pose proof (Hsame x Hx Lx) as Ex. pose proof (Hsame y Hy Ly) as Ey.
  rewrite Ex, Ey in *. apply Hsep; assumption.
Qed.

Lemma seeded_separated :
  cliques_ok k cliques -> separated k p cliques (CliqueDriver.seeded k cliques).1.2.
Proof.
  intros Hok. unfold CliqueDriver.seeded.
  pose proof (allocated_sized k Hk) as [[Hlen Hvis] Hlo].
  pose proof (allocated_unassigned k Hk) as Hun.
  destruct (CliqueDriver.allocated k) as [h0 v0] eqn:E0. cbn [fst snd] in *.
  destruct (seed_cliques_spec k Hk cliques 0%nat h0 v0 Hok Hlen)
    as (Hisl & L1 & L2 & Hany & Hmem).
  destruct (CliqueDriver.seed_cliques 0 cliques (h0, v0)) as [isls [h v]].
  cbn [fst snd] in *.
  assert (Hseed : forall x, is_kmer k x -> 0 <= rd h x ->
                    exists i, rd h x = Z.of_nat i /\ seed_of cliques i x).
  { intros x Hx Lx.
    destruct (Hany x ltac:(destruct Hx; lia)) as [Heq|(j & c & Hj & Hin & Heq)].
    - rewrite Heq, (Hun x Hx) in Lx. lia.
    - exists j. split; [exact Heq|]. exists c. split; assumption. }
  intros x y Hx Hy Lx Ly Hne. right.
  destruct (Hseed x Hx Lx) as (i & Ei & Si).
  destruct (Hseed y Hy Ly) as (j & Ej & Sj).
  exists i, j. repeat split; assumption.
Qed.

(** One vertex of the commit loop: a label is written only after the
    probe has found no other island's label within [p - 1]. *)
Lemma commit_separated i h s :
  (forall x, 0 <= x -> -3 <= rd h x) -> Z.of_nat (length h) = 4 ^ Z.of_nat k ->
  vertex k s -> (s < luMSB -> rd h s <> -3) ->
  separated k p cliques h ->
  separated k p cliques (CliqueDriver.commit k p i h s).
Proof.
  intros Hlo Hlen Hs Hmark Hsep. unfold CliqueDriver.commit.
  destruct (Z.geb_spec s luMSB) as [Hge|Hlt]; [exact Hsep|].
  destruct (Z.gtb_spec (rd h s) (-2)) as [Hgt|Hle]; [exact Hsep|].
  destruct (vertex_cases k s Hk Hs) as [[_ Hkm]|[Hge _]]; [|lia].
  assert (Hs0 : 0 <= s < Z.of_nat (length h)) by (rewrite Hlen; exact Hkm).
  destruct (CliqueDriver.conflictWithNeighbors s k (p - 1) (Z.of_nat i) h) eqn:Econf;
    cbn [negb].
  - apply (separated_same h); [|exact Hsep].
    intros x Hx Lx. destruct (Z.eq_dec x s) as [->|Hxs].
    + rewrite rd_wr_eq in Lx by lia. lia.
    + apply rd_wr_ne; destruct Hx; lia.
  - intros x y Hx Hy Lx Ly Hne.
    destruct (Z.eq_dec x s) as [->|Hxs]; destruct (Z.eq_dec y s) as [->|Hys].
    + contradiction.
    + rewrite rd_wr_eq in Hne by lia.
      rewrite (rd_wr_ne h s y) in Ly, Hne by (destruct Hy; lia).
      left. destruct (Z.le_gt_cases p (kmer_dist k s y)) as [|Hclose]; [assumption|].
      exfalso.
      apply (conflict_free_ball k Hk (Z.of_nat i) h s y (p - 1) Hkm Hy (not_eq_sym Hys) Econf);
        [lia|]. split; [assumption|]. intros Heq. apply Hne. symmetry. assumption.
    + rewrite rd_wr_eq in Hne by lia.
      rewrite (rd_wr_ne h s x) in Lx, Hne by (destruct Hx; lia).
      left. destruct (Z.le_gt_cases p (kmer_dist k x s)) as [|Hclose]; [assumption|].
      exfalso. rewrite kmer_dist_sym in Hclose.
      apply (conflict_free_ball k Hk (Z.of_nat i) h s x (p - 1) Hkm Hx (not_eq_sym Hxs) Econf);
        [lia|]. split; assumption.
    + rewrite (rd_wr_ne h s x) in * by (destruct Hx; lia).
      rewrite (rd_wr_ne h s y) in * by (destruct Hy; lia).
      apply Hsep; assumption.
Qed.

Lemma fold_commit_separated i layer : forall h,
  (forall x, 0 <= x -> -3 <= rd h x) -> Z.of_nat (length h) = 4 ^ Z.of_nat k ->
  frontier_ok k h layer -> separated k p cliques h ->
  separated k p cliques (fold_left (CliqueDriver.commit k p i) layer h).
Proof.
  induction layer as [|s layer IH]; intros h Hlo Hlen Hl Hsep; [exact Hsep|].
  inversion Hl as [|? ? [Hs Hm] Hl']; subst. cbn [fold_left].
  pose proof (commit_spec k Hk p i h s Hlo Hs Hm) as Hc.
  apply IH.
  - eapply (lower_bound_commits k Hk); [|exact Hc|exact Hlo]. lia.
  - destruct Hc as [-> _]. exact Hlen.
  - eapply (frontier_ok_commits k Hk); [|exact Hc|exact Hl']. lia.
  - apply commit_separated; assumption.
Qed.

Lemma phase_separated st ph :
  driver_wf k st -> separated k p cliques st.1.2 ->
  separated k p cliques (do_phase k p st ph).1.2.
Proof.
  intros Hwf Hsep. destruct ph as [i|i]; cbn [do_phase].
  - destruct (st.1.1 !! i) as [isl|] eqn:Hi.
    + destruct (expand_island_spec k Hk st i isl Hwf Hi) as (Hst' & Hinv & _).
      cbv zeta in Hst', Hinv. rewrite Hst'. cbn [fst snd].
      destruct Hinv as ((_ & _ & Hgl & _) & _).
      apply (separated_same st.1.2); [|exact Hsep].
      intros x Hx Lx. destruct (Hgl x ltac:(destruct Hx; lia)) as [Heq|[_ Heq]];
        [assumption|lia].
    + assert (CliqueDriver.expand_island k st i = st) as ->; [|exact Hsep].
      destruct st as [[islands h] v]. cbn [fst snd] in Hi.
      unfold CliqueDriver.expand_island. rewrite Hi. reflexivity.
  - destruct (st.1.1 !! i) as [isl|] eqn:Hi.
    + destruct (commit_island_spec k Hk p st i isl Hwf Hi) as (_ & _ & E3 & _ & _).
      cbv zeta in E3. rewrite E3.
      destruct Hwf as [[[Hlen _] Hlo] Hfr].
      apply fold_commit_separated; try assumption.
      rewrite Forall_forall in Hfr. apply Hfr. eapply list_elem_of_lookup_2. eassumption.
    + assert (CliqueDriver.commit_island k p st i = st) as ->; [|exact Hsep].
      destruct st as [[islands h] v]. cbn [fst snd] in Hi.
      unfold CliqueDriver.commit_island. rewrite Hi. reflexivity.
Qed.

Lemma fold_phase_separated phs : forall st,
  driver_wf k st -> separated k p cliques st.1.2 ->
  separated k p cliques (fold_left (do_phase k p) phs st).1.2.
Proof.
  induction phs as [|ph phs IH]; intros st Hwf Hsep; [exact Hsep|].
  cbn [fold_left]. apply IH.
  - apply do_phase_wf; assumption.
  - apply phase_separated; assumption.
Qed.

End Separation.

(** What the code provides of C1.  Two k-mers that end with center labels
    and are at Levenshtein distance less than [p] carry the same label,
    unless both are pre-labelled members of cliques; for them no test is
    made.  When the members of different cliques are at least [p] apart,
    any two labelled k-mers at distance less than [p] share their label. *)
Theorem p_sensitivity (k : nat) (p q : Z) (cliques : list (list Util.kmer)) :
  (k <= 15)%nat -> cliques_ok k cliques ->
  let h := CliqueDriver.run k p q cliques in
  (forall s t, is_kmer k s -> is_kmer k t -> 0 <= rd h s -> 0 <= rd h t ->
     kmer_dist k s t < p ->
     rd h s = rd h t \/
     exists i j, rd h s = Z.of_nat i /\ rd h t = Z.of_nat j /\
                 seed_of cliques i s /\ seed_of cliques j t) /\
  ((forall i j x y, i <> j -> seed_of cliques i x -> seed_of cliques j y ->
      is_kmer k x -> is_kmer k y -> p <= kmer_dist k x y) ->
   forall s t, is_kmer k s -> is_kmer k t -> 0 <= rd h s -> 0 <= rd h t ->
     kmer_dist k s t < p -> rd h s = rd h t).
Proof.
  intros Hk15 Hok h.
  assert (Hk : (k <= 31)%nat) by lia.
  assert (Hsep : separated k p cliques h).
  { unfold h. rewrite run_schedule. apply fold_phase_separated.
    - assumption.
    - apply seeded_wf; assumption.
    - apply seeded_separated; assumption. }
  assert (Hfirst : forall s t, is_kmer k s -> is_kmer k t -> 0 <= rd h s -> 0 <= rd h t ->
            kmer_dist k s t < p ->
            rd h s = rd h t \/
            exists i j, rd h s = Z.of_nat i /\ rd h t = Z.of_nat j /\
                        seed_of cliques i s /\ seed_of cliques j t).
  { intros s t Hs Ht Ls Lt Hd.
    destruct (Z.eq_dec (rd h s) (rd h t)) as [|Hne]; [left; assumption|].
    destruct (Hsep s t Hs Ht Ls Lt Hne) as [Hfar|Hseeds]; [lia|right; exact Hseeds]. }
  split; [exact Hfirst|].
  intros Hfar s t Hs Ht Ls Lt Hd.
  destruct (Hfirst s t Hs Ht Ls Lt Hd) as [|(i & j & Ei & Ej & Si & Sj)]; [assumption|].
  destruct (Nat.eq_dec i j) as [->|Hij]; [congruence|].
  pose proof (Hfar i j s t Hij Si Sj Hs Ht). lia.
Qed.

Lemma p_sensitivity_witness :
  rd (CliqueDriver.run 2 2 2 [[0]; [15]]) 0 = rd (CliqueDriver.run 2 2 2 [[0]; [15]]) 1 \/
  exists i j, rd (CliqueDriver.run 2 2 2 [[0]; [15]]) 0 = Z.of_nat i /\
              rd (CliqueDriver.run 2 2 2 [[0]; [15]]) 1 = Z.of_nat j /\
              seed_of [[0]; [15]] i 0 /\ seed_of [[0]; [15]] j 1.
Proof.
  assert (H1 : (2 <= 15)%nat) by lia.
  assert (H2 : cliques_ok 2 [[0]; [15]]) by kmers_ok.
  assert (H3 : is_kmer 2 0) by (split; [lia|reflexivity]).
  assert (H4 : is_kmer 2 1) by (split; [lia|reflexivity]).
  assert (H5 : 0 <= rd (CliqueDriver.run 2 2 2 [[0]; [15]]) 0)
    by (vm_compute; discriminate).
  assert (H6 : 0 <= rd (CliqueDriver.run 2 2 2 [[0]; [15]]) 1)
    by (vm_compute; discriminate).
  assert (H7 : kmer_dist 2 0 1 < 2) by (vm_compute; reflexivity).
  exact (proj1 (p_sensitivity 2 2 2 [[0]; [15]] H1 H2) 0 1 H3 H4 H5 H6 H7).
Defined.

(** C1 fails on the code.  The header of the program states condition 1,
    [dist(s, t) < p] implies [h(s) = h(t)], for all k-mers [s], [t] with
    [h(s), h(t) >= 0].  With [k = 2], [p = 2], [q = 2] and the cliques
    {AA} and {AC}, the two members are at distance 1 and keep the labels 0
    and 1 they were given before the first round. *)
Lemma close_centers_keep_labels :
  let h := CliqueDriver.run 2 2 2 [[0]; [1]] in
  cliques_ok 2 [[0]; [1]] /\ is_kmer 2 0 /\ is_kmer 2 1 /\
  rd h 0 = 0 /\ rd h 1 = 1 /\ kmer_dist 2 0 1 = 1 /\
  ~ (kmer_dist 2 0 1 < 2 -> rd h 0 = rd h 1).
Proof.
  cbv zeta. split; [kmers_ok|].
  split; [split; [lia|reflexivity]|].
  split; [split; [lia|reflexivity]|].
  split; [vm_compute; reflexivity|].
  split; [vm_compute; reflexivity|].
  split; [vm_compute; reflexivity|].
  intros H'. assert (Hlt : kmer_dist 2 0 1 < 2) by (vm_compute; reflexivity).
  apply H' in Hlt. vm_compute in Hlt. discriminate.
Qed.

(** ** The neighbour-list strategy against the probe *)

Lemma rd_wr_out h x v : Z.of_nat (length h) <= x -> wr h x v = h.
Proof. intros Hx. unfold wr. apply list_insert_ge. lia. Qed.

Lemma stricter_refl h : stricter h h.
Proof. split; [reflexivity|]. intros x _. left. reflexivity. Qed.

Lemma stricter_unassigned hC hB x :
  stricter hC hB -> 0 <= x -> (rd hC x =? -3) = (rd hB x =? -3).
Proof.
  intros [_ H] Hx. destruct (H x Hx) as [->|[E1 E2]]; [reflexivity|].
  rewrite E1. destruct (Z.eqb_spec (rd hB x) (-3)); [lia|reflexivity].
Qed.

Lemma stricter_assigned hC hB x :
  stricter hC hB -> 0 <= x -> (rd hC x >? -2) = (rd hB x >? -2).
Proof.
  intros [_ H] Hx. destruct (H x Hx) as [->|[E1 E2]]; [reflexivity|].
  rewrite E1. destruct (Z.gtb_spec (rd hB x) (-2)); [reflexivity|lia].
Qed.

Lemma stricter_wr hC hB x vC vB :
  stricter hC hB -> 0 <= x -> (vC = vB \/ (vC = -1 /\ 0 <= vB)) ->
  stricter (wr hC x vC) (wr hB x vB).
Proof.
  intros [Hlen H] Hx Hv. split; [rewrite !length_wr; exact Hlen|].
  intros y Hy. destruct (Z.eq_dec y x) as [->|Hne].
  - destruct (Z.lt_ge_cases x (Z.of_nat (length hB))) as [Hin|Hout].
    + rewrite !rd_wr_eq by lia. exact Hv.
    + rewrite !rd_wr_out by lia. apply H. assumption.
  - rewrite !(rd_wr_ne _ x y) by lia. apply H. assumption.
Qed.

Section Lockstep.
Variable k : nat.

Lemma admit_k_sim eC eB x :
  0 <= x -> exp_sim eC eB -> exp_sim (Layers.admit_k eC x) (Layers.admit_k eB x).
Proof.
  intros Hx (Hl & Hv & Hs). unfold Layers.admit_k.
  rewrite (stricter_unassigned _ _ x Hs Hx).
  destruct (negb (rd (Layers.labels eB) x =? -3)).
  - split; [|split]; assumption.
  - split; [|split]; cbn [Layers.new_layer Layers.visited Layers.labels].
    + rewrite Hl. reflexivity.
    + assumption.
    + apply stricter_wr; [assumption|assumption|left; reflexivity].
Qed.

Lemma admit_km1_sim eC eB x :
  exp_sim eC eB -> exp_sim (Layers.admit_km1 eC x) (Layers.admit_km1 eB x).
Proof.
  intros (Hl & Hv & Hs). unfold Layers.admit_km1. rewrite Hv.
  destruct (rdb (Layers.visited eB) x).
  - split; [|split]; assumption.
  - split; [|split]; cbn [Layers.new_layer Layers.visited Layers.labels].
    + rewrite Hl. reflexivity.
    + reflexivity.
    + assumption.
Qed.

Lemma fold_sim (f : Layers.expansion -> Z -> Layers.expansion) l :
  (forall eC eB x, In x l -> exp_sim eC eB -> exp_sim (f eC x) (f eB x)) ->
  forall eC eB, exp_sim eC eB -> exp_sim (fold_left f l eC) (fold_left f l eB).
Proof.
  induction l as [|x l IH]; intros Hf eC eB Hs; [exact Hs|].
  cbn [fold_left]. apply IH.
  - intros eC' eB' y Hy. apply Hf. right. assumption.
  - apply Hf; [left; reflexivity|assumption].
Qed.

Lemma expand_sim eC eB s :
  exp_sim eC eB -> exp_sim (Layers.expand k eC s) (Layers.expand k eB s).
Proof.
  intros Hs. unfold Layers.expand. destruct (s <? luMSB).
  - apply fold_sim.
    + intros eC' eB' x Hx. apply admit_k_sim.
      apply (generated_nonneg k s x). right. left. assumption.
    + apply fold_sim; [|assumption].
      intros eC' eB' x Hx. apply admit_km1_sim.
  - apply fold_sim; [|assumption].
    intros eC' eB' x Hx. apply admit_k_sim.
    apply (generated_nonneg k s x). right. right. assumption.
Qed.

(** [getNextLayer] admits the same vertices in both runs. *)
Lemma next_layer_sim layer hC hB vis :
  stricter hC hB ->
  exp_sim (Layers.next_layer layer k hC vis) (Layers.next_layer layer k hB vis).
Proof.
  intros Hs. unfold Layers.next_layer. destruct (length layer =? 0)%nat.
  - split; [|split]; cbn; auto.
  - apply fold_sim.
    + intros eC eB x _. apply expand_sim.
    + split; [|split]; cbn; auto.
Qed.

End Lockstep.

Section ProbeSound.
Variable k : nat.
Hypothesis Hk : (k <= 31)%nat.
Variables (c : Z) (h : list Z).

Lemma walk_lev n : forall u w,
  walk k n u w -> vertex k u -> (lev (vstr k u) (vstr k w) <= n)%nat.
Proof.
  induction n as [|n IH]; intros u w Hw Hu; inversion Hw as [|n0 u0 v w0 Hstep Hrest]; subst.
  - rewrite lev_refl. lia.
  - pose proof (neighbors_vertex k Hk u v Hu Hstep) as Hv.
    pose proof (IH v w Hrest Hv) as Hvw.
    pose proof (neighbors_lev k Hk u v (vstr k u) Hu Hstep) as Huv.
    rewrite lev_refl in Huv.
    pose proof (lev_triangle (vstr k u) (vstr k v) (vstr k w)). lia.
Qed.

Lemma fold_probe_k_None l : forall st,
  fold_left (CliqueDriver.probe_k c h) l (Some st) = None ->
  exists x, In x l /\ 0 <= rd h x /\ rd h x <> c.
Proof.
  induction l as [|x l IH]; intros st Hfold; [discriminate|].
  cbn [fold_left] in Hfold.
  destruct (CliqueDriver.probe_k c h (Some st) x) as [st1|] eqn:E1.
  - destruct (IH st1 Hfold) as (y & Hy & Hc). exists y. split; [right; assumption|assumption].
  - exists x. split; [left; reflexivity|].
    destruct st as [sn nx]. unfold CliqueDriver.probe_k in E1.
    destruct ((rd h x >=? 0) && negb (rd h x =? c)) eqn:Echk.
    + apply andb_true_iff in Echk. destruct Echk as [E2 E3].
      rewrite Z.geb_leb in E2. apply Z.leb_le in E2.
      apply negb_true_iff, Z.eqb_neq in E3. split; assumption.
    + destruct (decide (x ∈ sn)); discriminate.
Qed.

Lemma fold_probe_km1_Some l : forall st,
  exists st', fold_left CliqueDriver.probe_km1 l (Some st) = Some st'.
Proof.
  induction l as [|x l IH]; intros st; [exists st; reflexivity|].
  cbn [fold_left]. destruct st as [sn nx]. unfold CliqueDriver.probe_km1 at 2.
  destruct (decide (x ∈ sn)); apply IH.
Qed.

Lemma probe_vertex_claimed st s :
  vertex k s -> CliqueDriver.probe_vertex k c h (Some st) s = None ->
  exists x, In x (neighbors k s) /\ is_kmer k x /\ 0 <= rd h x /\ rd h x <> c.
Proof.
  intros Hs Hstep. unfold CliqueDriver.probe_vertex in Hstep. unfold neighbors.
  destruct (vertex_cases k s Hk Hs) as [[Hlt Hkm]|[Hge Hkm]].
  - destruct (Z.ltb_spec s luMSB) as [_|]; [|lia].
    destruct (Z.geb_spec s luMSB) as [|_]; [lia|].
    destruct (fold_probe_km1_Some
                (map (fun x => Z.lor x luMSB) (Layers.deletions s k)) st) as (st1 & E1).
    rewrite E1 in Hstep.
    destruct (fold_probe_k_None _ st1 Hstep) as (x & Hx & Hc).
    exists x. split; [apply in_or_app; right; assumption|]. split; [|assumption].
    pose proof (substitutions_kmer k Hk s Hkm) as Hsub.
    rewrite Forall_forall in Hsub. apply Hsub. apply list_elem_of_In. assumption.
  - destruct (Z.ltb_spec s luMSB) as [|_]; [lia|].
    destruct (Z.geb_spec s luMSB) as [_|]; [|lia].
    destruct (fold_probe_k_None _ st Hstep) as (x & Hx & Hc).
    exists x. split; [assumption|]. split; [|assumption].
    pose proof (insertions_kmer k Hk s Hkm) as Hins.
    rewrite Forall_forall in Hins. apply Hins. apply list_elem_of_In. assumption.
Qed.

Lemma pass_claimed cur : forall st,
  Forall (vertex k) cur ->
  fold_left (CliqueDriver.probe_vertex k c h) cur (Some st) = None ->
  exists u x, In u cur /\ In x (neighbors k u) /\ is_kmer k x /\
              0 <= rd h x /\ rd h x <> c.
Proof.
  induction cur as [|s cur IH]; intros st Hcur Hfold; [discriminate|].
  inversion Hcur as [|? ? Hs Hcur']; subst. cbn [fold_left] in Hfold.
  destruct (CliqueDriver.probe_vertex k c h (Some st) s) as [st1|] eqn:E1.
  - destruct (IH st1 Hcur' Hfold) as (u & x & Hu & Hx).
    exists u, x. split; [right; assumption|assumption].
  - destruct (probe_vertex_claimed st s Hs E1) as (x & Hx).
    exists s, x. split; [left; reflexivity|assumption].
Qed.

(** When the probe returns TRUE, a walk of at most [depth] steps leads to
    a k-mer that carries another island's label. *)
Lemma probe_layers_sound depth : forall seen cur,
  Forall (vertex k) cur ->
  CliqueDriver.probe_layers depth k c h seen cur = true ->
  exists n u t, In u cur /\ (n < depth)%nat /\ walk k (S n) u t /\
                is_kmer k t /\ 0 <= rd h t /\ rd h t <> c.
Proof.
  induction depth as [|d IH]; intros seen cur Hcur Hres; [discriminate|].
  cbn [CliqueDriver.probe_layers] in Hres.
  destruct (fold_left (CliqueDriver.probe_vertex k c h) cur (Some (seen, [])))
    as [[seen' next]|] eqn:Epass.
  - assert (Hinv0 : probe_inv seen (seen, [])).
    { unfold probe_inv. cbn [fst snd]. repeat split; auto. contradiction. }
    destruct (pass_spec k Hk c h seen cur (seen, []) (seen', next) Hcur Epass Hinv0)
      as (_ & _ & _ & Hnx). cbn [fst snd] in Hnx.
    assert (Hnext : Forall (vertex k) next).
    { rewrite Forall_forall. intros v Hv. apply list_elem_of_In in Hv.
      destruct (Hnx v Hv) as [ [] |(u0 & Hu0 & Hv0)].
      rewrite Forall_forall in Hcur.
      apply (neighbors_vertex k Hk u0 v); [|assumption].
      apply Hcur. apply list_elem_of_In. assumption. }
    destruct (IH seen' next Hnext Hres) as (n & u' & t & Hu' & Hn & Hw & Ht).
    destruct (Hnx u' Hu') as [ [] |(u & Hu & Hstep)].
    exists (S n), u, t. split; [assumption|]. split; [lia|].
    split; [econstructor; eassumption|assumption].
  - destruct (pass_claimed cur (seen, []) Hcur Epass) as (u & x & Hu & Hx & Hc).
    exists 0%nat, u, x. split; [assumption|]. split; [lia|].
    split; [econstructor; [eassumption|constructor]|assumption].
Qed.

(** A conflict found by the probe from a k-mer [s]: a k-mer within
    [depth] of [s] carries another island's label. *)
Lemma conflict_found s depth :
  is_kmer k s ->
  CliqueDriver.conflictWithNeighbors s k depth c h = true ->
  exists t, is_kmer k t /\ kmer_dist k s t <= depth /\ 0 <= rd h t /\ rd h t <> c.
Proof.
  intros Hs Hres. unfold CliqueDriver.conflictWithNeighbors in Hres.
  pose proof (kmer_vertex k s Hs) as Hv.
  destruct (probe_layers_sound (Z.to_nat depth) {[s]} [s] ltac:(constructor; auto) Hres)
    as (n & u & t & [ <- | [] ] & Hn & Hw & Ht & Hc).
  exists t. split; [assumption|]. split; [|assumption].
  pose proof (walk_lev _ s t Hw Hv) as Hl.
  unfold kmer_dist. rewrite <- dp_entry_decode. unfold dp_entry.
  rewrite (vstr_kmer k s Hk Hs), (vstr_kmer k t Hk Ht) in Hl. lia.
Qed.

End ProbeSound.

(** ** The neighbour lists *)

Section NeighborLists.
Import CenterDriver.
Variable k : nat.
Variable threshold : Z.

Lemma editDist_exact a b : Util.editDist a b k (-1) = kmer_dist k a b.
Proof.
  unfold Util.editDist, kmer_dist. rewrite editDist2_exact by lia. apply dp_entry_decode.
Qed.

Lemma lists_grow_refl islands : lists_grow islands islands.
Proof.
  split; [reflexivity|]. intros i isl Hi. exists isl. repeat split; auto.
Qed.

Lemma lists_grow_trans a b c :
  lists_grow a b -> lists_grow b c -> lists_grow a c.
Proof.
  intros [L1 H1] [L2 H2]. split; [lia|]. intros i isl Hi.
  destruct (H1 i isl Hi) as (isl1 & Hi1 & C1 & B1 & N1).
  destruct (H2 i isl1 Hi1) as (isl2 & Hi2 & C2 & B2 & N2).
  exists isl2. split; [assumption|]. split; [congruence|]. split; [congruence|].
  intros m Hm. apply N2, N1. assumption.
Qed.

Lemma update_grows islands i isl isl' :
  islands !! i = Some isl -> center isl' = center isl -> bfs_layer isl' = bfs_layer isl ->
  (forall m, In m (neighbor_indices isl) -> In m (neighbor_indices isl')) ->
  lists_grow islands (<[i := isl']> islands).
Proof.
  intros Hi Hc Hb Hn. split; [apply length_insert|].
  intros j islj Hj. destruct (Nat.eq_dec i j) as [<-|Hne].
  - exists isl'. rewrite list_lookup_insert_eq by (eapply lookup_lt_Some; eassumption).
    assert (islj = isl) as -> by congruence.
    repeat split; auto.
  - exists islj. rewrite list_lookup_insert_ne by assumption.
    repeat split; auto.
Qed.

Lemma add_neighbor_grows islands i j : lists_grow islands (add_neighbor islands i j).
Proof.
  unfold add_neighbor. destruct (islands !! i) as [isl|] eqn:Hi; [|apply lists_grow_refl].
  apply (update_grows islands i isl); auto.
  cbn [neighbor_indices]. intros m Hm. apply in_or_app. left. assumption.
Qed.

Lemma add_neighbor_adds islands i j isl :
  islands !! i = Some isl ->
  exists isl', add_neighbor islands i j !! i = Some isl' /\ In j (neighbor_indices isl').
Proof.
  intros Hi. unfold add_neighbor. rewrite Hi. eexists.
  rewrite list_lookup_insert_eq by (eapply lookup_lt_Some; eassumption).
  split; [reflexivity|]. cbn [neighbor_indices]. apply in_or_app. right. left. reflexivity.
Qed.

Lemma link_grows islands i j : lists_grow islands (link k threshold i islands j).
Proof.
  unfold link. cbv zeta. destruct (_ <=? threshold); [|apply lists_grow_refl].
  eapply lists_grow_trans; apply add_neighbor_grows.
Qed.

Lemma linked_grow islands islands' i j :
  lists_grow islands islands' -> linked islands i j -> linked islands' i j.
Proof.
  intros [_ Hg] (ci & cj & Hi & Hj & Hij & Hji).
  destruct (Hg i ci Hi) as (ci' & Hi' & _ & _ & Ni).
  destruct (Hg j cj Hj) as (cj' & Hj' & _ & _ & Nj).
  exists ci', cj'. repeat split; auto.
Qed.

Lemma holds_grow islands islands' i j a b :
  lists_grow islands islands' -> holds islands i j a b -> holds islands' i j a b.
Proof.
  intros [_ Hg] (ci & cj & Hi & Hj & Ha & Hb).
  destruct (Hg i ci Hi) as (ci' & Hi' & Ci & _ & _).
  destruct (Hg j cj Hj) as (cj' & Hj' & Cj & _ & _).
  exists ci', cj'. repeat split; auto; congruence.
Qed.

Lemma link_adds islands i j a b :
  holds islands i j a b -> kmer_dist k a b <= threshold ->
  linked (link k threshold i islands j) i j.
Proof.
  intros (ci & cj & Hi & Hj & Ha & Hb) Hd. unfold link. cbv zeta.
  rewrite (list_lookup_total_correct _ _ _ Hi), (list_lookup_total_correct _ _ _ Hj).
  rewrite editDist_exact, Ha, Hb.
  destruct (Z.leb_spec (kmer_dist k a b) threshold) as [_|]; [|lia].
  destruct (add_neighbor_adds islands i j ci Hi) as (ci1 & Hi1 & Hin1).
  pose proof (add_neighbor_grows islands i j) as [_ Hg1].
  destruct (Hg1 j cj Hj) as (cj1 & Hj1 & _ & _ & _).
  destruct (add_neighbor_adds (add_neighbor islands i j) j i cj1 Hj1) as (cj2 & Hj2 & Hin2).
  pose proof (add_neighbor_grows (add_neighbor islands i j) j i) as [_ Hg2].
  destruct (Hg2 i ci1 Hi1) as (ci2 & Hi2 & _ & _ & Ni2).
  exists ci2, cj2. repeat split; auto.
Qed.

(** A fold of growing steps keeps what the step for [a] has set up. *)
Lemma fold_establish (f : list Island -> nat -> list Island) (Pre Q : list Island -> Prop)
    (a : nat) :
  (forall x b, lists_grow x (f x b)) ->
  (forall x x', lists_grow x x' -> Q x -> Q x') ->
  (forall x x', lists_grow x x' -> Pre x -> Pre x') ->
  (forall x, Pre x -> Q (f x a)) ->
  forall l x, In a l -> Pre x -> Q (fold_left f l x).
Proof.
  intros Hgrow HQ HPre Hstep.
  assert (Hfold : forall l x, lists_grow x (fold_left f l x)).
  { induction l as [|b l IH]; intros x; [apply lists_grow_refl|].
    cbn [fold_left]. eapply lists_grow_trans; [apply Hgrow|apply IH]. }
  induction l as [|b l IH]; intros x Hin Hx; [contradiction|].
  cbn [fold_left]. destruct (Nat.eq_dec b a) as [->|Hne].
  - apply (HQ (f x a)); [apply Hfold|apply Hstep; assumption].
  - destruct Hin as [Hin|Hin]; [contradiction|].
    apply IH; [assumption|]. apply (HPre x); [apply Hgrow|assumption].
Qed.

Lemma qsort_insert_In cmp x l y : In y (qsort_insert cmp x l) <-> y = x \/ In y l.
Proof.
  induction l as [|z l IH]; cbn [qsort_insert].
  - cbn. intuition.
  - destruct (cmp x z <? 0); cbn [In]; [intuition|]. rewrite IH. cbn [In]. intuition.
Qed.

Lemma qsort_r_In cmp l y : In y (qsort_r cmp l) <-> In y l.
Proof.
  unfold qsort_r.
  assert (Hgen : forall acc, In y (fold_left (fun acc x => qsort_insert cmp x acc) l acc)
                             <-> In y l \/ In y acc).
  { induction l as [|x l IH]; intros acc; cbn [fold_left].
    - cbn. intuition.
    - rewrite IH, qsort_insert_In. cbn [In]. intuition. }
  rewrite Hgen. cbn. intuition.
Qed.

Lemma fold_link_grows i l : forall islands,
  lists_grow islands (fold_left (link k threshold i) l islands).
Proof.
  induction l as [|j l IH]; intros islands; [apply lists_grow_refl|].
  cbn [fold_left]. eapply lists_grow_trans; [apply link_grows|apply IH].
Qed.

Lemma sort_grows centers islands i :
  lists_grow islands
    match islands !! i with
    | None => islands
    | Some isl =>
        <[i := {| center := center isl;
                  neighbor_indices :=
                    qsort_r (cmpKmerByDist centers (center isl) k) (neighbor_indices isl);
                  bfs_layer := bfs_layer isl |}]> islands
    end.
Proof.
  destruct (islands !! i) as [isl|] eqn:Hi; [|apply lists_grow_refl].
  apply (update_grows islands i isl); auto.
  cbn [neighbor_indices]. intros m Hm. apply qsort_r_In. assumption.
Qed.

Lemma neighbors_of_grows centers islands i :
  lists_grow islands (neighbors_of k threshold centers islands i).
Proof.
  unfold neighbors_of. cbv zeta.
  eapply lists_grow_trans; [apply fold_link_grows|apply sort_grows].
Qed.

Lemma neighbors_of_adds centers islands i j a b :
  (i < j)%nat -> holds islands i j a b -> kmer_dist k a b <= threshold ->
  linked (neighbors_of k threshold centers islands i) i j.
Proof.
  intros Hij Hh Hd. unfold neighbors_of. cbv zeta.
  eapply linked_grow; [apply sort_grows|].
  apply (fold_establish (link k threshold i) (fun x => holds x i j a b)
           (fun x => linked x i j) j).
  - intros x b0. apply link_grows.
  - intros x x' Hg. apply linked_grow. assumption.
  - intros x x' Hg. apply holds_grow. assumption.
  - intros x Hx. eapply link_adds; eassumption.
  - apply in_seq. destruct Hh as (ci & cj & _ & Hj & _).
    apply lookup_lt_Some in Hj. lia.
  - assumption.
Qed.

(** After the loop over all islands every neighbour list is complete. *)
Lemma neighbor_lists_complete centers islands :
  let islands' :=
    fold_left (neighbors_of k threshold centers) (seq 0 (length islands)) islands in
  lists_grow islands islands' /\ neighbor_lists_ok k threshold islands'.
Proof.
  cbv zeta.
  assert (Hg : forall l x, lists_grow x (fold_left (neighbors_of k threshold centers) l x)).
  { induction l as [|b l IH]; intros x; [apply lists_grow_refl|].
    cbn [fold_left]. eapply lists_grow_trans; [apply neighbors_of_grows|apply IH]. }
  split; [apply Hg|].
  set (islands' := fold_left _ _ islands).
  assert (Hlinked : forall i j a b, (i < j)%nat -> holds islands i j a b ->
                      kmer_dist k a b <= threshold -> linked islands' i j).
  { intros i j a b Hij Hh Hd.
    apply (fold_establish (neighbors_of k threshold centers) (fun x => holds x i j a b)
             (fun x => linked x i j) i).
    - intros x b0. apply neighbors_of_grows.
    - intros x x' Hgx. apply linked_grow. assumption.
    - intros x x' Hgx. apply holds_grow. assumption.
    - intros x Hx. eapply neighbors_of_adds; eassumption.
    - apply in_seq. destruct Hh as (ci & cj & Hi & _). apply lookup_lt_Some in Hi. lia.
    - assumption. }
  assert (Hback : forall i ci, islands' !! i = Some ci ->
                    exists ci0, islands !! i = Some ci0 /\ center ci0 = center ci).
  { intros i ci Hi. destruct (Hg (seq 0 (length islands)) islands) as [Hlen Hgr].
    fold islands' in Hlen, Hgr.
    destruct (islands !! i) as [ci0|] eqn:Hi0.
    - destruct (Hgr i ci0 Hi0) as (ci' & Hi' & Hc & _). exists ci0.
      split; [reflexivity|]. congruence.
    - apply lookup_ge_None in Hi0. apply lookup_lt_Some in Hi. lia. }
  intros i j ci cj Hi Hj Hne Hd.
  destruct (Hback i ci Hi) as (ci0 & Hi0 & Hci). destruct (Hback j cj Hj) as (cj0 & Hj0 & Hcj).
  destruct (Nat.lt_total i j) as [Hlt|[Heq|Hgt]]; [|contradiction|].
  - destruct (Hlinked i j (center ci) (center cj) Hlt) as (ci' & cj' & Hi' & Hj' & Hin & _).
    + exists ci0, cj0. repeat split; assumption.
    + assumption.
    + congruence.
  - destruct (Hlinked j i (center cj) (center ci) Hgt) as (cj' & ci' & Hj' & Hi' & _ & Hin).
    + exists cj0, ci0. repeat split; assumption.
    + rewrite kmer_dist_sym. assumption.
    + congruence.
Qed.

End NeighborLists.

Lemma lists_grow_maps islands islands' :
  lists_grow islands islands' ->
  map CenterDriver.center islands' = map CenterDriver.center islands /\
  map CenterDriver.bfs_layer islands' = map CenterDriver.bfs_layer islands.
Proof.
  intros [Hlen Hg].
  split; apply list_eq; intros i; rewrite !list_lookup_fmap;
    (destruct (islands !! i) as [isl|] eqn:Hi;
     [destruct (Hg i isl Hi) as (isl' & -> & Hc & Hb & _); cbn; congruence
     |apply lookup_ge_None in Hi;
      rewrite (proj2 (lookup_ge_None islands' i)) by lia; reflexivity]).
Qed.

Lemma neighbor_lists_ok_update k threshold islands i isl isl' :
  islands !! i = Some isl ->
  CenterDriver.center isl' = CenterDriver.center isl ->
  CenterDriver.neighbor_indices isl' = CenterDriver.neighbor_indices isl ->
  neighbor_lists_ok k threshold islands ->
  neighbor_lists_ok k threshold (<[i := isl']> islands).
Proof.
  intros Hi Hc Hn Hok a b ca cb Ha Hb Hab Hd.
  apply list_lookup_insert_Some in Ha, Hb.
  destruct Ha as [(<- & <- & _)|[Hia Ha]]; destruct Hb as [(<- & <- & _)|[Hib Hb]].
  - contradiction.
  - rewrite Hn. rewrite Hc in Hd. apply (Hok i b isl cb); assumption.
  - rewrite Hc in Hd. apply (Hok a i ca isl); assumption.
  - apply (Hok a b ca cb); assumption.
Qed.

(** ** One vertex of the commit loops *)

Section CommitPair.
Variable k : nat.
Hypothesis Hk : (k <= 31)%nat.
Variables (p q : Z) (centers : list Util.kmer).
Hypothesis Hcenters : Forall (is_kmer k) centers.

Lemma center_kmer j c : centers !! j = Some c -> is_kmer k c.
Proof.
  intros Hj. rewrite Forall_forall in Hcenters. apply Hcenters.
  eapply list_elem_of_lookup_2. eassumption.
Qed.

Lemma commit_near R i ci h s :
  labels_near k centers R h -> centers !! i = Some ci -> 0 <= s ->
  (lev (vstr k ci) (vstr k s) <= R)%nat ->
  labels_near k centers R (CliqueDriver.commit k p i h s).
Proof.
  intros Hnear Hci Hs Hd. unfold CliqueDriver.commit.
  destruct (s >=? luMSB); [exact Hnear|].
  destruct (rd h s >? -2); [exact Hnear|].
  assert (Hwr : forall v, (v = Z.of_nat i \/ v = -1) -> labels_near k centers R (wr h s v)).
  { intros v Hv x Hx Lx. destruct (Z.eq_dec x s) as [->|Hne].
    - destruct (Z.lt_ge_cases s (Z.of_nat (length h))) as [Hin|Hout].
      + rewrite rd_wr_eq in Lx |- * by lia. destruct Hv as [->| ->]; [|lia].
        exists i, ci. repeat split; assumption.
      + rewrite rd_wr_out in Lx |- * by lia. apply Hnear; assumption.
    - rewrite (rd_wr_ne h s x) in Lx |- * by (destruct Hx; lia).
      apply Hnear; assumption. }
  destruct (negb _); apply Hwr; auto.
Qed.

Lemma commit_pair R islands cc i ci hC hB s :
  stricter hC hB -> vertex k s -> Z.of_nat (length hB) = 4 ^ Z.of_nat k ->
  labels_near k centers R hB ->
  islands !! i = Some cc -> centers !! i = Some ci ->
  map CenterDriver.center islands = centers ->
  neighbor_lists_ok k (p + q) islands ->
  (lev (vstr k ci) (vstr k s) <= R)%nat -> 2 * Z.of_nat R <= q ->
  stricter (CenterDriver.commit k p (Z.of_nat R) islands cc i hC s)
           (CliqueDriver.commit k p i hB s).
Proof.
  intros Hst Hs Hlen Hnear Hi Hci Hmap Hnb Hd HR.
  unfold CenterDriver.commit, CliqueDriver.commit.
  pose proof (vertex_nonneg k Hk s Hs) as Hs0.
  destruct (s >=? luMSB) eqn:Etag; [exact Hst|].
  rewrite (stricter_assigned hC hB s Hst Hs0).
  destruct (rd hB s >? -2); [exact Hst|].
  destruct (vertex_cases k s Hk Hs) as [[_ Hkm]|[Hge _]];
    [|rewrite Z.geb_leb in Etag; apply Z.leb_gt in Etag; lia].
  destruct (CenterDriver.conflict_with_centers k p (Z.of_nat R) islands cc s) eqn:EC.
  - destruct (CliqueDriver.conflictWithNeighbors s k (p - 1) (Z.of_nat i) hB); cbn [negb];
      apply stricter_wr; try assumption; [left; reflexivity|right; lia].
  - destruct (CliqueDriver.conflictWithNeighbors s k (p - 1) (Z.of_nat i) hB) eqn:EB;
      cbn [negb]; [exfalso|apply stricter_wr; try assumption; left; reflexivity].
    destruct (conflict_found k Hk (Z.of_nat i) hB s (p - 1) Hkm EB)
      as (t & Ht & Hst' & Lt & Hti).
    destruct (Hnear t Ht Lt) as (j & cj & Ej & Hcj & Hdj).
    assert (Hij : i <> j) by (intros ->; apply Hti; assumption).
    pose proof (center_kmer i ci Hci) as Hcik. pose proof (center_kmer j cj Hcj) as Hcjk.
    assert (Hccj : exists ccj, islands !! j = Some ccj /\ CenterDriver.center ccj = cj).
    { rewrite <- Hmap, list_lookup_fmap in Hcj.
      destruct (islands !! j) as [ccj|]; [|discriminate].
      exists ccj. split; [reflexivity|]. cbn in Hcj. congruence. }
    destruct Hccj as (ccj & Hj & Hcc).
    assert (Hcci : CenterDriver.center cc = ci).
    { rewrite <- Hmap, list_lookup_fmap, Hi in Hci. cbn in Hci. congruence. }
    rewrite (kmer_dist_vdist k s t Hk Hkm Ht) in Hst'. unfold vdist in Hst'.
    pose proof (lev_triangle (vstr k s) (vstr k t) (vstr k cj)) as T1.
    pose proof (lev_triangle (vstr k ci) (vstr k s) (vstr k cj)) as T2.
    rewrite (lev_sym (vstr k t) (vstr k cj)) in T1.
    assert (Hin : In j (CenterDriver.neighbor_indices cc)).
    { apply (Hnb i j cc ccj Hi Hj Hij). rewrite Hcci, Hcc.
      rewrite (kmer_dist_vdist k ci cj Hk Hcik Hcjk). unfold vdist. lia. }
    unfold CenterDriver.conflict_with_centers in EC.
    assert (Hex : existsb (fun m =>
                     Util.editDist s (CenterDriver.center (islands !!! m)) k (-1)
                     - Z.of_nat R <? p) (CenterDriver.neighbor_indices cc) = true).
    { apply existsb_exists. exists j. split; [assumption|].
      rewrite (list_lookup_total_correct _ _ _ Hj), Hcc, editDist_exact.
      rewrite (kmer_dist_vdist k s cj Hk Hkm Hcjk). unfold vdist.
      apply Z.ltb_lt. lia. }
    cbv zeta in EC. rewrite Hex in EC. discriminate.
Qed.

Lemma fold_commit_pair R islands cc i ci layer : forall hC hB,
  stricter hC hB -> (forall x, 0 <= x -> -3 <= rd hB x) ->
  Z.of_nat (length hB) = 4 ^ Z.of_nat k ->
  frontier_ok k hB layer -> labels_near k centers R hB ->
  islands !! i = Some cc -> centers !! i = Some ci ->
  map CenterDriver.center islands = centers ->
  neighbor_lists_ok k (p + q) islands ->
  Forall (fun s => (lev (vstr k ci) (vstr k s) <= R)%nat) layer ->
  2 * Z.of_nat R <= q ->
  stricter (fold_left (CenterDriver.commit k p (Z.of_nat R) islands cc i) layer hC)
           (fold_left (CliqueDriver.commit k p i) layer hB).
Proof.
  induction layer as [|s layer IH];
    intros hC hB Hst Hlo Hlen Hfr Hnear Hi Hci Hmap Hnb Hd HR; [exact Hst|].
  apply Forall_cons in Hfr. destruct Hfr as [[Hs Hm] Hfr'].
  apply Forall_cons in Hd. destruct Hd as [Hds Hd']. cbn [fold_left].
  pose proof (commit_spec k Hk p i hB s Hlo Hs Hm) as Hc.
  apply IH; try assumption.
  - eapply commit_pair; eassumption.
  - eapply (lower_bound_commits k Hk); [|exact Hc|exact Hlo]. lia.
  - destruct Hc as [-> _]. exact Hlen.
  - eapply (frontier_ok_commits k Hk); [|exact Hc|exact Hfr']. lia.
  - apply (commit_near R i ci); try assumption. apply (vertex_nonneg k Hk s Hs).
Qed.

End CommitPair.

(** ** The two drivers in step *)

Section DriverPair.
Variable k : nat.
Hypothesis Hk : (k <= 31)%nat.
Variables (p q : Z) (centers : list Util.kmer).
Hypothesis Hcenters : Forall (is_kmer k) centers.

Lemma single_clique j c :
  map (fun c : Util.kmer => [c]) centers !! j = Some c ->
  exists cj, centers !! j = Some cj /\ c = [cj].
Proof.
  rewrite list_lookup_fmap. destruct (centers !! j) as [cj|]; [|discriminate].
  cbn. intros Hc. exists cj. split; [reflexivity|congruence].
Qed.

Lemma sim_lengths rho stC stB :
  sim k p q centers rho stC stB ->
  length stC.1.1 = length centers /\ length stB.1.1 = length centers.
Proof.
  intros (_ & _ & Hlay & Hcen & _).
  pose proof (f_equal (@length _) Hlay) as Hl. pose proof (f_equal (@length _) Hcen) as Hc.
  rewrite !length_map in Hl. rewrite length_map in Hc. lia.
Qed.

Lemma process_pair (R : nat) rho stC stB i :
  sim k p q centers rho stC stB ->
  (forall j, (rho j <= R)%nat) -> (S (rho i) <= R)%nat -> 2 * Z.of_nat R <= q ->
  sim k p q centers (bump i rho)
      (CenterDriver.process_island k p (Z.of_nat R) stC i)
      (CliqueDriver.process_island k p stB i).
Proof.
  intros Hsim Hrho Hri HR.
  destruct (sim_lengths rho stC stB Hsim) as [HlenC HlenB].
  destruct Hsim as (Hv & Hst & Hlay & Hcen & Hnb & Hwf & Hrad).
  set (cliques := map (fun c : Util.kmer => [c]) centers) in *.
  assert (Hlc : length cliques = length centers) by (unfold cliques; apply length_map).
  (* the probe run, phase by phase *)
  unfold CliqueDriver.process_island.
  pose proof (do_phase_wf k Hk p stB (Expand i) Hwf) as Hwf1.
  pose proof (expand_radius k Hk cliques rho stB i Hwf Hrad) as Hrad1.
  cbn [do_phase] in Hwf1.
  set (stB1 := CliqueDriver.expand_island k stB i) in *.
  assert (Hlen1 : length stB1.1.1 = length cliques).
  { pose proof (do_phase_islands k p stB (Expand i)) as Hl. cbn [do_phase] in Hl.
    fold stB1 in Hl. lia. }
  pose proof (do_phase_wf k Hk p stB1 (Commit i) Hwf1) as Hwf2.
  pose proof (commit_radius k Hk p cliques (bump i rho) stB1 i Hwf1 Hrad1 Hlen1) as Hrad2.
  cbn [do_phase] in Hwf2.
  destruct (stC.1.1 !! i) as [cc|] eqn:HiC.
  - assert (HiB : exists cb, stB.1.1 !! i = Some cb /\
                             CliqueDriver.bfs_layer cb = CenterDriver.bfs_layer cc).
    { pose proof (f_equal (fun l => l !! i) Hlay) as Hl. cbn in Hl.
      rewrite !list_lookup_fmap, HiC in Hl.
      destruct (stB.1.1 !! i) as [cb|]; [|discriminate].
      exists cb. split; [reflexivity|]. cbn in Hl. congruence. }
    destruct HiB as (cb & HiB & Hlayer).
    destruct (expand_island_spec k Hk stB i cb Hwf HiB) as (E1 & _ & _).
    cbv zeta in E1. fold stB1 in E1.
    set (eB := Layers.next_layer (CliqueDriver.bfs_layer cb) k stB.1.2 stB.2) in *.
    set (cb' := {| CliqueDriver.num_centers := CliqueDriver.num_centers cb;
                   CliqueDriver.centers := CliqueDriver.centers cb;
                   CliqueDriver.bfs_layer := Layers.new_layer eB |}) in *.
    assert (HiB1 : stB1.1.1 !! i = Some cb').
    { rewrite E1. cbn [fst snd]. apply list_lookup_insert_eq.
      eapply lookup_lt_Some. eassumption. }
    destruct (commit_island_spec k Hk p stB1 i cb' Hwf1 HiB1) as (F1 & F2 & F3 & _ & _).
    cbv zeta in F1, F2, F3.
    set (stB2 := CliqueDriver.commit_island k p stB1 i) in *.
    (* the neighbour-list run *)
    destruct stC as [[islC hC] vC]. cbn [fst snd] in *.
    unfold CenterDriver.process_island. rewrite HiC.
    unfold CenterDriver.getNextLayer. cbv zeta.
    set (eC := Layers.next_layer (CenterDriver.bfs_layer cc) k hC vC).
    set (cc' := {| CenterDriver.center := CenterDriver.center cc;
                   CenterDriver.neighbor_indices := CenterDriver.neighbor_indices cc;
                   CenterDriver.bfs_layer := Layers.new_layer eC |}).
    assert (Hexp : exp_sim eC eB).
    { unfold eC, eB. rewrite Hlayer, Hv. apply next_layer_sim. assumption. }
    destruct Hexp as (Hnl & Hvis & Hst1).
    assert (Hci : centers !! i = Some (CenterDriver.center cc)).
    { rewrite <- Hcen, list_lookup_fmap, HiC. reflexivity. }
    assert (Hcen' : map CenterDriver.center (<[i := cc']> islC) = centers).
    { rewrite list_fmap_insert. cbn [CenterDriver.center cc'].
      rewrite list_insert_id; [assumption|]. rewrite list_lookup_fmap, HiC. reflexivity. }
    assert (Hnb' : neighbor_lists_ok k (p + q) (<[i := cc']> islC)).
    { apply (neighbor_lists_ok_update k (p + q) islC i cc cc'); auto. }
    assert (HB1 : stB1.1.2 = Layers.labels eB) by (rewrite E1; reflexivity).
    assert (HB1v : stB1.2 = Layers.visited eB) by (rewrite E1; reflexivity).
    destruct Hwf1 as [[[Hlen1' _] Hlo1] Hfr1].
    assert (Hfr : frontier_ok k stB1.1.2 (Layers.new_layer eB)).
    { rewrite Forall_forall in Hfr1.
      apply (Hfr1 cb' (list_elem_of_lookup_2 _ _ _ HiB1)). }
    destruct Hrad1 as [HR1 HR2].
    assert (Hclique : cliques !! i = Some [CenterDriver.center cc]).
    { unfold cliques. rewrite list_lookup_fmap, Hci. reflexivity. }
    assert (Hnear : Forall (fun s => (lev (vstr k (CenterDriver.center cc)) (vstr k s)
                                       <= R)%nat) (Layers.new_layer eB)).
    { specialize (HR1 i cb' _ HiB1 Hclique). cbn [CliqueDriver.bfs_layer cb'] in HR1.
      eapply Forall_impl; [exact HR1|]. intros s (m & [ <- | [] ] & Hd).
      rewrite bump_same in Hd. lia. }
    assert (Hlab : labels_near k centers R stB1.1.2).
    { intros x Hx Lx. destruct (HR2 x Hx Lx) as (j & c & Ej & Hc & m & Hm & Hd).
      destruct (single_clique j c Hc) as (cj & Hcj & ->).
      destruct Hm as [ <- | [] ].
      exists j, cj. split; [assumption|]. split; [assumption|].
      unfold bump in Hd. pose proof (Hrho j).
      destruct (decide (j = i)) as [->|]; lia. }
    split; [|split; [|split; [|split; [|split; [|split]]]]]; cbn [fst snd].
    + rewrite F2, HB1v. exact Hvis.
    + rewrite F3. cbn [CliqueDriver.bfs_layer cb' CenterDriver.bfs_layer cc'].
      rewrite Hnl.
      apply (fold_commit_pair k Hk p q centers Hcenters R (<[i := cc']> islC) cc' i
               (CenterDriver.center cc)); try assumption.
      * rewrite HB1. exact Hst1.
      * apply list_lookup_insert_eq. eapply lookup_lt_Some. eassumption.
    + rewrite F1, E1. cbn [fst snd]. rewrite !list_fmap_insert.
      cbn [CliqueDriver.bfs_layer cb' CenterDriver.bfs_layer cc'].
      rewrite Hnl. f_equal. exact Hlay.
    + exact Hcen'.
    + exact Hnb'.
    + exact Hwf2.
    + exact Hrad2.
  - assert (HiB : stB.1.1 !! i = None).
    { apply lookup_ge_None. apply lookup_ge_None in HiC. lia. }
    assert (E1 : stB1 = stB).
    { unfold stB1. destruct stB as [[islB hB] vB]. cbn [fst snd] in HiB.
      unfold CliqueDriver.expand_island. rewrite HiB. reflexivity. }
    assert (E2 : CliqueDriver.commit_island k p stB1 i = stB).
    { rewrite E1. destruct stB as [[islB hB] vB]. cbn [fst snd] in HiB.
      unfold CliqueDriver.commit_island. rewrite HiB. reflexivity. }
    rewrite E2 in *.
    assert (E3 : CenterDriver.process_island k p (Z.of_nat R) stC i = stC).
    { destruct stC as [[islC hC] vC]. cbn [fst snd] in HiC.
      unfold CenterDriver.process_island. rewrite HiC. reflexivity. }
    rewrite E3. split; [|split; [|split; [|split; [|split; [|split]]]]]; assumption.
Qed.

Lemma fold_pair (R : nat) l : forall rho stC stB,
  NoDup l -> sim k p q centers rho stC stB ->
  (forall j, (rho j <= R)%nat) -> (forall j, In j l -> (S (rho j) <= R)%nat) ->
  2 * Z.of_nat R <= q ->
  exists rho',
    sim k p q centers rho'
        (fold_left (CenterDriver.process_island k p (Z.of_nat R)) l stC)
        (fold_left (CliqueDriver.process_island k p) l stB) /\
    forall j, (rho' j <= R)%nat.
Proof.
  induction l as [|i l IH]; intros rho stC stB Hnd Hsim Hrho Hl HR.
  - exists rho. split; assumption.
  - apply NoDup_cons in Hnd. destruct Hnd as [Hnotin Hnd]. cbn [fold_left].
    apply (IH (bump i rho)); try assumption.
    + apply process_pair; try assumption. apply Hl. left. reflexivity.
    + intros j. unfold bump. destruct (decide (j = i)) as [->|].
      * apply Hl. left. reflexivity.
      * apply Hrho.
    + intros j Hj. unfold bump. destruct (decide (j = i)) as [->|].
      * exfalso. apply Hnotin. apply list_elem_of_In. assumption.
      * apply Hl. right. assumption.
Qed.

Lemma rounds_pair n : forall (R : nat) rho stC stB,
  sim k p q centers rho stC stB -> (forall j, (rho j <= R)%nat) ->
  (forall r, (R < r <= R + n)%nat -> 2 * Z.of_nat r <= q) ->
  exists rho',
    sim k p q centers rho'
        (CenterDriver.rounds n k p (Z.of_nat R + 1) stC)
        (CliqueDriver.rounds n k p stB).
Proof.
  induction n as [|n IH]; intros R rho stC stB Hsim Hrho Hq.
  - exists rho. exact Hsim.
  - cbn [CenterDriver.rounds CliqueDriver.rounds].
    unfold CenterDriver.round, CliqueDriver.round.
    destruct (sim_lengths rho stC stB Hsim) as [-> ->].
    replace (Z.of_nat R + 1) with (Z.of_nat (S R)) by lia.
    destruct (fold_pair (S R) (seq 0 (length centers)) rho stC stB) as (rho1 & Hsim1 & Hrho1).
    + apply NoDup_ListNoDup, seq_NoDup.
    + assumption.
    + intros j. pose proof (Hrho j). lia.
    + intros j _. pose proof (Hrho j). lia.
    + apply Hq. lia.
    + replace (Z.of_nat (S R) + 1) with (Z.of_nat (S R) + 1) by reflexivity.
      apply (IH (S R) rho1); [assumption|assumption|].
      intros r Hr. apply Hq. lia.
Qed.

Lemma seed_pair cs : forall i h v,
  Forall (is_kmer k) cs ->
  (CenterDriver.seed_centers i cs h).1 = map CenterDriver.IslandInit cs /\
  CliqueDriver.seed_cliques i (map (fun c : Util.kmer => [c]) cs) (h, v)
  = (map (fun c : Util.kmer => CliqueDriver.IslandInit 1 [c]) cs,
     ((CenterDriver.seed_centers i cs h).2, v)).
Proof.
  induction cs as [|c cs IH]; intros i h v Hcs; [split; reflexivity|].
  apply Forall_cons in Hcs. destruct Hcs as [Hc Hcs].
  cbn [CenterDriver.seed_centers CliqueDriver.seed_cliques map fold_left length].
  unfold CliqueDriver.seed_member at 1.
  pose proof (kmer_below_tag k c Hk Hc) as Hlt.
  destruct (Z.geb_spec c luMSB) as [|_]; [lia|].
  destruct (IH (S i) (wr h c (Z.of_nat i)) v Hcs) as [E1 E2].
  rewrite E2.
  destruct (CenterDriver.seed_centers (S i) cs (wr h c (Z.of_nat i))) as [isls h'].
  cbn [fst snd] in *. rewrite E1. split; reflexivity.
Qed.

Lemma seeded_pair :
  sim k p q centers (fun _ => 0%nat)
      (CenterDriver.seeded k p q centers)
      (CliqueDriver.seeded k (map (fun c : Util.kmer => [c]) centers)).
Proof.
  assert (Hok : cliques_ok k (map (fun c : Util.kmer => [c]) centers)).
  { unfold cliques_ok. apply Forall_map. eapply Forall_impl; [exact Hcenters|].
    intros c Hc. constructor; [apply kmer_vertex; assumption|constructor]. }
  pose proof (seeded_wf k Hk _ Hok) as Hwf.
  pose proof (seeded_radius k Hk _ Hok) as Hrad.
  unfold CliqueDriver.seeded in *. unfold CenterDriver.seeded. cbv zeta.
  unfold CliqueDriver.allocated in *. cbv zeta in *.
  set (h0 := replicate (Z.to_nat (Z.shiftl 1 (Z.shiftl (Z.of_nat k) 1))) (-3)) in *.
  set (v0 := replicate _ false) in *.
  destruct (seed_pair centers 0%nat h0 v0 Hcenters) as [E1 E2].
  rewrite E2 in *.
  destruct (CenterDriver.seed_centers 0 centers h0) as [isls h] eqn:Eseed.
  cbn [fst snd] in *. subst isls.
  destruct (neighbor_lists_complete k (p + q) centers (map CenterDriver.IslandInit centers))
    as [Hg Hnb]. cbv zeta in Hg, Hnb.
  destruct (lists_grow_maps _ _ Hg) as [Hc Hb].
  split; [|split; [|split; [|split; [|split; [|split]]]]]; cbn [fst snd].
  - reflexivity.
  - apply stricter_refl.
  - rewrite Hb. rewrite !map_map. reflexivity.
  - rewrite Hc. rewrite map_map. cbn. apply map_id.
  - exact Hnb.
  - exact Hwf.
  - exact Hrad.
Qed.

End DriverPair.

(** ** The two strategies compared *)




(** * Further properties of the sources *)

(** ** The single-edit generators *)

Lemma sub_at_self k s :
  (1 <= k <= 31)%nat -> is_kmer k s -> Layers.sub_at s 1 (sym s 0) = s.
Proof.
  intros Hk Hs.
  pose proof (sym_range s 0) as Hm.
  apply (syms_inj _ _ k); [apply (sub_at_range k); try assumption; lia|assumption|].
  rewrite (sub_at_syms k ltac:(lia) s 1 (sym s 0) ltac:(lia) Hm).
  cbn [syms Nat.sub]. destruct k as [|k']; [lia|].
  rewrite syms_snoc, sym_0. replace (S k' - 1)%nat with k' by lia.
  change (2 * Z.of_nat 1) with 2. reflexivity.
Qed.

(** The loops of [getNextLayer] and [conflictWithNeighbors] generate, from
    a vertex [s], exactly the strings one edit away from it: a substitution
    or a deletion when [s] is a k-mer, an insertion when [s] is a
    (k-1)-mer; and every value generated is again a k-mer or a tagged
    (k-1)-mer. *)
Theorem generators_are_single_edits (k : nat) (s : Z) (t : list Z) :
  (k <= 31)%nat -> vertex k s -> Forall (fun z => 0 <= z < 4) t ->
  (kstep k (vstr k s) t <-> exists v, In v (neighbors k s) /\ vstr k v = t) /\
  (forall v, In v (neighbors k s) -> vertex k v).
Proof.
  intros Hk Hs Ht. split; [split|].
  - apply kstep_neighbors; assumption.
  - intros (v & Hv & <-). apply neighbors_kstep; assumption.
  - intros v Hv. apply (neighbors_vertex k Hk s v); assumption.
Qed.

Lemma generators_are_single_edits_witness :
  (kstep 2 (vstr 2 1) [0; 2] <-> exists v, In v (neighbors 2 1) /\ vstr 2 v = [0; 2]) /\
  (forall v, In v (neighbors 2 1) -> vertex 2 v).
Proof.
  assert (H1 : (2 <= 31)%nat) by lia.
  assert (H2 : vertex 2 1) by (apply kmer_vertex; split; [lia|reflexivity]).
  assert (H3 : Forall (fun z => 0 <= z < 4) [0; 2]).
  { constructor; [lia|]. constructor; [lia|constructor]. }
  exact (generators_are_single_edits 2 1 [0; 2] H1 H2 H3).
Defined.

(** Every index the generators compute stays inside the arrays: a deletion
    of a k-mer is below [4^(k-1)], the size of the (k-1)-mer array; a
    substitution of a k-mer and an insertion into a (k-1)-mer are below
    [4^k], the size of [h]. *)
Theorem generated_indices_in_bounds (k : nat) (s : Z) :
  (k <= 31)%nat ->
  (is_kmer k s ->
     Forall (fun x => 0 <= x < 4 ^ Z.of_nat (k - 1)) (Layers.deletions s k) /\
     Forall (fun x => 0 <= x < 4 ^ Z.of_nat k) (Layers.substitutions s k)) /\
  (is_km1mer k s ->
     Forall (fun x => 0 <= x < 4 ^ Z.of_nat k) (Layers.insertions s k)).
Proof.
  intros Hk. split.
  - intros Hs. split; [apply deletions_km1mer|apply substitutions_kmer]; assumption.
  - intros Hs. apply insertions_kmer; assumption.
Qed.

Lemma generated_indices_in_bounds_witness :
  (Forall (fun x => 0 <= x < 4 ^ Z.of_nat (3 - 1)) (Layers.deletions 27 3) /\
   Forall (fun x => 0 <= x < 4 ^ Z.of_nat 3) (Layers.substitutions 27 3)) /\
  Forall (fun x => 0 <= x < 4 ^ Z.of_nat 3) (Layers.insertions (Z.lor 5 luMSB) 3).
Proof.
  assert (H1 : (3 <= 31)%nat) by lia.
  assert (H2 : is_kmer 3 27) by (unfold is_kmer; cbn; lia).
  assert (H3 : is_km1mer 3 (Z.lor 5 luMSB)).
  { exists 5. split; [cbn; lia|reflexivity]. }
  exact (conj (proj1 (generated_indices_in_bounds 3 27 H1) H2)
              (proj2 (generated_indices_in_bounds 3 (Z.lor 5 luMSB) H1) H3)).
Defined.

(** ** The probe *)

(** [conflictWithNeighbors(s, k, depth, c, h)] on a k-mer [s] returns TRUE
    exactly when [depth >= 1] and some k-mer within Levenshtein distance
    [depth] of [s] ([s] itself included) carries a center label other than
    [c]; [h] is the label array of the [4^k] k-mers. *)
Theorem conflict_iff_label_in_ball (k : nat) (c : Z) (h : list Z) (s depth : Z) :
  (1 <= k <= 31)%nat -> Z.of_nat (length h) = 4 ^ Z.of_nat k -> is_kmer k s ->
  (CliqueDriver.conflictWithNeighbors s k depth c h = true <->
   1 <= depth /\
   exists t, is_kmer k t /\ kmer_dist k s t <= depth /\ 0 <= rd h t /\ rd h t <> c).
Proof.
  intros Hk _ Hs. assert (Hk31 : (k <= 31)%nat) by lia. split.
  - intros Hres. split.
    + unfold CliqueDriver.conflictWithNeighbors in Hres.
      destruct (Z.to_nat depth) as [|d] eqn:Ed; [discriminate|]. lia.
    + apply (conflict_found k Hk31 c h s depth Hs Hres).
  - intros (Hd & t & Ht & Hdist & Hlab & Hne).
    destruct (CliqueDriver.conflictWithNeighbors s k depth c h) eqn:Hres; [reflexivity|].
    exfalso. destruct (Z.eq_dec s t) as [<-|Hst].
    + unfold CliqueDriver.conflictWithNeighbors in Hres.
      assert (Hun : unclaimed c h s).
      { apply (probe_layers_complete k Hk31 c h (Z.to_nat depth) {[s]} [s])
          with (n := 0%nat) (u := s).
        - constructor; [apply kmer_vertex; assumption|constructor].
        - intros u Hu. apply elem_of_singleton in Hu. subst u. left. left. reflexivity.
        - exact Hres.
        - apply elem_of_singleton. reflexivity.
        - lia.
        - econstructor; [|constructor].
          unfold neighbors. pose proof (kmer_below_tag k s Hk31 Hs).
          destruct (Z.ltb_spec s luMSB) as [_|]; [|lia].
          apply in_or_app. right. apply in_substitutions.
          exists 1%nat, (sym s 0). split; [lia|]. split; [apply sym_range|].
          symmetry. apply (sub_at_self k); assumption.
        - apply (kmer_below_tag k s Hk31 Hs). }
      apply Hun. split; assumption.
    + apply (conflict_free_ball k Hk31 c h s t depth Hs Ht Hst Hres Hdist).
      split; assumption.
Qed.

Lemma conflict_iff_label_in_ball_witness :
  CliqueDriver.conflictWithNeighbors 1 2 1 0 [0; -2; -3; -3; -3; 1; -3; -3;
                                              -3; -3; -3; -3; -3; -3; -3; -3] = true <->
  1 <= 1 /\
  exists t, is_kmer 2 t /\ kmer_dist 2 1 t <= 1 /\
            0 <= rd [0; -2; -3; -3; -3; 1; -3; -3; -3; -3; -3; -3; -3; -3; -3; -3] t /\
            rd [0; -2; -3; -3; -3; 1; -3; -3; -3; -3; -3; -3; -3; -3; -3; -3] t <> 0.
Proof.
  assert (H1 : (1 <= 2 <= 31)%nat) by lia.
  assert (H2 : is_kmer 2 1) by (split; [lia|reflexivity]).
  exact (conflict_iff_label_in_ball 2 0
           [0; -2; -3; -3; -3; 1; -3; -3; -3; -3; -3; -3; -3; -3; -3; -3] 1 1 H1
           eq_refl H2).
Defined.

(** ** The distance functions *)

(** [editDist] of NoRandPairwise.cpp never exceeds the Levenshtein distance
    of the two k-mers; it is that distance whenever the value returned is
    at most [d], and it is more than [d] otherwise: the test
    [editDist(...) <= d] decides whether the two k-mers are within [d]. *)
Theorem pairwise_editDist_threshold (s1 s2 : Z) (k : nat) (d : Z) :
  (k <= 32)%nat ->
  let r := NoRandPairwise.editDist s1 s2 k d in
  r <= kmer_dist k s1 s2 /\
  (r <= d -> r = kmer_dist k s1 s2) /\
  (r <= d <-> kmer_dist k s1 s2 <= d).
Proof.
  intros _. cbv zeta. unfold kmer_dist. rewrite <- dp_entry_decode.
  unfold NoRandPairwise.editDist.
  destruct (fill_rows_spec s1 s2 k d k 1%nat (NoRandPairwise.init_table k)
              ltac:(lia) ltac:(lia) (init_table_filled s1 s2 k)) as [H|H];
    cbv zeta in H; lia.
Qed.

Lemma pairwise_editDist_threshold_witness :
  NoRandPairwise.editDist 27 228 4 1 <= kmer_dist 4 27 228 /\
  (NoRandPairwise.editDist 27 228 4 1 <= 1 ->
   NoRandPairwise.editDist 27 228 4 1 = kmer_dist 4 27 228) /\
  (NoRandPairwise.editDist 27 228 4 1 <= 1 <-> kmer_dist 4 27 228 <= 1).
Proof. exact (pairwise_editDist_threshold 27 228 4 1 ltac:(lia)). Defined.

(** [cmpKmerByDist] orders two centers by their true distance to the
    origin, although the second distance is computed with an early exit:
    the sign of the value returned is the sign of the difference of the
    two Levenshtein distances. *)
Theorem cmpKmerByDist_sign (centers : list Util.kmer) (o : Util.kmer) (k : nat)
    (s1 s2 : nat) :
  (k <= 32)%nat -> (s1 < length centers)%nat -> (s2 < length centers)%nat ->
  let c := CenterDriver.cmpKmerByDist centers o k s1 s2 in
  let d1 := kmer_dist k (centers !!! s1) o in
  let d2 := kmer_dist k (centers !!! s2) o in
  (c < 0 <-> d1 < d2) /\ (c = 0 <-> d1 = d2) /\ (0 < c <-> d2 < d1).
Proof.
  intros _ _ _. cbv zeta. unfold CenterDriver.cmpKmerByDist. cbv zeta.
  rewrite editDist_exact. unfold Util.editDist.
  match goal with
  | |- context [Util.editDist2 ?a ?k1 ?b ?k2 ?m] =>
      destruct (editDist2_spec a k1 b k2 m) as [H|H]; cbv zeta in H;
      set (r := Util.editDist2 a k1 b k2 m) in *
  end; clearbody r; unfold kmer_dist in *; rewrite <- !dp_entry_decode in *;
  unfold Util.kmer in *; lia.
Qed.

Lemma cmpKmerByDist_sign_witness :
  (CenterDriver.cmpKmerByDist [27; 228; 0] 0 4 0 1 < 0 <->
   kmer_dist 4 27 0 < kmer_dist 4 228 0) /\
  (CenterDriver.cmpKmerByDist [27; 228; 0] 0 4 0 1 = 0 <->
   kmer_dist 4 27 0 = kmer_dist 4 228 0) /\
  (0 < CenterDriver.cmpKmerByDist [27; 228; 0] 0 4 0 1 <->
   kmer_dist 4 228 0 < kmer_dist 4 27 0).
Proof.
  assert (H1 : (4 <= 32)%nat) by lia.
  assert (H2 : (0 < length [27; 228; 0])%nat) by (cbn; lia).
  assert (H3 : (1 < length [27; 228; 0])%nat) by (cbn; lia).
  exact (cmpKmerByDist_sign [27; 228; 0] 0 4 0 1 H1 H2 H3).
Defined.

(** With [max_d = -1] the oracle [editDist] is a metric on the k-mers:
    zero exactly on equal k-mers, symmetric, and subject to the triangle
    inequality. *)
Theorem editDist_metric (k : nat) (x y z : Util.kmer) :
  (k <= 32)%nat -> is_kmer k x -> is_kmer k y -> is_kmer k z ->
  (Util.editDist x y k (-1) = 0 <-> x = y) /\
  Util.editDist x y k (-1) = Util.editDist y x k (-1) /\
  Util.editDist x z k (-1) <= Util.editDist x y k (-1) + Util.editDist y z k (-1).
Proof.
  intros _ Hx Hy _. rewrite !editDist_exact. split; [|split].
  - split.
    + unfold kmer_dist. rewrite <- dp_entry_decode. unfold dp_entry. intros H0.
      apply (syms_inj x y k); try assumption. apply lev_zero. lia.
    + intros ->. apply kmer_dist_refl.
  - apply kmer_dist_sym.
  - unfold kmer_dist. rewrite <- !dp_entry_decode. unfold dp_entry.
    pose proof (lev_triangle (syms x k) (syms y k) (syms z k)). lia.
Qed.

Lemma editDist_metric_witness :
  (Util.editDist 27 228 4 (-1) = 0 <-> 27 = 228) /\
  Util.editDist 27 228 4 (-1) = Util.editDist 228 27 4 (-1) /\
  Util.editDist 27 0 4 (-1) <= Util.editDist 27 228 4 (-1) + Util.editDist 228 0 4 (-1).
Proof.
  assert (H1 : is_kmer 4 27) by (split; [lia|reflexivity]).
  assert (H2 : is_kmer 4 228) by (split; [lia|reflexivity]).
  assert (H3 : is_kmer 4 0) by (split; [lia|reflexivity]).
  exact (editDist_metric 4 27 228 0 ltac:(lia) H1 H2 H3).
Defined.

(** ** No vertex enters a frontier twice *)

Section Fresh.
Variable k : nat.
Hypothesis Hk : (k <= 31)%nat.

Lemma layer_fresh_grow st st' :
  Layers.new_layer st' = Layers.new_layer st ->
  marks_grow (Layers.labels st) (Layers.visited st) (Layers.labels st') (Layers.visited st') ->
  layer_fresh st -> layer_fresh st'.
Proof.
  intros Hl Hg [Hnd Hm]. split; rewrite Hl; [assumption|].
  intros v Hv. destruct (Hm v Hv) as [Hv0 Hvm]. split; [assumption|].
  eapply marked_grow; eassumption.
Qed.

Lemma admit_k_fresh st x :
  is_kmer k x -> store_sized k (Layers.labels st) (Layers.visited st) ->
  layer_fresh st -> layer_fresh (Layers.admit_k st x).
Proof.
  intros Hx Hsz [Hnd Hm].
  pose proof (admit_k_grows st x ltac:(destruct Hx; lia)) as Hg.
  pose proof (kmer_below_tag k x Hk Hx) as Hlt.
  unfold Layers.admit_k in *.
  destruct (Z.eqb_spec (rd (Layers.labels st) x) (-3)) as [Hun|Hne]; cbn [negb] in *;
    [|split; assumption].
  unfold layer_fresh. cbn [Layers.new_layer Layers.labels Layers.visited] in *. split.
  - apply NoDup_app. split; [assumption|]. split; [|apply NoDup_singleton].
    intros v Hv Hvx. apply list_elem_of_singleton in Hvx. subst v.
    apply list_elem_of_In in Hv. destruct (Hm x Hv) as [_ Hmk].
    unfold marked in Hmk. destruct (Z.ltb_spec x luMSB); [contradiction|lia].
  - intros v Hv. apply in_app_or in Hv. destruct Hv as [Hv|[ <- | [] ]].
    + destruct (Hm v Hv) as [Hv0 Hvm]. split; [assumption|].
      eapply marked_grow; eassumption.
    + split; [destruct Hx; lia|]. unfold marked.
      destruct (Z.ltb_spec x luMSB); [|lia].
      rewrite rd_wr_eq; [lia|destruct Hx; lia|].
      destruct Hsz as [Hlen _]. destruct Hx. lia.
Qed.

Lemma admit_km1_fresh st y :
  0 <= y < 4 ^ Z.of_nat (k - 1) -> (1 <= k)%nat ->
  store_sized k (Layers.labels st) (Layers.visited st) ->
  layer_fresh st -> layer_fresh (Layers.admit_km1 st y).
Proof.
  intros Hy Hk1 Hsz [Hnd Hm].
  pose proof (admit_km1_grows st y ltac:(lia)) as Hg.
  pose proof (pow4_le_62 (k - 1) ltac:(lia)) as H62.
  pose proof (km1mer_above_tag k (Z.lor y luMSB) Hk (ex_intro _ y (conj Hy eq_refl))) as Hge.
  unfold Layers.admit_km1 in *.
  destruct (rdb (Layers.visited st) y) eqn:Evis; [split; assumption|].
  unfold layer_fresh. cbn [Layers.new_layer Layers.labels Layers.visited] in *. split.
  - apply NoDup_app. split; [assumption|]. split; [|apply NoDup_singleton].
    intros v Hv Hvx. apply list_elem_of_singleton in Hvx. subst v.
    apply list_elem_of_In in Hv. destruct (Hm _ Hv) as [_ Hmk].
    unfold marked in Hmk. destruct (Z.ltb_spec (Z.lor y luMSB) luMSB); [lia|].
    rewrite untag_tagged in Hmk by lia. congruence.
  - intros v Hv. apply in_app_or in Hv. destruct Hv as [Hv|[ <- | [] ]].
    + destruct (Hm v Hv) as [Hv0 Hvm]. split; [assumption|].
      eapply marked_grow; eassumption.
    + split; [pose proof luMSB_value; lia|]. unfold marked.
      destruct (Z.ltb_spec (Z.lor y luMSB) luMSB); [lia|].
      rewrite untag_tagged by lia. apply rdb_wrb_eq; [lia|].
      destruct Hsz as [_ [Hlen|Hk0]]; lia.
Qed.

Lemma fold_fresh (f : Layers.expansion -> Z -> Layers.expansion) (P : Z -> Prop) l :
  (forall st x, P x -> marks_grow (Layers.labels st) (Layers.visited st)
                                  (Layers.labels (f st x)) (Layers.visited (f st x))) ->
  (forall st x, P x -> store_sized k (Layers.labels st) (Layers.visited st) ->
                layer_fresh st -> layer_fresh (f st x)) ->
  Forall P l ->
  forall st, store_sized k (Layers.labels st) (Layers.visited st) -> layer_fresh st ->
             store_sized k (Layers.labels (fold_left f l st))
                           (Layers.visited (fold_left f l st)) /\
             layer_fresh (fold_left f l st).
Proof.
  intros Hg Hf Hl. induction Hl as [|x l Hx Hl IH]; intros st Hsz Hfr; [split; assumption|].
  cbn [fold_left]. apply IH.
  - eapply store_sized_grow; [apply Hg; assumption|assumption].
  - apply Hf; assumption.
Qed.

Lemma expand_fresh st s :
  vertex k s -> store_sized k (Layers.labels st) (Layers.visited st) -> layer_fresh st ->
  store_sized k (Layers.labels (Layers.expand k st s))
                (Layers.visited (Layers.expand k st s)) /\
  layer_fresh (Layers.expand k st s).
Proof.
  intros Hs Hsz Hfr. unfold Layers.expand.
  destruct (vertex_cases k s Hk Hs) as [[Hlt Hkm]|[Hge Hkm]].
  - destruct (Z.ltb_spec s luMSB) as [_|]; [|lia].
    destruct (fold_fresh Layers.admit_km1 (fun y => 0 <= y < 4 ^ Z.of_nat (k - 1) /\ (1 <= k)%nat)
                (Layers.deletions s k)) with (st := st) as [Hsz1 Hfr1]; try assumption.
    + intros st0 y [Hy _]. apply admit_km1_grows. lia.
    + intros st0 y [Hy Hk1]. apply admit_km1_fresh; assumption.
    + pose proof (deletions_km1mer k Hk s Hkm) as Hd.
      rewrite Forall_forall in Hd |- *. intros y Hy. split; [apply Hd; assumption|].
      apply list_elem_of_In, in_deletions in Hy. destruct Hy as (j & Hj & _). lia.
    + apply (fold_fresh Layers.admit_k (is_kmer k) (Layers.substitutions s k)); try assumption.
      * intros st0 x Hx. apply admit_k_grows. destruct Hx; lia.
      * intros st0 x Hx. apply admit_k_fresh; assumption.
      * apply substitutions_kmer; assumption.
  - destruct (Z.ltb_spec s luMSB) as [|_]; [lia|].
    apply (fold_fresh Layers.admit_k (is_kmer k) (Layers.insertions s k)); try assumption.
    + intros st0 x Hx. apply admit_k_grows. destruct Hx; lia.
    + intros st0 x Hx. apply admit_k_fresh; assumption.
    + apply insertions_kmer; assumption.
Qed.

Lemma fold_expand_fresh l : forall st,
  Forall (vertex k) l ->
  store_sized k (Layers.labels st) (Layers.visited st) -> layer_fresh st ->
  layer_fresh (fold_left (Layers.expand k) l st).
Proof.
  induction l as [|s l IH]; intros st Hl Hsz Hfr; [assumption|].
  apply Forall_cons in Hl. destruct Hl as [Hs Hl]. cbn [fold_left].
  destruct (expand_fresh st s Hs Hsz Hfr) as [Hsz1 Hfr1]. apply IH; assumption.
Qed.

End Fresh.

(** One call of [getNextLayer]: the new layer holds no vertex twice; each
    vertex in it is a k-mer or a tagged (k-1)-mer that was not marked
    before the call and is marked after it; and no mark is ever removed.
    So a vertex enters a frontier at most once in a whole run. *)
Theorem next_layer_no_duplicates (k : nat) (layer : list Z) (h : list Z)
    (vis : list bool) :
  (k <= 31)%nat -> store_sized k h vis -> Forall (vertex k) layer ->
  let e := Layers.next_layer layer k h vis in
  NoDup (Layers.new_layer e) /\
  (forall v, In v (Layers.new_layer e) ->
     vertex k v /\ ~ marked h vis v /\ marked (Layers.labels e) (Layers.visited e) v) /\
  (forall v, 0 <= v -> marked h vis v -> marked (Layers.labels e) (Layers.visited e) v).
Proof.
  intros Hk Hsz Hl e.
  pose proof (next_layer_inv k Hk h vis Hsz layer Hl) as (Hg & Hk1 & Hk2 & Hv).
  fold e in Hg, Hk1, Hk2, Hv.
  assert (Hfr : layer_fresh e).
  { unfold e, Layers.next_layer. destruct layer as [|s l].
    - cbn. split; [constructor|intros v []].
    - cbn [length Nat.eqb]. apply (fold_expand_fresh k Hk); try assumption.
      cbn. split; [constructor|intros v []]. }
  destruct Hfr as [Hnd Hm]. split; [assumption|]. split.
  - intros v Hin. split; [apply Hv; assumption|]. split; [|apply Hm; assumption].
    destruct (vertex_cases k v Hk (Hv v Hin)) as [[Hlt Hkm]|[Hge (y & Hy & ->)]].
    + unfold marked. destruct (Z.ltb_spec v luMSB); [|lia].
      apply Hk1 in Hin; [|assumption]. intros Hc. apply Hc. tauto.
    + unfold marked. destruct (Z.ltb_spec (Z.lor y luMSB) luMSB); [lia|].
      pose proof (pow4_le_62 (k - 1) ltac:(lia)).
      rewrite untag_tagged by lia. apply Hk2 in Hin; [|assumption].
      destruct Hin as [Hf _]. congruence.
  - intros v Hv0 Hmk. eapply marked_grow; eassumption.
Qed.

Lemma next_layer_no_duplicates_witness :
  NoDup (Layers.new_layer
           (Layers.next_layer [0] 2 (CliqueDriver.seeded 2 [[0]; [15]]).1.2
              (CliqueDriver.seeded 2 [[0]; [15]]).2)).
Proof.
  assert (H1 : (2 <= 31)%nat) by lia.
  assert (Hwf : driver_wf 2 (CliqueDriver.seeded 2 [[0]; [15]]))
    by (apply seeded_wf; [lia | kmers_ok]).
  assert (H2 : store_sized 2 (CliqueDriver.seeded 2 [[0]; [15]]).1.2
                 (CliqueDriver.seeded 2 [[0]; [15]]).2) by (apply Hwf).
  assert (H3 : Forall (vertex 2) [0]) by kmers_ok.
  exact (proj1 (next_layer_no_duplicates 2 [0] _ _ H1 H2 H3)).
Defined.

(** ** The neighbour lists hold the close centers and nothing else *)

Section NeighborSound.
Import CenterDriver.
Variable k : nat.
Variable threshold : Z.







End NeighborSound.




(** ** The labels a run ends with *)

Section Settled.
Variable k : nat.
Hypothesis Hk : (k <= 31)%nat.
Variable p : Z.

Lemma process_island_wf st i :
  driver_wf k st -> driver_wf k (CliqueDriver.process_island k p st i).
Proof.
  intros Hwf. rewrite process_island_phases.
  apply do_phase_wf; [assumption|]. apply do_phase_wf; assumption.
Qed.

(** BFS_VISITED is gone when an island's turn is over. *)
Lemma process_island_settled st i :
  driver_wf k st -> settled k st.1.2 ->
  settled k (CliqueDriver.process_island k p st i).1.2.
Proof.
  intros Hwf Hset. unfold CliqueDriver.process_island.
  destruct (st.1.1 !! i) as [isl|] eqn:Hi.
  - destruct (expand_island_spec k Hk st i isl Hwf Hi) as (E1 & Hinv & Hwf1).
    cbv zeta in E1, Hinv.
    set (e := Layers.next_layer (CliqueDriver.bfs_layer isl) k st.1.2 st.2) in *.
    set (st1 := CliqueDriver.expand_island k st i) in *.
    set (isl' := {| CliqueDriver.num_centers := CliqueDriver.num_centers isl;
                    CliqueDriver.centers := CliqueDriver.centers isl;
                    CliqueDriver.bfs_layer := Layers.new_layer e |}) in *.
    assert (Hi1 : st1.1.1 !! i = Some isl').
    { rewrite E1. cbn [fst snd]. apply list_lookup_insert_eq.
      eapply lookup_lt_Some. eassumption. }
    destruct (commit_island_spec k Hk p st1 i isl' Hwf1 Hi1) as (_ & _ & E3 & Hc & _).
    cbv zeta in E3, Hc.
    assert (Hh1 : st1.1.2 = Layers.labels e) by (rewrite E1; reflexivity).
    destruct Hinv as ((_ & _ & Hgl & _) & Hk1 & _ & _).
    destruct Hwf1 as [[[Hlen _] Hlo] Hfr].
    assert (Hl : frontier_ok k st1.1.2 (Layers.new_layer e)).
    { rewrite Forall_forall in Hfr. apply (Hfr isl'). eapply list_elem_of_lookup_2.
      eassumption. }
    intros x Hx Hx2.
    destruct (in_dec Z.eq_dec x (Layers.new_layer e)) as [Hin|Hnin].
    + pose proof (fold_commit_final k Hk p i _ st1.1.2 Hlen Hlo Hl x Hin Hx) as Hfin.
      cbn [CliqueDriver.bfs_layer isl'] in E3. rewrite <- E3 in Hfin. lia.
    + destruct Hc as [_ Hc]. assert (Hx0 : 0 <= x) by (destruct Hx; lia).
      assert (Hx1 : rd st1.1.2 x = -2).
      { destruct (Hc x Hx0) as [E|[E _]]; [rewrite <- E; assumption|assumption]. }
      rewrite Hh1 in Hx1. apply Hnin. apply Hk1; [assumption|].
      split; [|assumption].
      destruct (Hgl x Hx0) as [E|[E _]]; [|assumption].
      exfalso. apply (Hset x Hx). rewrite <- E. assumption.
  - assert (E1 : CliqueDriver.expand_island k st i = st).
    { destruct st as [[islands h] v]. cbn [fst snd] in Hi.
      unfold CliqueDriver.expand_island. rewrite Hi. reflexivity. }
    rewrite E1.
    assert (E2 : CliqueDriver.commit_island k p st i = st).
    { destruct st as [[islands h] v]. cbn [fst snd] in Hi.
      unfold CliqueDriver.commit_island. rewrite Hi. reflexivity. }
    rewrite E2. assumption.
Qed.

Lemma fold_islands_settled l : forall st,
  driver_wf k st -> settled k st.1.2 ->
  driver_wf k (fold_left (CliqueDriver.process_island k p) l st) /\
  settled k (fold_left (CliqueDriver.process_island k p) l st).1.2.
Proof.
  induction l as [|i l IH]; intros st Hwf Hset; [split; assumption|].
  cbn [fold_left]. apply IH; [apply process_island_wf|apply process_island_settled];
    assumption.
Qed.

Lemma rounds_settled n : forall st,
  driver_wf k st -> settled k st.1.2 ->
  driver_wf k (CliqueDriver.rounds n k p st) /\
  settled k (CliqueDriver.rounds n k p st).1.2.
Proof.
  induction n as [|n IH]; intros st Hwf Hset; [split; assumption|].
  cbn [CliqueDriver.rounds]. unfold CliqueDriver.round.
  destruct (fold_islands_settled (seq 0 (length st.1.1)) st Hwf Hset) as [Hwf1 Hset1].
  apply IH; assumption.
Qed.

(** A center label, once written, stays. *)
Lemma fold_phase_final phs x : forall st,
  driver_wf k st -> 0 <= x -> -1 <= rd st.1.2 x ->
  rd (fold_left (do_phase k p) phs st).1.2 x = rd st.1.2 x.
Proof.
  induction phs as [|ph phs IH]; intros st Hwf Hx Hlab; [reflexivity|].
  cbn [fold_left].
  assert (E : rd (do_phase k p st ph).1.2 x = rd st.1.2 x).
  { destruct (do_phase_label k Hk p st ph x Hwf Hx) as [E|[[E _]|[E _]]];
      [assumption|lia|lia]. }
  rewrite IH; [assumption|apply do_phase_wf; assumption|assumption|lia].
Qed.

End Settled.

Lemma seeded_labels k cliques :
  (k <= 31)%nat -> cliques_ok k cliques ->
  let h := (CliqueDriver.seeded k cliques).1.2 in
  (forall x, is_kmer k x -> rd h x = -3 \/ 0 <= rd h x) /\
  (forall c m, In c cliques -> In m c -> is_kmer k m ->
     exists j c', cliques !! j = Some c' /\ In m c' /\ rd h m = Z.of_nat j).
Proof.
  intros Hk Hok. cbv zeta. unfold CliqueDriver.seeded.
  pose proof (allocated_sized k Hk) as [[Hlen Hvis] Hlo].
  pose proof (allocated_unassigned k Hk) as Hun.
  destruct (CliqueDriver.allocated k) as [h0 v0] eqn:E0. cbn [fst snd] in *.
  destruct (seed_cliques_spec k Hk cliques 0%nat h0 v0 Hok Hlen)
    as (Hisl & L1 & L2 & Hany & Hmem).
  destruct (CliqueDriver.seed_cliques 0 cliques (h0, v0)) as [isls [h v]].
  cbn [fst snd] in *. split.
  - intros x Hx. destruct (Hany x ltac:(destruct Hx; lia)) as [E|(j & c & _ & _ & E)].
    + left. rewrite E. apply Hun. assumption.
    + right. lia.
  - intros c m Hc Hm Hkm. apply (Hmem c m Hc Hm). apply (kmer_below_tag k m Hk Hkm).
Qed.

(** At the end of a run every k-mer is UNASSIGNED, GRAY, or carries the
    index of one of the cliques; BFS_VISITED is never left behind.  A
    clique member that is a k-mer is never GRAY: it ends with the index of
    a clique it belongs to. *)
Theorem final_labels (k : nat) (p q : Z) (cliques : list (list Util.kmer)) :
  (k <= 15)%nat -> cliques_ok k cliques ->
  let h := CliqueDriver.run k p q cliques in
  (forall x, is_kmer k x ->
     rd h x = -3 \/ rd h x = -1 \/
     exists i, (i < length cliques)%nat /\ rd h x = Z.of_nat i) /\
  (forall c m, In c cliques -> In m c -> is_kmer k m ->
     exists j c', cliques !! j = Some c' /\ In m c' /\ rd h m = Z.of_nat j).
Proof.
  intros Hk15 Hok h. assert (Hk : (k <= 31)%nat) by lia.
  pose proof (seeded_wf k Hk cliques Hok) as Hwf0.
  destruct (seeded_labels k cliques Hk Hok) as [Hs0 Hseed].
  split.
  - intros x Hx.
    assert (Hset0 : settled k (CliqueDriver.seeded k cliques).1.2).
    { intros y Hy. destruct (Hs0 y Hy); lia. }
    destruct (rounds_settled k Hk p (Z.to_nat (Z.shiftr q 1)) _ Hwf0 Hset0) as [Hwf Hset].
    fold (CliqueDriver.run k p q cliques) in Hset. fold h in Hset.
    destruct Hwf as [[_ Hlo] _].
    change (CliqueDriver.rounds _ k p _).1.2 with h in Hlo.
    destruct (run_radius k p q cliques Hk Hok) as (rho & st & Hst & [_ HR2] & _).
    fold h in Hst. rewrite Hst in HR2.
    specialize (Hlo x ltac:(destruct Hx; lia)). specialize (Hset x Hx).
    destruct (Z.eq_dec (rd h x) (-3)) as [|H3]; [left; assumption|].
    destruct (Z.eq_dec (rd h x) (-1)) as [|H1]; [right; left; assumption|].
    right. right. destruct (HR2 x Hx ltac:(lia)) as (i & c & E & Hc & _).
    exists i. split; [eapply lookup_lt_Some; eassumption|assumption].
  - intros c m Hc Hm Hkm.
    destruct (Hseed c m Hc Hm Hkm) as (j & c' & Hj & Hin & E).
    exists j, c'. split; [assumption|]. split; [assumption|].
    unfold h. rewrite run_schedule.
    rewrite (fold_phase_final k Hk p _ m); [assumption|assumption|destruct Hkm; lia|lia].
Qed.

Lemma final_labels_witness :
  exists j c', [[0]; [15]] !! j = Some c' /\ In 15 c' /\
               rd (CliqueDriver.run 2 2 2 [[0]; [15]]) 15 = Z.of_nat j.
Proof.
  assert (H1 : (2 <= 15)%nat) by lia.
  assert (H2 : cliques_ok 2 [[0]; [15]]) by kmers_ok.
  assert (H3 : In [15] [[0]; [15]]) by (right; left; reflexivity).
  assert (H4 : In 15 [15]) by (left; reflexivity).
  assert (H5 : is_kmer 2 15) by (split; [lia|reflexivity]).
  exact (proj2 (final_labels 2 2 2 [[0]; [15]] H1 H2) [15] 15 H3 H4 H5).
Defined.

(** ** Which k-mers a run reaches *)

Lemma walk_last k n : forall m x,
  walk k (S n) m x -> exists u, walk k n m u /\ In x (neighbors k u).
Proof.
  induction n as [|n IH]; intros m x Hw.
  - inversion Hw as [|? ? v ? Hv Hw']; subst.
    inversion Hw'; subst. exists m. split; [constructor|assumption].
  - inversion Hw as [|? ? v ? Hv Hw']; subst.
    destruct (IH v x Hw') as (u & Hu & Hx).
    exists u. split; [econstructor; eassumption|assumption].
Qed.

Lemma marked_dec h vis u : marked h vis u \/ ~ marked h vis u.
Proof.
  unfold marked. destruct (u <? luMSB).
  - destruct (Z.eq_dec (rd h u) (-3)) as [E|E]; [right|left]; congruence.
  - destruct (rdb vis (Z.lxor u luMSB)); [left; reflexivity|right; discriminate].
Qed.

Section Coverage.
Variable k : nat.
Hypothesis Hk : (k <= 31)%nat.
Variable p : Z.

Lemma walk_vertex n : forall m x, walk k n m x -> vertex k m -> vertex k x.
Proof.
  induction n as [|n IH]; intros m x Hw Hm.
  - inversion Hw; subst. assumption.
  - inversion Hw as [|? ? v ? Hv Hw']; subst.
    apply (IH v x Hw'). eapply neighbors_vertex; eassumption.
Qed.

Lemma process_island_none st i :
  st.1.1 !! i = None -> CliqueDriver.process_island k p st i = st.
Proof.
  intros Hi. unfold CliqueDriver.process_island.
  assert (E1 : CliqueDriver.expand_island k st i = st).
  { destruct st as [[islands h] v]. cbn [fst snd] in Hi.
    unfold CliqueDriver.expand_island. rewrite Hi. reflexivity. }
  rewrite E1.
  destruct st as [[islands h] v]. cbn [fst snd] in Hi.
  unfold CliqueDriver.commit_island. rewrite Hi. reflexivity.
Qed.

(** What the turn of island [i] does to the marks and the frontiers. *)
Lemma process_island_marks st i isl :
  driver_wf k st -> st.1.1 !! i = Some isl ->
  let st' := CliqueDriver.process_island k p st i in
  (forall v, 0 <= v -> marked st.1.2 st.2 v -> marked st'.1.2 st'.2 v) /\
  (forall j, j <> i -> st'.1.1 !! j = st.1.1 !! j) /\
  (forall s v, In s (CliqueDriver.bfs_layer isl) -> In v (neighbors k s) ->
               marked st'.1.2 st'.2 v) /\
  (forall u, vertex k u -> marked st'.1.2 st'.2 u -> ~ marked st.1.2 st.2 u ->
             exists isl', st'.1.1 !! i = Some isl' /\
                          In u (CliqueDriver.bfs_layer isl')).
Proof.
  intros Hwf Hi. cbv zeta. unfold CliqueDriver.process_island.
  destruct (expand_island_spec k Hk st i isl Hwf Hi) as (E1 & Hinv & Hwf1).
  cbv zeta in E1, Hinv.
  set (e := Layers.next_layer (CliqueDriver.bfs_layer isl) k st.1.2 st.2) in *.
  set (st1 := CliqueDriver.expand_island k st i) in *.
  set (isl' := {| CliqueDriver.num_centers := CliqueDriver.num_centers isl;
                  CliqueDriver.centers := CliqueDriver.centers isl;
                  CliqueDriver.bfs_layer := Layers.new_layer e |}) in *.
  assert (Hi1 : st1.1.1 !! i = Some isl').
  { rewrite E1. cbn [fst snd]. apply list_lookup_insert_eq.
    eapply lookup_lt_Some. eassumption. }
  destruct (commit_island_spec k Hk p st1 i isl' Hwf1 Hi1) as (C1 & C2 & _ & Hc & _).
  cbv zeta in C1, C2, Hc.
  set (st2 := CliqueDriver.commit_island k p st1 i) in *.
  assert (Hh1 : st1.1.2 = Layers.labels e) by (rewrite E1; reflexivity).
  assert (Hv1 : st1.2 = Layers.visited e) by (rewrite E1; reflexivity).
  assert (Hl1 : st1.1.1 = <[i := isl']> st.1.1) by (rewrite E1; reflexivity).
  destruct Hinv as (Hg & Hk1 & Hk2 & _).
  assert (Hlayer : Forall (vertex k) (CliqueDriver.bfs_layer isl)).
  { destruct Hwf as [_ Hfr]. rewrite Forall_forall in Hfr.
    specialize (Hfr isl (list_elem_of_lookup_2 _ _ _ Hi)).
    eapply Forall_impl; [exact Hfr|]. intros v [Hv _]. exact Hv. }
  assert (Hup : forall v, 0 <= v -> marked st1.1.2 st1.2 v -> marked st2.1.2 st2.2 v).
  { intros v Hv Hm. rewrite C2.
    apply (marked_commits (Z.of_nat i) st1.1.2); [lia|assumption|assumption|assumption]. }
  split; [|split; [|split]].
  - intros v Hv Hm. apply Hup; [assumption|]. rewrite Hh1, Hv1.
    eapply marked_grow; eassumption.
  - intros j Hne. rewrite C1, Hl1. apply list_lookup_insert_ne. congruence.
  - intros s v Hs Hv. apply Hup.
    + apply (vertex_nonneg k Hk). eapply neighbors_vertex; [exact Hk| |exact Hv].
      rewrite Forall_forall in Hlayer. apply Hlayer, list_elem_of_In. assumption.
    + rewrite Hh1, Hv1. destruct Hwf as [[Hsz _] _].
      eapply next_layer_marks; eassumption.
  - intros u Hu Hm Hnm. exists isl'. split; [rewrite C1; exact Hi1|].
    cbn [CliqueDriver.bfs_layer isl'].
    destruct (vertex_cases k u Hk Hu) as [[Hlt Hkm]|[Hge (y & Hy & ->)]].
    + unfold marked in Hm, Hnm.
      destruct (Z.ltb_spec u luMSB) as [_|]; [|lia].
      assert (Hu0 : 0 <= u) by (destruct Hkm; lia).
      assert (E0 : rd st.1.2 u = -3).
      { destruct (Z.eq_dec (rd st.1.2 u) (-3)); [assumption|contradiction]. }
      apply Hk1; [assumption|]. split; [assumption|].
      destruct Hg as (_ & _ & Hgl & _).
      destruct (Hgl u Hu0) as [E|[_ E]]; [|assumption].
      exfalso. destruct Hc as [_ Hc].
      destruct (Hc u Hu0) as [E'|[E' _]]; rewrite Hh1 in E'; lia.
    + pose proof (km1mer_above_tag k (Z.lor y luMSB) Hk
                    (ex_intro _ y (conj Hy eq_refl))) as Hge'.
      assert (Hy62 : 0 <= y < 2 ^ 62).
      { pose proof (pow4_le_62 (k - 1) ltac:(lia)). lia. }
      unfold marked in Hm, Hnm.
      destruct (Z.ltb_spec (Z.lor y luMSB) luMSB) as [|_]; [lia|].
      rewrite (untag_tagged y Hy62) in Hm, Hnm.
      apply Hk2; [assumption|]. split.
      * destruct (rdb st.2 y); [contradiction|reflexivity].
      * rewrite <- Hv1, <- C2. assumption.
Qed.

Lemma closed_mono st st' u :
  (forall v, 0 <= v -> marked st.1.2 st.2 v -> marked st'.1.2 st'.2 v) ->
  vertex k u -> closed k st u -> closed k st' u.
Proof.
  intros Hup Hu Hcl v Hv. apply Hup; [|apply Hcl; assumption].
  apply (vertex_nonneg k Hk). eapply neighbors_vertex; eassumption.
Qed.

Lemma process_island_round S i L st :
  driver_wf k st -> ~ In i L ->
  round_inv k S (i :: L) st ->
  round_inv k S L (CliqueDriver.process_island k p st i).
Proof.
  intros Hwf Hni [HP HQ].
  destruct (st.1.1 !! i) as [isl|] eqn:Hi.
  - destruct (process_island_marks st i isl Hwf Hi) as (F1 & F2 & F3 & F4).
    cbv zeta in F1, F2, F3, F4.
    set (st' := CliqueDriver.process_island k p st i) in *.
    split.
    + intros u Hu HS. destruct (HP u Hu HS) as [Hcl|(j & islj & Hj & Hlj & Hin)].
      * left. eapply closed_mono; eassumption.
      * destruct Hj as [<-|Hj].
        -- left. intros v Hv. apply (F3 u v); [|assumption].
           rewrite Hi in Hlj. injection Hlj as <-. assumption.
        -- right. exists j, islj. split; [assumption|]. split; [|assumption].
           rewrite F2; [assumption|]. intros ->. contradiction.
    + intros u Hu Hm.
      destruct (marked_dec st.1.2 st.2 u) as [Hm0|Hnm].
      * destruct (HQ u Hu Hm0) as [HS|(j & islj & Hj & Hlj & Hin)]; [left; assumption|].
        right. exists j, islj. split; [|split; [|assumption]].
        -- intros HjL. apply Hj. right. assumption.
        -- rewrite F2; [assumption|]. intros ->. apply Hj. left. reflexivity.
      * destruct (F4 u Hu Hm Hnm) as (isl' & Hl' & Hin).
        right. exists i, isl'. split; [assumption|]. split; assumption.
  - rewrite (process_island_none st i Hi). split.
    + intros u Hu HS. destruct (HP u Hu HS) as [Hcl|(j & islj & Hj & Hlj & Hin)];
        [left; assumption|].
      destruct Hj as [<-|Hj]; [congruence|].
      right. exists j, islj. split; [assumption|]. split; assumption.
    + intros u Hu Hm.
      destruct (HQ u Hu Hm) as [HS|(j & islj & Hj & Hlj & Hin)]; [left; assumption|].
      right. exists j, islj. split; [|split; assumption].
      intros HjL. apply Hj. right. assumption.
Qed.

Lemma fold_islands_round S L : forall st,
  driver_wf k st -> NoDup L ->
  round_inv k S L st ->
  let st' := fold_left (CliqueDriver.process_island k p) L st in
  driver_wf k st' /\ round_inv k S [] st' /\
  (forall v, 0 <= v -> marked st.1.2 st.2 v -> marked st'.1.2 st'.2 v) /\
  length st'.1.1 = length st.1.1.
Proof.
  induction L as [|i L IH]; intros st Hwf Hnd Hinv; cbv zeta.
  - cbn [fold_left]. split; [assumption|]. split; [assumption|].
    split; [auto|reflexivity].
  - cbn [fold_left]. apply NoDup_cons in Hnd. destruct Hnd as [Hni Hnd].
    rewrite list_elem_of_In in Hni.
    pose proof (process_island_round S i L st Hwf Hni Hinv) as Hinv1.
    pose proof (process_island_wf k Hk p st i Hwf) as Hwf1.
    assert (Hup : forall v, 0 <= v -> marked st.1.2 st.2 v ->
              marked (CliqueDriver.process_island k p st i).1.2
                     (CliqueDriver.process_island k p st i).2 v).
    { destruct (st.1.1 !! i) as [isl|] eqn:Hi.
      - apply (process_island_marks st i isl Hwf Hi).
      - rewrite (process_island_none st i Hi). auto. }
    assert (Hlen : length (CliqueDriver.process_island k p st i).1.1 = length st.1.1).
    { rewrite process_island_phases. rewrite !do_phase_islands. reflexivity. }
    destruct (IH (CliqueDriver.process_island k p st i) Hwf1 Hnd Hinv1) as (W & R & U & Ln).
    cbv zeta in W, R, U, Ln. split; [assumption|]. split; [assumption|]. split.
    + intros v Hv Hm. apply U; [assumption|]. apply Hup; assumption.
    + rewrite Ln. assumption.
Qed.

(** One round expands from every vertex marked when it began. *)
Lemma round_closed st :
  driver_wf k st -> frontier_closed k st ->
  let st' := CliqueDriver.round k p st in
  driver_wf k st' /\ frontier_closed k st' /\
  (forall u, vertex k u -> marked st.1.2 st.2 u -> closed k st' u) /\
  (forall v, 0 <= v -> marked st.1.2 st.2 v -> marked st'.1.2 st'.2 v) /\
  length st'.1.1 = length st.1.1.
Proof.
  intros Hwf Hfc. cbv zeta. unfold CliqueDriver.round.
  assert (Hinv : round_inv k (fun u => marked st.1.2 st.2 u) (seq 0 (length st.1.1)) st).
  { split.
    - intros u Hu Hm. destruct (Hfc u Hu Hm) as [Hcl|(i & isl & Hi & Hin)];
        [left; assumption|].
      right. exists i, isl. split; [|split; assumption].
      apply in_seq. apply lookup_lt_Some in Hi. lia.
    - intros u _ Hm. left. assumption. }
  destruct (fold_islands_round _ _ st Hwf (proj2 (NoDup_ListNoDup _) (seq_NoDup _ 0)) Hinv)
    as (W & [RP RQ] & U & Ln).
  cbv zeta in W, RP, RQ, U, Ln.
  set (st' := fold_left (CliqueDriver.process_island k p) (seq 0 (length st.1.1)) st) in *.
  assert (Hcl : forall u, vertex k u -> marked st.1.2 st.2 u -> closed k st' u).
  { intros u Hu Hm. destruct (RP u Hu Hm) as [Hcl|(i & isl & [] & _)]. assumption. }
  split; [assumption|]. split; [|split; [assumption|split; assumption]].
  intros u Hu Hm. destruct (RQ u Hu Hm) as [HS|(i & isl & _ & Hi & Hin)].
  - left. apply Hcl; assumption.
  - right. exists i, isl. split; assumption.
Qed.

Variable cliques : list (list Util.kmer).
Hypothesis Hcl : cliques_ok k cliques.

Lemma rounds_covered n : forall r st,
  driver_wf k st -> frontier_closed k st -> covered k cliques r st ->
  covered k cliques (r + n) (CliqueDriver.rounds n k p st).
Proof.
  induction n as [|n IH]; intros r st Hwf Hfc Hcov.
  - rewrite Nat.add_0_r. exact Hcov.
  - cbn [CliqueDriver.rounds].
    destruct (round_closed st Hwf Hfc) as (W & F & C & U & _). cbv zeta in W, F, C, U.
    replace (r + S n)%nat with (S r + n)%nat by lia.
    apply IH; [assumption|assumption|].
    intros c m x j Hc Hm Hw Hj.
    assert (Hmv : vertex k m).
    { unfold cliques_ok in Hcl. rewrite Forall_forall in Hcl.
      specialize (Hcl c (proj2 (list_elem_of_In _ _) Hc)).
      rewrite Forall_forall in Hcl. apply Hcl, list_elem_of_In. assumption. }
    destruct (Nat.eq_dec j (S r)) as [->|Hne].
    + destruct (walk_last k r m x Hw) as (u & Hu & Hx).
      apply (C u); [eapply walk_vertex; eassumption| |assumption].
      apply (Hcov c m u r); auto.
    + apply U.
      * apply (vertex_nonneg k Hk). eapply walk_vertex; eassumption.
      * apply (Hcov c m x j); auto. lia.
Qed.

(** Marked k-mers stay within the radius of some island. *)
Lemma phase_marked_near rho st ph :
  driver_wf k st -> length st.1.1 = length cliques ->
  radius_inv k cliques rho st -> marked_near k cliques rho st ->
  marked_near k cliques (radius_step rho ph) (do_phase k p st ph).
Proof.
  intros Hwf Hlen HR HM.
  pose proof (phase_radius k Hk p cliques rho st ph Hwf Hlen HR) as [HR1 _].
  destruct ph as [i|i]; cbn [radius_step do_phase] in *.
  - destruct (st.1.1 !! i) as [isl|] eqn:Hi.
    + destruct (expand_island_spec k Hk st i isl Hwf Hi) as (E1 & Hinv & _).
      cbv zeta in E1, Hinv.
      set (e := Layers.next_layer (CliqueDriver.bfs_layer isl) k st.1.2 st.2) in *.
      destruct Hinv as ((_ & _ & Hgl & _) & Hk1 & _ & _).
      intros x Hx Hm.
      assert (Hx0 : 0 <= x) by (destruct Hx; lia).
      destruct (Z.eq_dec (rd st.1.2 x) (-3)) as [E0|E0].
      * destruct (cliques !! i) as [c|] eqn:Hci.
        -- exists i, c. split; [assumption|].
           rewrite E1 in HR1, Hm. cbn [fst snd] in HR1, Hm.
           specialize (HR1 i _ c (list_lookup_insert_eq _ _ _ (lookup_lt_Some _ _ _ Hi)) Hci).
           cbn [CliqueDriver.bfs_layer] in HR1. rewrite Forall_forall in HR1.
           apply HR1, list_elem_of_In. apply Hk1; [assumption|].
           split; [assumption|]. destruct (Hgl x Hx0) as [E|[_ E]]; [|assumption].
           congruence.
        -- exfalso. apply lookup_ge_None in Hci. apply lookup_lt_Some in Hi. lia.
      * destruct (HM x Hx E0) as (j & c & Hj & Hn). exists j, c.
        split; [assumption|]. eapply near_clique_mono; [apply bump_ge|exact Hn].
    + assert (CliqueDriver.expand_island k st i = st) as ->.
      { destruct st as [[islands h] v]. cbn [fst snd] in Hi.
        unfold CliqueDriver.expand_island. rewrite Hi. reflexivity. }
      intros x Hx Hm. destruct (HM x Hx Hm) as (j & c & Hj & Hn). exists j, c.
      split; [assumption|]. eapply near_clique_mono; [apply bump_ge|exact Hn].
  - destruct (st.1.1 !! i) as [isl|] eqn:Hi.
    + destruct (commit_island_spec k Hk p st i isl Hwf Hi) as (_ & _ & _ & [_ Hc] & _).
      cbv zeta in Hc. intros x Hx Hm. apply HM; [assumption|].
      destruct (Hc x ltac:(destruct Hx; lia)) as [E|[E _]]; lia.
    + assert (CliqueDriver.commit_island k p st i = st) as ->.
      { destruct st as [[islands h] v]. cbn [fst snd] in Hi.
        unfold CliqueDriver.commit_island. rewrite Hi. reflexivity. }
      assumption.
Qed.

Lemma fold_phase_marked_near phs : forall rho st,
  driver_wf k st -> length st.1.1 = length cliques ->
  radius_inv k cliques rho st -> marked_near k cliques rho st ->
  marked_near k cliques (radius_after phs rho) (fold_left (do_phase k p) phs st).
Proof.
  induction phs as [|ph phs IH]; intros rho st Hwf Hlen HR HM; [exact HM|].
  cbn [fold_left radius_after]. apply IH.
  - apply do_phase_wf; assumption.
  - rewrite do_phase_islands. assumption.
  - apply phase_radius; assumption.
  - apply phase_marked_near; assumption.
Qed.

End Coverage.

Section SeededCover.
Variable k : nat.
Hypothesis Hk : (k <= 31)%nat.
Hypothesis Hk1 : (1 <= k)%nat.

Lemma seed_kmers_visited cliques : forall i0 h v,
  Forall (Forall (is_kmer k)) cliques ->
  (CliqueDriver.seed_cliques i0 cliques (h, v)).2.2 = v.
Proof.
  induction cliques as [|c cliques IH]; intros i0 h v Hok; [reflexivity|].
  apply Forall_cons in Hok. destruct Hok as [Hc Hok]. cbn [CliqueDriver.seed_cliques].
  assert (Hf : forall c' h', Forall (is_kmer k) c' ->
            (fold_left (CliqueDriver.seed_member i0) c' (h', v)).2 = v).
  { intros c'. induction c' as [|m c' IHc]; intros h' Hc'; [reflexivity|].
    apply Forall_cons in Hc'. destruct Hc' as [Hm Hc']. cbn [fold_left].
    pose proof (kmer_below_tag k m Hk Hm) as Hlt.
    unfold CliqueDriver.seed_member at 2.
    destruct (Z.geb_spec m luMSB); [lia|]. apply IHc. assumption. }
  specialize (Hf c h Hc).
  destruct (fold_left (CliqueDriver.seed_member i0) c (h, v)) as [h1 v1].
  cbn [snd] in Hf. subst v1. specialize (IH (S i0) h1 v Hok).
  destruct (CliqueDriver.seed_cliques (S i0) cliques (h1, v)) as [isls [h2 v2]].
  exact IH.
Qed.

Lemma kmers_cliques_ok cliques :
  Forall (Forall (is_kmer k)) cliques -> cliques_ok k cliques.
Proof.
  intros H. unfold cliques_ok. eapply Forall_impl; [exact H|].
  intros c Hc. eapply Forall_impl; [exact Hc|]. intros m. apply kmer_vertex.
Qed.

(** After the pre-labelling of cliques of k-mers, the marked vertices are
    the clique members, all waiting in their island's first layer. *)
Lemma seeded_cover cliques :
  Forall (Forall (is_kmer k)) cliques ->
  let st := CliqueDriver.seeded k cliques in
  frontier_closed k st /\ covered k cliques 0 st /\
  marked_near k cliques (fun _ => 0%nat) st.
Proof.
  intros Hkm. pose proof (kmers_cliques_ok cliques Hkm) as Hok. cbv zeta.
  unfold CliqueDriver.seeded.
  pose proof (allocated_sized k Hk) as [[Hlen Hvis] Hlo].
  pose proof (allocated_unassigned k Hk) as Hun.
  assert (Hv0 : forall y, 0 <= y < 4 ^ Z.of_nat (k - 1) ->
            rdb (CliqueDriver.allocated k).2 y = false).
  { intros y Hy. destruct Hvis as [Hvis|]; [|lia].
    unfold CliqueDriver.allocated in *. cbv zeta in *. cbn [snd] in *.
    unfold rdb. apply lookup_total_replicate_2.
    rewrite length_replicate in Hvis. lia. }
  destruct (CliqueDriver.allocated k) as [h0 v0] eqn:E0. cbn [fst snd] in *.
  destruct (seed_cliques_spec k Hk cliques 0%nat h0 v0 Hok Hlen)
    as (Hisl & L1 & L2 & Hany & Hmem).
  pose proof (seed_kmers_visited cliques 0%nat h0 v0 Hkm) as Hvv.
  destruct (CliqueDriver.seed_cliques 0 cliques (h0, v0)) as [isls [h v]].
  cbn [fst snd] in *. subst v.
  assert (Hseed : forall x, is_kmer k x -> rd h x <> -3 ->
            exists j c, cliques !! j = Some c /\ In x c).
  { intros x Hx Hm. destruct (Hany x ltac:(destruct Hx; lia)) as [E|(j & c & Hj & Hin & _)].
    - exfalso. apply Hm. rewrite E. apply Hun. assumption.
    - exists j, c. split; assumption. }
  split; [|split].
  - intros u Hu Hm. right.
    destruct (vertex_cases k u Hk Hu) as [[Hlt Hx]|[Hge (y & Hy & ->)]].
    + unfold marked in Hm. destruct (Z.ltb_spec u luMSB) as [_|]; [|lia].
      destruct (Hseed u Hx Hm) as (j & c & Hj & Hin).
      exists j, (CliqueDriver.IslandInit (length c) c). split.
      * rewrite Hisl.
        pose proof (list_lookup_fmap
                      (fun c => CliqueDriver.IslandInit (length c) c) cliques j) as E.
        unfold Util.kmer in *. rewrite Hj in E. exact E.
      * unfold CliqueDriver.IslandInit. cbn [CliqueDriver.bfs_layer].
        rewrite firstn_all. assumption.
    + exfalso. unfold marked in Hm. cbn [fst snd] in Hm.
      assert (Hy62 : 0 <= y < 2 ^ 62).
      { pose proof (pow4_le_62 (k - 1) ltac:(lia)). lia. }
      destruct (Z.ltb_spec (Z.lor y luMSB) luMSB) as [Hlt|_].
      * rewrite (tagged_add y Hy62) in Hlt. lia.
      * rewrite (untag_tagged y Hy62), (Hv0 y Hy) in Hm. discriminate.
  - intros c m x n Hc Hm Hw Hn. assert (n = 0%nat) as -> by lia.
    inversion Hw; subst.
    assert (Hx : is_kmer k x).
    { rewrite Forall_forall in Hkm. specialize (Hkm c (proj2 (list_elem_of_In _ _) Hc)).
      rewrite Forall_forall in Hkm. apply Hkm, list_elem_of_In. assumption. }
    pose proof (kmer_below_tag k x Hk Hx) as Hlt.
    destruct (Hmem c x Hc Hm Hlt) as (j & c' & _ & _ & E).
    unfold marked. cbn [fst snd]. destruct (Z.ltb_spec x luMSB); [|lia].
    rewrite E. lia.
  - intros x Hx Hm. destruct (Hseed x Hx Hm) as (j & c & Hj & Hin).
    exists j, c. split; [assumption|]. exists x. split; [assumption|].
    rewrite lev_refl. lia.
Qed.

End SeededCover.

Section RunDomain.
Variable k : nat.
Hypothesis Hk : (k <= 31)%nat.
Hypothesis Hk1 : (1 <= k)%nat.
Variables (p q : Z) (cliques : list (list Util.kmer)).
Hypothesis Hkm : Forall (Forall (is_kmer k)) cliques.

Lemma clique_member_kmer c m : In c cliques -> In m c -> is_kmer k m.
Proof.
  intros Hc Hm. rewrite Forall_forall in Hkm.
  specialize (Hkm c (proj2 (list_elem_of_In _ _) Hc)).
  rewrite Forall_forall in Hkm. apply Hkm, list_elem_of_In. assumption.
Qed.

(** What a run marks lies within the number of rounds of a clique. *)
Lemma run_marked_near x :
  is_kmer k x -> rd (CliqueDriver.run k p q cliques) x <> -3 ->
  exists c m, In c cliques /\ In m c /\
              kmer_dist k m x <= Z.of_nat (Z.to_nat (Z.shiftr q 1)).
Proof.
  intros Hx Hlab.
  pose proof (kmers_cliques_ok k cliques Hkm) as Hok.
  pose proof (seeded_wf k Hk cliques Hok) as Hwf0.
  destruct (seeded_cover k Hk Hk1 cliques Hkm) as (_ & _ & Hnear). cbv zeta in Hnear.
  rewrite run_schedule in Hlab. set (n := Z.to_nat (Z.shiftr q 1)) in *.
  pose proof (fold_phase_marked_near k Hk p cliques (schedule (length cliques) n)
                (fun _ => 0%nat) _ Hwf0 (seeded_islands k cliques)
                (seeded_radius k Hk cliques Hok) Hnear x Hx Hlab)
    as (i & c & Hi & m & Hm & Hd).
  pose proof (radius_after_schedule (length cliques) n (fun _ => 0%nat) i) as Hr.
  assert (Hc : In c cliques).
  { apply list_elem_of_In. eapply list_elem_of_lookup_2. eassumption. }
  exists c, m. split; [assumption|]. split; [assumption|].
  rewrite (kmer_dist_vdist k m x Hk (clique_member_kmer c m Hc Hm) Hx). unfold vdist.
  cbn beta in Hr. lia.
Qed.

(** What lies within the number of rounds of a clique is marked. *)
Lemma run_covers c m x :
  In c cliques -> In m c -> is_kmer k x ->
  kmer_dist k m x <= Z.of_nat (Z.to_nat (Z.shiftr q 1)) ->
  rd (CliqueDriver.run k p q cliques) x <> -3.
Proof.
  intros Hc Hm Hx Hd.
  pose proof (kmers_cliques_ok k cliques Hkm) as Hok.
  pose proof (seeded_wf k Hk cliques Hok) as Hwf0.
  destruct (seeded_cover k Hk Hk1 cliques Hkm) as (Hfc & Hcov & _). cbv zeta in Hfc, Hcov.
  set (n := Z.to_nat (Z.shiftr q 1)) in *.
  pose proof (rounds_covered k Hk p cliques Hok n 0%nat _ Hwf0 Hfc Hcov) as Hfin.
  pose proof (clique_member_kmer c m Hc Hm) as Hmk.
  rewrite (kmer_dist_vdist k m x Hk Hmk Hx) in Hd. unfold vdist in Hd.
  rewrite (vstr_kmer k m Hk Hmk), (vstr_kmer k x Hk Hx) in Hd.
  pose proof (kmer_walk k Hk m x Hmk Hx Hk1) as Hw.
  specialize (Hfin c m x _ Hc Hm Hw ltac:(lia)).
  unfold marked in Hfin. pose proof (kmer_below_tag k x Hk Hx).
  destruct (Z.ltb_spec x luMSB); [|lia]. exact Hfin.
Qed.

End RunDomain.

(** With cliques of k-mers, a run labels exactly the k-mers within edit
    distance q/2 (rounded down) of some clique member: those are the k-mers
    whose label is no longer UNASSIGNED at the end, whether they end GRAY
    or with a clique index, and so the k-mers written to the output. *)
Theorem labelled_iff_near_clique (k : nat) (p q : Z) (cliques : list (list Util.kmer))
    (x : Z) :
  (1 <= k <= 15)%nat -> Forall (Forall (is_kmer k)) cliques -> 0 <= q -> is_kmer k x ->
  (rd (CliqueDriver.run k p q cliques) x <> -3 <->
   exists c m, In c cliques /\ In m c /\ kmer_dist k m x <= Z.shiftr q 1).
Proof.
  intros [Hk1 Hk15] Hkm Hq Hx. assert (Hk : (k <= 31)%nat) by lia.
  assert (Hq1 : 0 <= Z.shiftr q 1) by (apply Z.shiftr_nonneg; assumption).
  split.
  - intros Hlab.
    destruct (run_marked_near k Hk Hk1 p q cliques Hkm x Hx Hlab) as (c & m & Hc & Hm & Hd).
    exists c, m. split; [assumption|]. split; [assumption|]. lia.
  - intros (c & m & Hc & Hm & Hd).
    apply (run_covers k Hk Hk1 p q cliques Hkm c m x Hc Hm Hx). lia.
Qed.

Lemma labelled_iff_near_clique_witness :
  rd (CliqueDriver.run 2 2 2 [[0]; [15]]) 1 <> -3.
Proof.
  assert (H1 : (1 <= 2 <= 15)%nat) by lia.
  assert (H2 : Forall (Forall (is_kmer 2)) [[0]; [15]]).
  { repeat constructor; first [lia | reflexivity]. }
  assert (H3 : 0 <= 2) by lia.
  assert (H4 : is_kmer 2 1) by (split; [lia|reflexivity]).
  apply (proj2 (labelled_iff_near_clique 2 2 2 [[0]; [15]] 1 H1 H2 H3 H4)).
  exists [0], 0. split; [left; reflexivity|]. split; [left; reflexivity|].
  vm_compute. discriminate.
Defined.

(** ** The margin the neighbour-list driver keeps *)



Section Margin.
Variable k : nat.
Hypothesis Hk : (k <= 31)%nat.
Variables (p q : Z) (centers : list Util.kmer).
Hypothesis Hcenters : Forall (is_kmer k) centers.







End Margin.



(** ** Reading a well-formed centers file *)

Lemma digit_not_space c : Stdio.is_digit c = true -> Stdio.is_space c = false.
Proof.
  unfold Stdio.is_digit, Stdio.is_space. cbv zeta.
  generalize (nat_of_ascii c). intros n Hd.
  apply andb_true_iff in Hd. destruct Hd as [H1 H2].
  apply Nat.leb_le in H1. apply Nat.leb_le in H2.
  apply orb_false_iff. split.
  - apply Nat.eqb_neq. lia.
  - apply andb_false_iff. right. apply Nat.leb_gt. lia.
Qed.

Lemma dna_not_space c :
  In c ["A"; "C"; "G"; "T"]%char -> Stdio.is_space c = false.
Proof. intros [<-|[<-|[<-|[<-|[]]]]]; reflexivity. Qed.

Lemma scan_digits_header hdr rest : forall acc,
  Forall (fun c => Stdio.is_digit c = true) hdr ->
  Stdio.scan_digits (hdr ++ Stdio.newline :: rest) acc
  = (fold_left (fun a c => a * 10 + Stdio.digit_val c) hdr acc, Stdio.newline :: rest).
Proof.
  induction hdr as [|c hdr IH]; intros acc Hd; [reflexivity|].
  apply Forall_cons in Hd. destruct Hd as [Hc Hd].
  cbn [app Stdio.scan_digits fold_left]. rewrite Hc. apply IH. assumption.
Qed.

Lemma skip_space_records k records :
  (1 <= k)%nat -> Forall (fun r => length r = k /\ is_dna r) records ->
  Stdio.skip_space (concat (map (fun r => r ++ [Stdio.newline]) records))
  = concat (map (fun r => r ++ [Stdio.newline]) records).
Proof.
  intros Hk Hrec. destruct records as [|r records]; [reflexivity|].
  apply Forall_cons in Hrec. destruct Hrec as [[Hlen Hdna] _].
  destruct r as [|c r]; [cbn in Hlen; lia|].
  apply Forall_cons in Hdna. destruct Hdna as [Hc _].
  cbn [map concat app Stdio.skip_space]. rewrite (dna_not_space c Hc). reflexivity.
Qed.

(** [encode] reads the first [k] bytes of the buffer only, and on DNA
    letters does not depend on what its local [x] held. *)
Lemma encode_record x0 str tail k :
  (1 <= k)%nat -> length str = k -> is_dna str ->
  Util.encode x0 (str ++ tail) k = Util.encode 0 str k.
Proof.
  intros Hk Hlen Hdna.
  assert (Hne : str <> []) by (intros ->; cbn in Hlen; lia).
  destruct (encode_loop_dna str 0 Hne Hdna) as (E & HE).
  unfold Util.encode. rewrite <- Hlen.
  pose proof (HE x0 0%nat tail) as H1. pose proof (HE 0 0%nat []) as H2.
  rewrite Nat.add_0_r in H1, H2. rewrite app_nil_r in H2.
  rewrite H1, H2. reflexivity.
Qed.

Lemma read_records_well_formed ind k records : forall i buf,
  (1 <= k)%nat -> Forall (fun r => length r = k /\ is_dna r) records ->
  Reader.read_records ind k (length records) i buf
    (concat (map (fun r => r ++ [Stdio.newline]) records))
  = map (fun r => Util.encode 0 r k) records.
Proof.
  induction records as [|r records IH]; intros i buf Hk Hrec; [reflexivity|].
  apply Forall_cons in Hrec. destruct Hrec as [[Hlen Hdna] Hrec].
  cbn [length map concat Reader.read_records]. unfold Stdio.fgets.
  rewrite <- app_assoc. cbn [app].
  set (rest := concat (map (fun r => r ++ [Stdio.newline]) records)).
  destruct (r ++ Stdio.newline :: rest) as [|c0 f0] eqn:Ef.
  { destruct r; discriminate. }
  rewrite <- Ef.
  rewrite (fgets_take_record r rest (k + 2 - 1) Hdna) by lia.
  rewrite <- app_assoc.
  rewrite (encode_record _ r _ k Hk Hlen Hdna).
  f_equal. apply IH; assumption.
Qed.

(** On a well-formed file, the count in decimal on the first line and
    then that many lines of [k] letters among A, C, G, T each,
    [readCentersFromFile] returns the count and the encodings of the
    records in file order, whatever the uninitialised storage held; every
    center is a k-mer, and decoding the centers gives the records back. *)
Theorem read_well_formed_file (ind : Reader.indeterminate) (k : nat)
    (hdr : list ascii) (records : list (list ascii)) :
  (1 <= k <= 32)%nat ->
  hdr <> [] -> Forall (fun c => Stdio.is_digit c = true) hdr ->
  decimal hdr = Z.of_nat (length records) ->
  Forall (fun r => length r = k /\ is_dna r) records ->
  let r := Reader.readCentersFromFile ind (centers_file hdr records) k in
  r.2 = Z.of_nat (length records) /\
  r.1 = map (fun rec => Util.encode 0 rec k) records /\
  Forall (is_kmer k) r.1 /\
  map (fun c => Util.decode c k) r.1 = records.
Proof.
  intros Hk Hne Hdig Hdec Hrec. cbv zeta.
  unfold Reader.readCentersFromFile, centers_file, Stdio.fscanf_zu_nl.
  destruct hdr as [|c hdr]; [contradiction|].
  pose proof Hdig as Hdig'. apply Forall_cons in Hdig'. destruct Hdig' as [Hc _].
  cbn [app Stdio.skip_space]. rewrite (digit_not_space c Hc), Hc.
  change (c :: hdr ++ ?l) with ((c :: hdr) ++ l).
  rewrite (scan_digits_header (c :: hdr) _ 0 Hdig).
  fold (decimal (c :: hdr)). rewrite Hdec.
  change (Stdio.skip_space (Stdio.newline :: ?l)) with (Stdio.skip_space l).
  rewrite (skip_space_records k records) by (try lia; assumption).
  cbn [fst snd]. rewrite Nat2Z.id.
  rewrite (read_records_well_formed ind k records 0 _ ltac:(lia) Hrec).
  split; [reflexivity|]. split; [reflexivity|]. split.
  - apply Forall_map. eapply Forall_impl; [exact Hrec|].
    intros rec [Hlen Hdna]. cbn beta.
    apply (encode_syms 0 rec k Hlen Hdna). lia.
  - rewrite map_map. clear Hdec. induction records as [|rec records IH]; [reflexivity|].
    apply Forall_cons in Hrec. destruct Hrec as [[Hlen Hdna] Hrec].
    cbn [map]. rewrite (IH Hrec). f_equal.
    destruct (encode_syms 0 rec k Hlen Hdna ltac:(lia)) as [_ Hs].
    rewrite decode_syms, Hs, map_map.
    clear Hs Hlen. induction Hdna as [|a x Ha Hdna IHx]; [reflexivity|].
    cbn [map]. rewrite IHx. f_equal. apply (dna_code a 0 Ha).
Qed.

Lemma read_well_formed_file_witness :
  (Reader.readCentersFromFile
     {| Reader.ind_count := 9; Reader.ind_buffer := []; Reader.ind_x := fun _ => 2 |}
     (centers_file ["2"]%char [["A"; "C"]; ["T"; "G"]]%char) 2).1 = [1; 14] /\
  map (fun c => Util.decode c 2) [1; 14] = [["A"; "C"]; ["T"; "G"]]%char.
Proof.
  assert (H1 : (1 <= 2 <= 32)%nat) by lia.
  assert (H2 : ["2"]%char <> []) by discriminate.
  assert (H3 : Forall (fun c => Stdio.is_digit c = true) ["2"]%char).
  { repeat constructor. }
  assert (H4 : decimal ["2"]%char = Z.of_nat (length [["A"; "C"]; ["T"; "G"]]%char))
    by reflexivity.
  assert (H5 : Forall (fun r => length r = 2%nat /\ is_dna r)
                      [["A"; "C"]; ["T"; "G"]]%char).
  { repeat constructor; cbn; tauto. }
  destruct (read_well_formed_file
              {| Reader.ind_count := 9; Reader.ind_buffer := [];
                 Reader.ind_x := fun _ => 2 |} 2 _ _ H1 H2 H3 H4 H5)
    as (_ & E1 & _ & E2).
  rewrite E1 in E2. split; [rewrite E1; reflexivity|exact E2].
Defined.

(** ** The greedy constructor is first fit *)

Section FirstFit.
Import NoRandPairwise.
Variables (k : nat) (d : Z).

Lemma first_fit_init : first_fit k d 0 ([0], 0).
Proof.
  unfold first_fit, size. cbn [fst snd length]. split; [lia|]. split; [lia|]. split.
  - intros i j a b Hi Hj Hij. destruct j as [|j]; [lia|]. discriminate.
  - intros x. split.
    + intros [<-|[]]. split; [lia|]. intros y [<-|[]] Hy. lia.
    + intros [Hx _]. left. lia.
Qed.

Lemma first_fit_step m st :
  0 <= m -> m + 1 < 2 ^ 63 ->
  first_fit k d m st -> first_fit k d (m + 1) (step k d st (m + 1)).
Proof.
  intros Hm Hbound. destruct st as [MIS lastFound].
  intros (Hlf & Hsz & Hinc & Hmem). cbn [fst snd] in Hlf, Hsz, Hinc, Hmem.
  unfold first_fit.
  destruct (step_search k d MIS lastFound (m + 1) ltac:(lia) Hlf)
    as [(H1 & H2 & H3)|[Hr Hfar]].
  - destruct (step k d (MIS, lastFound) (m + 1)) as [MIS' lf'].
    cbn [fst snd] in H1, H2, H3 |- *. subst MIS'.
    split; [assumption|]. split; [lia|]. split; [assumption|].
    intros x. split.
    + intros Hx. destruct (proj1 (Hmem x) Hx) as [Hr Hy]. split; [lia|assumption].
    + intros [Hx Hy]. destruct (Z.eq_dec x (m + 1)) as [->|Hne].
      * exfalso. pose proof (at_index_In MIS lf' H2) as Hin.
        pose proof (proj1 (Hmem _) Hin) as [Hle _].
        specialize (Hy _ Hin ltac:(lia)). lia.
      * apply Hmem. split; [lia|assumption].
  - rewrite Hr. cbn [fst snd].
    assert (Hsize' : size (MIS ++ [m + 1]) = size MIS + 1)
      by (unfold size; rewrite length_app; simpl; lia).
    split; [lia|]. split; [lia|]. split.
    + intros i j a b Hi Hj Hij.
      apply lookup_app_Some in Hi. apply lookup_app_Some in Hj.
      destruct Hj as [Hj|[Hlen Hj]].
      * destruct Hi as [Hi|[Hlen' _]]; [eapply Hinc; eassumption|].
        apply lookup_lt_Some in Hj. lia.
      * destruct (j - length MIS)%nat as [|j'] eqn:Ej; [|discriminate].
        destruct Hi as [Hi|[Hlen' _]]; [|lia]. injection Hj as <-.
        assert (Ha : In a MIS) by (apply list_elem_of_In; eapply list_elem_of_lookup_2; eassumption).
        pose proof (proj1 (Hmem a) Ha). lia.
    + intros x. split.
      * intros Hx. apply in_app_or in Hx. destruct Hx as [Hx|[<-|[]]].
        -- destruct (proj1 (Hmem x) Hx) as [Hr' Hy]. split; [lia|].
           intros y Hyin Hlt. apply in_app_or in Hyin.
           destruct Hyin as [Hyin|[<-|[]]]; [apply Hy; assumption|lia].
        -- split; [lia|]. intros y Hyin Hlt. apply in_app_or in Hyin.
           destruct Hyin as [Hyin|[<-|[]]]; [apply Hfar; assumption|lia].
      * intros [Hx Hy]. apply in_or_app.
        destruct (Z.eq_dec x (m + 1)) as [->|Hne]; [right; left; reflexivity|].
        left. apply Hmem. split; [lia|].
        intros y Hyin Hlt. apply Hy; [apply in_or_app; left; assumption|assumption].
Qed.

Lemma first_fit_fold (n : nat) :
  Z.of_nat n + 1 < 2 ^ 63 ->
  first_fit k d (Z.of_nat n)
    (fold_left (step k d) (map (fun n => Z.of_nat n + 1) (seq 0 n)) ([0], 0)).
Proof.
  induction n as [|n IH]; intros Hn.
  - cbn. apply first_fit_init.
  - rewrite seq_S, map_app, fold_left_app. cbn [map fold_left Nat.add].
    replace (Z.of_nat (S n)) with (Z.of_nat n + 1) by lia.
    apply first_fit_step; try lia. apply IH. lia.
Qed.

End FirstFit.

(** The search around [lastFound] changes nothing in what is selected:
    whatever [d], the vector [MIS] is strictly increasing and holds exactly
    the k-mers that are more than [d] away from every smaller member, the
    first-fit independent set in the order of the encodings. *)
Theorem greedy_is_first_fit (k : nat) (d : Z) :
  (k <= 31)%nat ->
  let MIS := NoRandPairwise.main k d in
  (forall i j a b, MIS !! i = Some a -> MIS !! j = Some b -> (i < j)%nat -> a < b) /\
  (forall x, In x MIS <->
             is_kmer k x /\ forall y, In y MIS -> y < x -> d < kmer_dist k x y).
Proof.
  intros Hk. unfold NoRandPairwise.main, NoRandPairwise.candidates. cbv zeta.
  rewrite kmer_space_size by assumption.
  assert (Hpos : 0 < 4 ^ Z.of_nat k) by (apply Z.pow_pos_nonneg; lia).
  assert (Hle : 4 ^ Z.of_nat k <= 4 ^ 31) by (apply Z.pow_le_mono_r; lia).
  pose proof (first_fit_fold k d (Z.to_nat (4 ^ Z.of_nat k - 1))) as Hinv.
  rewrite Z2Nat.id in Hinv by lia.
  specialize (Hinv ltac:(change (2 ^ 63) with (2 * 4 ^ 31); lia)).
  destruct Hinv as (_ & _ & Hinc & Hmem).
  split; [exact Hinc|]. intros x. rewrite Hmem. unfold is_kmer.
  split; intros [Hx Hy]; (split; [lia|exact Hy]).
Qed.

Lemma greedy_is_first_fit_witness :
  In 5 (NoRandPairwise.main 2 1) <->
  is_kmer 2 5 /\
  forall y, In y (NoRandPairwise.main 2 1) -> y < 5 -> 1 < kmer_dist 2 5 y.
Proof.
  exact (proj2 (greedy_is_first_fit 2 1 ltac:(lia)) 5).
Defined.

(** ** The output file *)

Lemma increasing_cons x l :
  increasing l -> (forall y, In y l -> x < y) -> increasing (x :: l).
Proof.
  intros Hl Hx i j a b Hi Hj Hij.
  destruct j as [|j]; [lia|]. cbn in Hj.
  destruct i as [|i].
  - cbn in Hi. injection Hi as <-. apply Hx.
    apply list_elem_of_In. eapply list_elem_of_lookup_2. eassumption.
  - cbn in Hi. apply (Hl i j a b Hi Hj). lia.
Qed.

Lemma omap_seq_increasing (f : nat -> option Z) n : forall a,
  (forall i y, (a <= i < a + n)%nat -> f i = Some y -> y = Z.of_nat i) ->
  increasing (omap f (seq a n)) /\
  forall y, In y (omap f (seq a n)) -> Z.of_nat a <= y.
Proof.
  induction n as [|n IH]; intros a Hf.
  - split; [intros i j x y Hi; destruct i; discriminate|intros y []].
  - destruct (IH (S a)) as [Hinc Hge]; [intros i y Hi; apply Hf; lia|].
    cbn [seq omap list_omap].
    fold (omap f (seq (S a) n)).
    destruct (f a) as [y|] eqn:Ea.
    + pose proof (Hf a y ltac:(lia) Ea) as ->. split.
      * apply increasing_cons; [assumption|]. intros y Hy. specialize (Hge y Hy). lia.
      * intros y [<-|Hy]; [lia|]. specialize (Hge y Hy). lia.
    + split; [assumption|]. intros y Hy. specialize (Hge y Hy). lia.
Qed.

(** The lines written at the end of [main], one for each k-mer whose label
    is not UNASSIGNED, in increasing order of the codes: a line holds the
    [k] letters of the k-mer and its label, and encoding the letters of a
    line gives back the index at which [h] holds the label, whatever the
    local [x] of [encode] held. *)
Theorem output_round_trip (k : nat) (h : list Z) (x0 : Z) :
  (1 <= k <= 15)%nat -> Z.of_nat (length h) = 4 ^ Z.of_nat k ->
  let out := CliqueDriver.output k h in
  (forall str lab, In (str, lab) out <->
     exists x, is_kmer k x /\ -3 < rd h x /\ str = Util.decode x k /\ lab = rd h x) /\
  (forall str lab, In (str, lab) out ->
     length str = k /\ is_dna str /\ rd h (Util.encode x0 str k) = lab) /\
  increasing (map (fun e => Util.encode x0 e.1 k) out).
Proof.
  intros Hk Hlen. cbv zeta.
  assert (Hmem : forall str lab, In (str, lab) (CliqueDriver.output k h) <->
     exists x, is_kmer k x /\ -3 < rd h x /\ str = Util.decode x k /\ lab = rd h x).
  { intros str lab. unfold CliqueDriver.output.
    rewrite <- list_elem_of_In, list_elem_of_omap. split.
    - intros (i & Hi & E). apply list_elem_of_In, in_seq in Hi. cbv zeta in E.
      destruct (Z.gtb_spec (rd h (Z.of_nat i)) (-3)) as [Hgt|]; [|discriminate].
      injection E as <- <-. exists (Z.of_nat i).
      split; [split; lia|]. split; [lia|]. split; reflexivity.
    - intros (x & [Hx0 Hx1] & Hlab & -> & ->). exists (Z.to_nat x).
      split; [apply list_elem_of_In, in_seq; lia|].
      cbv zeta. rewrite Z2Nat.id by lia.
      destruct (Z.gtb_spec (rd h x) (-3)); [reflexivity|lia]. }
  assert (Henc : forall x, is_kmer k x -> Util.encode x0 (Util.decode x k) k = x).
  { intros x Hx.
    destruct (encode_syms x0 (Util.decode x k) k (length_decode x k) (decode_dna x k)
                ltac:(lia)) as [Hr Hs].
    apply (syms_inj _ _ k Hr Hx).
    rewrite Hs, decode_syms, map_map.
    pose proof (Forall_syms_range x k) as Hrange.
    induction Hrange as [|z l Hz Hl IH]; [reflexivity|].
    cbn [map]. rewrite IH. f_equal. apply (base_code z 0 Hz). }
  split; [exact Hmem|]. split.
  - intros str lab Hin. apply Hmem in Hin. destruct Hin as (x & Hx & _ & -> & ->).
    split; [apply length_decode|]. split; [apply decode_dna|].
    rewrite (Henc x Hx). reflexivity.
  - unfold CliqueDriver.output.
    change (map (fun e : list ascii * Z => Util.encode x0 e.1 k))
      with (fmap (M := list) (fun e : list ascii * Z => Util.encode x0 e.1 k)).
    rewrite list_fmap_omap.
    apply (omap_seq_increasing _ (length h) 0%nat).
    intros i y Hi E. cbv zeta in E.
    destruct (Z.gtb_spec (rd h (Z.of_nat i)) (-3)) as [Hgt|]; [|discriminate].
    cbn in E. injection E as <-. apply Henc. split; lia.
Qed.

Lemma output_round_trip_witness :
  increasing (map (fun e => Util.encode 7 e.1 1) (CliqueDriver.output 1 [0; -3; -1; 0])).
Proof.
  assert (H1 : (1 <= 1 <= 15)%nat) by lia.
  assert (H2 : Z.of_nat (length [0; -3; -1; 0]) = 4 ^ Z.of_nat 1) by reflexivity.
  exact (proj2 (proj2 (output_round_trip 1 [0; -3; -1; 0] 7 H1 H2))).
Defined.

(** ** The labels of the neighbour-list driver *)

Lemma center_run_stricter (k : nat) (p q : Z) (centers : list Util.kmer) :
  (k <= 31)%nat -> Forall (is_kmer k) centers ->
  stricter (CenterDriver.run k p q centers)
           (CliqueDriver.run k p q (map (fun c : Util.kmer => [c]) centers)).
Proof.
  intros Hk Hcenters.
  pose proof (seeded_pair k Hk p q centers Hcenters) as Hsim.
  destruct (rounds_pair k Hk p q centers Hcenters (Z.to_nat (Z.shiftr q 1)) 0
              (fun _ => 0%nat) _ _ Hsim) as (rho & (_ & Hst & _)).
  - intros j. lia.
  - intros r Hr. rewrite Z.shiftr_div_pow2 in Hr by lia. change (2 ^ 1) with 2 in Hr.
    pose proof (Z.mul_div_le q 2 ltac:(lia)). lia.
  - exact Hst.
Qed.

(** At the end of a run of the neighbour-list driver every k-mer is
    UNASSIGNED, GRAY, or carries the index of a center, and the k-mers no
    longer UNASSIGNED are exactly those within q/2 (rounded down) of some
    center: the two drivers label the same k-mers. *)
Theorem center_run_labels (k : nat) (p q : Z) (centers : list Util.kmer) (x : Z) :
  (1 <= k <= 15)%nat -> Forall (is_kmer k) centers -> 0 <= q -> is_kmer k x ->
  let h := CenterDriver.run k p q centers in
  (rd h x = -3 \/ rd h x = -1 \/
   exists i, (i < length centers)%nat /\ rd h x = Z.of_nat i) /\
  (rd h x <> -3 <-> exists c, In c centers /\ kmer_dist k c x <= Z.shiftr q 1) /\
  (rd h x <> -3 <->
   rd (CliqueDriver.run k p q (map (fun c : Util.kmer => [c]) centers)) x <> -3).
Proof.
  intros [Hk1 Hk15] Hcenters Hq Hx h. assert (Hk : (k <= 31)%nat) by lia.
  set (cliques := map (fun c : Util.kmer => [c]) centers).
  set (hB := CliqueDriver.run k p q cliques).
  assert (Hkm : Forall (Forall (is_kmer k)) cliques).
  { unfold cliques. apply Forall_map. eapply Forall_impl; [exact Hcenters|].
    intros c Hc. constructor; [assumption|constructor]. }
  pose proof (kmers_cliques_ok k cliques Hkm) as Hok.
  destruct (center_run_stricter k p q centers Hk Hcenters) as [_ Hst].
  fold h cliques hB in Hst.
  assert (Hx0 : 0 <= x) by (destruct Hx; lia).
  specialize (Hst x Hx0).
  assert (Hq1 : 0 <= Z.shiftr q 1) by (apply Z.shiftr_nonneg; assumption).
  assert (Hdom : rd h x <> -3 <-> rd hB x <> -3) by lia.
  split; [|split; [|exact Hdom]].
  - (* the labels of the probe run *)
    pose proof (seeded_wf k Hk cliques Hok) as Hwf0.
    destruct (seeded_labels k cliques Hk Hok) as [Hs0 _].
    assert (Hset0 : settled k (CliqueDriver.seeded k cliques).1.2).
    { intros y Hy. destruct (Hs0 y Hy); lia. }
    destruct (rounds_settled k Hk p (Z.to_nat (Z.shiftr q 1)) _ Hwf0 Hset0) as [Hwf Hset].
    fold (CliqueDriver.run k p q cliques) in Hset. fold hB in Hset.
    destruct Hwf as [[_ Hlo] _].
    change (CliqueDriver.rounds _ k p _).1.2 with hB in Hlo.
    destruct (run_radius k p q cliques Hk Hok) as (rho & st & Hst' & [_ HR2] & _).
    fold hB in Hst'. rewrite Hst' in HR2.
    specialize (Hlo x Hx0). specialize (Hset x Hx).
    destruct (Z.eq_dec (rd h x) (-3)) as [|H3]; [left; assumption|].
    destruct (Z.eq_dec (rd h x) (-1)) as [|H1]; [right; left; assumption|].
    right. right. destruct (HR2 x Hx ltac:(lia)) as (i & c & E & Hc & _).
    exists i. split; [|lia].
    apply lookup_lt_Some in Hc. unfold cliques in Hc. rewrite length_map in Hc. exact Hc.
  - rewrite Hdom. split.
    + intros Hlab.
      destruct (run_marked_near k Hk Hk1 p q cliques Hkm x Hx Hlab)
        as (c & m & Hc & Hm & Hd).
      unfold cliques in Hc. apply in_map_iff in Hc. destruct Hc as (c0 & <- & Hc0).
      destruct Hm as [ <- | [] ]. exists c0. split; [assumption|]. lia.
    + intros (c & Hc & Hd).
      apply (run_covers k Hk Hk1 p q cliques Hkm [c] c x); try assumption.
      * unfold cliques. apply in_map_iff. exists c. split; [reflexivity|assumption].
      * left. reflexivity.
      * lia.
Qed.

Lemma center_run_labels_witness :
  rd (CenterDriver.run 2 2 2 [0; 15]) 1 <> -3 <->
  exists c, In c [0; 15] /\ kmer_dist 2 c 1 <= Z.shiftr 2 1.
Proof.
  assert (H1 : (1 <= 2 <= 15)%nat) by lia.
  assert (H2 : Forall (is_kmer 2) [0; 15]).
  { repeat constructor; first [lia | reflexivity]. }
  assert (H3 : 0 <= 2) by lia.
  assert (H4 : is_kmer 2 1) by (split; [lia|reflexivity]).
  exact (proj1 (proj2 (center_run_labels 2 2 2 [0; 15] 1 H1 H2 H3 H4))).
Defined.

(** ** The binary search over a center list *)

Section BinarySearch.
Import ListLSH.
Variables (list : list Center) (len roll : Z).
Hypothesis Hlen : 0 <= len < 2 ^ 30.
Hypothesis Hinc : idx_increasing list len.

Lemma search_spec n : forall st ed,
  0 <= st <= ed -> ed <= len -> ed - st <= Z.of_nat n ->
  (forall i, 0 <= i < st -> last_idx (entry list i) < roll) ->
  (forall i, ed <= i < len -> roll < last_idx (entry list i)) ->
  let j := search n list roll st ed in
  st <= j <= ed /\
  (forall i, 0 <= i < j -> last_idx (entry list i) < roll) /\
  (forall i, j <= i < len -> roll <= last_idx (entry list i)).
Proof.
  induction n as [|n IH]; intros st ed Hst Hed Hn Hlo Hhi; cbv zeta.
  - cbn [search]. assert (st = ed) by lia. subst ed.
    split; [lia|]. split; [assumption|]. intros i Hi. specialize (Hhi i Hi). lia.
  - cbn [search]. destruct (Z.ltb_spec st ed) as [Hlt|Hge].
    + set (mid := Z.quot (st + ed) 2).
      assert (Hmid : st <= mid < ed).
      { unfold mid. pose proof (Z.quot_pos (st + ed) 2 ltac:(lia) ltac:(lia)).
        rewrite Z.quot_div_nonneg by lia.
        pose proof (Z.div_mod (st + ed) 2 ltac:(lia)).
        pose proof (Z.mod_pos_bound (st + ed) 2 ltac:(lia)). lia. }
      clearbody mid.
      destruct (Z.eqb_spec (last_idx (entry list mid) - roll) 0) as [Heq|Hne].
      * split; [lia|]. split.
        -- intros i Hi. pose proof (Hinc i mid ltac:(lia) ltac:(lia)). lia.
        -- intros i Hi. destruct (Z.eq_dec i mid) as [->|Hne]; [lia|].
           pose proof (Hinc mid i ltac:(lia) ltac:(lia)). lia.
      * destruct (Z.gtb_spec (last_idx (entry list mid) - roll) 0) as [Hgt|Hle].
        -- destruct (IH st mid ltac:(lia) ltac:(lia) ltac:(lia) Hlo) as (H1 & H2 & H3).
           { intros i Hi. destruct (Z.eq_dec i mid) as [->|Hne']; [lia|].
             pose proof (Hinc mid i ltac:(lia) ltac:(lia)). lia. }
           split; [lia|]. split; assumption.
        -- destruct (IH (mid + 1) ed ltac:(lia) ltac:(lia) ltac:(lia)) as (H1 & H2 & H3).
           { intros i Hi. destruct (Z.eq_dec i mid) as [->|Hne']; [lia|].
             pose proof (Hinc i mid ltac:(lia) ltac:(lia)). lia. }
           { assumption. }
           split; [lia|]. split; assumption.
    + assert (st = ed) by lia. subst ed.
      split; [lia|]. split; [assumption|]. intros i Hi. specialize (Hhi i Hi). lia.
Qed.

(** The index found is the number of entries below [roll], whatever the
    number of iterations allowed beyond [len]. *)
Lemma search_index n :
  len <= Z.of_nat n ->
  let j := search n list roll 0 len in
  0 <= j <= len /\
  forall i, 0 <= i < len -> (i < j <-> last_idx (entry list i) < roll).
Proof.
  intros Hn. cbv zeta.
  destruct (search_spec n 0 len ltac:(lia) ltac:(lia) ltac:(lia)) as (H1 & H2 & H3).
  { intros i Hi. lia. }
  { intros i Hi. lia. }
  cbv zeta in H1, H2, H3. split; [lia|]. intros i Hi. split.
  - intros Hlt. apply H2. lia.
  - intros Hlt. destruct (Z_lt_le_dec i (search n list roll 0 len)) as [|Hge]; [assumption|].
    specialize (H3 i ltac:(lia)). lia.
Qed.

Lemma search_unique j j' :
  0 <= j <= len -> 0 <= j' <= len ->
  (forall i, 0 <= i < len -> (i < j <-> last_idx (entry list i) < roll)) ->
  (forall i, 0 <= i < len -> (i < j' <-> last_idx (entry list i) < roll)) ->
  j = j'.
Proof.
  intros Hj Hj' H H'.
  destruct (Z.lt_trichotomy j j') as [Hlt|[Heq|Hgt]]; [|assumption|].
  - pose proof (proj1 (H' j ltac:(lia)) Hlt) as Hr.
    pose proof (proj2 (H j ltac:(lia)) Hr). lia.
  - pose proof (proj1 (H j' ltac:(lia)) Hgt) as Hr.
    pose proof (proj2 (H' j' ltac:(lia)) Hr). lia.
Qed.

End BinarySearch.

(** [binarySearch] on a list whose [last_idx] fields grow strictly: the
    entry whose center is returned is the first one with [last_idx >= roll];
    its index is the number of entries with [last_idx < roll].  When every
    entry is below [roll] that index is [len], one past the end of the
    list.  The loop needs no more than [len] iterations. *)
Theorem binarySearch_first_at_least (list : list ListLSH.Center) (len roll : Z) :
  0 <= len < 2 ^ 30 -> Z.of_nat (length list) = len -> idx_increasing list len ->
  let j := ListLSH.search (Z.to_nat len) list roll 0 len in
  ListLSH.binarySearch list len roll = ListLSH.center (ListLSH.entry list j) /\
  0 <= j <= len /\
  (forall i, 0 <= i < len ->
     (i < j <-> ListLSH.last_idx (ListLSH.entry list i) < roll)) /\
  (forall n, len <= Z.of_nat n -> ListLSH.search n list roll 0 len = j).
Proof.
  intros Hlen _ Hinc. cbv zeta.
  destruct (search_index list len roll Hlen Hinc (Z.to_nat len) ltac:(lia)) as [H1 H2].
  cbv zeta in H1, H2.
  split; [reflexivity|]. split; [assumption|]. split; [assumption|].
  intros n Hn.
  destruct (search_index list len roll Hlen Hinc n Hn) as [H1' H2']. cbv zeta in H1', H2'.
  apply (search_unique list len roll); assumption.
Qed.

Lemma binarySearch_first_at_least_witness :
  ListLSH.binarySearch
    [ {| ListLSH.center := 7; ListLSH.last_idx := 2 |};
      {| ListLSH.center := 4; ListLSH.last_idx := 5 |};
      {| ListLSH.center := 9; ListLSH.last_idx := 6 |} ] 3 3 = 4.
Proof.
  assert (H1 : 0 <= 3 < 2 ^ 30) by lia.
  pose proof (binarySearch_first_at_least
    [ {| ListLSH.center := 7; ListLSH.last_idx := 2 |};
      {| ListLSH.center := 4; ListLSH.last_idx := 5 |};
      {| ListLSH.center := 9; ListLSH.last_idx := 6 |} ] 3 3 H1 eq_refl) as H.
  apply proj1 in H; [exact H|].
  intros i j Hi Hj.
  assert (i = 0 /\ j = 1 \/ i = 0 /\ j = 2 \/ i = 1 /\ j = 2) as [[-> ->]|[[-> ->]|[-> ->]]]
    by lia; vm_compute; reflexivity.
Defined.

(** ** Rolls and weights *)

Section Weights.
Import ListLSH.
Variables (list : list Center) (size : Z).

Lemma cum_S j : cum list size (S j) = cum list size j + weight list size (Z.of_nat j).
Proof. unfold cum. rewrite seq_S, fold_left_app. reflexivity. Qed.

Lemma cum_mono i j :
  (forall m, 0 <= m < size -> 1 <= weight list size m) ->
  (i < j)%nat -> Z.of_nat j <= size -> cum list size i < cum list size j.
Proof.
  intros Hw Hij. induction j as [|j IH]; [lia|]. intros Hj.
  rewrite cum_S. pose proof (Hw (Z.of_nat j) ltac:(lia)).
  destruct (Nat.eq_dec i j) as [->|Hne]; [lia|].
  specialize (IH ltac:(lia) ltac:(lia)). lia.
Qed.

Lemma cum_nonneg j :
  (forall m, 0 <= m < size -> 1 <= weight list size m) ->
  Z.of_nat j <= size -> 0 <= cum list size j.
Proof.
  intros Hw. induction j as [|j IH]; intros Hj; [reflexivity|].
  rewrite cum_S. pose proof (Hw (Z.of_nat j) ltac:(lia)). specialize (IH ltac:(lia)). lia.
Qed.

(** With the cumulated weights less one as [last_idx] fields, a roll
    below the total finds an entry of the list, the one whose block of
    rolls it lies in. *)
Lemma rolls_index list' roll :
  0 <= size < 2 ^ 30 ->
  (forall m, 0 <= m < size -> 1 <= weight list size m) ->
  (forall m, (Z.of_nat m < size) ->
     last_idx (entry list' (Z.of_nat m)) = cum list size (S m) - 1) ->
  0 <= roll < cum list size (Z.to_nat size) ->
  let j0 := search (Z.to_nat size) list' roll 0 size in
  0 <= j0 < size /\
  forall m, 0 <= m < size -> (m < j0 <-> cum list size (S (Z.to_nat m)) <= roll).
Proof.
  intros Hsize Hw Hidx Hroll. cbv zeta.
  assert (Hinc : idx_increasing list' size).
  { intros a b Ha Hb.
    pose proof (Hidx (Z.to_nat a) ltac:(lia)) as Ea.
    pose proof (Hidx (Z.to_nat b) ltac:(lia)) as Eb.
    rewrite Z2Nat.id in Ea, Eb by lia. rewrite Ea, Eb.
    pose proof (cum_mono (S (Z.to_nat a)) (S (Z.to_nat b)) Hw ltac:(lia) ltac:(lia)). lia. }
  destruct (search_index list' size roll Hsize Hinc (Z.to_nat size) ltac:(lia)) as [H1 H2].
  cbv zeta in H1, H2. set (j0 := search (Z.to_nat size) list' roll 0 size) in *.
  assert (Hlast : forall m, 0 <= m < size ->
            (m < j0 <-> cum list size (S (Z.to_nat m)) <= roll)).
  { intros m Hm. rewrite (H2 m Hm).
    pose proof (Hidx (Z.to_nat m) ltac:(lia)) as E. rewrite Z2Nat.id in E by lia.
    rewrite E. lia. }
  split; [|assumption].
  assert (Hpos : 1 <= size).
  { destruct (Z.eq_dec size 0) as [E0|]; [|lia]. exfalso. rewrite E0 in Hroll.
    change (cum list 0 (Z.to_nat 0)) with 0 in Hroll. lia. }
  destruct (Z.eq_dec j0 size) as [E|]; [|lia]. exfalso.
  pose proof (proj1 (Hlast (size - 1) ltac:(lia)) ltac:(lia)) as Hc.
  replace (S (Z.to_nat (size - 1))) with (Z.to_nat size) in Hc by lia. lia.
Qed.

Lemma rolls_select list' :
  0 <= size < 2 ^ 30 ->
  (forall m, 0 <= m < size -> 1 <= weight list size m) ->
  (forall m, (Z.of_nat m < size) ->
     last_idx (entry list' (Z.of_nat m)) = cum list size (S m) - 1) ->
  forall roll j, 0 <= roll < cum list size (Z.to_nat size) -> 0 <= j < size ->
    (search (Z.to_nat size) list' roll 0 size = j <->
     cum list size (Z.to_nat j) <= roll
     < cum list size (Z.to_nat j) + weight list size j).
Proof.
  intros Hsize Hw Hidx roll j Hroll Hj.
  destruct (rolls_index list' roll Hsize Hw Hidx Hroll) as [Hj0 Hlast].
  cbv zeta in Hj0, Hlast. set (j0 := search (Z.to_nat size) list' roll 0 size) in *.
  pose proof (cum_S (Z.to_nat j)) as Ej. rewrite Z2Nat.id in Ej by lia.
  rewrite <- Ej. split.
  - intros <-. split.
    + destruct (Z.eq_dec j0 0) as [E0|Hne].
      * rewrite E0. change (cum list size (Z.to_nat 0)) with 0. lia.
      * pose proof (proj1 (Hlast (j0 - 1) ltac:(lia)) ltac:(lia)) as Hc.
        replace (S (Z.to_nat (j0 - 1))) with (Z.to_nat j0) in Hc by lia. exact Hc.
    + destruct (Z_lt_le_dec roll (cum list size (S (Z.to_nat j0)))) as [|Hle]; [assumption|].
      pose proof (proj2 (Hlast j0 ltac:(lia)) Hle). lia.
  - intros [Hlo Hhi].
    destruct (Z.lt_trichotomy j0 j) as [Hlt|[Heq|Hgt]]; [|assumption|].
    + exfalso.
      assert (Hc : ~ cum list size (S (Z.to_nat (j - 1))) <= roll).
      { intros Hc. pose proof (proj2 (Hlast (j - 1) ltac:(lia)) Hc). lia. }
      replace (S (Z.to_nat (j - 1))) with (Z.to_nat j) in Hc by lia. lia.
    + exfalso. pose proof (proj1 (Hlast j ltac:(lia)) Hgt). lia.
Qed.

End Weights.

Section Distribute.
Import ListLSH.
Variable list : list Center.

(** The product of the first [n] distances. *)
Lemma product_S n :
  product list (Z.of_nat (S n))
  = product list (Z.of_nat n) * last_idx (entry list (Z.of_nat n)).
Proof.
  unfold product. rewrite !Nat2Z.id, seq_S, fold_left_app. reflexivity.
Qed.

Lemma product_factor n :
  (forall j, 0 <= j < Z.of_nat n -> 1 <= last_idx (entry list j)) ->
  1 <= product list (Z.of_nat n) /\
  forall j, 0 <= j < Z.of_nat n ->
    exists r, 1 <= r /\ product list (Z.of_nat n) = r * last_idx (entry list j).
Proof.
  induction n as [|n IH]; intros Hd.
  - split; [reflexivity|]. intros j Hj. lia.
  - destruct IH as [Hp Hf]; [intros j Hj; apply Hd; lia|].
    rewrite product_S. pose proof (Hd (Z.of_nat n) ltac:(lia)) as Hn.
    split; [nia|]. intros j Hj.
    destruct (Z.eq_dec j (Z.of_nat n)) as [->|Hne].
    + exists (product list (Z.of_nat n)). split; [assumption|reflexivity].
    + destruct (Hf j ltac:(lia)) as (r & Hr & E).
      exists (r * last_idx (entry list (Z.of_nat n))). split; [nia|].
      rewrite E. ring.
Qed.

Lemma weight_exact size j :
  size <> 1 -> 0 <= size ->
  (forall i, 0 <= i < size -> 1 <= last_idx (entry list i)) ->
  0 <= j < size ->
  1 <= weight list size j /\
  weight list size j * last_idx (entry list j) = product list size.
Proof.
  intros Hne Hsz Hd Hj. unfold weight.
  destruct (Z.eqb_spec size 1) as [|_]; [contradiction|].
  destruct (product_factor (Z.to_nat size)) as [_ Hf].
  { intros i Hi. apply Hd. lia. }
  rewrite Z2Nat.id in Hf by lia.
  destruct (Hf j ltac:(lia)) as (r & Hr & E).
  pose proof (Hd j Hj) as Hdj. rewrite E.
  rewrite Z.quot_mul by lia. split; [assumption|reflexivity].
Qed.

(** The second loop, [m] entries done. *)
Lemma accumulate_spec size m :
  (m <= length list)%nat -> size <> 1 ->
  let r := fold_left (accumulate (product list size)) (seq 0 m) (0, list) in
  r.1 = cum list size m /\
  length r.2 = length list /\
  (forall j, (j < m)%nat ->
     r.2 !!! j = {| center := center (list !!! j); last_idx := cum list size (S j) - 1 |}) /\
  (forall j, (m <= j)%nat -> r.2 !!! j = list !!! j).
Proof.
  intros Hm Hne. induction m as [|m IH]; cbv zeta.
  - cbn [seq fold_left fst snd]. split; [reflexivity|]. split; [reflexivity|].
    split; [intros j Hj; lia|reflexivity].
  - rewrite seq_S, fold_left_app. cbn [fold_left Nat.add].
    destruct (IH ltac:(lia)) as (E1 & E2 & E3 & E4). cbv zeta in E1, E2, E3, E4.
    destruct (fold_left (accumulate (product list size)) (seq 0 m) (0, list))
      as [t l] eqn:Ef. cbn [fst snd] in *.
    unfold accumulate. cbn [fst snd]. unfold entry. rewrite !Nat2Z.id.
    rewrite !(E4 m ltac:(lia)).
    assert (Ew : Z.quot (product list size) (last_idx (list !!! m))
                 = weight list size (Z.of_nat m)).
    { unfold weight. destruct (Z.eqb_spec size 1) as [|_]; [contradiction|].
      unfold entry. rewrite Nat2Z.id. reflexivity. }
    rewrite Ew, E1, <- cum_S.
    split; [reflexivity|]. split; [rewrite length_insert; assumption|]. split.
    + intros j Hj. destruct (Nat.eq_dec j m) as [->|Hjm].
      * rewrite list_lookup_total_insert_eq by lia. reflexivity.
      * rewrite list_lookup_total_insert_ne by lia. apply E3. lia.
    + intros j Hj. rewrite list_lookup_total_insert_ne by lia. apply E4. lia.
Qed.

End Distribute.

(** What one pass of [distributeHash] leaves in a list. *)
Lemma distribute_spec (hl : ListLSH.HashList) :
  let list := ListLSH.centers hl in
  let size := ListLSH.len hl in
  let hl' := ListLSH.distribute hl in
  1 <= size -> Z.of_nat (length list) = size ->
  ListLSH.len hl' = size /\
  length (ListLSH.centers hl') = length list /\
  ListLSH.total hl' = cum list size (Z.to_nat size) /\
  forall m, (Z.of_nat m < size) ->
    ListLSH.centers hl' !!! m
    = {| ListLSH.center := ListLSH.center (list !!! m);
         ListLSH.last_idx := cum list size (S m) - 1 |}.
Proof.
  intros list size hl' Hsize Hlen.
  unfold hl', ListLSH.distribute. fold size list.
  destruct (Z.eqb_spec size 1) as [E|Hne].
  - cbn [ListLSH.len ListLSH.total ListLSH.centers].
    split; [reflexivity|]. split; [apply length_insert|]. split.
    + rewrite E. unfold cum, weight. cbn. reflexivity.
    + intros m Hm. assert (m = 0%nat) as -> by lia.
      rewrite list_lookup_total_insert_eq by lia.
      unfold ListLSH.entry. cbn [Z.to_nat]. f_equal.
      rewrite cum_S. unfold cum at 1, weight. rewrite E. reflexivity.
  - destruct (accumulate_spec list size (Z.to_nat size) ltac:(lia) Hne)
      as (E1 & E2 & E3 & _). cbv zeta in E1, E2, E3.
    destruct (fold_left (ListLSH.accumulate (ListLSH.product list size))
                (seq 0 (Z.to_nat size)) (0, list)) as [t l].
    cbn [fst snd ListLSH.len ListLSH.total ListLSH.centers] in *.
    split; [reflexivity|]. split; [assumption|]. split; [assumption|].
    intros m Hm. apply E3. lia.
Qed.

Lemma weights_positive (hl : ListLSH.HashList) :
  let list := ListLSH.centers hl in
  let size := ListLSH.len hl in
  0 <= size ->
  (size <> 1 ->
   forall j, 0 <= j < size -> 1 <= ListLSH.last_idx (ListLSH.entry list j)) ->
  forall m, 0 <= m < size -> 1 <= weight list size m.
Proof.
  intros list size Hsize Hpre m Hm. destruct (Z.eq_dec size 1) as [E|Hne].
  - unfold weight. rewrite E. reflexivity.
  - apply (weight_exact list size m Hne Hsize (Hpre Hne) Hm).
Qed.

(** The loop over the k-mers treats each list on its own. *)
Lemma distributeHash_lookup (h : list ListLSH.HashList) (n : nat) : forall i,
  (n <= length h)%nat ->
  fold_left (fun h i => <[i := ListLSH.distribute (h !!! i)]> h) (seq 0 n) h !!! i
  = if (i <? n)%nat then ListLSH.distribute (h !!! i) else h !!! i.
Proof.
  induction n as [|n IH]; intros i Hn; [reflexivity|].
  rewrite seq_S, fold_left_app. cbn [fold_left Nat.add].
  set (h1 := fold_left _ (seq 0 n) h) in *.
  assert (Hl : length h1 = length h).
  { unfold h1. clear. generalize (seq 0 n). intros l. revert h.
    induction l as [|a l IHl]; intros h; [reflexivity|].
    cbn [fold_left]. rewrite IHl. apply length_insert. }
  destruct (Nat.eq_dec i n) as [->|Hne].
  - rewrite list_lookup_total_insert_eq by lia.
    rewrite (IH n ltac:(lia)). destruct (Nat.ltb_spec n n); [lia|].
    destruct (Nat.ltb_spec n (S n)); [reflexivity|lia].
  - rewrite list_lookup_total_insert_ne by congruence.
    rewrite (IH i ltac:(lia)).
    destruct (Nat.ltb_spec i n); destruct (Nat.ltb_spec i (S n)); try lia; reflexivity.
Qed.

(** [distributeHash] on one list of [size] entries still holding their
    distances, and [binarySearch] on the result.  The centers stay; the
    total is the sum of the weights, one for the single entry of a center
    and else the product of the distances divided by the distance of the
    entry (an exact division); and a roll below the total selects entry
    [j] exactly when it lies among the [weight j] values following the
    weights of the entries before [j].  So an entry is drawn with a
    probability proportional to the reciprocal of its distance.  The loop
    over the k-mers leaves this result at every index below [n]. *)
Theorem distribute_rolls (hl : ListLSH.HashList) :
  let list := ListLSH.centers hl in
  let size := ListLSH.len hl in
  let hl' := ListLSH.distribute hl in
  1 <= size < 2 ^ 30 -> Z.of_nat (length list) = size ->
  (size <> 1 ->
   (forall j, 0 <= j < size -> 1 <= ListLSH.last_idx (ListLSH.entry list j)) /\
   size * ListLSH.product list size < 2 ^ 31) ->
  ListLSH.len hl' = size /\
  length (ListLSH.centers hl') = length list /\
  (forall j, 0 <= j < size ->
     ListLSH.center (ListLSH.entry (ListLSH.centers hl') j)
     = ListLSH.center (ListLSH.entry list j)) /\
  (size <> 1 -> forall j, 0 <= j < size ->
     weight list size j * ListLSH.last_idx (ListLSH.entry list j)
     = ListLSH.product list size) /\
  ListLSH.total hl' = cum list size (Z.to_nat size) /\
  (forall roll j, 0 <= roll < ListLSH.total hl' -> 0 <= j < size ->
     (ListLSH.search (Z.to_nat size) (ListLSH.centers hl') roll 0 size = j <->
      cum list size (Z.to_nat j) <= roll
      < cum list size (Z.to_nat j) + weight list size j)) /\
  (forall h n i, 0 <= i < n -> n <= Z.of_nat (length h) -> h !!! Z.to_nat i = hl ->
     ListLSH.distributeHash h n !!! Z.to_nat i = hl').
Proof.
  intros list size hl' Hsize Hlen Hpre.
  assert (Hw : forall m, 0 <= m < size -> 1 <= weight list size m).
  { apply (weights_positive hl); [lia|]. intros Hne. apply (Hpre Hne). }
  pose proof (distribute_spec hl ltac:(fold size; lia) Hlen) as Hspec.
  cbv zeta in Hspec. fold list size hl' in Hspec.
  destruct Hspec as (S1 & S2 & S3 & S4).
  split; [assumption|]. split; [assumption|]. split.
  { intros j Hj. unfold ListLSH.entry. rewrite (S4 (Z.to_nat j) ltac:(lia)). reflexivity. }
  split.
  { intros Hne j Hj. destruct (Hpre Hne) as [Hd _].
    apply (weight_exact list size j Hne ltac:(lia) Hd Hj). }
  split; [assumption|]. split.
  - intros roll j Hroll Hj. rewrite S3 in Hroll.
    apply (rolls_select list size (ListLSH.centers hl') ltac:(lia) Hw); try assumption.
    intros m Hm. unfold ListLSH.entry. rewrite Nat2Z.id, (S4 m Hm). reflexivity.
  - intros h n i Hi Hn Eh. unfold ListLSH.distributeHash.
    rewrite (distributeHash_lookup h (Z.to_nat n) (Z.to_nat i) ltac:(lia)).
    destruct (Nat.ltb_spec (Z.to_nat i) (Z.to_nat n)); [|lia].
    rewrite Eh. reflexivity.
Qed.

Lemma distribute_rolls_witness :
  ListLSH.search (Z.to_nat 3)
    (ListLSH.centers (ListLSH.distribute
       {| ListLSH.len := 3; ListLSH.total := 0;
          ListLSH.centers :=
            [ {| ListLSH.center := 7; ListLSH.last_idx := 1 |};
              {| ListLSH.center := 4; ListLSH.last_idx := 2 |};
              {| ListLSH.center := 9; ListLSH.last_idx := 3 |} ] |})) 7 0 3 = 1 <->
  cum [ {| ListLSH.center := 7; ListLSH.last_idx := 1 |};
          {| ListLSH.center := 4; ListLSH.last_idx := 2 |};
          {| ListLSH.center := 9; ListLSH.last_idx := 3 |} ] 3 (Z.to_nat 1) <= 7
  < cum [ {| ListLSH.center := 7; ListLSH.last_idx := 1 |};
          {| ListLSH.center := 4; ListLSH.last_idx := 2 |};
          {| ListLSH.center := 9; ListLSH.last_idx := 3 |} ] 3 (Z.to_nat 1)
    + weight [ {| ListLSH.center := 7; ListLSH.last_idx := 1 |};
          {| ListLSH.center := 4; ListLSH.last_idx := 2 |};
          {| ListLSH.center := 9; ListLSH.last_idx := 3 |} ] 3 1.
Proof.
  refine (proj1 (proj2 (proj2 (proj2 (proj2 (proj2
    (distribute_rolls
       {| ListLSH.len := 3; ListLSH.total := 0;
          ListLSH.centers :=
            [ {| ListLSH.center := 7; ListLSH.last_idx := 1 |};
              {| ListLSH.center := 4; ListLSH.last_idx := 2 |};
              {| ListLSH.center := 9; ListLSH.last_idx := 3 |} ] |} _ _ _)))))) 7 1 _ _).
  - cbn. lia.
  - reflexivity.
  - intros _. split; [|vm_compute; reflexivity].
    intros j Hj. cbn in Hj.
    assert (j = 0 \/ j = 1 \/ j = 2) as [->|[->| ->]] by lia; vm_compute; discriminate.
  - vm_compute. split; [discriminate|reflexivity].
  - cbn. lia.
Defined.

(** ** Banded signatures *)

Section Bands.
Import ListLSH.
Variables (sig_s sig_t : list Z) (len b num_bands : Z).

Lemma band_equal_spec i :
  band_equal sig_s sig_t i b = true <->
  forall j, 0 <= j < b -> sig_s !!! Z.to_nat (i + j) = sig_t !!! Z.to_nat (i + j).
Proof.
  unfold band_equal. rewrite forallb_forall. split.
  - intros H j Hj. specialize (H (Z.to_nat j)).
    rewrite Z2Nat.id in H by lia. apply Z.eqb_eq. apply H. apply in_seq. lia.
  - intros H j Hj. apply in_seq in Hj. apply Z.eqb_eq. apply H. lia.
Qed.

Hypothesis Hb : 1 <= b.
Hypothesis Hlen : len = num_bands * b.

Lemma bands_spec n : forall m0 found,
  0 <= m0 <= num_bands -> num_bands - m0 <= Z.of_nat n ->
  let r := bands n sig_s sig_t len b (m0 * b) found in
  (r = 1 /\ exists m, m0 <= m < num_bands /\
                      forall j, 0 <= j < b ->
                        sig_s !!! Z.to_nat (m * b + j) = sig_t !!! Z.to_nat (m * b + j)) \/
  (r = (if m0 <? num_bands then 0 else found) /\
   forall m, m0 <= m < num_bands ->
     ~ forall j, 0 <= j < b ->
         sig_s !!! Z.to_nat (m * b + j) = sig_t !!! Z.to_nat (m * b + j)).
Proof.
  induction n as [|n IH]; intros m0 found Hm Hn; cbv zeta.
  - right. cbn [bands]. destruct (Z.ltb_spec m0 num_bands); [lia|].
    split; [reflexivity|]. intros m Hm'. lia.
  - cbn [bands]. destruct (Z.ltb_spec (m0 * b) len) as [Hlt|Hge].
    + assert (Hm0 : m0 < num_bands) by nia.
      destruct (Z.ltb_spec m0 num_bands) as [_|]; [|lia].
      destruct (band_equal sig_s sig_t (m0 * b) b) eqn:Eb.
      * left. split; [reflexivity|]. exists m0. split; [lia|].
        apply band_equal_spec. assumption.
      * replace (m0 * b + b) with ((m0 + 1) * b) by ring.
        destruct (IH (m0 + 1) 0 ltac:(lia) ltac:(lia)) as [[E (m & Hm' & Hmatch)]|[E Hno]].
        -- left. split; [assumption|]. exists m. split; [lia|assumption].
        -- right. split.
           ++ rewrite E. destruct (m0 + 1 <? num_bands); reflexivity.
           ++ intros m Hm'. destruct (Z.eq_dec m m0) as [->|Hne].
              ** intros Hall. apply band_equal_spec in Hall. congruence.
              ** apply Hno. lia.
    + assert (m0 = num_bands) by nia. subst m0.
      destruct (Z.ltb_spec num_bands num_bands); [lia|].
      right. split; [reflexivity|]. intros m Hm'. lia.
Qed.

End Bands.

(** [hasCollisionSizeT] on signatures of [len] entries.  When [num_bands]
    divides [len], it returns 1 if the two signatures agree on all of
    some band of [len / num_bands] consecutive entries, and 0 if not.
    When the bands come out empty ([num_bands > len > 0]) it returns 1
    whatever the signatures hold; and for [len <= 0] it returns its
    uninitialised local [found]. *)
Theorem bands_collide (found0 : Z) (sig_s sig_t : list Z) (len num_bands : Z) :
  num_bands <> 0 ->
  len <= Z.of_nat (length sig_s) -> len <= Z.of_nat (length sig_t) ->
  let r := ListLSH.hasCollisionSizeT found0 sig_s sig_t len num_bands in
  let b := Z.quot len num_bands in
  (len <= 0 -> r = found0) /\
  (0 < len -> b <= 0 -> r = 1) /\
  (0 < len -> 1 <= b -> len = num_bands * b ->
     (r = 0 \/ r = 1) /\
     (r = 1 <->
      exists m, 0 <= m < num_bands /\
        forall j, 0 <= j < b ->
          sig_s !!! Z.to_nat (m * b + j) = sig_t !!! Z.to_nat (m * b + j))).
Proof.
  intros Hnz _ _. cbv zeta. unfold ListLSH.hasCollisionSizeT. cbv zeta.
  set (b := Z.quot len num_bands). split; [|split].
  - intros Hle. replace (Z.to_nat len) with 0%nat by lia. reflexivity.
  - intros Hpos Hb. destruct (Z.to_nat len) as [|n] eqn:En; [lia|].
    cbn [ListLSH.bands]. destruct (Z.ltb_spec 0 len); [|lia].
    assert (ListLSH.band_equal sig_s sig_t 0 b = true) as ->; [|reflexivity].
    unfold ListLSH.band_equal. replace (Z.to_nat b) with 0%nat by lia. reflexivity.
  - intros Hpos Hb Hdiv.
    assert (Hnb : 0 < num_bands) by nia.
    destruct (bands_spec sig_s sig_t len b num_bands Hb Hdiv (Z.to_nat len) 0 found0
                ltac:(lia) ltac:(nia)) as [[E Hex]|[E Hno]];
      cbv zeta in E; change (0 * b) with 0 in E.
    + split; [right; assumption|]. split; [intros _|intros _; assumption].
      destruct Hex as (m & Hm & Hmatch). exists m. split; [lia|assumption].
    + destruct (Z.ltb_spec 0 num_bands); [|lia].
      split; [left; assumption|]. rewrite E. split; [discriminate|].
      intros (m & Hm & Hmatch). exfalso. apply (Hno m ltac:(lia)). assumption.
Qed.

Lemma bands_collide_witness :
  ListLSH.hasCollisionSizeT 0 [3; 1; 4; 1] [2; 7; 4; 1] 4 2 = 1 <->
  exists m, 0 <= m < 2 /\
    forall j, 0 <= j < Z.quot 4 2 ->
      [3; 1; 4; 1] !!! Z.to_nat (m * Z.quot 4 2 + j)
      = [2; 7; 4; 1] !!! Z.to_nat (m * Z.quot 4 2 + j).
Proof.
  assert (H1 : 2 <> 0) by discriminate.
  assert (H2 : 4 <= Z.of_nat (length [3; 1; 4; 1])) by (cbn; lia).
  assert (H3 : 4 <= Z.of_nat (length [2; 7; 4; 1])) by (cbn; lia).
  assert (H4 : 0 < 4) by lia.
  assert (H5 : 1 <= Z.quot 4 2) by (vm_compute; discriminate).
  assert (H6 : 4 = 2 * Z.quot 4 2) by reflexivity.
  exact (proj2 (proj2 (proj2 (bands_collide 0 [3; 1; 4; 1] [2; 7; 4; 1] 4 2 H1 H2 H3))
                 H4 H5 H6)).
Defined.

(** ** Shared centers and the signatures built from them *)

Section ShareCenter.
Import ListLSH.
Variable h : list HashList.

Lemma shareCenter_spec s t :
  (shareCenter s t h = 1 /\ common_center (h !!! Z.to_nat s) (h !!! Z.to_nat t)) \/
  (shareCenter s t h = 0 /\ ~ common_center (h !!! Z.to_nat s) (h !!! Z.to_nat t)).
Proof.
  unfold shareCenter. cbv zeta.
  set (hs := h !!! Z.to_nat s). set (ht := h !!! Z.to_nat t).
  destruct (existsb _ _) eqn:E.
  - left. split; [reflexivity|].
    apply existsb_exists in E. destruct E as (i & Hi & E).
    apply existsb_exists in E. destruct E as (j & Hj & E).
    apply in_seq in Hi. apply in_seq in Hj. apply Z.eqb_eq in E.
    exists (Z.of_nat i), (Z.of_nat j). split; [lia|]. split; [lia|assumption].
  - right. split; [reflexivity|]. intros (i & j & Hi & Hj & Hc).
    apply Bool.not_true_iff_false in E. apply E.
    apply existsb_exists. exists (Z.to_nat i). split; [apply in_seq; lia|].
    apply existsb_exists. exists (Z.to_nat j). split; [apply in_seq; lia|].
    rewrite !Z2Nat.id by lia. apply Z.eqb_eq. assumption.
Qed.

Lemma common_center_sym hs ht : common_center hs ht -> common_center ht hs.
Proof.
  intros (i & j & Hi & Hj & E). exists j, i. split; [assumption|].
  split; [assumption|]. symmetry. assumption.
Qed.

End ShareCenter.

(** [shareCenter(s, t, h)] returns 1 when some center of the list of [s]
    is also in the list of [t], and 0 otherwise; so it is symmetric in
    [s] and [t], and a k-mer with a non-empty list shares a center with
    itself. *)
Theorem shareCenter_common (s t : Z) (h : list ListLSH.HashList) :
  0 <= s < Z.of_nat (length h) -> 0 <= t < Z.of_nat (length h) ->
  let hs := h !!! Z.to_nat s in
  let ht := h !!! Z.to_nat t in
  ListLSH.len hs <= Z.of_nat (length (ListLSH.centers hs)) ->
  ListLSH.len ht <= Z.of_nat (length (ListLSH.centers ht)) ->
  (ListLSH.shareCenter s t h = 0 \/ ListLSH.shareCenter s t h = 1) /\
  (ListLSH.shareCenter s t h = 1 <-> common_center hs ht) /\
  ListLSH.shareCenter s t h = ListLSH.shareCenter t s h /\
  (1 <= ListLSH.len hs -> ListLSH.shareCenter s s h = 1).
Proof.
  intros _ _ hs ht _ _.
  destruct (shareCenter_spec h s t) as [[E Hc]|[E Hc]]; fold hs ht in Hc.
  - split; [right; assumption|]. split; [tauto|]. split.
    + destruct (shareCenter_spec h t s) as [[E' _]|[_ Hc']]; [congruence|].
      exfalso. apply Hc'. apply common_center_sym. assumption.
    + intros Hl. destruct (shareCenter_spec h s s) as [[E' _]|[_ Hc']]; [assumption|].
      exfalso. apply Hc'. exists 0, 0. fold hs. split; [lia|]. split; [lia|reflexivity].
  - split; [left; assumption|]. split.
    + rewrite E. split; [discriminate|contradiction].
    + split.
      * destruct (shareCenter_spec h t s) as [[_ Hc']|[E' _]]; [|congruence].
        exfalso. apply Hc. apply common_center_sym. assumption.
      * intros Hl. destruct (shareCenter_spec h s s) as [[E' _]|[_ Hc']]; [assumption|].
        exfalso. apply Hc'. exists 0, 0. fold hs. split; [lia|]. split; [lia|reflexivity].
Qed.

Lemma shareCenter_common_witness :
  ListLSH.shareCenter 0 1
    [ {| ListLSH.len := 2; ListLSH.total := 0;
         ListLSH.centers := [ {| ListLSH.center := 7; ListLSH.last_idx := 1 |};
                              {| ListLSH.center := 4; ListLSH.last_idx := 2 |} ] |};
      {| ListLSH.len := 1; ListLSH.total := 0;
         ListLSH.centers := [ {| ListLSH.center := 4; ListLSH.last_idx := 0 |} ] |} ]
  = ListLSH.shareCenter 1 0
    [ {| ListLSH.len := 2; ListLSH.total := 0;
         ListLSH.centers := [ {| ListLSH.center := 7; ListLSH.last_idx := 1 |};
                              {| ListLSH.center := 4; ListLSH.last_idx := 2 |} ] |};
      {| ListLSH.len := 1; ListLSH.total := 0;
         ListLSH.centers := [ {| ListLSH.center := 4; ListLSH.last_idx := 0 |} ] |} ].
Proof.
  refine (proj1 (proj2 (proj2 (shareCenter_common 0 1 _ _ _ _ _)))).
  - vm_compute. split; [discriminate|reflexivity].
  - vm_compute. split; [discriminate|reflexivity].
  - vm_compute. discriminate.
  - vm_compute. discriminate.
Defined.

Section Signatures.
Import ListLSH.
Variables (s : Z) (h : list HashList) (len : Z).

Lemma hits_from_filter rand shots : forall pre post,
  rand = pre ++ shots ++ post ->
  hits_from s h shots (length pre)
  = List.filter (fun i => negb (shareCenter s (rand !!! i) h =? 0))
                (seq (length pre) (length shots)).
Proof.
  induction shots as [|shot shots IH]; intros pre post E; [reflexivity|].
  cbn [hits_from length seq List.filter].
  assert (Hs : rand !!! length pre = shot).
  { rewrite E. apply list_lookup_total_middle. reflexivity. }
  rewrite Hs.
  assert (IH' : hits_from s h shots (S (length pre))
                = List.filter (fun i => negb (shareCenter s (rand !!! i) h =? 0))
                    (seq (S (length pre)) (length shots))).
  { specialize (IH (pre ++ [shot]) post). rewrite length_app in IH. cbn [length] in IH.
    replace (length pre + 1)%nat with (S (length pre)) in IH by lia.
    apply IH. rewrite E, <- app_assoc. reflexivity. }
  rewrite IH'. reflexivity.
Qed.

(** The first loop of [calcSig2] writes the hits one after the other
    from [sig_s[j]] on, until the array is full. *)
Lemma shots_loop_spec shots : forall i pre rest,
  rest <> [] -> Z.of_nat (length (pre ++ rest)) = len ->
  let W := firstn (length rest) (hits_from s h shots i) in
  shots_loop shots (Z.of_nat i) s h len (pre ++ rest) (Z.of_nat (length pre))
  = (pre ++ map Z.of_nat W ++ skipn (length W) rest,
     Z.of_nat (length pre + length W)).
Proof.
  induction shots as [|shot shots IH]; intros i pre rest Hne Hlen; cbv zeta.
  - cbn [shots_loop hits_from]. rewrite firstn_nil. cbn [map length app skipn].
    rewrite Nat.add_0_r. reflexivity.
  - cbn [shots_loop hits_from].
    destruct (negb (shareCenter s shot h =? 0)) eqn:Eshare.
    + destruct rest as [|x rest]; [contradiction|].
      cbn [length firstn map app skipn].
      rewrite Nat2Z.id.
      assert (Hins : <[length pre := Z.of_nat i]> (pre ++ x :: rest)
                     = (pre ++ [Z.of_nat i]) ++ rest).
      { rewrite insert_app_r_alt by lia. rewrite Nat.sub_diag. cbn.
        rewrite <- app_assoc. reflexivity. }
      rewrite Hins. rewrite length_app in Hlen. cbn [length] in Hlen.
      destruct (Z.geb_spec (Z.of_nat (length pre) + 1) len) as [Hfull|Hroom].
      * assert (rest = []) as -> by (destruct rest; [reflexivity|cbn in Hlen; lia]).
        cbn [length]. rewrite firstn_O. cbn [length map app skipn]. rewrite app_nil_r.
        f_equal. lia.
      * assert (Hne' : rest <> []) by (intros ->; cbn in Hlen; lia).
        specialize (IH (S i) (pre ++ [Z.of_nat i]) rest Hne').
        rewrite !length_app in IH. cbn [length] in IH. cbv zeta in IH.
        replace (Z.of_nat (S i)) with (Z.of_nat i + 1) in IH by lia.
        replace (Z.of_nat (length pre + 1)) with (Z.of_nat (length pre) + 1) in IH by lia.
        rewrite IH by lia. rewrite <- app_assoc. cbn [app]. f_equal. lia.
    + specialize (IH (S i) pre rest Hne Hlen). cbv zeta in IH.
      replace (Z.of_nat (S i)) with (Z.of_nat i + 1) in IH by lia.
      exact IH.
Qed.

Lemma pad_spec rest : forall pre,
  fold_left (fun sig j' => <[j' := -1]> sig) (seq (length pre) (length rest)) (pre ++ rest)
  = pre ++ replicate (length rest) (-1).
Proof.
  induction rest as [|x rest IH]; intros pre; [reflexivity|].
  cbn [length seq fold_left replicate].
  rewrite insert_app_r_alt by lia. rewrite Nat.sub_diag. cbn [insert list_insert].
  specialize (IH (pre ++ [-1])). rewrite length_app in IH. cbn [length] in IH.
  replace (length pre + 1)%nat with (S (length pre)) in IH by lia.
  rewrite <- app_assoc in IH. cbn [app] in IH. rewrite IH, <- app_assoc. reflexivity.
Qed.

End Signatures.

(** [calcSig2] fills [sig_s] with the indices of the random shots that
    share a center with [s], in increasing order and [len] of them at
    most, and pads it with -1. *)
Theorem calcSig2_hits (s : Z) (sig_s : list Z) (len : Z) (h : list ListLSH.HashList)
    (rand_shots : list Z) (num_shots : Z) :
  1 <= len -> Z.of_nat (length sig_s) = len ->
  0 <= num_shots <= Z.of_nat (length rand_shots) ->
  let H := hits s h rand_shots num_shots in
  ListLSH.calcSig2 s sig_s len h rand_shots num_shots
  = map Z.of_nat (firstn (Z.to_nat len) H)
    ++ replicate (Z.to_nat len - length H) (-1).
Proof.
  intros Hlen Hsig Hn. cbv zeta. unfold ListLSH.calcSig2.
  assert (Hne : sig_s <> []) by (intros ->; cbn in Hsig; lia).
  pose proof (shots_loop_spec s h len (firstn (Z.to_nat num_shots) rand_shots)
                0 [] sig_s Hne Hsig) as Hloop.
  cbv zeta in Hloop. cbn [app length Nat.add] in Hloop.
  change (Z.of_nat 0) with 0 in Hloop.
  rewrite Hloop. clear Hloop.
  assert (Hh : hits_from s h (firstn (Z.to_nat num_shots) rand_shots) 0
               = hits s h rand_shots num_shots).
  { change 0%nat with (length (@nil Z)) at 1.
    rewrite (hits_from_filter s h rand_shots (firstn (Z.to_nat num_shots) rand_shots)
               [] (skipn (Z.to_nat num_shots) rand_shots)).
    - cbn [length]. rewrite length_take. unfold hits.
      replace (Z.to_nat num_shots `min` length rand_shots)%nat
        with (Z.to_nat num_shots) by lia.
      reflexivity.
    - cbn [app]. symmetry. apply firstn_skipn. }
  rewrite Hh. set (H := hits s h rand_shots num_shots).
  replace (length sig_s) with (Z.to_nat len) by lia.
  set (W := firstn (Z.to_nat len) H).
  rewrite Nat2Z.id.
  assert (HW : (length W <= Z.to_nat len)%nat).
  { unfold W. rewrite length_take. lia. }
  assert (Hrest : length (skipn (length W) sig_s) = (Z.to_nat len - length W)%nat).
  { rewrite length_skipn. lia. }
  rewrite <- Hrest.
  pose proof (pad_spec (skipn (length W) sig_s) (map Z.of_nat W)) as Hpad.
  rewrite length_map in Hpad. rewrite Hpad. f_equal. f_equal.
  rewrite Hrest. unfold W. rewrite length_take. lia.
Qed.

Lemma calcSig2_hits_witness :
  ListLSH.calcSig2 0 [5; 5; 5] 3
    [ {| ListLSH.len := 1; ListLSH.total := 0;
         ListLSH.centers := [ {| ListLSH.center := 4; ListLSH.last_idx := 0 |} ] |};
      {| ListLSH.len := 1; ListLSH.total := 0;
         ListLSH.centers := [ {| ListLSH.center := 7; ListLSH.last_idx := 0 |} ] |} ]
    [1; 0; 0; 1] 4
  = [1; 2; -1].
Proof.
  assert (H1 : 1 <= 3) by lia.
  assert (H2 : Z.of_nat (length [5; 5; 5]) = 3) by reflexivity.
  assert (H3 : 0 <= 4 <= Z.of_nat (length [1; 0; 0; 1])) by (cbn; lia).
  rewrite (calcSig2_hits 0 [5; 5; 5] 3 _ [1; 0; 0; 1] 4 H1 H2 H3).
  vm_compute. reflexivity.
Defined.

(** ** Collisions of two signatures *)

Section CollisionInt.
Import ListLSH.

Lemma scan_t_spec sig_t len x l : forall pre post n,
  sig_t = pre ++ l ++ post -> len = Z.of_nat (length pre + length l) ->
  (length l <= n)%nat ->
  scan_t n sig_t len x (Z.of_nat (length pre)) = existsb (Z.eqb x) (nn_prefix l).
Proof.
  induction l as [|y l IH]; intros pre post n E Hlen Hn.
  - cbn [length] in Hlen. destruct n as [|n]; [reflexivity|]. cbn [scan_t nn_prefix existsb].
    destruct (Z.ltb_spec (Z.of_nat (length pre)) len); [lia|]. reflexivity.
  - destruct n as [|n]; [cbn in Hn; lia|]. cbn [scan_t nn_prefix length] in *.
    destruct (Z.ltb_spec (Z.of_nat (length pre)) len); [|lia].
    rewrite Nat2Z.id.
    assert (Hy : sig_t !!! length pre = y).
    { rewrite E. apply list_lookup_total_middle. reflexivity. }
    rewrite Hy. cbn [andb]. destruct (y >=? 0); [|reflexivity].
    cbn [existsb]. destruct (x =? y); [reflexivity|]. cbn [orb].
    specialize (IH (pre ++ [y]) post n). rewrite length_app in IH. cbn [length] in IH.
    replace (Z.of_nat (length pre) + 1) with (Z.of_nat (length pre + 1)) by lia.
    apply IH; [rewrite E, <- app_assoc; reflexivity|lia|lia].
Qed.

Lemma scan_s_spec sig_s sig_t len l : forall pre post n,
  sig_s = pre ++ l ++ post -> len = Z.of_nat (length pre + length l) ->
  (length l <= n)%nat -> len <= Z.of_nat (length sig_t) ->
  scan_s n sig_s sig_t len (Z.of_nat (length pre))
  = if existsb (fun x => existsb (Z.eqb x) (nn_prefix (firstn (Z.to_nat len) sig_t)))
               (nn_prefix l)
    then 1 else 0.
Proof.
  induction l as [|y l IH]; intros pre post n E Hlen Hn Ht.
  - cbn [length] in Hlen. destruct n as [|n]; [reflexivity|]. cbn [scan_s nn_prefix existsb].
    destruct (Z.ltb_spec (Z.of_nat (length pre)) len); [lia|]. reflexivity.
  - destruct n as [|n]; [cbn in Hn; lia|]. cbn [scan_s nn_prefix length] in *.
    destruct (Z.ltb_spec (Z.of_nat (length pre)) len); [|lia].
    rewrite Nat2Z.id.
    assert (Hy : sig_s !!! length pre = y).
    { rewrite E. apply list_lookup_total_middle. reflexivity. }
    rewrite Hy. cbn [andb]. destruct (y >=? 0); [|reflexivity].
    cbn [existsb].
    assert (Hin : scan_t (Z.to_nat len) sig_t len y 0
                  = existsb (Z.eqb y) (nn_prefix (firstn (Z.to_nat len) sig_t))).
    { apply (scan_t_spec sig_t len y (firstn (Z.to_nat len) sig_t) []
               (skipn (Z.to_nat len) sig_t)).
      - cbn [app]. symmetry. apply firstn_skipn.
      - cbn [length]. rewrite length_take. lia.
      - rewrite length_take. lia. }
    rewrite Hin. destruct (existsb (Z.eqb y) _); [reflexivity|]. cbn [orb].
    specialize (IH (pre ++ [y]) post n). rewrite length_app in IH. cbn [length] in IH.
    replace (Z.of_nat (length pre) + 1) with (Z.of_nat (length pre + 1)) by lia.
    apply IH; [rewrite E, <- app_assoc; reflexivity|lia|lia|assumption].
Qed.

Lemma nn_prefix_hits (W : list nat) m :
  nn_prefix (map Z.of_nat W ++ replicate m (-1)) = map Z.of_nat W.
Proof.
  induction W as [|w W IH].
  - destruct m; reflexivity.
  - cbn [map app nn_prefix]. destruct (Z.geb_spec (Z.of_nat w) 0); [|lia].
    rewrite IH. reflexivity.
Qed.

End CollisionInt.

(** [hasCollisionInt] compares the leading entries of the two signatures
    that are not negative: it returns 1 when some value occurs in both
    of these prefixes, and 0 otherwise. *)
Theorem hasCollisionInt_common (sig_s sig_t : list Z) (len : Z) :
  0 <= len -> len <= Z.of_nat (length sig_s) -> len <= Z.of_nat (length sig_t) ->
  let r := ListLSH.hasCollisionInt sig_s sig_t len in
  (r = 0 \/ r = 1) /\
  (r = 1 <-> exists x, In x (nn_prefix (firstn (Z.to_nat len) sig_s)) /\
                       In x (nn_prefix (firstn (Z.to_nat len) sig_t))).
Proof.
  intros Hlen Hs Ht. cbv zeta. unfold ListLSH.hasCollisionInt.
  assert (Hscan : ListLSH.scan_s (Z.to_nat len) sig_s sig_t len 0
            = if existsb (fun x => existsb (Z.eqb x)
                                     (nn_prefix (firstn (Z.to_nat len) sig_t)))
                         (nn_prefix (firstn (Z.to_nat len) sig_s))
              then 1 else 0).
  { apply (scan_s_spec sig_s sig_t len (firstn (Z.to_nat len) sig_s) []
             (skipn (Z.to_nat len) sig_s) (Z.to_nat len)).
    - cbn [app]. symmetry. apply firstn_skipn.
    - cbn [length]. rewrite length_take. lia.
    - rewrite length_take. lia.
    - assumption. }
  rewrite Hscan. destruct (existsb _ _) eqn:E.
  - split; [right; reflexivity|]. split; [intros _|reflexivity].
    apply existsb_exists in E. destruct E as (x & Hx & E).
    apply existsb_exists in E. destruct E as (y & Hy & E).
    apply Z.eqb_eq in E. subst y. exists x. split; assumption.
  - split; [left; reflexivity|]. split; [discriminate|].
    intros (x & Hx & Hy). apply Bool.not_true_iff_false in E. exfalso. apply E.
    apply existsb_exists. exists x. split; [assumption|].
    apply existsb_exists. exists x. split; [assumption|apply Z.eqb_refl].
Qed.

Lemma hasCollisionInt_common_witness :
  ListLSH.hasCollisionInt [1; 2; -1] [0; 2; 3] 3 = 1 <->
  exists x, In x (nn_prefix (firstn (Z.to_nat 3) [1; 2; -1])) /\
            In x (nn_prefix (firstn (Z.to_nat 3) [0; 2; 3])).
Proof.
  assert (H1 : 0 <= 3) by lia.
  assert (H2 : 3 <= Z.of_nat (length [1; 2; -1])) by (cbn; lia).
  assert (H3 : 3 <= Z.of_nat (length [0; 2; 3])) by (cbn; lia).
  exact (proj2 (hasCollisionInt_common [1; 2; -1] [0; 2; 3] 3 H1 H2 H3)).
Defined.

(** The signatures [calcSig2] builds for two k-mers from the same random
    shots collide in [hasCollisionInt] exactly when some shot is among
    the first [len] shots sharing a center with [s] and among the first
    [len] sharing a center with [t]; when neither k-mer has more than
    [len] such shots, exactly when some shot shares a center with both. *)
Theorem signatures_collide (s t : Z) (sig_s sig_t : list Z) (len : Z)
    (h : list ListLSH.HashList) (rand_shots : list Z) (num_shots : Z) :
  1 <= len -> Z.of_nat (length sig_s) = len -> Z.of_nat (length sig_t) = len ->
  0 <= num_shots <= Z.of_nat (length rand_shots) ->
  let r := ListLSH.hasCollisionInt
             (ListLSH.calcSig2 s sig_s len h rand_shots num_shots)
             (ListLSH.calcSig2 t sig_t len h rand_shots num_shots) len in
  let Hs := hits s h rand_shots num_shots in
  let Ht := hits t h rand_shots num_shots in
  (r = 0 \/ r = 1) /\
  (r = 1 <-> exists i, In i (firstn (Z.to_nat len) Hs) /\ In i (firstn (Z.to_nat len) Ht)) /\
  (Z.of_nat (length Hs) <= len -> Z.of_nat (length Ht) <= len ->
   (r = 1 <-> exists i, (Z.of_nat i < num_shots) /\
                ListLSH.shareCenter s (rand_shots !!! i) h <> 0 /\
                ListLSH.shareCenter t (rand_shots !!! i) h <> 0)).
Proof.
  intros Hlen Hss Hst Hn. cbv zeta.
  rewrite (calcSig2_hits s sig_s len h rand_shots num_shots Hlen Hss Hn).
  rewrite (calcSig2_hits t sig_t len h rand_shots num_shots Hlen Hst Hn).
  set (Hs := hits s h rand_shots num_shots). set (Ht := hits t h rand_shots num_shots).
  set (a := map Z.of_nat (firstn (Z.to_nat len) Hs) ++ replicate _ (-1)).
  set (b := map Z.of_nat (firstn (Z.to_nat len) Ht) ++ replicate _ (-1)).
  assert (La : length a = Z.to_nat len).
  { unfold a. rewrite length_app, length_map, length_take, length_replicate. lia. }
  assert (Lb : length b = Z.to_nat len).
  { unfold b. rewrite length_app, length_map, length_take, length_replicate. lia. }
  destruct (hasCollisionInt_common a b len ltac:(lia) ltac:(lia) ltac:(lia)) as [H01 Hiff].
  cbv zeta in H01, Hiff.
  rewrite (firstn_all2 a), (firstn_all2 b) in Hiff by lia.
  unfold a, b in Hiff. rewrite !nn_prefix_hits in Hiff. fold a b in Hiff.
  assert (Hmain : ListLSH.hasCollisionInt a b len = 1 <->
            exists i, In i (firstn (Z.to_nat len) Hs) /\ In i (firstn (Z.to_nat len) Ht)).
  { rewrite Hiff. split.
    - intros (x & Hx & Hy). apply in_map_iff in Hx. destruct Hx as (i & <- & Hi).
      apply in_map_iff in Hy. destruct Hy as (i' & E & Hi').
      apply Nat2Z.inj in E. subst i'. exists i. split; assumption.
    - intros (i & Hi & Hi'). exists (Z.of_nat i). split; apply in_map; assumption. }
  split; [assumption|]. split; [assumption|].
  intros Ls Lt. rewrite Hmain.
  rewrite !firstn_all2 by lia. unfold Hs, Ht, hits. split.
  - intros (i & Hi & Hi'). apply filter_In in Hi. apply filter_In in Hi'.
    destruct Hi as [Hr Hi]. destruct Hi' as [_ Hi']. apply in_seq in Hr.
    exists i. split; [lia|].
    apply negb_true_iff in Hi. apply negb_true_iff in Hi'.
    apply Z.eqb_neq in Hi. apply Z.eqb_neq in Hi'. split; assumption.
  - intros (i & Hi & H1 & H2). exists i.
    split; apply filter_In; (split; [apply in_seq; lia|]);
      apply negb_true_iff; apply Z.eqb_neq; assumption.
Qed.

Lemma signatures_collide_witness :
  ListLSH.hasCollisionInt
    (ListLSH.calcSig2 0 [5; 5] 2
       [ {| ListLSH.len := 1; ListLSH.total := 0;
            ListLSH.centers := [ {| ListLSH.center := 4; ListLSH.last_idx := 0 |} ] |};
         {| ListLSH.len := 1; ListLSH.total := 0;
            ListLSH.centers := [ {| ListLSH.center := 7; ListLSH.last_idx := 0 |} ] |} ]
       [1; 0; 1] 3)
    (ListLSH.calcSig2 1 [5; 5] 2
       [ {| ListLSH.len := 1; ListLSH.total := 0;
            ListLSH.centers := [ {| ListLSH.center := 4; ListLSH.last_idx := 0 |} ] |};
         {| ListLSH.len := 1; ListLSH.total := 0;
            ListLSH.centers := [ {| ListLSH.center := 7; ListLSH.last_idx := 0 |} ] |} ]
       [1; 0; 1] 3) 2 = 0.
Proof.
  assert (H1 : 1 <= 2) by lia.
  assert (H2 : Z.of_nat (length [5; 5]) = 2) by reflexivity.
  assert (H3 : 0 <= 3 <= Z.of_nat (length [1; 0; 1])) by (cbn; lia).
  destruct (signatures_collide 0 1 [5; 5] [5; 5] 2
       [ {| ListLSH.len := 1; ListLSH.total := 0;
            ListLSH.centers := [ {| ListLSH.center := 4; ListLSH.last_idx := 0 |} ] |};
         {| ListLSH.len := 1; ListLSH.total := 0;
            ListLSH.centers := [ {| ListLSH.center := 7; ListLSH.last_idx := 0 |} ] |} ]
       [1; 0; 1] 3 H1 H2 H2 H3) as ([E|E] & Hiff & _); [exact E|].
  exfalso. apply Hiff in E. destruct E as (i & Hi & Hi').
  vm_compute in Hi, Hi'. destruct Hi as [<-|[]]. destruct Hi' as [E|[E|[]]]; discriminate.
Defined.

(** ** Signatures drawn by rolls *)

(** On a list as [distributeHash] leaves it, [calcSig] writes [sig_len]
    values, each the center of an entry of the list of [s]: whatever
    [rand()] returns, the roll is below the total and the binary search
    ends inside the list.  (The call of [distributeHash] at the end of
    [readHashFromFile] is commented out in the source; the list of [s] is
    taken here as that call would leave it.) *)
Theorem calcSig_draws_centers (rand : list Z) (s sig_len : Z)
    (h : list ListLSH.HashList) (hl : ListLSH.HashList) :
  let list := ListLSH.centers hl in
  let size := ListLSH.len hl in
  0 <= s < Z.of_nat (length h) -> h !!! Z.to_nat s = ListLSH.distribute hl ->
  1 <= size < 2 ^ 30 -> Z.of_nat (length list) = size ->
  (size <> 1 ->
   (forall j, 0 <= j < size -> 1 <= ListLSH.last_idx (ListLSH.entry list j)) /\
   size * ListLSH.product list size < 2 ^ 31) ->
  0 <= sig_len <= Z.of_nat (length rand) ->
  Forall (fun r => 0 <= r) rand ->
  length (ListLSH.calcSig rand s sig_len h) = Z.to_nat sig_len /\
  Forall (fun c => exists j, 0 <= j < size /\
                             c = ListLSH.center (ListLSH.entry list j))
         (ListLSH.calcSig rand s sig_len h).
Proof.
  intros list size _ Hs Hsize Hlen Hpre Hsig Hrand.
  unfold ListLSH.calcSig. cbv zeta. rewrite Hs.
  pose proof (distribute_spec hl ltac:(fold size; lia) Hlen) as Hspec.
  cbv zeta in Hspec. fold list size in Hspec.
  destruct Hspec as (S1 & S2 & S3 & S4).
  assert (Hw : forall m, 0 <= m < size -> 1 <= weight list size m).
  { apply (weights_positive hl); [lia|]. intros Hne. apply (Hpre Hne). }
  assert (Htot : 1 <= ListLSH.total (ListLSH.distribute hl)).
  { rewrite S3. pose proof (cum_mono list size 0 (Z.to_nat size) Hw ltac:(lia) ltac:(lia)).
    change (cum list size 0) with 0 in H. lia. }
  split; [rewrite length_map, length_take; lia|].
  apply Forall_map. apply Forall_take. eapply Forall_impl; [exact Hrand|].
  intros r Hr. cbn beta.
  pose proof (Z.rem_bound_pos r (ListLSH.total (ListLSH.distribute hl)) Hr ltac:(lia))
    as Hroll.
  set (roll := Z.rem r (ListLSH.total (ListLSH.distribute hl))) in *.
  unfold ListLSH.binarySearch. rewrite S1.
  destruct (rolls_index list size (ListLSH.centers (ListLSH.distribute hl)) roll
              ltac:(lia) Hw) as [Hj0 _].
  { intros m Hm. unfold ListLSH.entry. rewrite Nat2Z.id, (S4 m Hm). reflexivity. }
  { rewrite <- S3. assumption. }
  cbv zeta in Hj0.
  set (j0 := ListLSH.search (Z.to_nat size) _ roll 0 size) in *.
  exists j0. split; [assumption|].
  unfold ListLSH.entry. rewrite (S4 (Z.to_nat j0) ltac:(lia)). reflexivity.
Qed.

Lemma calcSig_draws_centers_witness :
  Forall (fun c => exists j, 0 <= j < 2 /\
            c = ListLSH.center (ListLSH.entry
                  [ {| ListLSH.center := 7; ListLSH.last_idx := 1 |};
                    {| ListLSH.center := 4; ListLSH.last_idx := 2 |} ] j))
    (ListLSH.calcSig [17; 4; 9] 0 2
       [ ListLSH.distribute
           {| ListLSH.len := 2; ListLSH.total := 0;
       ListLSH.centers := [ {| ListLSH.center := 7; ListLSH.last_idx := 1 |};
                            {| ListLSH.center := 4; ListLSH.last_idx := 2 |} ] |} ]).
Proof.
  refine (proj2 (calcSig_draws_centers [17; 4; 9] 0 2 _
    {| ListLSH.len := 2; ListLSH.total := 0;
       ListLSH.centers := [ {| ListLSH.center := 7; ListLSH.last_idx := 1 |};
                            {| ListLSH.center := 4; ListLSH.last_idx := 2 |} ] |}
    _ _ _ _ _ _ _)).
  - cbn. lia.
  - reflexivity.
  - cbn. lia.
  - reflexivity.
  - intros _. split; [|vm_compute; reflexivity].
    intros j Hj. cbn in Hj. assert (j = 0 \/ j = 1) as [->| ->] by lia;
      vm_compute; discriminate.
  - cbn. lia.
  - repeat constructor; lia.
Defined.

(** ** The bit array *)

Lemma land_bit x n :
  0 <= n -> (Z.land x (Z.shiftl 1 n) =? Z.shiftl 1 n) = Z.testbit x n.
Proof.
  intros Hn. rewrite Z.shiftl_1_l.
  assert (Hpos : 0 < 2 ^ n) by (apply Z.pow_pos_nonneg; lia).
  destruct (Z.testbit x n) eqn:Hb.
  - apply Z.eqb_eq. apply Z.bits_inj'. intros m Hm.
    rewrite Z.land_spec, Z.pow2_bits_eqb by lia.
    destruct (Z.eqb_spec n m) as [->|]; [rewrite Hb; reflexivity|apply andb_false_r].
  - apply Z.eqb_neq. intros E.
    assert (Hz : Z.land x (2 ^ n) = 0).
    { apply Z.bits_inj'. intros m Hm.
      rewrite Z.land_spec, Z.pow2_bits_eqb, Z.bits_0 by lia.
      destruct (Z.eqb_spec n m) as [->|]; [rewrite Hb; reflexivity|apply andb_false_r]. }
    lia.
Qed.

Lemma testbit_load_byte junk byte n :
  0 <= n < 8 ->
  Z.testbit (VisitedArray.load_byte junk byte) n = Z.testbit byte n.
Proof.
  intros Hn. unfold VisitedArray.load_byte.
  rewrite Z.lor_spec, Z.shiftl_spec_low by lia. reflexivity.
Qed.

Lemma store_byte_range temp : 0 <= VisitedArray.store_byte temp < 256.
Proof.
  unfold VisitedArray.store_byte. change 255 with (Z.ones 8).
  rewrite Z.land_ones by lia. apply Z.mod_pos_bound. lia.
Qed.

Lemma testbit_store_byte temp n :
  0 <= n < 8 -> Z.testbit (VisitedArray.store_byte temp) n = Z.testbit temp n.
Proof.
  intros Hn. unfold VisitedArray.store_byte. change 255 with (Z.ones 8).
  rewrite Z.land_ones by lia. apply Z.mod_pow2_bits_low. lia.
Qed.

Section BitArray.
Import VisitedArray.
Variable a : t.
Hypothesis Hwf : va_wf a.

Lemma byte_at_in bytePos :
  0 <= bytePos < sub_size a * num_subs a ->
  exists sub byte,
    aptrs a !! Z.to_nat (bytePos / sub_size a) = Some sub /\
    sub !! Z.to_nat (bytePos mod sub_size a) = Some byte /\
    byte_at a bytePos = Some byte /\ 0 <= byte < 256.
Proof.
  intros Hb. destruct Hwf as (Hss & Hns & Hlen & Hsubs).
  assert (Hi : 0 <= bytePos / sub_size a < num_subs a).
  { split; [apply Z.div_pos; lia|]. apply Z.div_lt_upper_bound; lia. }
  assert (Hj : 0 <= bytePos mod sub_size a < sub_size a) by (apply Z.mod_pos_bound; lia).
  destruct (lookup_lt_is_Some_2 (aptrs a) (Z.to_nat (bytePos / sub_size a)) ltac:(lia))
    as [sub Hsub].
  rewrite Forall_forall in Hsubs.
  destruct (Hsubs sub (list_elem_of_lookup_2 _ _ _ Hsub)) as [Hl Hbytes].
  destruct (lookup_lt_is_Some_2 sub (Z.to_nat (bytePos mod sub_size a)) ltac:(lia))
    as [byte Hbyte].
  exists sub, byte. split; [assumption|]. split; [assumption|]. split.
  - unfold byte_at. rewrite Hsub. assumption.
  - rewrite Forall_forall in Hbytes. apply Hbytes.
    eapply list_elem_of_lookup_2. eassumption.
Qed.

Lemma byte_at_out bytePos :
  0 <= bytePos -> sub_size a * num_subs a <= bytePos -> byte_at a bytePos = None.
Proof.
  intros Hb Hout. destruct Hwf as (Hss & Hns & Hlen & _).
  assert (Hi : num_subs a <= bytePos / sub_size a).
  { apply Z.div_le_lower_bound; lia. }
  unfold byte_at.
  rewrite (proj2 (lookup_ge_None (aptrs a) (Z.to_nat (bytePos / sub_size a)))) by lia.
  reflexivity.
Qed.

Lemma get_bit junk sub :
  in_alloc a sub ->
  exists byte, byte_at a (sub / 8) = Some byte /\ 0 <= byte < 256 /\
               get a junk sub = Some (Z.testbit byte (sub mod 8)).
Proof.
  intros [Hs Hin].
  destruct (byte_at_in (sub / 8)) as (row & byte & _ & _ & Hb & Hr).
  { split; [apply Z.div_pos; lia|assumption]. }
  exists byte. split; [assumption|]. split; [assumption|].
  unfold get. cbv zeta. rewrite Hb.
  pose proof (Z.mod_pos_bound sub 8 ltac:(lia)) as Ho.
  rewrite land_bit by lia. rewrite testbit_load_byte by lia. reflexivity.
Qed.

Lemma get_out junk sub : 0 <= sub -> ~ in_alloc a sub -> get a junk sub = None.
Proof.
  intros Hs Hout. unfold get. cbv zeta.
  rewrite byte_at_out; [reflexivity|apply Z.div_pos; lia|].
  unfold in_alloc in Hout. lia.
Qed.

Lemma setVisit_bytes junk sub :
  in_alloc a sub ->
  exists a' byte,
    setVisit a junk sub = Some a' /\ va_wf a' /\
    sub_size a' = sub_size a /\ num_subs a' = num_subs a /\ size a' = size a /\
    byte_at a (sub / 8) = Some byte /\
    forall bytePos, 0 <= bytePos ->
      byte_at a' bytePos
      = if bytePos =? sub / 8
        then Some (store_byte (Z.lor (load_byte junk byte) (Z.shiftl 1 (sub mod 8))))
        else byte_at a bytePos.
Proof.
  intros [Hs Hin].
  assert (Hbp : 0 <= sub / 8) by (apply Z.div_pos; lia).
  destruct (byte_at_in (sub / 8) ltac:(lia)) as (row & byte & Hrow & Hbyte & Hb & Hr).
  destruct Hwf as (Hss & Hns & Hlen & Hsubs).
  set (i := Z.to_nat (sub / 8 / sub_size a)) in *.
  set (j := Z.to_nat ((sub / 8) mod sub_size a)) in *.
  set (b' := store_byte (Z.lor (load_byte junk byte) (Z.shiftl 1 (sub mod 8)))).
  eexists. exists byte. split.
  { unfold setVisit. cbv zeta. rewrite Hb. reflexivity. }
  fold i j b'. rewrite (list_lookup_total_correct _ _ _ Hrow).
  split; [|split; [reflexivity|split; [reflexivity|split; [reflexivity|split;
    [assumption|]]]]].
  - split; [assumption|]. split; [assumption|].
    cbn [sub_size num_subs aptrs]. split; [rewrite length_insert; assumption|].
    apply Forall_insert; [assumption|].
    rewrite Forall_forall in Hsubs.
    destruct (Hsubs row (list_elem_of_lookup_2 _ _ _ Hrow)) as [Hl Hbytes].
    split; [rewrite length_insert; assumption|].
    apply Forall_insert; [assumption|]. apply store_byte_range.
  - intros bp Hbp'. unfold byte_at at 1. cbn [sub_size aptrs].
    destruct (Z.eqb_spec bp (sub / 8)) as [->|Hne].
    + fold i j. rewrite list_lookup_insert_eq by (eapply lookup_lt_Some; eassumption).
      apply list_lookup_insert_eq. eapply lookup_lt_Some. eassumption.
    + unfold byte_at.
      destruct (Nat.eq_dec (Z.to_nat (bp / sub_size a)) i) as [Ei|Hni].
      * rewrite Ei, list_lookup_insert_eq by (eapply lookup_lt_Some; eassumption).
        rewrite Hrow. apply list_lookup_insert_ne.
        intros Ej. apply Hne.
        pose proof (Z.div_mod bp (sub_size a) ltac:(lia)) as D1.
        pose proof (Z.div_mod (sub / 8) (sub_size a) ltac:(lia)) as D2.
        pose proof (Z.mod_pos_bound bp (sub_size a) ltac:(lia)).
        pose proof (Z.mod_pos_bound (sub / 8) (sub_size a) ltac:(lia)).
        pose proof (Z.div_pos bp (sub_size a) Hbp' ltac:(lia)).
        pose proof (Z.div_pos (sub / 8) (sub_size a) Hbp ltac:(lia)).
        unfold i, j in *.
        assert (bp / sub_size a = sub / 8 / sub_size a) by lia.
        assert (bp mod sub_size a = (sub / 8) mod sub_size a) by lia.
        congruence.
      * rewrite list_lookup_insert_ne by congruence. reflexivity.
Qed.

End BitArray.

(** [setVisit] and [operator[]]: on an element inside the allocation,
    [setVisit] makes the element read as visited and changes the reading
    of no other element, whatever the uninitialised [temp]s hold. *)
Theorem setVisit_then_get (a : VisitedArray.t) (junk junk1 junk2 : Z) (sub : Z) :
  va_wf a -> in_alloc a sub ->
  exists a', VisitedArray.setVisit a junk sub = Some a' /\ va_wf a' /\
    VisitedArray.get a' junk1 sub = Some true /\
    forall sub', 0 <= sub' -> sub' <> sub ->
      VisitedArray.get a' junk1 sub' = VisitedArray.get a junk2 sub'.
Proof.
  intros Hwf Hin.
  destruct (setVisit_bytes a Hwf junk sub Hin)
    as (a' & byte & Hset & Hwf' & Hss & Hns & _ & Hbyte & Hb').
  exists a'. split; [assumption|]. split; [assumption|].
  assert (Hin' : forall x, in_alloc a' x <-> in_alloc a x).
  { intros x. unfold in_alloc. rewrite Hss, Hns. reflexivity. }
  pose proof (Z.mod_pos_bound sub 8 ltac:(lia)) as Ho.
  split.
  - destruct (get_bit a' Hwf' junk1 sub (proj2 (Hin' sub) Hin)) as (b & Hb & _ & Hg).
    rewrite Hg. rewrite (Hb' (sub / 8)) in Hb by (apply Z.div_pos; destruct Hin; lia).
    rewrite Z.eqb_refl in Hb. injection Hb as <-.
    rewrite testbit_store_byte by lia.
    rewrite Z.lor_spec, Z.shiftl_1_l, Z.pow2_bits_true by lia.
    rewrite orb_true_r. reflexivity.
  - intros sub' Hs' Hne.
    destruct (Z_lt_le_dec (sub' / 8) (VisitedArray.sub_size a * VisitedArray.num_subs a))
      as [Hlt|Hge].
    + assert (Hia : in_alloc a sub') by (split; assumption).
      destruct (get_bit a' Hwf' junk1 sub' (proj2 (Hin' sub') Hia)) as (b1 & Hb1 & _ & Hg1).
      destruct (get_bit a Hwf junk2 sub' Hia) as (b2 & Hb2 & _ & Hg2).
      rewrite Hg1, Hg2. f_equal.
      rewrite (Hb' (sub' / 8)) in Hb1 by (apply Z.div_pos; lia).
      pose proof (Z.mod_pos_bound sub' 8 ltac:(lia)) as Ho'.
      destruct (Z.eqb_spec (sub' / 8) (sub / 8)) as [E|_].
      * injection Hb1 as <-. rewrite E, Hbyte in Hb2. injection Hb2 as <-.
        rewrite testbit_store_byte by lia.
        rewrite Z.lor_spec, testbit_load_byte by lia.
        rewrite Z.shiftl_1_l, Z.pow2_bits_eqb by lia.
        destruct (Z.eqb_spec (sub mod 8) (sub' mod 8)) as [Em|_]; [|apply orb_false_r].
        exfalso. apply Hne.
        rewrite (Z.div_mod sub 8), (Z.div_mod sub' 8) by lia. congruence.
      * congruence.
    + rewrite (get_out a Hwf junk2 sub' Hs') by (unfold in_alloc; lia).
      apply (get_out a' Hwf' junk1 sub' Hs'). rewrite Hin'. unfold in_alloc. lia.
Qed.

Lemma setVisit_then_get_witness :
  exists a', VisitedArray.setVisit (VisitedArray.make 64 1) 4660 13 = Some a' /\
    va_wf a' /\
    VisitedArray.get a' 43981 13 = Some true /\
    forall sub', 0 <= sub' -> sub' <> 13 ->
      VisitedArray.get a' 43981 sub' = VisitedArray.get (VisitedArray.make 64 1) 7 sub'.
Proof.
  apply setVisit_then_get.
  - split; [vm_compute; discriminate|]. split; [vm_compute; discriminate|].
    split; [reflexivity|]. vm_compute. repeat constructor; discriminate.
  - split; [lia|]. vm_compute. reflexivity.
Defined.

Lemma make_spec (s ss junk : Z) :
  0 <= s < 2 ^ 64 -> 0 <= ss < 64 ->
  let a := VisitedArray.make s ss in
  va_wf a /\
  (forall sub, in_alloc a sub -> VisitedArray.get a junk sub = Some false) /\
  (forall sub, 0 <= sub -> ~ in_alloc a sub -> VisitedArray.get a junk sub = None) /\
  ((forall sub, 0 <= sub < s -> in_alloc a sub) <->
   (s mod 8 = 0 \/ (s / 8) mod 2 ^ ss <> 0)).
Proof.
  intros Hs Hss a.
  assert (Hsub : VisitedArray.sub_size a = 2 ^ ss).
  { unfold a, VisitedArray.make. cbn [VisitedArray.sub_size]. unfold shl64.
    rewrite Z.shiftl_1_l. apply wrap64_small.
    split; [apply Z.pow_nonneg; lia|apply Z.pow_lt_mono_r; lia]. }
  assert (Hpos : 1 <= 2 ^ ss).
  { pose proof (Z.pow_pos_nonneg 2 ss ltac:(lia) ltac:(lia)). lia. }
  set (B := s / 8).
  assert (HB : 0 <= B) by (apply Z.div_pos; lia).
  assert (Hnum : VisitedArray.num_subs a
                 = if negb (B mod 2 ^ ss =? 0) then B / 2 ^ ss + 1 else B / 2 ^ ss).
  { unfold a, VisitedArray.make. cbn [VisitedArray.num_subs]. fold B.
    unfold shl64. rewrite Z.shiftl_1_l, wrap64_small; [reflexivity|].
    split; [apply Z.pow_nonneg; lia|apply Z.pow_lt_mono_r; lia]. }
  assert (Hq : 0 <= B / 2 ^ ss) by (apply Z.div_pos; lia).
  assert (Hwf : va_wf a).
  { split; [lia|]. split; [rewrite Hnum; destruct (negb _); lia|].
    split; [unfold a, VisitedArray.make; cbn; apply length_replicate|].
    unfold a, VisitedArray.make. cbn [VisitedArray.aptrs VisitedArray.sub_size].
    apply Forall_replicate. split; [apply length_replicate|].
    apply Forall_replicate. lia. }
  split; [assumption|]. split; [|split].
  - intros sub Hin. destruct (get_bit a Hwf junk sub Hin) as (byte & Hb & _ & Hg).
    rewrite Hg. f_equal.
    assert (byte = 0) as ->; [|apply Z.bits_0].
    unfold VisitedArray.byte_at, a, VisitedArray.make in Hb.
    cbn [VisitedArray.aptrs VisitedArray.sub_size] in Hb.
    destruct (replicate _ _ !! _) as [row|] eqn:Hrow; [|discriminate].
    apply lookup_replicate in Hrow. destruct Hrow as [-> _].
    apply lookup_replicate in Hb. destruct Hb as [-> _]. reflexivity.
  - intros sub Hsub0 Hout. apply (get_out a Hwf); assumption.
  - unfold in_alloc. rewrite Hsub, Hnum.
    pose proof (Z.div_mod B (2 ^ ss) ltac:(lia)) as D.
    pose proof (Z.mod_pos_bound B (2 ^ ss) ltac:(lia)) as M.
    pose proof (Z.div_mod s 8 ltac:(lia)) as D8. fold B in D8.
    pose proof (Z.mod_pos_bound s 8 ltac:(lia)) as M8.
    split.
    + intros Hall.
      destruct (Z.eq_dec (s mod 8) 0) as [|H8]; [left; assumption|right].
      intros Hm. destruct (Hall (s - 1) ltac:(lia)) as [_ Hlt].
      assert (Hd : (s - 1) / 8 = B).
      { symmetry. apply (Z.div_unique (s - 1) 8 B (s mod 8 - 1)); lia. }
      rewrite Hd, Hm in Hlt. cbn [Z.eqb negb] in Hlt. lia.
    + intros Hcase sub Hsub'. split; [lia|].
      assert (Hle : sub / 8 <= B) by (apply Z.div_le_mono; lia).
      destruct (Z.eqb_spec (B mod 2 ^ ss) 0) as [Em|Hnm]; cbn [negb].
      * destruct Hcase as [H8|]; [|contradiction].
        assert (sub / 8 < B); [|lia].
        apply Z.div_lt_upper_bound; lia.
      * lia.
Qed.

(** A new array: every element inside the allocation reads as unvisited
    and every other read falls outside it.  The allocation covers all of
    the [s] elements exactly when [s] is a multiple of 8 or [s / 8] is not
    a multiple of the sub-array size: otherwise the last elements, those
    of the byte [s / 8], are outside of it.  So the one-argument
    constructor allocates nothing at all for fewer than 8 elements.  The
    loop that allocates the sub-arrays counts them in an [int]. *)
Theorem new_array_unvisited (s ss junk : Z) :
  0 <= s < 2 ^ 64 -> 0 <= ss < 64 ->
  VisitedArray.num_subs (VisitedArray.make s ss) < 2 ^ 31 ->
  let a := VisitedArray.make s ss in
  va_wf a /\
  (forall sub, in_alloc a sub -> VisitedArray.get a junk sub = Some false) /\
  (forall sub, 0 <= sub -> ~ in_alloc a sub -> VisitedArray.get a junk sub = None) /\
  ((forall sub, 0 <= sub < s -> in_alloc a sub) <->
   (s mod 8 = 0 \/ (s / 8) mod 2 ^ ss <> 0)) /\
  (s < 8 -> forall sub, 0 <= sub ->
     VisitedArray.get (VisitedArray.make_default s) junk sub = None).
Proof.
  intros Hs Hss _ a.
  destruct (make_spec s ss junk Hs Hss) as (H1 & H2 & H3 & H4). fold a in H1, H2, H3, H4.
  split; [assumption|]. split; [assumption|]. split; [assumption|].
  split; [assumption|].
  intros Hsmall sub Hsub. unfold VisitedArray.make_default.
  destruct (make_spec s 20 junk Hs ltac:(lia)) as (_ & _ & H3' & _).
  apply H3'; [assumption|]. intros [_ Hin].
  unfold VisitedArray.make in Hin. cbn [VisitedArray.sub_size VisitedArray.num_subs] in Hin.
  rewrite (Z.div_small s 8) in Hin by lia.
  change (0 mod shl64 1 20) with 0 in Hin. change (0 / shl64 1 20) with 0 in Hin.
  cbn [Z.eqb negb] in Hin.
  pose proof (Z.div_pos sub 8 Hsub ltac:(lia)). lia.
Qed.

Lemma new_array_unvisited_witness :
  VisitedArray.get (VisitedArray.make 12 0) 0 11 = None.
Proof.
  apply (proj1 (proj2 (proj2 (new_array_unvisited 12 0 0 ltac:(lia) ltac:(lia)
                                     ltac:(vm_compute; reflexivity))))).
  - lia.
  - intros [_ H]. vm_compute in H. discriminate.
Defined.

(** ** The oracle on strings *)

Section Reversal.
Context {A : Type} `{EqDecision A}.

(** The cost of an alignment is never below the distance. *)
Lemma al_cost_lev (al : list (@column A)) :
  (lev (al_src al) (al_dst al) <= al_sum col_cost al)%nat.
Proof.
  induction al as [|c al IH]; [reflexivity|].
  rewrite al_src_cons, al_dst_cons, al_sum_cons.
  destruct c as [a b|a|b]; cbn [col_src col_dst col_cost app].
  - rewrite lev_cons. lia.
  - pose proof (lev_cons_l_le a (al_src al) (al_dst al)). lia.
  - pose proof (lev_cons_r_le b (al_src al) (al_dst al)). lia.
Qed.

Lemma al_src_rev (al : list (@column A)) : al_src (rev al) = rev (al_src al).
Proof.
  induction al as [|c al IH]; [reflexivity|].
  cbn [rev]. rewrite al_src_app, IH. rewrite (al_src_cons c al), rev_app_distr.
  f_equal. rewrite (al_src_cons c []). change (al_src (@nil (@column A))) with (@nil A).
  rewrite app_nil_r. destruct c; reflexivity.
Qed.

Lemma al_dst_rev (al : list (@column A)) : al_dst (rev al) = rev (al_dst al).
Proof.
  induction al as [|c al IH]; [reflexivity|].
  cbn [rev]. rewrite al_dst_app, IH. rewrite (al_dst_cons c al), rev_app_distr.
  f_equal. rewrite (al_dst_cons c []). change (al_dst (@nil (@column A))) with (@nil A).
  rewrite app_nil_r. destruct c; reflexivity.
Qed.

Lemma al_sum_rev f (al : list (@column A)) : al_sum f (rev al) = al_sum f al.
Proof.
  induction al as [|c al IH]; [reflexivity|].
  cbn [rev]. rewrite al_sum_app, IH, !al_sum_cons. cbn [al_sum fold_right]. lia.
Qed.

Lemma lev_rev_le (s t : list A) : (lev (rev s) (rev t) <= lev s t)%nat.
Proof.
  destruct (lev_alignment s t) as (al & <- & <- & <-).
  rewrite <- al_src_rev, <- al_dst_rev, <- (al_sum_rev col_cost).
  apply al_cost_lev.
Qed.

(** Reading both words backwards does not change the distance. *)
Lemma lev_rev (s t : list A) : lev (rev s) (rev t) = lev s t.
Proof.
  apply Nat.le_antisymm; [apply lev_rev_le|].
  pose proof (lev_rev_le (rev s) (rev t)) as H0. rewrite !rev_involutive in H0. exact H0.
Qed.

End Reversal.

Lemma rev_take_S (s : list ascii) (i : nat) :
  (i < length s)%nat ->
  rev (firstn (S i) s) = UtilStr.char_at s i :: rev (firstn i s).
Proof.
  intros Hi. destruct (lookup_lt_is_Some_2 s i Hi) as [c Hc].
  rewrite (take_S_r s i c Hc), rev_app_distr. cbn [rev app]. f_equal.
  unfold UtilStr.char_at. symmetry. apply nth_lookup_Some with (d := zero) in Hc.
  exact Hc.
Qed.

Lemma dp3_0_l s1 s2 j : (j <= length s2)%nat -> dp3 s1 s2 0 j = Z.of_nat j.
Proof.
  intros Hj. unfold dp3. rewrite (firstn_O s1). change (rev (@nil ascii)) with (@nil ascii).
  rewrite lev_nil_l, length_rev, length_take. f_equal. lia.
Qed.

Lemma dp3_0_r s1 s2 i : (i <= length s1)%nat -> dp3 s1 s2 i 0 = Z.of_nat i.
Proof.
  intros Hi. unfold dp3. rewrite (firstn_O s2). change (rev (@nil ascii)) with (@nil ascii).
  rewrite lev_nil_r, length_rev, length_take. f_equal. lia.
Qed.

Lemma dp3_sym s1 s2 i j : dp3 s1 s2 i j = dp3 s2 s1 j i.
Proof. unfold dp3. rewrite lev_sym. reflexivity. Qed.

Lemma dp3_diag_mono s1 s2 i j :
  (i < length s1)%nat -> (j < length s2)%nat ->
  dp3 s1 s2 i j <= dp3 s1 s2 (S i) (S j).
Proof.
  intros Hi Hj. unfold dp3. rewrite (rev_take_S s1 i Hi), (rev_take_S s2 j Hj).
  apply inj_le, lev_diag_mono.
Qed.

Lemma dp3_diag_le s1 s2 n i j :
  (n + i <= length s1)%nat -> (n + j <= length s2)%nat ->
  dp3 s1 s2 i j <= dp3 s1 s2 (n + i) (n + j).
Proof.
  induction n as [|n IH]; intros Hi Hj; [cbn; lia|].
  etransitivity; [apply IH; lia|]. apply dp3_diag_mono; lia.
Qed.

Lemma dp3_length_diff s1 s2 i j :
  (i <= length s1)%nat -> (j <= length s2)%nat ->
  Z.of_nat (j - i) <= dp3 s1 s2 i j.
Proof.
  intros Hi Hj. unfold dp3. apply inj_le.
  pose proof (lev_length_diff (rev (firstn i s1)) (rev (firstn j s2))) as H.
  rewrite !length_rev, !length_take in H. lia.
Qed.

(** The recurrence as the loops compute it. *)
Lemma dp_cell3_entry s1 s2 i j :
  (i < length s1)%nat -> (j < length s2)%nat ->
  UtilStr.dp_cell (dp3 s1 s2 i j) (dp3 s1 s2 i (S j)) (dp3 s1 s2 (S i) j)
                  (UtilStr.char_at s1 i) (UtilStr.char_at s2 j)
  = dp3 s1 s2 (S i) (S j).
Proof.
  intros Hi Hj. unfold UtilStr.dp_cell, dp3.
  rewrite (rev_take_S s1 i Hi), (rev_take_S s2 j Hj).
  rewrite lev_cons, !gtb_min. unfold neq_cost.
  destruct (Ascii.eqb_spec (UtilStr.char_at s1 i) (UtilStr.char_at s2 j));
    case_decide; try contradiction; lia.
Qed.

Section StringOracle.
Variables (s1 s2 : list ascii) (l2 : nat).
Hypothesis Hl2 : (l2 <= length s2)%nat.

Lemma editDist3_inner_spec (i : nat) :
  (i < length s1)%nat ->
  forall (n j : nat) (diag : Z) (row : list Z),
    length row = S l2 -> (j + n = S l2)%nat -> (1 <= j)%nat ->
    diag = dp3 s1 s2 i (j - 1) ->
    (forall j', (j' < j)%nat -> row !!! j' = dp3 s1 s2 (S i) j') ->
    (forall j', (j <= j' <= l2)%nat -> row !!! j' = dp3 s1 s2 i j') ->
    let row' := UtilStr.editDist3_inner n j (UtilStr.char_at s1 i) s2 diag row in
    length row' = S l2 /\
    forall j', (j' <= l2)%nat -> row' !!! j' = dp3 s1 s2 (S i) j'.
Proof.
  intros Hi. induction n as [|n IH]; intros j diag row Hlen Hjn Hj Hdiag Hlo Hhi.
  - cbn. split; [assumption|]. intros j' Hj'. apply Hlo. lia.
  - cbn [UtilStr.editDist3_inner]. cbv zeta.
    assert (Hcell : UtilStr.dp_cell diag (row !!! j) (row !!! (j - 1)%nat)
                      (UtilStr.char_at s1 i) (UtilStr.char_at s2 (j - 1))
                    = dp3 s1 s2 (S i) j).
    { rewrite Hdiag, (Hhi j) by lia. rewrite (Hlo (j - 1)%nat) by lia.
      destruct j as [|j0]; [lia|]. replace (S j0 - 1)%nat with j0 by lia.
      apply dp_cell3_entry; [assumption|lia]. }
    rewrite Hcell.
    apply IH.
    + rewrite length_insert. assumption.
    + lia.
    + lia.
    + replace (S j - 1)%nat with j by lia. apply Hhi. lia.
    + intros j' Hj'. destruct (decide (j' = j)) as [->|Hne].
      * rewrite list_lookup_total_insert_eq by lia. reflexivity.
      * rewrite list_lookup_total_insert_ne by congruence. apply Hlo. lia.
    + intros j' Hj'. rewrite list_lookup_total_insert_ne by lia. apply Hhi. lia.
Qed.

Lemma editDist3_outer_spec (l1 : nat) (max_d : Z) :
  (l1 <= length s1)%nat ->
  forall (n i : nat) (diag_index : nat) (row : list Z),
    (l1 <= l2)%nat -> (i + n = S l1)%nat -> (1 <= i)%nat ->
    diag_index = (l2 - l1 + (i - 1))%nat ->
    length row = S l2 ->
    (forall j', (j' <= l2)%nat -> row !!! j' = dp3 s1 s2 (i - 1) j') ->
    let r := UtilStr.editDist3_outer n i s1 s2 l2 max_d diag_index row in
    r = dp3 s1 s2 l1 l2 \/
    (0 <= max_d /\ max_d <= r <= dp3 s1 s2 l1 l2).
Proof.
  intros Hl1.
  induction n as [|n IH]; intros i diag_index row Hk Hin Hi Hdi Hlen Hrow.
  - cbn. left. rewrite Hrow by lia. f_equal; lia.
  - cbn [UtilStr.editDist3_outer]. cbv zeta.
    destruct (editDist3_inner_spec (i - 1) ltac:(lia)
                l2 1%nat (row !!! 0%nat) (<[0%nat := Z.of_nat i]> row))
      as [Hlen' Hrow'].
    + rewrite length_insert. assumption.
    + lia.
    + lia.
    + rewrite Hrow by lia. reflexivity.
    + intros j' Hj'. assert (j' = 0%nat) as -> by lia.
      rewrite list_lookup_total_insert_eq by lia.
      rewrite dp3_0_r by lia. f_equal. lia.
    + intros j' Hj'. rewrite list_lookup_total_insert_ne by lia. apply Hrow. lia.
    + replace (S (i - 1)) with i in Hrow' by lia.
      set (row' := UtilStr.editDist3_inner l2 1 (UtilStr.char_at s1 (i - 1)) s2
                     (row !!! 0%nat) (<[0%nat := Z.of_nat i]> row)) in *.
      destruct ((max_d >=? 0) && (row' !!! S diag_index >=? max_d)) eqn:Hexit.
      * apply andb_true_iff in Hexit as [H0 H1].
        apply Z.geb_le in H0. apply Z.geb_le in H1.
        right. split; [assumption|]. split; [assumption|].
        rewrite Hrow' by lia.
        pose proof (dp3_diag_le s1 s2 (l1 - i) i (S diag_index)
                      ltac:(lia) ltac:(lia)) as Hd.
        replace (l1 - i + i)%nat with l1 in Hd by lia.
        replace (l1 - i + S diag_index)%nat with l2 in Hd by lia.
        exact Hd.
      * apply IH; try assumption; try lia.
        intros j' Hj'. replace (S i - 1)%nat with i by lia. apply Hrow'. lia.
Qed.

End StringOracle.

Lemma editDist3_body_spec s1 l1 s2 l2 max_d :
  (l1 <= l2)%nat -> (l1 <= length s1)%nat -> (l2 <= length s2)%nat ->
  let r := UtilStr.editDist3_body s1 l1 s2 l2 max_d in
  r = dp3 s1 s2 l1 l2 \/ (0 <= max_d /\ max_d <= r <= dp3 s1 s2 l1 l2).
Proof.
  intros Hk H1 H2. unfold UtilStr.editDist3_body. cbv zeta.
  destruct ((max_d >=? 0) && (Z.of_nat (l2 - l1) >=? max_d)) eqn:Hexit.
  - apply andb_true_iff in Hexit as [H0 H1'].
    apply Z.geb_le in H0. apply Z.geb_le in H1'.
    right. split; [assumption|]. split; [assumption|].
    apply dp3_length_diff; assumption.
  - apply editDist3_outer_spec; try lia.
    + rewrite length_map, length_seq. lia.
    + intros j' Hj'. rewrite initial_row_lookup by assumption.
      cbn [Nat.sub]. rewrite dp3_0_l by lia. reflexivity.
Qed.

Lemma editDist3_spec s1 l1 s2 l2 max_d :
  (l1 <= length s1)%nat -> (l2 <= length s2)%nat ->
  let r := UtilStr.editDist3 s1 l1 s2 l2 max_d in
  let L := Z.of_nat (lev (firstn l1 s1) (firstn l2 s2)) in
  r = L \/ (0 <= max_d /\ max_d <= r <= L).
Proof.
  intros H1 H2. cbv zeta.
  assert (E : Z.of_nat (lev (firstn l1 s1) (firstn l2 s2)) = dp3 s1 s2 l1 l2).
  { unfold dp3. rewrite lev_rev. reflexivity. }
  rewrite E. unfold UtilStr.editDist3.
  destruct (Nat.ltb_spec l2 l1).
  - rewrite (dp3_sym s1 s2). apply editDist3_body_spec; lia.
  - apply editDist3_body_spec; lia.
Qed.

(** [editDist3] on the first [l1] and [l2] characters of two strings:
    with [max_d < 0] it returns their Levenshtein distance; with
    [max_d >= 0] it returns a value of at least [max_d] exactly when the
    distance is at least [max_d], and the distance itself when that is
    below [max_d].  On the decoded strings of two packed words it agrees
    with [editDist2] in both respects. *)
Theorem editDist3_levenshtein (s1 : list ascii) (l1 : nat) (s2 : list ascii) (l2 : nat)
    (max_d : Z) (x1 x2 : Util.kmer) :
  (l1 <= length s1)%nat -> (l2 <= length s2)%nat ->
  let r := UtilStr.editDist3 s1 l1 s2 l2 max_d in
  let L := Z.of_nat (lev (firstn l1 s1) (firstn l2 s2)) in
  (max_d < 0 -> r = L) /\
  (0 <= max_d -> (max_d <= r <-> max_d <= L) /\ (L < max_d -> r = L)) /\
  ((l1 <= 32)%nat -> (l2 <= 32)%nat ->
   s1 = Util.decode x1 l1 -> s2 = Util.decode x2 l2 ->
   let r2 := Util.editDist2 x1 l1 x2 l2 max_d in
   (max_d < 0 -> r = r2) /\
   (0 <= max_d -> (max_d <= r <-> max_d <= r2) /\ (r < max_d -> r = r2))).
Proof.
  intros H1 H2. cbv zeta.
  pose proof (editDist3_spec s1 l1 s2 l2 max_d H1 H2) as Hs. cbv zeta in Hs.
  split; [|split].
  - intros Hd. destruct Hs as [E|[Hm _]]; [assumption|lia].
  - intros Hd. destruct Hs as [E|(_ & Ha & Hb)]; [rewrite E|]; lia.
  - intros _ _ E1 E2.
    assert (EL : Z.of_nat (lev (firstn l1 s1) (firstn l2 s2)) = dp_entry x1 x2 l1 l2).
    { rewrite dp_entry_decode, E1, E2.
      rewrite !firstn_all2 by (rewrite length_decode; lia). reflexivity. }
    rewrite EL in Hs.
    pose proof (editDist2_spec x1 l1 x2 l2 max_d) as Hs2. cbv zeta in Hs2.
    split.
    + intros Hd. destruct Hs as [E|[Hm _]]; [|lia]. destruct Hs2 as [E'|[Hm _]]; [|lia].
      congruence.
    + intros Hd. destruct Hs as [E|(_ & Ha & Hb)]; destruct Hs2 as [E'|(_ & Ha' & Hb')];
        lia.
Qed.

Lemma editDist3_levenshtein_witness :
  UtilStr.editDist3 ["G"; "A"; "T"; "C"]%char 4 ["G"; "T"; "T"]%char 3 (-1)
  = Z.of_nat (lev (firstn 4 ["G"; "A"; "T"; "C"]%char) (firstn 3 ["G"; "T"; "T"]%char)).
Proof.
  assert (H1 : (4 <= length ["G"; "A"; "T"; "C"]%char)%nat) by (cbn; lia).
  assert (H2 : (3 <= length ["G"; "T"; "T"]%char)%nat) by (cbn; lia).
  apply (proj1 (editDist3_levenshtein _ 4 _ 3 (-1) 0 0 H1 H2)). lia.
Defined.

(** * The driver with three arrays *)

(** ** The tag of (k+1)-mers *)

Lemma testbit_luSMSB n : 0 <= n -> Z.testbit luSMSB n = (n =? 62).
Proof.
  intros Hn. change luSMSB with (2 ^ 62). rewrite Z.pow2_bits_eqb by lia.
  apply Z.eqb_sym.
Qed.

Lemma testbit_tagged2 z n :
  0 <= n -> Z.testbit (Z.lor z luSMSB) n = Z.testbit z n || (n =? 62).
Proof. intros Hn. rewrite Z.lor_spec, testbit_luSMSB by assumption. reflexivity. Qed.

Lemma tagged2_add z : 0 <= z < 2 ^ 62 -> Z.lor z luSMSB = z + luSMSB.
Proof.
  intros Hz.
  assert (Hland : Z.land z luSMSB = 0).
  { apply Z.bits_inj'. intros n Hn.
    rewrite Z.land_spec, testbit_luSMSB, Z.bits_0 by assumption.
    destruct (Z.eqb_spec n 62) as [->|]; [|apply andb_false_r].
    rewrite <- (Z.mod_small z (2 ^ 62)) by assumption.
    rewrite Z.mod_pow2_bits_high by lia. reflexivity. }
  rewrite <- Z.lxor_lor by assumption.
  symmetry. apply Z.add_nocarry_lxor. assumption.
Qed.

Lemma untag2_tagged z : 0 <= z < 2 ^ 62 -> Z.lxor (Z.lor z luSMSB) luSMSB = z.
Proof.
  intros Hz. apply Z.bits_inj'. intros n Hn.
  rewrite Z.lxor_spec, testbit_tagged2, testbit_luSMSB by assumption.
  destruct (Z.eqb_spec n 62) as [->|].
  - rewrite <- (Z.mod_small z (2 ^ 62)) by assumption.
    rewrite Z.mod_pow2_bits_high by lia. reflexivity.
  - rewrite orb_false_r. apply xorb_false_r.
Qed.

Lemma syms_tagged2 z n : (n <= 31)%nat -> syms (Z.lor z luSMSB) n = syms z n.
Proof.
  intros Hn. apply syms_ext. intros j Hj. apply sym_eq_bits. intros i Hi.
  rewrite testbit_tagged2 by lia. split_cmp. apply orb_false_r.
Qed.

Lemma pow4_lt_62 (k : nat) : (k <= 30)%nat -> 4 ^ Z.of_nat (k + 1) <= 2 ^ 62.
Proof. intros Hk. apply pow4_le_62. lia. Qed.

Lemma pow4_mono (a b : nat) : (a <= b)%nat -> 4 ^ Z.of_nat a <= 4 ^ Z.of_nat b.
Proof. intros H. apply Z.pow_le_mono_r; lia. Qed.

Lemma tags_lt : 0 < luSMSB < luMSB.
Proof. change luSMSB with (2 ^ 62). change luMSB with (2 ^ 63). lia. Qed.

(** ** Vertices and their labels *)

Section Vertices.
Variable k : nat.
Hypothesis Hk : (k <= 30)%nat.

Lemma kmer_vertex3 x : is_kmer k x -> vertex3 k x.
Proof. intros H. left. exact H. Qed.

Lemma km1_vertex3 y : 0 <= y < 4 ^ Z.of_nat (k - 1) -> vertex3 k (Z.lor y luMSB).
Proof. intros H. right. left. exists y. split; [assumption|reflexivity]. Qed.

Lemma kp1_vertex3 z : 0 <= z < 4 ^ Z.of_nat (k + 1) -> vertex3 k (Z.lor z luSMSB).
Proof. intros H. right. right. exists z. split; [assumption|reflexivity]. Qed.

Lemma kmer_range x : is_kmer k x -> 0 <= x < luSMSB.
Proof.
  intros [H0 H1]. pose proof (pow4_le_62 k ltac:(lia)).
  assert (2 ^ 62 = luSMSB) by reflexivity. lia.
Qed.

Lemma km1_range y :
  0 <= y < 4 ^ Z.of_nat (k - 1) ->
  0 <= y < 2 ^ 62 /\ luMSB <= Z.lor y luMSB /\ Z.lxor (Z.lor y luMSB) luMSB = y.
Proof.
  intros Hy. pose proof (pow4_le_62 (k - 1) ltac:(lia)).
  assert (Hy' : 0 <= y < 2 ^ 62) by lia.
  split; [assumption|]. split; [|apply untag_tagged; assumption].
  rewrite tagged_add by assumption. lia.
Qed.

Lemma kp1_range z :
  0 <= z < 4 ^ Z.of_nat (k + 1) ->
  0 <= z < 2 ^ 62 /\ luSMSB <= Z.lor z luSMSB < luMSB /\
  Z.lxor (Z.lor z luSMSB) luSMSB = z.
Proof.
  intros Hz. pose proof (pow4_lt_62 k Hk).
  assert (Hz' : 0 <= z < 2 ^ 62) by lia.
  split; [assumption|]. split; [|apply untag2_tagged; assumption].
  rewrite tagged2_add by assumption.
  assert (luSMSB + luSMSB = luMSB) by reflexivity.
  assert (2 ^ 62 = luSMSB) by reflexivity. lia.
Qed.

(** The three kinds of vertices are told apart by the two comparisons the
    source makes. *)
Lemma vertex3_cases v :
  vertex3 k v ->
  (is_kmer k v /\ 0 <= v < luSMSB) \/
  (exists y, 0 <= y < 4 ^ Z.of_nat (k - 1) /\ v = Z.lor y luMSB /\ luMSB <= v) \/
  (exists z, 0 <= z < 4 ^ Z.of_nat (k + 1) /\ v = Z.lor z luSMSB /\
             luSMSB <= v < luMSB).
Proof.
  intros [H|[(y & Hy & ->)|(z & Hz & ->)]].
  - left. split; [assumption|apply kmer_range; assumption].
  - right. left. exists y. split; [assumption|]. split; [reflexivity|].
    apply km1_range. assumption.
  - right. right. exists z. split; [assumption|]. split; [reflexivity|].
    apply kp1_range. assumption.
Qed.

Lemma label3_kmer st x : is_kmer k x -> label3 st x = rd st.1.1 x.
Proof.
  intros Hx. pose proof (kmer_range x Hx). pose proof tags_lt. unfold label3.
  destruct (Z.geb_spec x luMSB); [lia|].
  destruct (Z.geb_spec x luSMSB); [lia|]. reflexivity.
Qed.

Lemma label3_km1 st y :
  0 <= y < 4 ^ Z.of_nat (k - 1) -> label3 st (Z.lor y luMSB) = rd st.1.2 y.
Proof.
  intros Hy. destruct (km1_range y Hy) as (_ & Hge & Hun). unfold label3.
  destruct (Z.geb_spec (Z.lor y luMSB) luMSB); [|lia]. rewrite Hun. reflexivity.
Qed.

Lemma label3_kp1 st z :
  0 <= z < 4 ^ Z.of_nat (k + 1) -> label3 st (Z.lor z luSMSB) = rd st.2 z.
Proof.
  intros Hz. destruct (kp1_range z Hz) as (_ & Hge & Hun). unfold label3.
  destruct (Z.geb_spec (Z.lor z luSMSB) luMSB); [lia|].
  destruct (Z.geb_spec (Z.lor z luSMSB) luSMSB); [|lia]. rewrite Hun. reflexivity.
Qed.

Lemma vstr3_kmer x : is_kmer k x -> vstr3 k x = syms x k.
Proof.
  intros Hx. pose proof (kmer_range x Hx). pose proof tags_lt. unfold vstr3.
  destruct (Z.geb_spec x luMSB); [lia|].
  destruct (Z.geb_spec x luSMSB); [lia|]. reflexivity.
Qed.

Lemma vstr3_km1 y :
  0 <= y < 4 ^ Z.of_nat (k - 1) -> vstr3 k (Z.lor y luMSB) = syms y (k - 1).
Proof.
  intros Hy. destruct (km1_range y Hy) as (_ & Hge & _). unfold vstr3.
  destruct (Z.geb_spec (Z.lor y luMSB) luMSB); [|lia].
  apply syms_tagged. lia.
Qed.

Lemma vstr3_kp1 z :
  0 <= z < 4 ^ Z.of_nat (k + 1) -> vstr3 k (Z.lor z luSMSB) = syms z (k + 1).
Proof.
  intros Hz. destruct (kp1_range z Hz) as (_ & Hge & _). unfold vstr3.
  destruct (Z.geb_spec (Z.lor z luSMSB) luMSB); [lia|].
  destruct (Z.geb_spec (Z.lor z luSMSB) luSMSB); [|lia].
  apply syms_tagged2. lia.
Qed.

Lemma vstr3_range v : Forall (fun z => 0 <= z < 4) (vstr3 k v).
Proof.
  unfold vstr3.
  destruct (v >=? luMSB); [|destruct (v >=? luSMSB)]; apply Forall_syms_range.
Qed.

Lemma vstr3_length v :
  vertex3 k v ->
  (is_kmer k v /\ length (vstr3 k v) = k) \/
  (is_km1mer k v /\ length (vstr3 k v) = (k - 1)%nat) \/
  (is_kp1mer k v /\ length (vstr3 k v) = (k + 1)%nat).
Proof.
  intros [H|[H|H]].
  - left. split; [assumption|]. rewrite vstr3_kmer by assumption. apply length_syms.
  - right. left. split; [assumption|]. destruct H as (y & Hy & ->).
    rewrite vstr3_km1 by assumption. apply length_syms.
  - right. right. split; [assumption|]. destruct H as (z & Hz & ->).
    rewrite vstr3_kp1 by assumption. apply length_syms.
Qed.

(** Two vertices with the same string are the same. *)
Lemma vstr3_inj u v :
  (1 <= k)%nat -> vertex3 k u -> vertex3 k v -> vstr3 k u = vstr3 k v -> u = v.
Proof.
  intros Hk1 Hu Hv Heq.
  destruct (vstr3_length u Hu) as [[Hu' Lu]|[[Hu' Lu]|[Hu' Lu]]];
    destruct (vstr3_length v Hv) as [[Hv' Lv]|[[Hv' Lv]|[Hv' Lv]]];
    try (rewrite Heq in Lu; lia).
  - rewrite !vstr3_kmer in Heq by assumption.
    eapply syms_inj; eassumption.
  - destruct Hu' as (y & Hy & ->). destruct Hv' as (y' & Hy' & ->).
    rewrite !vstr3_km1 in Heq by assumption.
    f_equal. eapply syms_inj; eassumption.
  - destruct Hu' as (z & Hz & ->). destruct Hv' as (z' & Hz' & ->).
    rewrite !vstr3_kp1 in Heq by assumption.
    f_equal. eapply syms_inj; eassumption.
Qed.

(** On k-mers and (k-1)-mers nothing changes with respect to the drivers
    with one array. *)
Lemma vertex_vertex3 v : vertex k v -> vertex3 k v.
Proof. intros [H|H]; [left|right; left]; assumption. Qed.

Lemma vstr3_vstr v : vertex k v -> vstr3 k v = vstr k v.
Proof.
  intros [H|(y & Hy & ->)].
  - rewrite vstr3_kmer by assumption. symmetry. apply vstr_kmer; [lia|assumption].
  - rewrite vstr3_km1 by assumption. symmetry. apply vstr_tagged; [lia|assumption].
Qed.

Lemma neighbors_neighbors3 s v :
  vertex k s -> In v (neighbors k s) -> In v (neighbors3 k s).
Proof.
  intros Hs Hin. unfold neighbors in Hin. unfold neighbors3.
  destruct Hs as [H|(y & Hy & ->)].
  - pose proof (kmer_range s H) as Hr. pose proof tags_lt.
    destruct (Z.ltb_spec s luMSB); [|lia].
    destruct (Z.geb_spec s luMSB); [lia|].
    destruct (Z.ltb_spec s luSMSB); [|lia].
    apply in_or_app. right. exact Hin.
  - destruct (km1_range y Hy) as (_ & Hge & _).
    destruct (Z.ltb_spec (Z.lor y luMSB) luMSB); [lia|].
    destruct (Z.geb_spec (Z.lor y luMSB) luMSB); [|lia]. exact Hin.
Qed.

End Vertices.

(** ** Insertion into a k-mer *)

Section Insertions.
Import Layers.
Variable k : nat.
Hypothesis Hk : (k <= 30)%nat.

Lemma sym_ins_at0 s j m i :
  (j <= k)%nat -> 0 <= m < 4 -> (i <= k)%nat ->
  sym (ins_at s j m) i =
  if (i <? j)%nat then sym s i else if (i =? j)%nat then m else sym s (i - 1).
Proof.
  intros Hj Hm Hi. unfold ins_at.
  destruct (Nat.ltb_spec i j) as [Hlt|Hge]; [|destruct (Nat.eqb_spec i j) as [Heq|Hneq]].
  - apply sym_eq_bits. intros n Hn.
    rewrite !Z.lor_spec, testbit_head, testbit_tail, testbit_body by lia.
    split_cmp; same_bit.
  - apply sym_value_bits; [assumption|]. intros n Hn.
    rewrite !Z.lor_spec, testbit_head, testbit_tail, testbit_body by lia.
    split_cmp. same_bit.
  - apply sym_eq_bits. intros n Hn.
    rewrite !Z.lor_spec, testbit_head, testbit_tail, testbit_body by lia.
    split_cmp; same_bit.
Qed.

Lemma ins_at_range0 s j m :
  0 <= s < 4 ^ Z.of_nat k -> (j <= k)%nat -> 0 <= m < 4 ->
  0 <= ins_at s j m < 4 ^ Z.of_nat (k + 1).
Proof.
  intros Hs Hj Hm. unfold ins_at.
  set (x := Z.lor _ _).
  assert (H0 : 0 <= x).
  { subst x. apply Z.lor_nonneg. split.
    - apply Z.lor_nonneg. split; apply wrap64_range.
    - apply Z.land_nonneg. left. unfold low_mask. apply wrap64_range. }
  split; [exact H0|].
  apply below_pow4_bits; [exact H0|]. intros n Hn. subst x.
  rewrite !Z.lor_spec, testbit_head, testbit_tail, testbit_body by lia.
  split_cmp; rewrite ?(testbit_above_pow4 s k) by lia; split_cmp.
Qed.

(** An insertion adds one symbol to the string of a k-mer. *)
Lemma ins_at_syms0 s j m :
  (j <= k)%nat -> 0 <= m < 4 ->
  syms (ins_at s j m) (k + 1) =
  syms (Z.shiftr s (2 * Z.of_nat j)) (k - j) ++ m :: syms s j.
Proof.
  intros Hj Hm.
  rewrite (syms_split (ins_at s j m) (k + 1) (S j)) by lia. f_equal.
  - replace (k + 1 - S j)%nat with (k - j)%nat by lia.
    apply syms_ext. intros i Hi.
    rewrite !sym_shiftr, sym_ins_at0 by (assumption || lia).
    destruct (Nat.ltb_spec (i + S j) j); [lia|].
    destruct (Nat.eqb_spec (i + S j) j); [lia|]. f_equal. lia.
  - cbn [syms]. f_equal.
    + rewrite sym_ins_at0 by (assumption || lia).
      rewrite Nat.ltb_irrefl, Nat.eqb_refl. reflexivity.
    + apply syms_ext. intros i Hi.
      rewrite sym_ins_at0 by (assumption || lia).
      destruct (Nat.ltb_spec i j); [reflexivity|lia].
Qed.

End Insertions.

(** ** The generated neighbours *)

Section Neighbours3.
Variable k : nat.
Hypothesis Hk : (k <= 30)%nat.

(** What the loops generate from a vertex are vertices again. *)
Lemma neighbors3_vertex s v : vertex3 k s -> In v (neighbors3 k s) -> vertex3 k v.
Proof.
  intros Hs Hin. unfold neighbors3 in Hin.
  destruct (vertex3_cases k Hk s Hs)
    as [[Hkm Hr]|[(y & Hy & -> & Hge)|(z & Hz & -> & Hge)]].
  - pose proof tags_lt.
    destruct (Z.geb_spec s luMSB); [lia|].
    destruct (Z.ltb_spec s luSMSB); [|lia].
    apply in_app_or in Hin. destruct Hin as [Hin|Hin];
      [|apply in_app_or in Hin; destruct Hin as [Hin|Hin]].
    + apply in_map_iff in Hin. destruct Hin as (x & <- & Hx).
      apply in_insertions in Hx. destruct Hx as (j & m & Hj & Hm & ->).
      apply kp1_vertex3. apply (ins_at_range0 k Hk); [assumption|lia|assumption].
    + apply in_map_iff in Hin. destruct Hin as (x & <- & Hx).
      apply in_deletions in Hx. destruct Hx as (j & Hj & ->).
      apply km1_vertex3. apply (del_at_range k ltac:(lia)); assumption.
    + apply in_substitutions in Hin. destruct Hin as (j & m & Hj & Hm & ->).
      apply kmer_vertex3. apply (sub_at_range k ltac:(lia)); assumption.
  - destruct (Z.geb_spec (Z.lor y luMSB) luMSB); [|lia].
    apply in_insertions in Hin. destruct Hin as (j & m & Hj & Hm & ->).
    apply kmer_vertex3. apply (ins_at_range k ltac:(lia)); assumption.
  - destruct (Z.geb_spec (Z.lor z luSMSB) luMSB); [lia|].
    destruct (Z.ltb_spec (Z.lor z luSMSB) luSMSB); [lia|]. destruct Hin.
Qed.

(** Each of them is one edit away. *)
Lemma neighbors3_edit1 s v :
  vertex3 k s -> In v (neighbors3 k s) -> edit1 (vstr3 k s) (vstr3 k v).
Proof.
  intros Hs Hin. unfold neighbors3 in Hin.
  destruct (vertex3_cases k Hk s Hs)
    as [[Hkm Hr]|[(y & Hy & -> & Hge)|(z & Hz & -> & Hge)]].
  - rewrite (vstr3_kmer k Hk s Hkm). pose proof tags_lt.
    destruct (Z.geb_spec s luMSB); [lia|].
    destruct (Z.ltb_spec s luSMSB); [|lia].
    apply in_app_or in Hin. destruct Hin as [Hin|Hin];
      [|apply in_app_or in Hin; destruct Hin as [Hin|Hin]].
    + apply in_map_iff in Hin. destruct Hin as (x & <- & Hx).
      apply in_insertions in Hx. destruct Hx as (j & m & Hj & Hm & ->).
      right. left.
      rewrite (vstr3_kp1 k Hk) by (apply (ins_at_range0 k Hk); [assumption|lia|assumption]).
      rewrite (ins_at_syms0 k Hk s j m ltac:(lia) Hm).
      rewrite (syms_split s k j) by lia.
      constructor.
    + apply in_map_iff in Hin. destruct Hin as (x & <- & Hx).
      apply in_deletions in Hx. destruct Hx as (j & Hj & ->).
      left.
      rewrite (vstr3_km1 k Hk) by (apply (del_at_range k ltac:(lia)); assumption).
      rewrite (del_at_syms k ltac:(lia) s j Hj).
      rewrite (syms_split s k (S j)) by lia.
      cbn [syms]. replace (k - S j)%nat with (k - 1 - j)%nat by lia.
      constructor.
    + apply in_substitutions in Hin. destruct Hin as (j & m & Hj & Hm & ->).
      right. right.
      rewrite (vstr3_kmer k Hk) by (apply (sub_at_range k ltac:(lia)); assumption).
      rewrite (sub_at_syms k ltac:(lia) s j m Hj Hm).
      rewrite (syms_split s k j) by lia.
      replace j with (S (j - 1)) at 3 by lia. cbn [syms].
      constructor.
  - destruct (Z.geb_spec (Z.lor y luMSB) luMSB); [|lia].
    apply in_insertions in Hin. destruct Hin as (j & m & Hj & Hm & ->).
    right. left. rewrite (vstr3_km1 k Hk y Hy).
    rewrite (vstr3_kmer k Hk) by (apply (ins_at_range k ltac:(lia)); assumption).
    rewrite (ins_at_syms k ltac:(lia) y j m Hy Hj Hm).
    rewrite (syms_split y (k - 1) j) by lia.
    constructor.
  - destruct (Z.geb_spec (Z.lor z luSMSB) luMSB); [lia|].
    destruct (Z.ltb_spec (Z.lor z luSMSB) luSMSB); [lia|]. destruct Hin.
Qed.

Lemma neighbors3_lev s v w :
  vertex3 k s -> In v (neighbors3 k s) ->
  (lev w (vstr3 k v) <= S (lev w (vstr3 k s)))%nat.
Proof.
  intros Hs Hin. apply lev_edit1. apply neighbors3_edit1; assumption.
Qed.

(** Every insertion into a k-mer is generated. *)
Lemma ins1_neighbors3 s t' :
  is_kmer k s -> Forall (fun z => 0 <= z < 4) t' -> ins1 (syms s k) t' ->
  exists v, In v (neighbors3 k s) /\ vertex3 k v /\ vstr3 k v = t'.
Proof.
  intros Hkm Hrange Hins. pose proof (kmer_range k Hk s Hkm) as Hr.
  inversion Hins as [u b w Heq Ht]. subst t'.
  assert (Hl : length (u ++ w) = k) by (rewrite Heq; apply length_syms).
  rewrite length_app in Hl.
  set (j := length w).
  pose proof (syms_split s k j ltac:(lia)) as Hsp.
  rewrite Hsp in Heq.
  apply app_inj_2 in Heq; [|rewrite length_syms; reflexivity].
  destruct Heq as [Hu Hw].
  assert (Hb : 0 <= b < 4).
  { apply Forall_app in Hrange. destruct Hrange as [_ Hr'].
    apply Forall_cons in Hr'. tauto. }
  pose proof (ins_at_range0 k Hk s j b Hkm ltac:(lia) Hb) as Hir.
  exists (Z.lor (Layers.ins_at s j b) luSMSB). split; [|split].
  - unfold neighbors3. pose proof tags_lt.
    destruct (Z.geb_spec s luMSB); [lia|].
    destruct (Z.ltb_spec s luSMSB); [|lia].
    apply in_or_app. left. apply in_map_iff.
    exists (Layers.ins_at s j b). split; [reflexivity|].
    apply in_insertions. exists j, b. split; [lia|]. split; [assumption|reflexivity].
  - apply kp1_vertex3. assumption.
  - rewrite (vstr3_kp1 k Hk _ Hir).
    rewrite (ins_at_syms0 k Hk s j b ltac:(lia) Hb).
    rewrite <- Hu, <- Hw. reflexivity.
Qed.

Lemma walk3_vertex n : forall u w, walk3 k n u w -> vertex3 k u -> vertex3 k w.
Proof.
  induction n as [|n IH]; intros u w Hw Hu.
  - inversion Hw; subst. assumption.
  - inversion Hw as [|n' u' v w' Hin Hrest]; subst.
    apply (IH v w Hrest). eapply neighbors3_vertex; eassumption.
Qed.

Lemma walk3_lev n : forall u w,
  walk3 k n u w -> vertex3 k u -> (lev (vstr3 k u) (vstr3 k w) <= n)%nat.
Proof.
  induction n as [|n IH]; intros u w Hw Hu.
  - inversion Hw; subst. rewrite lev_refl. lia.
  - inversion Hw as [|n' u' v w' Hin Hrest]; subst.
    pose proof (neighbors3_vertex u v Hu Hin) as Hv.
    pose proof (IH v w Hrest Hv) as Hle.
    pose proof (neighbors3_edit1 u v Hu Hin) as He.
    pose proof (lev_triangle (vstr3 k u) (vstr3 k v) (vstr3 k w)) as Ht.
    pose proof (lev_edit1 (vstr3 k u) (vstr3 k v) (vstr3 k u) He) as H1.
    rewrite lev_refl in H1. lia.
Qed.

Lemma walk3_last n : forall u w,
  walk3 k (S n) u w -> exists v, walk3 k n u v /\ In w (neighbors3 k v).
Proof.
  induction n as [|n IH]; intros u w Hw.
  - inversion Hw as [|n' u' v w' Hin Hrest]; subst.
    inversion Hrest; subst. exists u. split; [constructor|assumption].
  - inversion Hw as [|n' u' v w' Hin Hrest]; subst.
    destruct (IH v w Hrest) as (x & Hx & Hlast).
    exists x. split; [econstructor; eassumption|assumption].
Qed.

Lemma walk3_snoc n : forall u v w,
  walk3 k n u v -> In w (neighbors3 k v) -> walk3 k (S n) u w.
Proof.
  induction n as [|n IH]; intros u v w Hw Hin.
  - inversion Hw; subst. econstructor; [eassumption|constructor].
  - inversion Hw as [|n' u' x v' Hx Hrest]; subst.
    econstructor; [eassumption|]. eapply IH; eassumption.
Qed.

(** A walk of the drivers with one array is a walk here. *)
Lemma walk_walk3 n : forall u w, vertex k u -> walk k n u w -> walk3 k n u w.
Proof.
  induction n as [|n IH]; intros u w Hu Hw.
  - inversion Hw; subst. constructor.
  - inversion Hw as [|n' u' v w' Hin Hrest]; subst.
    econstructor.
    + apply neighbors_neighbors3; eassumption.
    + apply IH; [|assumption].
      eapply (neighbors_vertex k ltac:(lia)); eassumption.
Qed.

End Neighbours3.

(** ** The three arrays as one store *)

Section Store3.
Variable k : nat.
Hypothesis Hk : (k <= 30)%nat.

Lemma set3_kmer st x a :
  is_kmer k x -> set3 st x a = (wr st.1.1 x a, st.1.2, st.2).
Proof.
  intros Hx. pose proof (kmer_range k Hk x Hx). pose proof tags_lt. unfold set3.
  destruct (Z.geb_spec x luMSB); [lia|].
  destruct (Z.geb_spec x luSMSB); [lia|]. reflexivity.
Qed.

Lemma set3_km1 st y a :
  0 <= y < 4 ^ Z.of_nat (k - 1) ->
  set3 st (Z.lor y luMSB) a = (st.1.1, wr st.1.2 y a, st.2).
Proof.
  intros Hy. destruct (km1_range k Hk y Hy) as (_ & Hge & Hun). unfold set3.
  destruct (Z.geb_spec (Z.lor y luMSB) luMSB); [|lia]. rewrite Hun. reflexivity.
Qed.

Lemma set3_kp1 st z a :
  0 <= z < 4 ^ Z.of_nat (k + 1) ->
  set3 st (Z.lor z luSMSB) a = (st.1.1, st.1.2, wr st.2 z a).
Proof.
  intros Hz. destruct (kp1_range k Hk z Hz) as (_ & Hge & Hun). unfold set3.
  destruct (Z.geb_spec (Z.lor z luSMSB) luMSB); [lia|].
  destruct (Z.geb_spec (Z.lor z luSMSB) luSMSB); [|lia]. rewrite Hun. reflexivity.
Qed.

Lemma sized3_set3 st v a : sized3 k st -> sized3 k (set3 st v a).
Proof.
  intros (H1 & H2 & H3). unfold set3, sized3.
  destruct (v >=? luMSB); [|destruct (v >=? luSMSB)];
    cbn [fst snd]; rewrite ?length_wr; repeat split; assumption.
Qed.

Lemma label3_set3_eq st v a :
  sized3 k st -> vertex3 k v -> label3 (set3 st v a) v = a.
Proof.
  intros (H1 & H2 & H3) Hv.
  destruct Hv as [Hx|[(y & Hy & ->)|(z & Hz & ->)]].
  - rewrite set3_kmer, (label3_kmer k Hk) by assumption. cbn [fst snd].
    destruct Hx. apply rd_wr_eq; lia.
  - rewrite set3_km1, (label3_km1 k Hk) by assumption. cbn [fst snd].
    apply rd_wr_eq; lia.
  - rewrite set3_kp1, (label3_kp1 k Hk) by assumption. cbn [fst snd].
    apply rd_wr_eq; lia.
Qed.

Lemma label3_set3_ne st u w a :
  vertex3 k u -> vertex3 k w -> w <> u -> label3 (set3 st u a) w = label3 st w.
Proof.
  intros Hu Hw Hne.
  destruct Hu as [Hx|[(y & Hy & ->)|(z & Hz & ->)]];
    destruct Hw as [Hx'|[(y' & Hy' & ->)|(z' & Hz' & ->)]];
    rewrite ?set3_kmer, ?set3_km1, ?set3_kp1 by assumption;
    rewrite ?(label3_kmer k Hk), ?(label3_km1 k Hk), ?(label3_kp1 k Hk) by assumption;
    cbn [fst snd]; try reflexivity.
  - destruct Hx, Hx'. apply rd_wr_ne; lia.
  - apply rd_wr_ne; [lia|lia|]. intros ->. apply Hne. reflexivity.
  - apply rd_wr_ne; [lia|lia|]. intros ->. apply Hne. reflexivity.
Qed.

(** ** One call of [getNextLayer] *)

Lemma exp_store_admit_k e x :
  is_kmer k x -> rd (P1M1Driver.labels e) x = -3 ->
  P1M1Driver.admit_k e x
  = {| P1M1Driver.new_layer := P1M1Driver.new_layer e ++ [x];
       P1M1Driver.labels := (set3 (exp_store e) x (-2)).1.1;
       P1M1Driver.labels_m1 := (set3 (exp_store e) x (-2)).1.2;
       P1M1Driver.labels_p1 := (set3 (exp_store e) x (-2)).2 |}.
Proof.
  intros Hx Hrd. unfold P1M1Driver.admit_k. rewrite Hrd. cbn [Z.eqb negb].
  rewrite set3_kmer by assumption. reflexivity.
Qed.

Lemma exp_store_admit_km1 e y :
  0 <= y < 4 ^ Z.of_nat (k - 1) -> rd (P1M1Driver.labels_m1 e) y = -3 ->
  P1M1Driver.admit_km1 e y
  = {| P1M1Driver.new_layer := P1M1Driver.new_layer e ++ [Z.lor y luMSB];
       P1M1Driver.labels := (set3 (exp_store e) (Z.lor y luMSB) (-2)).1.1;
       P1M1Driver.labels_m1 := (set3 (exp_store e) (Z.lor y luMSB) (-2)).1.2;
       P1M1Driver.labels_p1 := (set3 (exp_store e) (Z.lor y luMSB) (-2)).2 |}.
Proof.
  intros Hy Hrd. unfold P1M1Driver.admit_km1. rewrite Hrd. cbn [Z.eqb negb].
  rewrite set3_km1 by assumption. reflexivity.
Qed.

Lemma exp_store_admit_kp1 e z :
  0 <= z < 4 ^ Z.of_nat (k + 1) -> rd (P1M1Driver.labels_p1 e) z = -3 ->
  P1M1Driver.admit_kp1 e z
  = {| P1M1Driver.new_layer := P1M1Driver.new_layer e ++ [Z.lor z luSMSB];
       P1M1Driver.labels := (set3 (exp_store e) (Z.lor z luSMSB) (-2)).1.1;
       P1M1Driver.labels_m1 := (set3 (exp_store e) (Z.lor z luSMSB) (-2)).1.2;
       P1M1Driver.labels_p1 := (set3 (exp_store e) (Z.lor z luSMSB) (-2)).2 |}.
Proof.
  intros Hz Hrd. unfold P1M1Driver.admit_kp1. rewrite Hrd. cbn [Z.eqb negb].
  rewrite set3_kp1 by assumption. reflexivity.
Qed.

Lemma admits_set3 e v :
  sized3 k (exp_store e) -> vertex3 k v -> label3 (exp_store e) v = -3 ->
  admits k e
    {| P1M1Driver.new_layer := P1M1Driver.new_layer e ++ [v];
       P1M1Driver.labels := (set3 (exp_store e) v (-2)).1.1;
       P1M1Driver.labels_m1 := (set3 (exp_store e) v (-2)).1.2;
       P1M1Driver.labels_p1 := (set3 (exp_store e) v (-2)).2 |} v.
Proof.
  intros Hsz Hv Hl. unfold admits. rewrite Hl. cbn [Z.eqb].
  set (st' := set3 (exp_store e) v (-2)).
  assert (Es : exp_store {| P1M1Driver.new_layer := P1M1Driver.new_layer e ++ [v];
                            P1M1Driver.labels := st'.1.1;
                            P1M1Driver.labels_m1 := st'.1.2;
                            P1M1Driver.labels_p1 := st'.2 |} = st').
  { unfold exp_store. cbn [P1M1Driver.labels P1M1Driver.labels_m1 P1M1Driver.labels_p1].
    destruct st' as [[a b] c]. reflexivity. }
  rewrite Es. split; [reflexivity|]. split; [apply sized3_set3; assumption|].
  split; [apply label3_set3_eq; assumption|].
  intros w Hw Hne. apply label3_set3_ne; assumption.
Qed.

Lemma admit_k_admits e x :
  sized3 k (exp_store e) -> is_kmer k x -> admits k e (P1M1Driver.admit_k e x) x.
Proof.
  intros Hsz Hx.
  destruct (Z.eq_dec (label3 (exp_store e) x) (-3)) as [E|E].
  - pose proof E as E'. rewrite (label3_kmer k Hk) in E' by assumption.
    rewrite exp_store_admit_k by assumption.
    apply admits_set3; [assumption|left; assumption|assumption].
  - unfold admits. destruct (Z.eqb_spec (label3 (exp_store e) x) (-3)); [contradiction|].
    rewrite (label3_kmer k Hk) in E by assumption. unfold P1M1Driver.admit_k.
    cbn [exp_store fst snd] in E.
    destruct (Z.eqb_spec (rd (P1M1Driver.labels e) x) (-3)); [contradiction|reflexivity].
Qed.

Lemma admit_km1_admits e y :
  sized3 k (exp_store e) -> 0 <= y < 4 ^ Z.of_nat (k - 1) ->
  admits k e (P1M1Driver.admit_km1 e y) (Z.lor y luMSB).
Proof.
  intros Hsz Hy.
  destruct (Z.eq_dec (label3 (exp_store e) (Z.lor y luMSB)) (-3)) as [E|E].
  - pose proof E as E'. rewrite (label3_km1 k Hk) in E' by assumption.
    rewrite exp_store_admit_km1 by assumption.
    apply admits_set3; [assumption|apply km1_vertex3; assumption|assumption].
  - unfold admits.
    destruct (Z.eqb_spec (label3 (exp_store e) (Z.lor y luMSB)) (-3)); [contradiction|].
    rewrite (label3_km1 k Hk) in E by assumption. unfold P1M1Driver.admit_km1.
    cbn [exp_store fst snd] in E.
    destruct (Z.eqb_spec (rd (P1M1Driver.labels_m1 e) y) (-3)); [contradiction|reflexivity].
Qed.

Lemma admit_kp1_admits e z :
  sized3 k (exp_store e) -> 0 <= z < 4 ^ Z.of_nat (k + 1) ->
  admits k e (P1M1Driver.admit_kp1 e z) (Z.lor z luSMSB).
Proof.
  intros Hsz Hz.
  destruct (Z.eq_dec (label3 (exp_store e) (Z.lor z luSMSB)) (-3)) as [E|E].
  - pose proof E as E'. rewrite (label3_kp1 k Hk) in E' by assumption.
    rewrite exp_store_admit_kp1 by assumption.
    apply admits_set3; [assumption|apply kp1_vertex3; assumption|assumption].
  - unfold admits.
    destruct (Z.eqb_spec (label3 (exp_store e) (Z.lor z luSMSB)) (-3)); [contradiction|].
    rewrite (label3_kp1 k Hk) in E by assumption. unfold P1M1Driver.admit_kp1.
    cbn [exp_store fst snd] in E.
    destruct (Z.eqb_spec (rd (P1M1Driver.labels_p1 e) z) (-3)); [contradiction|reflexivity].
Qed.

(** One generated vertex. *)
Lemma admits_step st0 e e' done v :
  exp_inv3 k st0 e done -> vertex3 k v -> admits k e e' v ->
  exp_inv3 k st0 e' (done ++ [v]).
Proof.
  intros (Hsz & Hlab & Hnd & Hlay & Hdone) Hv Hadm. unfold admits in Hadm.
  destruct (Z.eqb_spec (label3 (exp_store e) v) (-3)) as [E|E].
  - destruct Hadm as (Enl & Hsz' & Ev & Hframe).
    assert (Hnotin : ~ In v (P1M1Driver.new_layer e)).
    { destruct (Hlab v Hv) as [(_ & _ & H2)|(Hni & _)]; [lia|assumption]. }
    assert (E0 : label3 st0 v = -3).
    { destruct (Hlab v Hv) as [(_ & _ & H2)|(_ & He)]; [lia|congruence]. }
    split; [assumption|]. split; [|split; [|split]].
    + intros w Hw. destruct (Z.eq_dec w v) as [->|Hne].
      * left. rewrite Enl. split; [apply in_or_app; right; left; reflexivity|].
        split; assumption.
      * rewrite (Hframe w Hw Hne), Enl.
        destruct (Hlab w Hw) as [(Hin & H1 & H2)|(Hni & He)].
        -- left. split; [apply in_or_app; left; assumption|]. split; assumption.
        -- right. split; [|assumption]. intros Hin. apply in_app_or in Hin.
           destruct Hin as [Hin|[Hin|[]]]; [contradiction|congruence].
    + rewrite Enl. apply NoDup_app. split; [assumption|].
      split; [|apply NoDup_singleton].
      intros w Hw Hw'. apply list_elem_of_singleton in Hw'. subst w.
      apply Hnotin. apply list_elem_of_In. assumption.
    + intros w Hw. rewrite Enl in Hw. apply in_app_or in Hw.
      destruct Hw as [Hw|[<-|[]]].
      * destruct (Hlay w Hw) as [Hvw Hd]. split; [assumption|].
        apply in_or_app. left. assumption.
      * split; [assumption|]. apply in_or_app. right. left. reflexivity.
    + intros w Hw. apply in_app_or in Hw. destruct Hw as [Hw|[<-|[]]].
      * destruct (Hdone w Hw) as [Hvw Hd]. split; [assumption|].
        destruct (Z.eq_dec w v) as [->|Hne]; [lia|].
        rewrite (Hframe w Hvw Hne). assumption.
      * split; [assumption|lia].
  - subst e'. split; [assumption|]. split; [assumption|]. split; [assumption|].
    split.
    + intros w Hw. destruct (Hlay w Hw) as [Hvw Hd]. split; [assumption|].
      apply in_or_app. left. assumption.
    + intros w Hw. apply in_app_or in Hw. destruct Hw as [Hw|[<-|[]]].
      * apply Hdone. assumption.
      * split; assumption.
Qed.

(** One of the loops over generated values. *)
Lemma fold_admits (g : P1M1Driver.expansion -> Z -> P1M1Driver.expansion)
    (tag : Z -> Z) (P : Z -> Prop) :
  (forall e x, sized3 k (exp_store e) -> P x ->
               vertex3 k (tag x) /\ admits k e (g e x) (tag x)) ->
  forall xs ys st0 e done, ys = map tag xs -> Forall P xs -> exp_inv3 k st0 e done ->
    exp_inv3 k st0 (fold_left g xs e) (done ++ ys).
Proof.
  intros Hg xs. induction xs as [|x xs IH]; intros ys st0 e done -> HP Hinv.
  - cbn [fold_left map]. rewrite app_nil_r. assumption.
  - apply Forall_cons in HP. destruct HP as [Hx HP]. cbn [fold_left map].
    destruct (Hg e x (proj1 Hinv) Hx) as [Hv Hadm].
    pose proof (admits_step st0 e (g e x) done (tag x) Hinv Hv Hadm) as Hinv'.
    pose proof (IH _ st0 (g e x) (done ++ [tag x]) eq_refl HP Hinv') as Hfin.
    rewrite <- app_assoc in Hfin. exact Hfin.
Qed.

Lemma insertions0_range s :
  is_kmer k s ->
  Forall (fun x => 0 <= x < 4 ^ Z.of_nat (k + 1)) (Layers.insertions s (S k)).
Proof.
  intros Hs. apply List.Forall_forall. intros x Hx.
  apply in_insertions in Hx. destruct Hx as (j & m & Hj & Hm & ->).
  apply (ins_at_range0 k Hk); [assumption|lia|assumption].
Qed.

(** The body of the loop over the layer. *)
Lemma expand_step st0 e done s :
  vertex3 k s -> exp_inv3 k st0 e done ->
  exp_inv3 k st0 (P1M1Driver.expand k e s) (done ++ neighbors3 k s).
Proof.
  intros Hs Hinv. unfold P1M1Driver.expand, neighbors3.
  destruct (vertex3_cases k Hk s Hs)
    as [[Hkm Hr]|[(y & Hy & -> & Hge)|(z & Hz & -> & Hge)]].
  - pose proof tags_lt.
    destruct (Z.geb_spec s luMSB); [lia|].
    destruct (Z.ltb_spec s luSMSB); [|lia].
    rewrite !app_assoc.
    apply (fold_admits P1M1Driver.admit_k (fun x => x) (is_kmer k)).
    { intros e0 x Hsz Hx. split; [left; assumption|apply admit_k_admits; assumption]. }
    { symmetry. apply map_id. }
    { apply (substitutions_kmer k ltac:(lia)). assumption. }
    apply (fold_admits P1M1Driver.admit_km1 (fun x => Z.lor x luMSB)
             (fun x => 0 <= x < 4 ^ Z.of_nat (k - 1))).
    { intros e0 x Hsz Hx. split; [apply km1_vertex3; assumption|].
      apply admit_km1_admits; assumption. }
    { reflexivity. }
    { apply (deletions_km1mer k ltac:(lia)). assumption. }
    apply (fold_admits P1M1Driver.admit_kp1 (fun x => Z.lor x luSMSB)
             (fun x => 0 <= x < 4 ^ Z.of_nat (k + 1))).
    { intros e0 x Hsz Hx. split; [apply kp1_vertex3; assumption|].
      apply admit_kp1_admits; assumption. }
    { reflexivity. }
    { apply insertions0_range. assumption. }
    assumption.
  - destruct (Z.geb_spec (Z.lor y luMSB) luMSB); [|lia].
    apply (fold_admits P1M1Driver.admit_k (fun x => x) (is_kmer k)).
    { intros e0 x Hsz Hx. split; [left; assumption|apply admit_k_admits; assumption]. }
    { symmetry. apply map_id. }
    { apply (insertions_kmer k ltac:(lia)). exists y. split; [assumption|reflexivity]. }
    assumption.
  - destruct (Z.geb_spec (Z.lor z luSMSB) luMSB); [lia|].
    destruct (Z.ltb_spec (Z.lor z luSMSB) luSMSB); [lia|].
    rewrite app_nil_r. assumption.
Qed.

Lemma fold_expand : forall L st0 e done,
  Forall (vertex3 k) L -> exp_inv3 k st0 e done ->
  exp_inv3 k st0 (fold_left (P1M1Driver.expand k) L e)
           (done ++ flat_map (neighbors3 k) L).
Proof.
  induction L as [|s L IH]; intros st0 e done HL Hinv.
  - cbn [fold_left flat_map]. rewrite app_nil_r. assumption.
  - apply Forall_cons in HL. destruct HL as [Hs HL]. cbn [fold_left flat_map].
    rewrite app_assoc. apply IH; [assumption|].
    apply expand_step; assumption.
Qed.

(** [getNextLayer]: the new layer holds, once each, the vertices that were
    UNASSIGNED and are generated from the old layer; they are now
    BFS_VISITED and nothing else has changed. *)
Lemma getNextLayer_spec id h hm hp :
  sized3 k (h, hm, hp) -> Forall (vertex3 k) (P1M1Driver.bfs_layer id) ->
  let r := P1M1Driver.getNextLayer id k h hm hp in
  let L' := P1M1Driver.bfs_layer r.1 in
  sized3 k r.2 /\
  P1M1Driver.center r.1 = P1M1Driver.center id /\
  (forall v, vertex3 k v ->
     (In v L' /\ label3 (h, hm, hp) v = -3 /\ label3 r.2 v = -2) \/
     (~ In v L' /\ label3 r.2 v = label3 (h, hm, hp) v)) /\
  NoDup L' /\
  (forall v, In v L' ->
     vertex3 k v /\ exists u, In u (P1M1Driver.bfs_layer id) /\ In v (neighbors3 k u)) /\
  (forall u v, In u (P1M1Driver.bfs_layer id) -> In v (neighbors3 k u) ->
     label3 r.2 v <> -3).
Proof.
  intros Hsz HL r L'. subst r L'. unfold P1M1Driver.getNextLayer.
  destruct (Nat.eqb_spec (length (P1M1Driver.bfs_layer id)) 0) as [E0|E0].
  - cbn [fst snd]. apply length_zero_iff_nil in E0. rewrite E0.
    split; [assumption|]. split; [reflexivity|]. split; [|split; [|split]].
    + intros v Hv. right. split; [intros []|reflexivity].
    + constructor.
    + intros v [].
    + intros u v [].
  - cbn [fst snd P1M1Driver.bfs_layer P1M1Driver.center].
    set (e0 := {| P1M1Driver.new_layer := []; P1M1Driver.labels := h;
                  P1M1Driver.labels_m1 := hm; P1M1Driver.labels_p1 := hp |}).
    assert (Hinv0 : exp_inv3 k (h, hm, hp) e0 []).
    { split; [assumption|]. split; [|split; [|split]].
      - intros v Hv. right. split; [intros []|reflexivity].
      - constructor.
      - intros v [].
      - intros v []. }
    pose proof (fold_expand (P1M1Driver.bfs_layer id) (h, hm, hp) e0 [] HL Hinv0) as Hinv.
    cbn [app] in Hinv.
    set (e := fold_left (P1M1Driver.expand k) (P1M1Driver.bfs_layer id) e0) in *.
    destruct Hinv as (Hsz' & Hlab & Hnd & Hlay & Hdone).
    change (P1M1Driver.labels e, P1M1Driver.labels_m1 e, P1M1Driver.labels_p1 e)
      with (exp_store e).
    split; [assumption|]. split; [reflexivity|]. split; [assumption|].
    split; [assumption|]. split.
    + intros v Hv. destruct (Hlay v Hv) as [Hvv Hd]. split; [assumption|].
      apply in_flat_map in Hd. exact Hd.
    + intros u v Hu Hv. apply Hdone. apply in_flat_map. exists u. split; assumption.
Qed.

(** ** The loop over the new layer *)

(** A probe of depth zero or less finds no conflict. *)
Lemma conflict_shallow s ks depth c h hm hp :
  depth <= 0 -> P1M1Driver.conflictWithNeighbors s k ks depth c h hm hp = false.
Proof.
  intros Hd. unfold P1M1Driver.conflictWithNeighbors.
  replace (Z.to_nat depth) with 0%nat by lia. reflexivity.
Qed.

Lemma commit_set3 p i st s :
  vertex3 k s ->
  exists a, (a = -1 \/ a = Z.of_nat i) /\ (p <= 1 -> a = Z.of_nat i) /\
    P1M1Driver.commit k p i st s
    = if label3 st s >? -2 then st else set3 st s a.
Proof.
  intros Hs. destruct st as [[h hm] hp]. unfold P1M1Driver.commit.
  destruct (vertex3_cases k Hk s Hs)
    as [[Hkm Hr]|[(y & Hy & -> & Hge)|(z & Hz & -> & Hge)]].
  - pose proof tags_lt.
    destruct (Z.geb_spec s luMSB); [lia|].
    destruct (Z.geb_spec s luSMSB); [lia|].
    rewrite (label3_kmer k Hk) by assumption. cbn [fst snd].
    set (cf := P1M1Driver.conflictWithNeighbors s k (Z.of_nat k) (p - 1) (Z.of_nat i) h hm hp).
    exists (if negb cf then Z.of_nat i else -1).
    split; [destruct cf; cbn [negb]; tauto|]. split.
    { intros Hp. unfold cf. rewrite conflict_shallow by lia. reflexivity. }
    rewrite set3_kmer by assumption. cbn [fst snd].
    destruct (rd h s >? -2); [reflexivity|]. destruct cf; reflexivity.
  - destruct (km1_range k Hk y Hy) as (_ & _ & Hun).
    destruct (Z.geb_spec (Z.lor y luMSB) luMSB); [|lia].
    rewrite (label3_km1 k Hk) by assumption. cbn [fst snd]. rewrite Hun.
    set (cf := P1M1Driver.conflictWithNeighbors y k (Z.of_nat k - 1) (p - 1) (Z.of_nat i)
                 h hm hp).
    exists (if negb cf then Z.of_nat i else -1).
    split; [destruct cf; cbn [negb]; tauto|]. split.
    { intros Hp. unfold cf. rewrite conflict_shallow by lia. reflexivity. }
    rewrite set3_km1 by assumption. cbn [fst snd].
    destruct (rd hm y >? -2); [reflexivity|]. destruct cf; reflexivity.
  - destruct (kp1_range k Hk z Hz) as (_ & _ & Hun).
    destruct (Z.geb_spec (Z.lor z luSMSB) luMSB); [lia|].
    destruct (Z.geb_spec (Z.lor z luSMSB) luSMSB); [|lia].
    rewrite (label3_kp1 k Hk) by assumption. cbn [fst snd]. rewrite Hun.
    set (cf := P1M1Driver.conflictWithNeighbors z k (Z.of_nat k + 1) (p - 1) (Z.of_nat i)
                 h hm hp).
    exists (if negb cf then Z.of_nat i else -1).
    split; [destruct cf; cbn [negb]; tauto|]. split.
    { intros Hp. unfold cf. rewrite conflict_shallow by lia. reflexivity. }
    rewrite set3_kp1 by assumption. cbn [fst snd].
    destruct (rd hp z >? -2); [reflexivity|]. destruct cf; reflexivity.
Qed.

Lemma fold_commit3 p i : forall L st,
  sized3 k st -> Forall (vertex3 k) L ->
  let st' := fold_left (P1M1Driver.commit k p i) L st in
  sized3 k st' /\
  (forall w, vertex3 k w ->
     label3 st' w = label3 st w \/
     (In w L /\ label3 st w <= -2 /\
      (label3 st' w = -1 \/ label3 st' w = Z.of_nat i) /\
      (p <= 1 -> label3 st' w = Z.of_nat i))) /\
  (forall w, In w L -> -2 < label3 st' w).
Proof.
  induction L as [|s L IH]; intros st Hsz HL; cbn [fold_left].
  - split; [assumption|]. split; [intros w _; left; reflexivity|intros w []].
  - apply Forall_cons in HL. destruct HL as [Hs HL].
    destruct (commit_set3 p i st s Hs) as (a & Ha & Hp & Ec).
    set (st1 := P1M1Driver.commit k p i st s) in *.
    assert (Hsz1 : sized3 k st1).
    { rewrite Ec. destruct (label3 st s >? -2); [assumption|].
      apply sized3_set3. assumption. }
    assert (Hs1 : -2 < label3 st1 s).
    { rewrite Ec. destruct (Z.gtb_spec (label3 st s) (-2)); [lia|].
      rewrite label3_set3_eq by assumption. lia. }
    assert (Hframe : forall w, vertex3 k w ->
              label3 st1 w = label3 st w \/
              (w = s /\ label3 st w <= -2 /\ label3 st1 w = a)).
    { intros w Hw. rewrite Ec. destruct (Z.gtb_spec (label3 st s) (-2)).
      - left. reflexivity.
      - destruct (Z.eq_dec w s) as [->|Hne].
        + right. split; [reflexivity|]. split; [lia|].
          apply label3_set3_eq; assumption.
        + left. apply label3_set3_ne; assumption. }
    destruct (IH st1 Hsz1 HL) as (Hsz' & Hlab & Hdone).
    split; [assumption|]. split.
    + intros w Hw. destruct (Hlab w Hw) as [E|(Hin & Hle & Hv & Hp')].
      * rewrite E. destruct (Hframe w Hw) as [E1|(-> & Hle & E1)].
        -- left. assumption.
        -- right. split; [left; reflexivity|]. split; [assumption|].
           rewrite E1. split; [assumption|assumption].
      * destruct (Hframe w Hw) as [E1|(-> & Hle1 & E1)].
        -- right. split; [right; assumption|]. split; [lia|]. split; assumption.
        -- lia.
    + intros w [<-|Hin].
      * destruct (Hlab s Hs) as [E|(_ & Hle & _)]; lia.
      * apply Hdone. assumption.
Qed.

End Store3.

(** ** The turn of one island *)

Section Turn3.
Variable k : nat.
Hypothesis Hk : (k <= 30)%nat.
Variable p : Z.

(** [getNextLayer] on island [n], then the loop over its new layer. *)
Lemma process_island_spec st n cur :
  sized3 k st.2 -> st.1 !! n = Some cur ->
  Forall (vertex3 k) (P1M1Driver.bfs_layer cur) ->
  exists cur' st2,
    P1M1Driver.process_island k p st n = (<[n := cur']> st.1, st2) /\
    sized3 k st2 /\
    NoDup (P1M1Driver.bfs_layer cur') /\
    (forall w, vertex3 k w ->
       label3 st2 w = label3 st.2 w \/
       (label3 st.2 w = -3 /\ In w (P1M1Driver.bfs_layer cur') /\
        (label3 st2 w = -1 \/ label3 st2 w = Z.of_nat n) /\
        (p <= 1 -> label3 st2 w = Z.of_nat n))) /\
    (forall w, In w (P1M1Driver.bfs_layer cur') ->
       vertex3 k w /\ label3 st.2 w = -3 /\ label3 st2 w <> -3 /\
       exists u, In u (P1M1Driver.bfs_layer cur) /\ In w (neighbors3 k u)) /\
    (forall u v, In u (P1M1Driver.bfs_layer cur) -> In v (neighbors3 k u) ->
       label3 st2 v <> -3).
Proof.
  destruct st as [islands [[h hm] hp]]. cbn [fst snd]. intros Hsz Hcur HL.
  unfold P1M1Driver.process_island. rewrite Hcur.
  pose proof (getNextLayer_spec k Hk cur h hm hp Hsz HL) as Hg. cbv zeta in Hg.
  destruct (P1M1Driver.getNextLayer cur k h hm hp) as [cur' st1]. cbn [fst snd] in Hg.
  destruct Hg as (Hsz1 & _ & Hlab & Hnd & Hlay & Hdone).
  assert (HL' : Forall (vertex3 k) (P1M1Driver.bfs_layer cur')).
  { apply List.Forall_forall. intros w Hw. apply Hlay. assumption. }
  pose proof (fold_commit3 k Hk p n (P1M1Driver.bfs_layer cur') st1 Hsz1 HL') as Hc.
  cbv zeta in Hc.
  set (st2 := fold_left (P1M1Driver.commit k p n) (P1M1Driver.bfs_layer cur') st1) in *.
  destruct Hc as (Hsz2 & Hfr & Hset).
  assert (F1 : forall w, vertex3 k w ->
            label3 st2 w = label3 (h, hm, hp) w \/
            (label3 (h, hm, hp) w = -3 /\ In w (P1M1Driver.bfs_layer cur') /\
             (label3 st2 w = -1 \/ label3 st2 w = Z.of_nat n) /\
             (p <= 1 -> label3 st2 w = Z.of_nat n))).
  { intros w Hw. destruct (Hlab w Hw) as [(Hin & E0 & E1)|(Hni & E1)].
    - destruct (Hfr w Hw) as [E2|(_ & _ & Hv & Hp)].
      + pose proof (Hset w Hin). lia.
      + right. split; [assumption|]. split; [assumption|]. split; assumption.
    - destruct (Hfr w Hw) as [E2|(Hin & _)]; [|contradiction].
      left. congruence. }
  exists cur', st2. split; [reflexivity|]. split; [assumption|].
  split; [assumption|]. split; [assumption|]. split.
  - intros w Hw. destruct (Hlay w Hw) as [Hvw Hu]. split; [assumption|].
    destruct (Hlab w Hvw) as [(_ & E0 & _)|(Hni & _)]; [|contradiction].
    split; [assumption|]. split; [|assumption].
    pose proof (Hset w Hw). lia.
  - intros u v Hu Hv.
    assert (Hvu : vertex3 k u) by (eapply List.Forall_forall in HL; eassumption).
    pose proof (neighbors3_vertex k Hk u v Hvu Hv) as Hvv.
    pose proof (Hdone u v Hu Hv) as H1.
    destruct (Hfr v Hvv) as [E|(_ & _ & [E|E] & _)]; lia.
Qed.

Variable centers : list Util.kmer.
Hypothesis Hcs : Forall (is_kmer k) centers.
Variable R : nat.
Variable S : Z -> Prop.

Lemma turn_step n st :
  (n < length centers)%nat ->
  turn_inv3 k centers R S n st ->
  turn_inv3 k centers R S (n + 1) (P1M1Driver.process_island k p st n).
Proof.
  intros Hn Hinv.
  destruct Hinv as [Hsz Hisl Hlay Hlab Hnear Hold Hnew Hkept Hcen].
  unfold Util.kmer in *.
  assert (Hcur : exists cur, st.1 !! n = Some cur).
  { apply lookup_lt_is_Some. rewrite Hisl. lia. }
  destruct Hcur as [cur Hcur].
  assert (Hc : exists c, centers !! n = Some c).
  { apply lookup_lt_is_Some. lia. }
  destruct Hc as [c Hc].
  pose proof (Hlay n cur c Hcur Hc) as Hcl.
  assert (HL : Forall (vertex3 k) (P1M1Driver.bfs_layer cur)).
  { eapply Forall_impl; [exact Hcl|]. cbn beta. tauto. }
  destruct (process_island_spec st n cur Hsz Hcur HL)
    as (cur' & st2 & Eq & Hsz2 & _ & F1 & F3 & F4).
  rewrite Eq.
  assert (F2 : forall w, vertex3 k w -> label3 st.2 w <> -3 -> label3 st2 w <> -3).
  { intros w Hw Hm. destruct (F1 w Hw) as [E|(E & _)]; lia. }
  assert (F5 : forall w, In w (P1M1Driver.bfs_layer cur') ->
                         (lev (syms c k) (vstr3 k w) <= R + 1)%nat).
  { intros w Hw. destruct (F3 w Hw) as (_ & _ & _ & u & Hu & Hwu).
    eapply List.Forall_forall in Hcl; [|exact Hu]. cbn beta in Hcl.
    destruct Hcl as (Hvu & _ & Hd).
    destruct (Nat.ltb_spec n n); [lia|].
    pose proof (neighbors3_lev k Hk u w (syms c k) Hvu Hwu). lia. }
  constructor; cbn [fst snd].
  - assumption.
  - rewrite length_insert. assumption.
  - intros i isl c' Hi Hc'. destruct (Nat.eq_dec i n) as [->|Hne].
    + rewrite list_lookup_insert_eq in Hi by (rewrite Hisl; lia).
      injection Hi as <-. unfold Util.kmer in *. rewrite Hc in Hc'. injection Hc' as <-.
      apply List.Forall_forall. intros w Hw.
      destruct (F3 w Hw) as (Hvw & _ & Hm & _).
      split; [assumption|]. split; [assumption|].
      destruct (Nat.ltb_spec n (n + 1)); [|lia]. apply F5. assumption.
    + rewrite list_lookup_insert_ne in Hi by congruence.
      pose proof (Hlay i isl c' Hi Hc') as Hold'.
      eapply Forall_impl; [exact Hold'|]. cbn beta. intros w (Hvw & Hm & Hd).
      split; [assumption|]. split; [apply F2; assumption|].
      destruct (Nat.ltb_spec i n); destruct (Nat.ltb_spec i (n + 1)); lia.
  - intros v Hv. destruct (F1 v Hv) as [E|(E & Hin & [E2|E2] & _)].
    + rewrite E. apply Hlab. assumption.
    + right. left. assumption.
    + right. right. exists n, c. split; [assumption|]. split; [assumption|].
      apply F5. assumption.
  - intros v Hv Hm. destruct (F1 v Hv) as [E|(E & Hin & _)].
    + apply Hnear; [assumption|]. rewrite <- E. assumption.
    + exists c. split; [apply list_elem_of_In; eapply list_elem_of_lookup_2; exact Hc|].
      apply F5. assumption.
  - intros u Hu HS. destruct (Hold u Hu HS) as [Hcl'|(i & isl & Hi & Hlk & Hin)].
    + left. intros v Hv. apply F2; [|apply Hcl'; assumption].
      eapply neighbors3_vertex; eassumption.
    + destruct (Nat.eq_dec i n) as [->|Hne].
      * left. intros v Hv. rewrite Hcur in Hlk. injection Hlk as <-.
        eapply F4; eassumption.
      * right. exists i, isl. split; [lia|]. split; [|assumption].
        rewrite list_lookup_insert_ne by congruence. assumption.
  - intros u Hu Hm. destruct (Z.eq_dec (label3 st.2 u) (-3)) as [E|E].
    + right. exists n, cur'. split; [lia|]. split.
      * apply list_lookup_insert_eq. rewrite Hisl. lia.
      * destruct (F1 u Hu) as [E1|(_ & Hin & _)]; [congruence|assumption].
    + destruct (Hnew u Hu E) as [HS|(i & isl & Hi & Hlk & Hin)].
      * left. assumption.
      * right. exists i, isl. split; [lia|]. split; [|assumption].
        rewrite list_lookup_insert_ne by lia. assumption.
  - intros u Hu HS. apply F2; [assumption|]. apply Hkept; assumption.
  - intros c' Hc'. destruct (Hcen c' Hc') as (j & Ej & Hj).
    exists j. split; [|assumption].
    assert (Hvc : vertex3 k c').
    { left. eapply List.Forall_forall in Hcs; [exact Hcs|assumption]. }
    destruct (F1 c' Hvc) as [E|(E & _)]; lia.
Qed.

End Turn3.

(** ** The rounds *)

Section Rounds3.
Variable k : nat.
Hypothesis Hk : (k <= 30)%nat.
Variable p : Z.
Variable centers : list Util.kmer.
Hypothesis Hcs : Forall (is_kmer k) centers.

Lemma fold_turns R S : forall m n st,
  (n + m = length centers)%nat ->
  turn_inv3 k centers R S n st ->
  turn_inv3 k centers R S (n + m) (fold_left (P1M1Driver.process_island k p) (seq n m) st).
Proof.
  induction m as [|m IH]; intros n st Hm Hinv.
  - cbn [seq fold_left]. rewrite Nat.add_0_r. assumption.
  - cbn [seq fold_left].
    replace (n + Datatypes.S m)%nat with (Datatypes.S n + m)%nat by lia.
    apply IH; [lia|].
    replace (Datatypes.S n) with (n + 1)%nat by lia.
    apply (turn_step k Hk p centers Hcs); [lia|assumption].
Qed.

Lemma center_vertex3 c : In c centers -> vertex3 k c.
Proof. intros Hc. left. eapply List.Forall_forall in Hcs; [exact Hcs|assumption]. Qed.

(** When a round begins no island has taken its turn. *)
Lemma round_turn0 R st :
  round_inv3 k centers R st ->
  turn_inv3 k centers R (fun u => label3 st.2 u <> -3) 0 st.
Proof.
  intros Hinv.
  destruct Hinv as [Hsz Hisl Hlay Hlab Hnear Hclosed Hcov Hcen].
  constructor.
  - assumption.
  - assumption.
  - intros i isl c Hi Hc. destruct (Nat.ltb_spec i 0); [lia|].
    eapply Hlay; eassumption.
  - intros v Hv. destruct (Hlab v Hv) as [E|[E|(i & c & E & Hc & Hd)]].
    + left. assumption.
    + right. left. assumption.
    + right. right. exists i, c. split; [assumption|]. split; [assumption|lia].
  - intros v Hv Hm. destruct (Hnear v Hv Hm) as (c & Hc & Hd).
    exists c. split; [assumption|lia].
  - intros u Hu HS. destruct (Hclosed u Hu HS) as [Hcl|(i & isl & Hi & Hin)].
    + left. assumption.
    + right. exists i, isl. split; [lia|]. split; assumption.
  - intros u Hu Hm. left. exact Hm.
  - intros u Hu HS. exact HS.
  - assumption.
Qed.

(** One value of [radius]. *)
Lemma round_step R st :
  round_inv3 k centers R st ->
  round_inv3 k centers (R + 1) (P1M1Driver.round k p st).
Proof.
  intros Hinv. pose proof (round_turn0 R st Hinv) as Hturn.
  destruct Hinv as [Hsz Hisl Hlay Hlab Hnear Hclosed Hcov Hcen].
  set (S := fun u => label3 st.2 u <> -3) in *.
  unfold P1M1Driver.round. rewrite Hisl.
  pose proof (fold_turns R S (length centers) 0 st ltac:(lia) Hturn) as Hfin.
  cbn [Nat.add] in Hfin.
  set (st' := fold_left (P1M1Driver.process_island k p) (seq 0 (length centers)) st) in *.
  destruct Hfin as [Hsz' Hisl' Hlay' Hlab' Hnear' Hold' Hnew' Hkept' Hcen'].
  assert (Hlt : forall i isl, st'.1 !! i = Some isl -> (i < length centers)%nat).
  { intros i isl Hi. apply lookup_lt_Some in Hi. lia. }
  constructor.
  - assumption.
  - assumption.
  - intros i isl c Hi Hc. pose proof (Hlay' i isl c Hi Hc) as H.
    pose proof (Hlt i isl Hi).
    destruct (Nat.ltb_spec i (length centers)); [exact H|lia].
  - assumption.
  - assumption.
  - intros u Hu Hm. destruct (Hnew' u Hu Hm) as [HS|(i & isl & Hi & Hlk & Hin)].
    + destruct (Hold' u Hu HS) as [Hcl|(i & isl & Hi & Hlk & Hin)].
      * left. assumption.
      * pose proof (Hlt i isl Hlk). lia.
    + right. exists i, isl. split; assumption.
  - intros c n x Hc Hn Hw.
    pose proof (center_vertex3 c Hc) as Hvc.
    destruct (Nat.eq_dec n (R + 1)%nat) as [->|Hne].
    + replace (R + 1)%nat with (Datatypes.S R) in Hw by lia.
      destruct (walk3_last k R c x Hw) as (u & Hwu & Hx).
      pose proof (walk3_vertex k Hk R c u Hwu Hvc) as Hvu.
      assert (HS : S u) by (eapply Hcov; [eassumption| |eassumption]; lia).
      destruct (Hold' u Hvu HS) as [Hcl|(i & isl & Hi & Hlk & Hin)].
      * apply Hcl. assumption.
      * pose proof (Hlt i isl Hlk). lia.
    + apply Hkept'.
      * eapply walk3_vertex; eassumption.
      * eapply Hcov; [eassumption| |eassumption]. lia.
  - assumption.
Qed.

Lemma rounds_inv n : forall R st,
  round_inv3 k centers R st ->
  round_inv3 k centers (R + n) (P1M1Driver.rounds n k p st).
Proof.
  induction n as [|n IH]; intros R st Hinv; cbn [P1M1Driver.rounds].
  - rewrite Nat.add_0_r. assumption.
  - replace (R + Datatypes.S n)%nat with (R + 1 + n)%nat by lia.
    apply IH. apply round_step. assumption.
Qed.

End Rounds3.

(** ** The state when the rounds start *)

Lemma allocated_sized3 k :
  (1 <= k <= 30)%nat ->
  sized3 k (P1M1Driver.allocated k) /\
  forall v, vertex3 k v -> label3 (P1M1Driver.allocated k) v = -3.
Proof.
  intros Hk. unfold P1M1Driver.allocated. cbv zeta.
  rewrite num_kmers_pow4.
  assert (Hpos : 0 < 4 ^ Z.of_nat k) by (apply Z.pow_pos_nonneg; lia).
  assert (Em : shr64 (4 ^ Z.of_nat k) 2 = 4 ^ Z.of_nat (k - 1)).
  { unfold shr64. rewrite Z.shiftr_div_pow2 by lia. change (2 ^ 2) with 4.
    destruct k as [|k']; [lia|].
    replace (S k' - 1)%nat with k' by lia.
    rewrite Nat2Z.inj_succ, Z.pow_succ_r by lia.
    rewrite Z.mul_comm, Z.div_mul by lia. reflexivity. }
  assert (Ep : shl64 (4 ^ Z.of_nat k) 2 = 4 ^ Z.of_nat (k + 1)).
  { unfold shl64. rewrite Z.shiftl_mul_pow2 by lia. change (2 ^ 2) with 4.
    replace (Z.of_nat (k + 1)) with (Z.succ (Z.of_nat k)) by lia.
    rewrite Z.pow_succ_r by lia. rewrite Z.mul_comm.
    apply wrap64_small.
    pose proof (pow4_lt_62 k ltac:(lia)) as H62.
    replace (Z.of_nat (k + 1)) with (Z.succ (Z.of_nat k)) in H62 by lia.
    rewrite Z.pow_succ_r in H62 by lia.
    assert (2 ^ 62 < 2 ^ 64) by reflexivity. lia. }
  rewrite Em, Ep.
  assert (Hpm : 0 < 4 ^ Z.of_nat (k - 1)) by (apply Z.pow_pos_nonneg; lia).
  assert (Hpp : 0 < 4 ^ Z.of_nat (k + 1)) by (apply Z.pow_pos_nonneg; lia).
  split.
  - unfold sized3. cbn [fst snd]. rewrite !length_replicate, !Z2Nat.id by lia.
    repeat split; reflexivity.
  - intros v [Hx|[(y & Hy & ->)|(z & Hz & ->)]].
    + rewrite (label3_kmer k ltac:(lia)) by assumption. cbn [fst snd]. unfold rd.
      destruct Hx. apply lookup_total_replicate_2. lia.
    + rewrite (label3_km1 k ltac:(lia)) by assumption. cbn [fst snd]. unfold rd.
      apply lookup_total_replicate_2. lia.
    + rewrite (label3_kp1 k ltac:(lia)) by assumption. cbn [fst snd]. unfold rd.
      apply lookup_total_replicate_2. lia.
Qed.

Lemma seed_centers3_spec k : forall centers i0 h0,
  Forall (is_kmer k) centers -> Z.of_nat (length h0) = 4 ^ Z.of_nat k ->
  let r := P1M1Driver.seed_centers i0 centers h0 in
  length r.2 = length h0 /\
  r.1 = map P1M1Driver.IslandInit centers /\
  forall x, 0 <= x ->
    (rd r.2 x = rd h0 x /\ ~ In x centers) \/
    (exists j, rd r.2 x = Z.of_nat (i0 + j) /\ centers !! j = Some x).
Proof.
  induction centers as [|c cs IH]; intros i0 h0 Hcs Hlen0; cbn [P1M1Driver.seed_centers].
  - cbn [fst snd]. split; [reflexivity|]. split; [reflexivity|].
    intros x Hx. left. split; [reflexivity|intros []].
  - apply Forall_cons in Hcs. destruct Hcs as [Hc Hcs].
    specialize (IH (S i0) (wr h0 c (Z.of_nat i0)) Hcs). cbv zeta in IH.
    rewrite length_wr in IH. specialize (IH Hlen0).
    destruct (P1M1Driver.seed_centers (S i0) cs (wr h0 c (Z.of_nat i0))) as [isls h].
    cbn [fst snd] in *. destruct IH as (Hlen & Hisl & Hrd).
    split; [assumption|]. split; [rewrite Hisl; reflexivity|].
    destruct Hc as [Hc0 Hc1].
    intros x Hx. destruct (Hrd x Hx) as [[E Hni]|(j & E & Hj)].
    + destruct (Z.eq_dec x c) as [->|Hne].
      * right. exists 0%nat. rewrite Nat.add_0_r. split; [|reflexivity].
        rewrite E. apply rd_wr_eq; lia.
      * left. split.
        -- rewrite E. apply rd_wr_ne; lia.
        -- intros [Heq|Hin]; [congruence|contradiction].
    + right. exists (S j). split; [rewrite E; f_equal; lia|exact Hj].
Qed.

Lemma seeded_inv3 k centers :
  (1 <= k <= 30)%nat -> Forall (is_kmer k) centers ->
  round_inv3 k centers 0 (P1M1Driver.seeded k centers).
Proof.
  intros Hk Hcs. unfold P1M1Driver.seeded.
  assert (Hk30 : (k <= 30)%nat) by lia.
  destruct (allocated_sized3 k Hk) as [Hsz0 Hun].
  destruct (P1M1Driver.allocated k) as [[h0 hm] hp].
  pose proof Hsz0 as (S1 & S2 & S3). cbn [fst snd] in S1, S2, S3.
  pose proof (seed_centers3_spec k centers 0 h0 Hcs S1) as Hseed. cbv zeta in Hseed.
  destruct (P1M1Driver.seed_centers 0 centers h0) as [islands h]. cbn [fst snd] in Hseed.
  destruct Hseed as (Hlen & -> & Hrd).
  assert (Hin : forall c, In c centers -> is_kmer k c).
  { intros c Hc. eapply List.Forall_forall in Hcs; eassumption. }
  assert (Hlab : forall v, vertex3 k v ->
            (label3 (h, hm, hp) v = -3 /\ ~ In v centers) \/
            (exists j, label3 (h, hm, hp) v = Z.of_nat j /\ centers !! j = Some v)).
  { intros v Hv. pose proof (Hun v Hv) as H0.
    destruct Hv as [Hx|[(y & Hy & ->)|(z & Hz & ->)]].
    - rewrite (label3_kmer k Hk30) in H0 |- * by assumption. cbn [fst snd] in *.
      destruct Hx as [Hx0 Hx1].
      destruct (Hrd v Hx0) as [[E Hni]|(j & E & Hj)].
      + left. split; [congruence|assumption].
      + right. exists j. split; assumption.
    - left. rewrite (label3_km1 k Hk30) in H0 |- * by assumption. cbn [fst snd] in *.
      split; [assumption|]. intros Hc.
      pose proof (kmer_range k Hk30 _ (Hin _ Hc)).
      destruct (km1_range k Hk30 y Hy) as (_ & Hge & _). pose proof tags_lt. lia.
    - left. rewrite (label3_kp1 k Hk30) in H0 |- * by assumption. cbn [fst snd] in *.
      split; [assumption|]. intros Hc.
      pose proof (kmer_range k Hk30 _ (Hin _ Hc)).
      destruct (kp1_range k Hk30 z Hz) as (_ & Hge & _). lia. }
  assert (Hmark : forall c, In c centers -> label3 (h, hm, hp) c <> -3).
  { intros c Hc. destruct (Hlab c (or_introl (Hin c Hc))) as [[_ Hni]|(j & E & _)];
      [contradiction|lia]. }
  assert (Hself : forall c, In c centers -> lev (syms c k) (vstr3 k c) = 0%nat).
  { intros c Hc. rewrite (vstr3_kmer k Hk30) by (apply Hin; assumption). apply lev_refl. }
  constructor; cbn [fst snd].
  - destruct Hsz0 as (_ & T2 & T3). cbn [fst snd] in T2, T3.
    split; [cbn [fst snd]; lia|]. split; assumption.
  - apply length_map.
  - intros i isl c Hi Hc. rewrite list_lookup_fmap in Hi.
    unfold Util.kmer in *. rewrite Hc in Hi. cbn in Hi. injection Hi as <-.
    cbn [P1M1Driver.IslandInit P1M1Driver.bfs_layer].
    assert (Hcin : In c centers).
    { apply list_elem_of_In. eapply list_elem_of_lookup_2. exact Hc. }
    constructor; [|constructor].
    split; [left; apply Hin; assumption|]. split; [apply Hmark; assumption|].
    rewrite Hself by assumption. lia.
  - intros v Hv. destruct (Hlab v Hv) as [[E _]|(j & E & Hj)].
    + left. assumption.
    + right. right. exists j, v. split; [assumption|]. split; [assumption|].
      rewrite Hself; [lia|]. apply list_elem_of_In. eapply list_elem_of_lookup_2. exact Hj.
  - intros v Hv Hm. destruct (Hlab v Hv) as [[E _]|(j & E & Hj)]; [contradiction|].
    assert (Hvin : In v centers).
    { apply list_elem_of_In. eapply list_elem_of_lookup_2. exact Hj. }
    exists v. split; [assumption|]. rewrite Hself by assumption. lia.
  - intros u Hu Hm. destruct (Hlab u Hu) as [[E _]|(j & E & Hj)]; [contradiction|].
    right. exists j, (P1M1Driver.IslandInit u). split.
    + rewrite list_lookup_fmap. unfold Util.kmer in *. rewrite Hj. reflexivity.
    + left. reflexivity.
  - intros c n x Hc Hn Hw. assert (n = 0%nat) as -> by lia.
    inversion Hw; subst. apply Hmark. assumption.
  - intros c Hc. destruct (Hlab c (or_introl (Hin c Hc))) as [[_ Hni]|(j & E & Hj)];
      [contradiction|]. exists j. split; assumption.
Qed.

(** The invariant at the end of the round loop. *)
Lemma run_inv3 k p q centers :
  (1 <= k <= 30)%nat -> Forall (is_kmer k) centers ->
  round_inv3 k centers (Z.to_nat (Z.shiftr q 1))
    (P1M1Driver.rounds (Z.to_nat (Z.shiftr q 1)) k p (P1M1Driver.seeded k centers)).
Proof.
  intros Hk Hcs.
  apply (rounds_inv k ltac:(lia) p centers Hcs (Z.to_nat (Z.shiftr q 1)) 0).
  apply seeded_inv3; assumption.
Qed.




(** ** From distances to walks *)

Section OneLengthOff.
Context {A : Type} `{EqDecision A}.

(** A word one symbol shorter than [s] is a deletion of a word of the
    length of [s] that is nearer to [s]. *)
Lemma lev_shorter (P : A -> Prop) (s t : list A) :
  length s = Datatypes.S (length t) -> Forall P s -> Forall P t ->
  exists x, del1 x t /\ length x = length s /\ Forall P x /\
            (Datatypes.S (lev s x) <= lev s t)%nat.
Proof.
  intros Hlen Ps Pt.
  destruct (lev_alignment s t) as (al & Hsrc & Hdst & Hcost).
  pose proof (al_lengths al) as Hl. rewrite Hsrc, Hdst in Hl.
  assert (Hdel : (0 < al_sum col_del al)%nat) by lia.
  destruct (al_find_del al Hdel) as (al1 & a & al2 & ->).
  assert (E1 : s = al_src al1 ++ a :: al_src al2)
    by (rewrite <- Hsrc, al_src_app; reflexivity).
  assert (E2 : t = al_dst al1 ++ al_dst al2)
    by (rewrite <- Hdst, al_dst_app; reflexivity).
  set (al' := al1 ++ Pair a a :: al2).
  assert (E3 : al_src al' = s)
    by (subst al'; rewrite al_src_app, E1; reflexivity).
  assert (E4 : al_dst al' = al_dst al1 ++ a :: al_dst al2)
    by (subst al'; rewrite al_dst_app; reflexivity).
  assert (E5 : (al_sum col_cost al' + 1 = lev s t)%nat).
  { subst al'. rewrite <- Hcost. rewrite !al_sum_app. simpl.
    rewrite neq_cost_refl. lia. }
  exists (al_dst al'). split; [|split; [|split]].
  - rewrite E4, E2. constructor.
  - rewrite E4, Hlen, E2, !length_app. cbn [length]. lia.
  - rewrite E4. rewrite E2 in Pt. apply Forall_app in Pt. destruct Pt as [P1 P2].
    rewrite E1 in Ps. apply Forall_app in Ps. destruct Ps as [_ Ps].
    apply Forall_cons in Ps. apply Forall_app. split; [assumption|].
    apply Forall_cons. tauto.
  - pose proof (al_cost_lev al') as Hle. rewrite E3 in Hle. lia.
Qed.

(** A word one symbol longer than [s] is an insertion into a word of the
    length of [s] that is nearer to [s]. *)
Lemma lev_longer (P : A -> Prop) (s t : list A) :
  Datatypes.S (length s) = length t -> Forall P t ->
  exists x, ins1 x t /\ length x = length s /\ Forall P x /\
            (Datatypes.S (lev s x) <= lev s t)%nat.
Proof.
  intros Hlen Pt.
  destruct (lev_alignment s t) as (al & Hsrc & Hdst & Hcost).
  pose proof (al_lengths al) as Hl. rewrite Hsrc, Hdst in Hl.
  assert (Hins : (0 < al_sum col_ins al)%nat) by lia.
  destruct (al_find_ins al Hins) as (al1 & b & al2 & ->).
  assert (E1 : s = al_src al1 ++ al_src al2)
    by (rewrite <- Hsrc, al_src_app; reflexivity).
  assert (E2 : t = al_dst al1 ++ b :: al_dst al2)
    by (rewrite <- Hdst, al_dst_app; reflexivity).
  set (al' := al1 ++ al2).
  assert (E3 : al_src al' = s) by (subst al'; rewrite al_src_app, E1; reflexivity).
  assert (E4 : al_dst al' = al_dst al1 ++ al_dst al2) by (subst al'; apply al_dst_app).
  assert (E5 : (al_sum col_cost al' + 1 = lev s t)%nat).
  { subst al'. rewrite <- Hcost. rewrite !al_sum_app. simpl. lia. }
  exists (al_dst al'). split; [|split; [|split]].
  - rewrite E4, E2. constructor.
  - rewrite E4, E2, !length_app in *. cbn [length] in Hlen. lia.
  - rewrite E4. rewrite E2 in Pt. apply Forall_app in Pt. destruct Pt as [P1 P2].
    apply Forall_cons in P2. apply Forall_app. tauto.
  - pose proof (al_cost_lev al') as Hle. rewrite E3 in Hle. lia.
Qed.

End OneLengthOff.

Section Bridge3.
Variable k : nat.
Hypothesis Hk : (1 <= k <= 30)%nat.

(** A word of [k] symbols at distance [n] from a k-mer is reached by a
    walk of [n] steps, and is the string of a k-mer. *)
Lemma word_walk c x :
  is_kmer k c -> length x = k -> Forall (fun z => 0 <= z < 4) x ->
  exists v, is_kmer k v /\ syms v k = x /\ walk k (lev (syms c k) x) c v.
Proof.
  intros Hc Hlen Hr.
  pose proof (lev_kpath k (fun z => 0 <= z < 4) (syms c k) x
                (length_syms c k) Hlen (Forall_syms_range c k) Hr) as Hp.
  rewrite <- (vstr_kmer k c ltac:(lia) Hc) in Hp at 2.
  destruct (steps_walk k ltac:(lia) _ c _ (kmer_vertex k c Hc) Hp) as (v & Hw & Hv & Hvx).
  assert (Hkm : is_kmer k v).
  { destruct Hv as [Hv|(y & Hy & ->)]; [assumption|].
    rewrite (vstr_tagged k y ltac:(lia) Hy) in Hvx.
    pose proof (length_syms y (k - 1)) as Hl. rewrite Hvx, Hlen in Hl. lia. }
  exists v. split; [assumption|]. split; [|assumption].
  rewrite <- Hvx. symmetry. apply vstr_kmer; [lia|assumption].
Qed.

(** Every vertex is reached from a k-mer by a walk no longer than their
    distance. *)
Lemma near_walk3 c v :
  is_kmer k c -> vertex3 k v ->
  exists n, (n <= lev (syms c k) (vstr3 k v))%nat /\ walk3 k n c v.
Proof.
  intros Hc Hv. assert (Hk30 : (k <= 30)%nat) by lia.
  destruct Hv as [Hx|[(y & Hy & ->)|(z & Hz & ->)]].
  - rewrite (vstr3_kmer k Hk30 v Hx).
    exists (lev (syms c k) (syms v k)). split; [lia|].
    apply (walk_walk3 k Hk30); [left; assumption|].
    apply (kmer_walk k ltac:(lia)); [assumption|assumption|lia].
  - rewrite (vstr3_km1 k Hk30 y Hy).
    destruct (lev_shorter (fun z => 0 <= z < 4) (syms c k) (syms y (k - 1)))
      as (x & Hdel & Hlen & Hr & Hle).
    { rewrite !length_syms. lia. }
    { apply Forall_syms_range. }
    { apply Forall_syms_range. }
    rewrite length_syms in Hlen.
    destruct (word_walk c x Hc Hlen Hr) as (v' & Hv' & Hvx & Hw).
    destruct (kstep_neighbors k ltac:(lia) v' (syms y (k - 1)))
      as (v'' & Hin & Hstr).
    { left. assumption. }
    { apply Forall_syms_range. }
    { left. rewrite (vstr_kmer k v' ltac:(lia) Hv'), Hvx. split; [assumption|].
      right. assumption. }
    assert (Hvv : vertex k v'').
    { eapply (neighbors_vertex k ltac:(lia)); [left; exact Hv'|exact Hin]. }
    assert (v'' = Z.lor y luMSB) as ->.
    { apply (vstr3_inj k Hk30); [lia| | |].
      - apply vertex_vertex3. assumption.
      - apply km1_vertex3. assumption.
      - rewrite (vstr3_vstr k Hk30 v'' Hvv), Hstr.
        symmetry. apply vstr3_km1; assumption. }
    exists (Datatypes.S (lev (syms c k) x)). split; [lia|].
    eapply (walk3_snoc k).
    + apply (walk_walk3 k Hk30); [left; assumption|exact Hw].
    + apply (neighbors_neighbors3 k Hk30); [left; assumption|assumption].
  - rewrite (vstr3_kp1 k Hk30 z Hz).
    destruct (lev_longer (fun z => 0 <= z < 4) (syms c k) (syms z (k + 1)))
      as (x & Hins & Hlen & Hr & Hle).
    { rewrite !length_syms. lia. }
    { apply Forall_syms_range. }
    rewrite length_syms in Hlen.
    destruct (word_walk c x Hc Hlen Hr) as (v' & Hv' & Hvx & Hw).
    destruct (ins1_neighbors3 k Hk30 v' (syms z (k + 1)) Hv')
      as (v'' & Hin & Hvv & Hstr).
    { apply Forall_syms_range. }
    { rewrite Hvx. assumption. }
    assert (v'' = Z.lor z luSMSB) as ->.
    { apply (vstr3_inj k Hk30); [lia|assumption| |].
      - apply kp1_vertex3. assumption.
      - rewrite Hstr. symmetry. apply vstr3_kp1; assumption. }
    exists (Datatypes.S (lev (syms c k) x)). split; [lia|].
    eapply (walk3_snoc k).
    + apply (walk_walk3 k Hk30); [left; assumption|exact Hw].
    + assumption.
Qed.

(** All the vertices one edit away from a k-mer are generated from it. *)
Lemma edit1_neighbors3 u v :
  is_kmer k u -> vertex3 k v -> edit1 (vstr3 k u) (vstr3 k v) ->
  In v (neighbors3 k u).
Proof.
  intros Hu Hv He. assert (Hk30 : (k <= 30)%nat) by lia.
  rewrite (vstr3_kmer k Hk30 u Hu) in He.
  destruct He as [Hdel|[Hins|Hsub]].
  - destruct (kstep_neighbors k ltac:(lia) u (vstr3 k v)) as (v' & Hin & Hstr).
    { left. assumption. }
    { apply vstr3_range. }
    { left. rewrite (vstr_kmer k u ltac:(lia) Hu). split; [apply length_syms|].
      right. assumption. }
    assert (Hvv : vertex k v').
    { eapply (neighbors_vertex k ltac:(lia)); [left; exact Hu|exact Hin]. }
    assert (v' = v) as ->.
    { apply (vstr3_inj k Hk30); [lia| |assumption|].
      - apply vertex_vertex3. assumption.
      - rewrite (vstr3_vstr k Hk30 v' Hvv). assumption. }
    apply (neighbors_neighbors3 k Hk30); [left; assumption|assumption].
  - destruct (ins1_neighbors3 k Hk30 u (vstr3 k v) Hu) as (v' & Hin & Hvv & Hstr).
    { apply vstr3_range. }
    { assumption. }
    assert (v' = v) as ->; [|assumption].
    apply (vstr3_inj k Hk30); [lia|assumption|assumption|assumption].
  - destruct (kstep_neighbors k ltac:(lia) u (vstr3 k v)) as (v' & Hin & Hstr).
    { left. assumption. }
    { apply vstr3_range. }
    { left. rewrite (vstr_kmer k u ltac:(lia) Hu). split; [apply length_syms|].
      left. assumption. }
    assert (Hvv : vertex k v').
    { eapply (neighbors_vertex k ltac:(lia)); [left; exact Hu|exact Hin]. }
    assert (v' = v) as ->.
    { apply (vstr3_inj k Hk30); [lia| |assumption|].
      - apply vertex_vertex3. assumption.
      - rewrite (vstr3_vstr k Hk30 v' Hvv). assumption. }
    apply (neighbors_neighbors3 k Hk30); [left; assumption|assumption].
Qed.

(** All the k-mers one edit away from a (k-1)-mer are generated from it. *)
Lemma edit1_neighbors3_km1 u v :
  is_km1mer k u -> is_kmer k v -> edit1 (vstr3 k u) (vstr3 k v) ->
  In v (neighbors3 k u).
Proof.
  intros Hu Hv He. assert (Hk30 : (k <= 30)%nat) by lia.
  assert (Hvu : vertex k u) by (right; assumption).
  destruct Hu as (y & Hy & ->).
  rewrite (vstr3_km1 k Hk30 y Hy), (vstr3_kmer k Hk30 v Hv) in He.
  assert (Hins : ins1 (syms y (k - 1)) (syms v k)).
  { destruct He as [Hdel|[Hins|Hsub]]; [| assumption |].
    - inversion Hdel as [a b w E1 E2].
      pose proof (length_syms y (k - 1)) as L1. pose proof (length_syms v k) as L2.
      rewrite <- E1 in L1. rewrite <- E2 in L2. rewrite !length_app in *.
      cbn [length] in *. lia.
    - inversion Hsub as [a b b' w E1 E2].
      pose proof (length_syms y (k - 1)) as L1. pose proof (length_syms v k) as L2.
      rewrite <- E1 in L1. rewrite <- E2 in L2. rewrite !length_app in *.
      cbn [length] in *. lia. }
  destruct (kstep_neighbors k ltac:(lia) (Z.lor y luMSB) (syms v k)) as (v' & Hin & Hstr).
  { assumption. }
  { apply Forall_syms_range. }
  { right. rewrite (vstr_tagged k y ltac:(lia) Hy).
    split; [apply length_syms|]. split; [lia|assumption]. }
  assert (Hvv : vertex k v').
  { eapply (neighbors_vertex k ltac:(lia)); [exact Hvu|exact Hin]. }
  assert (v' = v) as ->.
  { apply (vstr3_inj k Hk30); [lia| |left; assumption|].
    - apply vertex_vertex3. assumption.
    - rewrite (vstr3_vstr k Hk30 v' Hvv), Hstr.
      symmetry. apply vstr3_kmer; assumption. }
  apply (neighbors_neighbors3 k Hk30); assumption.
Qed.

End Bridge3.

(** ** Results on the driver with three arrays *)

Lemma section_spec n a str lab :
  In (str, lab) (P1M1Driver.section n a) <->
  exists x, 0 <= x < Z.of_nat (length a) /\ -3 < rd a x /\
            str = Util.decode x n /\ lab = rd a x.
Proof.
  unfold P1M1Driver.section.
  rewrite <- list_elem_of_In, list_elem_of_omap. split.
  - intros (i & Hi & E). apply list_elem_of_In, in_seq in Hi. cbv zeta in E.
    destruct (Z.gtb_spec (rd a (Z.of_nat i)) (-3)) as [Hgt|]; [|discriminate].
    injection E as <- <-. exists (Z.of_nat i).
    split; [lia|]. split; [lia|]. split; reflexivity.
  - intros (x & [Hx0 Hx1] & Hlab & -> & ->). exists (Z.to_nat x).
    split; [apply list_elem_of_In, in_seq; lia|].
    cbv zeta. rewrite Z2Nat.id by lia.
    destruct (Z.gtb_spec (rd a x) (-3)); [reflexivity|lia].
Qed.

Lemma kp1_not_kmer k u : (k <= 30)%nat -> is_kp1mer k u -> neighbors3 k u = [].
Proof.
  intros Hk (z & Hz & ->). destruct (kp1_range k Hk z Hz) as (_ & Hge & _).
  unfold neighbors3.
  destruct (Z.geb_spec (Z.lor z luSMSB) luMSB); [lia|].
  destruct (Z.ltb_spec (Z.lor z luSMSB) luSMSB); [lia|]. reflexivity.
Qed.

(** One call of [getNextLayer] of the driver with three arrays, on
    arrays of the allocated sizes and a layer of vertices.  The new layer
    holds no vertex twice; it holds exactly the vertices that went from
    UNASSIGNED to BFS_VISITED, and no other label has changed.  Each new
    vertex is one edit away from a vertex of the old layer that is not a
    (k+1)-mer, for (k+1)-mers are not expanded.  Every vertex one edit
    away from a k-mer of the old layer, and every k-mer one edit away from
    a (k-1)-mer of it, is labelled after the call. *)
Theorem p1m1_next_layer (k : nat) (id : P1M1Driver.Island) (h h_m1 h_p1 : list Z) :
  (1 <= k <= 15)%nat -> sized3 k (h, h_m1, h_p1) ->
  Forall (vertex3 k) (P1M1Driver.bfs_layer id) ->
  let r := P1M1Driver.getNextLayer id k h h_m1 h_p1 in
  let L' := P1M1Driver.bfs_layer r.1 in
  sized3 k r.2 /\ NoDup L' /\
  (forall v, vertex3 k v ->
     (In v L' <-> label3 (h, h_m1, h_p1) v = -3 /\ label3 r.2 v = -2) /\
     (~ In v L' -> label3 r.2 v = label3 (h, h_m1, h_p1) v)) /\
  (forall v, In v L' ->
     vertex3 k v /\
     exists u, In u (P1M1Driver.bfs_layer id) /\ ~ is_kp1mer k u /\
               edit1 (vstr3 k u) (vstr3 k v)) /\
  (forall u v, In u (P1M1Driver.bfs_layer id) -> vertex3 k v ->
     edit1 (vstr3 k u) (vstr3 k v) ->
     is_kmer k u \/ (is_km1mer k u /\ is_kmer k v) ->
     label3 r.2 v <> -3).
Proof.
  intros Hk Hsz HL r L'. assert (Hk30 : (k <= 30)%nat) by lia.
  pose proof (getNextLayer_spec k Hk30 id h h_m1 h_p1 Hsz HL) as Hg. cbv zeta in Hg.
  fold r in Hg. fold L' in Hg.
  destruct Hg as (Hsz' & _ & Hlab & Hnd & Hlay & Hdone).
  split; [assumption|]. split; [assumption|]. split; [|split].
  - intros v Hv. destruct (Hlab v Hv) as [(Hin & E0 & E1)|(Hni & E)].
    + split; [|intros; contradiction]. split; [intros _; split; assumption|].
      intros _. assumption.
    + split; [|intros _; assumption]. split; [intros; contradiction|].
      intros [E0 E1]. lia.
  - intros v Hv. destruct (Hlay v Hv) as (Hvv & u & Hu & Hin).
    split; [assumption|]. exists u. split; [assumption|].
    assert (Hvu : vertex3 k u) by (eapply List.Forall_forall in HL; eassumption).
    split.
    + intros Hkp. rewrite (kp1_not_kmer k u Hk30 Hkp) in Hin. destruct Hin.
    + apply (neighbors3_edit1 k Hk30); assumption.
  - intros u v Hu Hv He Hkind. apply (Hdone u v Hu).
    destruct Hkind as [Hku|[Hku Hkv]].
    + apply (edit1_neighbors3 k ltac:(lia)); assumption.
    + apply (edit1_neighbors3_km1 k ltac:(lia)); assumption.
Qed.

Lemma p1m1_next_layer_witness :
  label3 (P1M1Driver.getNextLayer (P1M1Driver.IslandInit 0) 1
            [0; -3; -3; -3] [-3] (replicate 16 (-3))).2 (Z.lor 1 luSMSB) <> -3.
Proof.
  assert (Hk : (1 <= 1 <= 15)%nat) by lia.
  assert (Hsz : sized3 1 ([0; -3; -3; -3], [-3], replicate 16 (-3))).
  { repeat split. }
  assert (HL : Forall (vertex3 1) (P1M1Driver.bfs_layer (P1M1Driver.IslandInit 0))).
  { constructor; [|constructor]. left. split; [lia|reflexivity]. }
  refine (proj2 (proj2 (proj2 (proj2
    (p1m1_next_layer 1 (P1M1Driver.IslandInit 0) [0; -3; -3; -3] [-3]
       (replicate 16 (-3)) Hk Hsz HL)))) 0 (Z.lor 1 luSMSB) _ _ _ _).
  - left. reflexivity.
  - right. right. exists 1. split; [split; [lia|reflexivity]|reflexivity].
  - right. left. vm_compute. apply (ins1_at [0] 1 []).
  - left. split; [lia|reflexivity].
Defined.



Lemma run_near_iff k p q centers v :
  (1 <= k <= 30)%nat -> Forall (is_kmer k) centers -> 0 <= q -> vertex3 k v ->
  label3 (P1M1Driver.run k p q centers) v <> -3 <->
  exists c, In c centers /\ vdist3 k c v <= Z.shiftr q 1.
Proof.
  intros Hk Hcs Hq Hv. unfold P1M1Driver.run. cbv zeta.
  pose proof (run_inv3 k p q centers Hk Hcs) as Hinv.
  assert (Hq1 : 0 <= Z.shiftr q 1) by (apply Z.shiftr_nonneg; assumption).
  assert (Hin : forall c, In c centers -> is_kmer k c).
  { intros c Hc. eapply List.Forall_forall in Hcs; eassumption. }
  split.
  - intros Hm. destruct (ri_near _ _ _ _ Hinv v Hv Hm) as (c & Hc & Hd).
    exists c. split; [assumption|]. unfold vdist3.
    rewrite (vstr3_kmer k ltac:(lia) c (Hin c Hc)). lia.
  - intros (c & Hc & Hd). unfold vdist3 in Hd.
    rewrite (vstr3_kmer k ltac:(lia) c (Hin c Hc)) in Hd.
    destruct (near_walk3 k Hk c v (Hin c Hc) Hv) as (n & Hn & Hw).
    apply (ri_covered _ _ _ _ Hinv c n v Hc); [lia|assumption].
Qed.

(** What a run labels, and so writes to the output file: exactly the
    k-mers, (k-1)-mers and (k+1)-mers within Levenshtein distance
    [floor(q/2)] of some center.  Each of the three sections of the output
    holds the decodings of these vertices of its length, with their
    labels. *)
Theorem p1m1_output_is_ball (k : nat) (p q : Z) (centers : list Util.kmer) :
  (1 <= k <= 15)%nat -> Forall (is_kmer k) centers -> 0 <= q ->
  let st := P1M1Driver.run k p q centers in
  let near v := exists c, In c centers /\ vdist3 k c v <= Z.shiftr q 1 in
  (forall v, vertex3 k v -> (label3 st v <> -3 <-> near v)) /\
  (forall str lab,
     (In (str, lab) (P1M1Driver.output k st).1.1 <->
      exists x, is_kmer k x /\ near x /\
                str = Util.decode x k /\ lab = label3 st x) /\
     (In (str, lab) (P1M1Driver.output k st).1.2 <->
      exists y, 0 <= y < 4 ^ Z.of_nat (k - 1) /\ near (Z.lor y luMSB) /\
                str = Util.decode y (k - 1) /\ lab = label3 st (Z.lor y luMSB)) /\
     (In (str, lab) (P1M1Driver.output k st).2 <->
      exists z, 0 <= z < 4 ^ Z.of_nat (k + 1) /\ near (Z.lor z luSMSB) /\
                str = Util.decode z (k + 1) /\ lab = label3 st (Z.lor z luSMSB))).
Proof.
  intros Hk Hcs Hq st near. assert (Hk30 : (k <= 30)%nat) by lia.
  assert (Hiff : forall v, vertex3 k v -> (label3 st v <> -3 <-> near v)).
  { intros v Hv. apply run_near_iff; [lia|assumption..]. }
  assert (Hge : forall v, vertex3 k v -> -3 <= label3 st v).
  { intros v Hv. pose proof (run_inv3 k p q centers ltac:(lia) Hcs) as Hinv.
    destruct (ri_labels _ _ _ _ Hinv v Hv) as [E|[E|(i & c & E & _)]];
      fold (P1M1Driver.run k p q centers) in E; fold st in E; lia. }
  assert (Hsz : sized3 k st).
  { pose proof (run_inv3 k p q centers ltac:(lia) Hcs) as Hinv.
    exact (ri_sized _ _ _ _ Hinv). }
  split; [assumption|]. intros str lab.
  unfold P1M1Driver.output. destruct st as [[h hm] hp] eqn:Est.
  destruct Hsz as (S1 & S2 & S3). cbn [fst snd] in S1, S2, S3 |- *.
  split; [|split].
  - rewrite section_spec. split.
    + intros (x & Hx & Hlab & -> & ->). rewrite S1 in Hx.
      assert (Hkx : is_kmer k x) by exact Hx.
      exists x. split; [assumption|].
      assert (E : label3 (h, hm, hp) x = rd h x) by (apply (label3_kmer k Hk30); assumption).
      split; [|split; [reflexivity|symmetry; assumption]].
      apply Hiff; [left; assumption|]. rewrite E. lia.
    + intros (x & Hx & Hn & -> & ->).
      assert (E : label3 (h, hm, hp) x = rd h x) by (apply (label3_kmer k Hk30); assumption).
      exists x. rewrite S1. split; [exact Hx|].
      apply Hiff in Hn; [|left; assumption].
      pose proof (Hge x (or_introl Hx)). rewrite <- E.
      split; [lia|]. split; reflexivity.
  - rewrite section_spec. split.
    + intros (y & Hy & Hlab & -> & ->). rewrite S2 in Hy.
      exists y. split; [assumption|].
      assert (E : label3 (h, hm, hp) (Z.lor y luMSB) = rd hm y)
        by (apply (label3_km1 k Hk30); assumption).
      split; [|split; [reflexivity|symmetry; assumption]].
      apply Hiff; [apply km1_vertex3; assumption|]. rewrite E. lia.
    + intros (y & Hy & Hn & -> & ->).
      assert (E : label3 (h, hm, hp) (Z.lor y luMSB) = rd hm y)
        by (apply (label3_km1 k Hk30); assumption).
      exists y. rewrite S2. split; [exact Hy|].
      apply Hiff in Hn; [|apply km1_vertex3; assumption].
      pose proof (Hge _ (km1_vertex3 k y Hy)). rewrite <- E.
      split; [lia|]. split; reflexivity.
  - rewrite section_spec. split.
    + intros (z & Hz & Hlab & -> & ->). rewrite S3 in Hz.
      exists z. split; [assumption|].
      assert (E : label3 (h, hm, hp) (Z.lor z luSMSB) = rd hp z)
        by (apply (label3_kp1 k Hk30); assumption).
      split; [|split; [reflexivity|symmetry; assumption]].
      apply Hiff; [apply kp1_vertex3; assumption|]. rewrite E. lia.
    + intros (z & Hz & Hn & -> & ->).
      assert (E : label3 (h, hm, hp) (Z.lor z luSMSB) = rd hp z)
        by (apply (label3_kp1 k Hk30); assumption).
      exists z. rewrite S3. split; [exact Hz|].
      apply Hiff in Hn; [|apply kp1_vertex3; assumption].
      pose proof (Hge _ (kp1_vertex3 k z Hz)). rewrite <- E.
      split; [lia|]. split; reflexivity.
Qed.

Lemma p1m1_output_is_ball_witness :
  label3 (P1M1Driver.run 1 2 2 [0]) (Z.lor 1 luSMSB) <> -3.
Proof.
  assert (Hk : (1 <= 1 <= 15)%nat) by lia.
  assert (Hcs : Forall (is_kmer 1) [0]).
  { constructor; [split; [lia|reflexivity]|constructor]. }
  assert (Hq : 0 <= 2) by lia.
  refine (proj2 (proj1 (p1m1_output_is_ball 1 2 2 [0] Hk Hcs Hq) (Z.lor 1 luSMSB) _) _).
  - right. right. exists 1. split; [split; [lia|reflexivity]|reflexivity].
  - exists 0. split; [left; reflexivity|]. vm_compute. discriminate.
Defined.

(** The second condition of the file header: two vertices carrying
    the same center index [i] both lie within [floor(q/2)] of center [i],
    and so within [q] of each other; vertices further than [q] apart
    never share a center label. *)
Theorem p1m1_island_radius (k : nat) (p q : Z) (centers : list Util.kmer)
    (u v : Z) (i : nat) :
  (1 <= k <= 15)%nat -> Forall (is_kmer k) centers -> 0 <= q ->
  vertex3 k u -> vertex3 k v ->
  let st := P1M1Driver.run k p q centers in
  label3 st u = Z.of_nat i -> label3 st v = Z.of_nat i ->
  exists c, centers !! i = Some c /\
            vdist3 k c u <= Z.shiftr q 1 /\ vdist3 k c v <= Z.shiftr q 1 /\
            vdist3 k u v <= q.
Proof.
  intros Hk Hcs Hq Hu Hv st Eu Ev. subst st. unfold P1M1Driver.run in Eu, Ev.
  pose proof (run_inv3 k p q centers ltac:(lia) Hcs) as Hinv.
  set (R := Z.to_nat (Z.shiftr q 1)) in *.
  assert (Hin : forall c, In c centers -> is_kmer k c).
  { intros c Hc. eapply List.Forall_forall in Hcs; eassumption. }
  assert (Hrad : forall w, vertex3 k w ->
            label3 (P1M1Driver.rounds R k p (P1M1Driver.seeded k centers)).2 w = Z.of_nat i ->
            exists c, centers !! i = Some c /\ (lev (syms c k) (vstr3 k w) <= R)%nat).
  { intros w Hw E. destruct (ri_labels _ _ _ _ Hinv w Hw) as [E'|[E'|(j & c & E' & Hc & Hd)]];
      [rewrite E in E'; lia..|].
    rewrite E in E'. apply Nat2Z.inj in E'. subst j. exists c. split; assumption. }
  destruct (Hrad u Hu Eu) as (c & Hc & Hdu).
  destruct (Hrad v Hv Ev) as (c' & Hc' & Hdv).
  unfold Util.kmer in *. rewrite Hc in Hc'. injection Hc' as <-.
  assert (Hcin : In c centers).
  { apply list_elem_of_In. eapply list_elem_of_lookup_2. exact Hc. }
  exists c. split; [exact Hc|]. unfold vdist3.
  rewrite (vstr3_kmer k ltac:(lia) c (Hin c Hcin)).
  assert (Hq1 : 0 <= Z.shiftr q 1) by (apply Z.shiftr_nonneg; assumption).
  assert (HR : Z.of_nat R = Z.shiftr q 1) by (unfold R; lia).
  pose proof (lev_triangle (vstr3 k u) (syms c k) (vstr3 k v)) as Ht.
  rewrite (lev_sym (vstr3 k u) (syms c k)) in Ht.
  assert (Hhalf : 2 * Z.shiftr q 1 <= q).
  { rewrite Z.shiftr_div_pow2 by lia. change (2 ^ 1) with 2.
    pose proof (Z.mul_div_le q 2 ltac:(lia)). lia. }
  repeat split; lia.
Qed.

Lemma p1m1_island_radius_witness :
  exists c, [0; 3] !! 1%nat = Some c /\
            vdist3 1 c 3 <= Z.shiftr 2 1 /\ vdist3 1 c (Z.lor 15 luSMSB) <= Z.shiftr 2 1 /\
            vdist3 1 3 (Z.lor 15 luSMSB) <= 2.
Proof.
  assert (Hk : (1 <= 1 <= 15)%nat) by lia.
  assert (Hcs : Forall (is_kmer 1) [0; 3]).
  { constructor; [split; [lia|reflexivity]|].
    constructor; [split; [lia|reflexivity]|constructor]. }
  assert (Hq : 0 <= 2) by lia.
  refine (p1m1_island_radius 1 1 2 [0; 3] 3 (Z.lor 15 luSMSB) 1 Hk Hcs Hq _ _ _ _).
  - left. split; [lia|reflexivity].
  - right. right. exists 15. split; [split; [lia|reflexivity]|reflexivity].
  - vm_compute. reflexivity.
  - vm_compute. reflexivity.
Defined.

(** ** Frontiers of the three drivers *)

(** One turn of an island in the neighbour-list driver: the call of
    [getNextLayer], then the loop over the new layer. *)
Lemma center_turn_frontier (k : nat) (p radius : Z) (stC : CenterDriver.state) (i : nat)
    (islC : CenterDriver.Island) :
  (k <= 31)%nat ->
  store_sized k stC.1.2 stC.2 -> stC.1.1 !! i = Some islC ->
  Forall (vertex k) (CenterDriver.bfs_layer islC) ->
  let gC := CenterDriver.getNextLayer islC k stC.1.2 stC.2 in
  let stC' := CenterDriver.process_island k p radius stC i in
  exists islC',
    stC'.1.1 !! i = Some islC' /\
    CenterDriver.bfs_layer islC' = CenterDriver.bfs_layer gC.1.1 /\
    stC'.2 = gC.2 /\
    (forall x, is_kmer k x ->
       (In x (CenterDriver.bfs_layer islC') <-> rd stC.1.2 x = -3 /\ rd gC.1.2 x = -2)) /\
    (forall y, 0 <= y < 4 ^ Z.of_nat (k - 1) ->
       (In (Z.lor y luMSB) (CenterDriver.bfs_layer islC') <->
        rdb stC.2 y = false /\ rdb stC'.2 y = true)) /\
    (forall x, is_kmer k x ->
       (In x (CenterDriver.bfs_layer islC') ->
        rd stC'.1.2 x = -1 \/ rd stC'.1.2 x = Z.of_nat i) /\
       (~ In x (CenterDriver.bfs_layer islC') -> rd stC'.1.2 x = rd stC.1.2 x)) /\
    (forall j, j <> i ->
       (CenterDriver.process_island k p radius stC j).1.1 !! i = Some islC) /\
    (forall s v, In s (CenterDriver.bfs_layer islC) -> In v (neighbors k s) ->
       marked stC'.1.2 stC'.2 v).
Proof.
  intros Hk Hsz HiC Hlay gC stC'.
  destruct stC as [[islands hC] vC]. cbn [fst snd] in *.
  set (eC := Layers.next_layer (CenterDriver.bfs_layer islC) k hC vC).
  destruct (next_layer_inv k Hk hC vC Hsz _ Hlay) as (Hg & Hk1 & Hk2 & _).
  fold eC in Hg, Hk1, Hk2.
  set (islC' := {| CenterDriver.center := CenterDriver.center islC;
                   CenterDriver.neighbor_indices := CenterDriver.neighbor_indices islC;
                   CenterDriver.bfs_layer := Layers.new_layer eC |}).
  assert (EgC : gC = (islC', Layers.labels eC, Layers.visited eC)) by reflexivity.
  assert (Est : stC' = (<[i := islC']> islands,
                        fold_left (CenterDriver.commit k p radius (<[i := islC']> islands)
                                     islC' i)
                                  (Layers.new_layer eC) (Layers.labels eC),
                        Layers.visited eC)).
  { unfold stC', CenterDriver.process_island. rewrite HiC. reflexivity. }
  destruct (center_fold_commit k Hk p radius (<[i := islC']> islands) islC' i
              (Layers.new_layer eC) (Layers.labels eC) (new_layer_nonneg k Hk _ _ _))
    as (Hlen & Hfr & Hfin).
  rewrite Est, EgC. cbn [fst snd].
  exists islC'. split; [apply list_lookup_insert_eq; eapply lookup_lt_Some; eassumption|].
  split; [reflexivity|]. split; [reflexivity|]. cbn [CenterDriver.bfs_layer].
  split; [exact Hk1|]. split; [exact Hk2|]. split; [|split].
  - intros x Hx. assert (Hx0 : 0 <= x) by (destruct Hx; lia).
    pose proof (kmer_below_tag k x Hk Hx) as Hlt.
    destruct Hg as (Hl & _ & Hgl & _). destruct Hsz as [Hsz _].
    specialize (Hk1 x Hx). split.
    + intros Hin. pose proof (proj1 Hk1 Hin) as [_ E2].
      destruct (Hfr x Hx0) as [E|(_ & _ & _ & E)]; [|exact E].
      assert (-2 < rd (fold_left (CenterDriver.commit k p radius (<[i := islC']> islands)
                                    islC' i)
                                 (Layers.new_layer eC) (Layers.labels eC)) x).
      { apply Hfin; [exact Hin|assumption|]. rewrite Hl. destruct Hx. lia. }
      lia.
    + intros Hnin. destruct (Hfr x Hx0) as [E|(Hin & _)]; [|contradiction].
      rewrite E. destruct (Hgl x Hx0) as [E'|[E1 E2]]; [exact E'|].
      exfalso. apply Hnin, Hk1. split; assumption.
  - intros j Hj. unfold CenterDriver.process_island.
    destruct (islands !! j) as [islj|]; cbn [fst snd]; [|exact HiC].
    cbn [CenterDriver.getNextLayer fst snd].
    rewrite list_lookup_insert_ne by congruence. exact HiC.
  - intros s v Hs Hin.
    pose proof (next_layer_marks k Hk _ _ _ s v Hsz Hlay Hs Hin) as Hm. fold eC in Hm.
    pose proof (neighbors_nonneg k Hk s v Hin) as Hv0.
    unfold marked in *. destruct (v <? luMSB); [|exact Hm].
    destruct (Hfr v Hv0) as [E|(_ & _ & _ & [E|E])]; lia.
Qed.

(** [getNextLayer] of the driver with three arrays does nothing for a
    (k+1)-mer of the layer it is given. *)
Lemma expand_kp1mer (k : nat) (e : P1M1Driver.expansion) (s : Z) :
  (k <= 30)%nat -> is_kp1mer k s -> P1M1Driver.expand k e s = e.
Proof.
  intros Hk (z & Hz & ->). destruct (kp1_range k Hk z Hz) as (_ & Hge & _).
  unfold P1M1Driver.expand.
  destruct (Z.geb_spec (Z.lor z luSMSB) luMSB); [lia|].
  destruct (Z.ltb_spec (Z.lor z luSMSB) luSMSB); [lia|]. reflexivity.
Qed.

(** One turn of an island in the driver with three arrays. *)
Lemma p1m1_turn_frontier (k : nat) (p : Z) (stP : P1M1Driver.state) (i : nat)
    (islP : P1M1Driver.Island) :
  (k <= 30)%nat ->
  sized3 k stP.2 -> stP.1 !! i = Some islP ->
  Forall (vertex3 k) (P1M1Driver.bfs_layer islP) ->
  let gP := P1M1Driver.getNextLayer islP k stP.2.1.1 stP.2.1.2 stP.2.2 in
  let stP' := P1M1Driver.process_island k p stP i in
  exists islP',
    stP'.1 !! i = Some islP' /\
    P1M1Driver.bfs_layer islP' = P1M1Driver.bfs_layer gP.1 /\
    (forall v, vertex3 k v ->
       (In v (P1M1Driver.bfs_layer islP') <->
        label3 stP.2 v = -3 /\ label3 gP.2 v = -2)) /\
    (forall v, In v (P1M1Driver.bfs_layer islP') ->
       vertex3 k v /\ (label3 stP'.2 v = -1 \/ label3 stP'.2 v = Z.of_nat i)) /\
    (forall v, vertex3 k v -> ~ In v (P1M1Driver.bfs_layer islP') ->
       label3 stP'.2 v = label3 stP.2 v) /\
    (forall j, j <> i -> (P1M1Driver.process_island k p stP j).1 !! i = Some islP) /\
    (forall s v, In s (P1M1Driver.bfs_layer islP) -> In v (neighbors3 k s) ->
       label3 stP'.2 v <> -3) /\
    (forall s, In s (P1M1Driver.bfs_layer islP) -> is_kp1mer k s ->
       neighbors3 k s = [] /\ forall e, P1M1Driver.expand k e s = e).
Proof.
  intros Hk Hsz HiP HL gP stP'.
  destruct stP as [islands [[h hm] hp]]. cbn [fst snd] in *.
  pose proof (getNextLayer_spec k Hk islP h hm hp Hsz HL) as Hg. cbv zeta in Hg.
  fold gP in Hg.
  assert (Est : stP' = (<[i := gP.1]> islands,
                        fold_left (P1M1Driver.commit k p i) (P1M1Driver.bfs_layer gP.1) gP.2)).
  { unfold stP', P1M1Driver.process_island. rewrite HiP. fold gP.
    destruct gP as [cur' arrays]. reflexivity. }
  destruct Hg as (Hsz1 & _ & Hlab & Hnd & Hlay & Hdone).
  assert (HL' : Forall (vertex3 k) (P1M1Driver.bfs_layer gP.1)).
  { apply List.Forall_forall. intros w Hw. apply Hlay. assumption. }
  destruct (fold_commit3 k Hk p i (P1M1Driver.bfs_layer gP.1) gP.2 Hsz1 HL')
    as (Hsz2 & Hfr & Hset).
  rewrite Est. cbn [fst snd].
  exists gP.1. split; [apply list_lookup_insert_eq; eapply lookup_lt_Some; eassumption|].
  split; [reflexivity|]. split; [|split; [|split; [|split; [|split]]]].
  - intros v Hv. destruct (Hlab v Hv) as [(Hin & E0 & E1)|(Hni & E)].
    + split; [intros _; split; assumption|intros _; assumption].
    + split; [intros; contradiction|]. intros [E0 E1]. lia.
  - intros v Hin. destruct (Hlay v Hin) as [Hv _]. split; [assumption|].
    pose proof (Hset v Hin) as Hfin.
    destruct (Hlab v Hv) as [(_ & _ & E1)|(Hni & _)]; [|contradiction].
    destruct (Hfr v Hv) as [E|(_ & _ & E & _)]; [lia|exact E].
  - intros v Hv Hni.
    destruct (Hlab v Hv) as [(Hin & _)|(_ & E)]; [contradiction|].
    destruct (Hfr v Hv) as [E'|(Hin & _)]; [congruence|contradiction].
  - intros j Hj. unfold P1M1Driver.process_island.
    destruct (islands !! j) as [islj|]; cbn [fst snd]; [|exact HiP].
    destruct (P1M1Driver.getNextLayer islj k h hm hp) as [cur' arrays]. cbn [fst snd].
    rewrite list_lookup_insert_ne by congruence. exact HiP.
  - intros s v Hs Hin.
    assert (Hvs : vertex3 k s) by (eapply List.Forall_forall in HL; eassumption).
    pose proof (neighbors3_vertex k Hk s v Hvs Hin) as Hvv.
    pose proof (Hdone s v Hs Hin) as H1.
    destruct (Hfr v Hvv) as [E|(_ & _ & [E|E] & _)]; lia.
  - intros s _ Hkp. split; [apply kp1_not_kmer; assumption|].
    intros e. apply expand_kp1mer; assumption.
Qed.

(** C9 (amended).  The frontier an island carries out of its turn is the
    layer [getNextLayer] built in that turn: exactly the vertices it
    turned from UNASSIGNED to BFS_VISITED (a (k-1)-mer of the drivers with
    one array: from unflagged to flagged), whatever label, GRAY or the
    island's index, the loop over the new layer then gave them; the turns
    of the other islands leave it alone.  In the clique driver and in the
    neighbour-list driver every vertex of the frontier, the GRAY ones
    included, is expanded from at the island's next turn: all the
    neighbours the generators produce from it are marked afterwards.  In
    the driver with three arrays this holds of the k-mers and (k-1)-mers
    of the frontier; its (k+1)-mers stay in the frontier but nothing is
    generated from them: the loop body of [getNextLayer] leaves the
    arrays and the new layer as they are. *)
Theorem frontier_is_newly_marked (k : nat) (p : Z) (st : CliqueDriver.state)
    (i : nat) (isl : CliqueDriver.Island) :
  (k <= 31)%nat -> driver_wf k st -> st.1.1 !! i = Some isl ->
  let e := CliqueDriver.expand_island k st i in
  let st' := CliqueDriver.process_island k p st i in
  (exists isl',
    st'.1.1 !! i = Some isl' /\
    CliqueDriver.bfs_layer isl'
      = Layers.new_layer (Layers.next_layer (CliqueDriver.bfs_layer isl) k st.1.2 st.2) /\
    (forall x, is_kmer k x ->
       (In x (CliqueDriver.bfs_layer isl') <-> rd st.1.2 x = -3 /\ rd e.1.2 x = -2)) /\
    (forall y, 0 <= y < 4 ^ Z.of_nat (k - 1) ->
       (In (Z.lor y luMSB) (CliqueDriver.bfs_layer isl') <->
        rdb st.2 y = false /\ rdb e.2 y = true)) /\
    (forall x, is_kmer k x -> In x (CliqueDriver.bfs_layer isl') ->
       rd st'.1.2 x = -1 \/ rd st'.1.2 x = Z.of_nat i) /\
    (forall j, j <> i -> (CliqueDriver.process_island k p st j).1.1 !! i = Some isl) /\
    (forall s v, In s (CliqueDriver.bfs_layer isl) -> In v (neighbors k s) ->
       marked st'.1.2 st'.2 v)) /\
  (forall (radius : Z) (stC : CenterDriver.state) (islC : CenterDriver.Island),
     store_sized k stC.1.2 stC.2 -> stC.1.1 !! i = Some islC ->
     Forall (vertex k) (CenterDriver.bfs_layer islC) ->
     let gC := CenterDriver.getNextLayer islC k stC.1.2 stC.2 in
     let stC' := CenterDriver.process_island k p radius stC i in
     exists islC',
       stC'.1.1 !! i = Some islC' /\
       CenterDriver.bfs_layer islC' = CenterDriver.bfs_layer gC.1.1 /\
       stC'.2 = gC.2 /\
       (forall x, is_kmer k x ->
          (In x (CenterDriver.bfs_layer islC') <->
           rd stC.1.2 x = -3 /\ rd gC.1.2 x = -2)) /\
       (forall y, 0 <= y < 4 ^ Z.of_nat (k - 1) ->
          (In (Z.lor y luMSB) (CenterDriver.bfs_layer islC') <->
           rdb stC.2 y = false /\ rdb stC'.2 y = true)) /\
       (forall x, is_kmer k x ->
          (In x (CenterDriver.bfs_layer islC') ->
           rd stC'.1.2 x = -1 \/ rd stC'.1.2 x = Z.of_nat i) /\
          (~ In x (CenterDriver.bfs_layer islC') -> rd stC'.1.2 x = rd stC.1.2 x)) /\
       (forall j, j <> i ->
          (CenterDriver.process_island k p radius stC j).1.1 !! i = Some islC) /\
       (forall s v, In s (CenterDriver.bfs_layer islC) -> In v (neighbors k s) ->
          marked stC'.1.2 stC'.2 v)) /\
  (forall (stP : P1M1Driver.state) (islP : P1M1Driver.Island),
     (k <= 30)%nat ->
     sized3 k stP.2 -> stP.1 !! i = Some islP ->
     Forall (vertex3 k) (P1M1Driver.bfs_layer islP) ->
     let gP := P1M1Driver.getNextLayer islP k stP.2.1.1 stP.2.1.2 stP.2.2 in
     let stP' := P1M1Driver.process_island k p stP i in
     exists islP',
       stP'.1 !! i = Some islP' /\
       P1M1Driver.bfs_layer islP' = P1M1Driver.bfs_layer gP.1 /\
       (forall v, vertex3 k v ->
          (In v (P1M1Driver.bfs_layer islP') <->
           label3 stP.2 v = -3 /\ label3 gP.2 v = -2)) /\
       (forall v, In v (P1M1Driver.bfs_layer islP') ->
          vertex3 k v /\ (label3 stP'.2 v = -1 \/ label3 stP'.2 v = Z.of_nat i)) /\
       (forall v, vertex3 k v -> ~ In v (P1M1Driver.bfs_layer islP') ->
          label3 stP'.2 v = label3 stP.2 v) /\
       (forall j, j <> i -> (P1M1Driver.process_island k p stP j).1 !! i = Some islP) /\
       (forall s v, In s (P1M1Driver.bfs_layer islP) -> In v (neighbors3 k s) ->
          label3 stP'.2 v <> -3) /\
       (forall s, In s (P1M1Driver.bfs_layer islP) -> is_kp1mer k s ->
          neighbors3 k s = [] /\ forall e, P1M1Driver.expand k e s = e)).
Proof.
  intros Hk Hwf Hi e st'. split; [|split].
  2:{ clear e st'. intros radius stC islC Hsz HiC Hlay.
      exact (center_turn_frontier k p radius stC i islC Hk Hsz HiC Hlay). }
  2:{ clear e st'. intros stP islP Hk30 Hsz HiP HL.
      exact (p1m1_turn_frontier k p stP i islP Hk30 Hsz HiP HL). }
  destruct (expand_island_spec k Hk st i isl Hwf Hi) as (He & Hinv & Hwf1).
  fold e in He, Hwf1.
  set (ex := Layers.next_layer (CliqueDriver.bfs_layer isl) k st.1.2 st.2) in *.
  set (isl' := {| CliqueDriver.num_centers := CliqueDriver.num_centers isl;
                  CliqueDriver.centers := CliqueDriver.centers isl;
                  CliqueDriver.bfs_layer := Layers.new_layer ex |}) in *.
  assert (Hi1 : e.1.1 !! i = Some isl').
  { rewrite He. cbn [fst snd]. apply list_lookup_insert_eq.
    eapply lookup_lt_Some. eassumption. }
  destruct (commit_island_spec k Hk p e i isl' Hwf1 Hi1) as (E1 & E2 & E3 & Hc & Hwf2).
  change (CliqueDriver.commit_island k p e i) with st' in *.
  destruct Hinv as (Hg & Hk1 & Hk2 & Hv).
  assert (Heh : e.1.2 = Layers.labels ex) by (rewrite He; reflexivity).
  assert (Hev : e.2 = Layers.visited ex) by (rewrite He; reflexivity).
  exists isl'. split; [rewrite E1; exact Hi1|]. split; [reflexivity|].
  split; [intros x Hx; rewrite Heh; apply Hk1; assumption|].
  split; [intros y Hy; rewrite Hev; apply Hk2; assumption|].
  split; [|split].
  - intros x Hx Hin.
    assert (Hx2 : rd e.1.2 x = -2) by (rewrite Heh; apply Hk1; assumption).
    destruct Hwf1 as [[[Hlen _] Hlo] Hfr].
    assert (Hl : frontier_ok k e.1.2 (CliqueDriver.bfs_layer isl')).
    { rewrite Forall_forall in Hfr. apply Hfr. eapply list_elem_of_lookup_2. eassumption. }
    pose proof (fold_commit_final k Hk p i _ e.1.2 Hlen Hlo Hl x Hin Hx) as Hfin.
    rewrite <- E3 in Hfin.
    destruct Hc as [_ Hc]. destruct (Hc x ltac:(apply Hx)) as [E|(_ & E)]; [lia|exact E].
  - intros j Hj. unfold CliqueDriver.process_island.
    pose proof (do_phase_islands k p st (Expand j)) as Hlen. cbn [do_phase] in Hlen.
    assert (Hexp : (CliqueDriver.expand_island k st j).1.1 !! i = Some isl).
    { destruct st as [[islands h] h_m1]. cbn [fst snd] in *.
      unfold CliqueDriver.expand_island.
      destruct (islands !! j) as [islj|]; cbn [fst snd]; [|exact Hi].
      destruct (CliqueDriver.getNextLayer islj k h h_m1) as [[c h'] v']. cbn [fst snd].
      rewrite list_lookup_insert_ne by congruence. exact Hi. }
    destruct (CliqueDriver.expand_island k st j) as [[islands1 h1] v1]. cbn [fst snd] in *.
    unfold CliqueDriver.commit_island.
    destruct (islands1 !! j); cbn [fst snd]; exact Hexp.
  - intros s v Hs Hin.
    assert (Hlayer : Forall (vertex k) (CliqueDriver.bfs_layer isl)).
    { destruct Hwf as [_ Hfr]. rewrite Forall_forall in Hfr.
      specialize (Hfr isl (list_elem_of_lookup_2 _ _ _ Hi)).
      eapply Forall_impl; [exact Hfr|]. intros w [Hw _]. exact Hw. }
    destruct Hwf as [[Hsz _] _].
    pose proof (next_layer_marks k Hk _ _ _ s v Hsz Hlayer Hs Hin) as Hm.
    fold ex in Hm. rewrite <- Heh, <- Hev in Hm. rewrite E2.
    eapply marked_commits; [| |exact Hc|exact Hm]; [lia|].
    eapply (neighbors_nonneg k Hk). eassumption.
Qed.

Lemma frontier_is_newly_marked_witness :
  (exists isl',
    (CliqueDriver.process_island 2 2 (CliqueDriver.seeded 2 [[0]; [15]]) 0).1.1 !! 0%nat
      = Some isl' /\
    CliqueDriver.bfs_layer isl'
      = Layers.new_layer
          (Layers.next_layer (CliqueDriver.bfs_layer (CliqueDriver.IslandInit 1 [0])) 2
             (CliqueDriver.seeded 2 [[0]; [15]]).1.2 (CliqueDriver.seeded 2 [[0]; [15]]).2)) /\
  (let stC := CenterDriver.seeded 2 2 2 [0; 15] in
   let islC := {| CenterDriver.center := 0; CenterDriver.neighbor_indices := [1%nat];
                  CenterDriver.bfs_layer := [0] |} in
   let gC := CenterDriver.getNextLayer islC 2 stC.1.2 stC.2 in
   let stC' := CenterDriver.process_island 2 2 1 stC 0 in
   exists islC',
     stC'.1.1 !! 0%nat = Some islC' /\
     CenterDriver.bfs_layer islC' = CenterDriver.bfs_layer gC.1.1 /\
     stC'.2 = gC.2 /\
     (In 1 (CenterDriver.bfs_layer islC') <-> rd stC.1.2 1 = -3 /\ rd gC.1.2 1 = -2)) /\
  (let stP := P1M1Driver.seeded 2 [0; 15] in
   let gP := P1M1Driver.getNextLayer (P1M1Driver.IslandInit 0) 2
               stP.2.1.1 stP.2.1.2 stP.2.2 in
   let stP' := P1M1Driver.process_island 2 2 stP 0 in
   exists islP',
     stP'.1 !! 0%nat = Some islP' /\
     P1M1Driver.bfs_layer islP' = P1M1Driver.bfs_layer gP.1 /\
     (In 1 (P1M1Driver.bfs_layer islP') <-> label3 stP.2 1 = -3 /\ label3 gP.2 1 = -2)).
Proof.
  assert (Hk : (2 <= 31)%nat) by lia.
  assert (Hwf : driver_wf 2 (CliqueDriver.seeded 2 [[0]; [15]]))
    by (apply seeded_wf; [lia | kmers_ok]).
  assert (Hi : (CliqueDriver.seeded 2 [[0]; [15]]).1.1 !! 0%nat
               = Some (CliqueDriver.IslandInit 1 [0])) by reflexivity.
  assert (Hv0 : is_kmer 2 0) by (split; [lia|reflexivity]).
  assert (Hv1 : is_kmer 2 1) by (split; [lia|reflexivity]).
  destruct (frontier_is_newly_marked 2 2 _ 0 _ Hk Hwf Hi) as (Hclique & Hcenter & Hp1m1).
  split; [|split].
  - destruct Hclique as (isl' & H1 & H2 & _). exists isl'. split; [exact H1 | exact H2].
  - cbv zeta.
    assert (Hsz : store_sized 2 (CenterDriver.seeded 2 2 2 [0; 15]).1.2
                              (CenterDriver.seeded 2 2 2 [0; 15]).2).
    { split; [vm_compute; reflexivity|left; vm_compute; discriminate]. }
    assert (HiC : (CenterDriver.seeded 2 2 2 [0; 15]).1.1 !! 0%nat
                  = Some {| CenterDriver.center := 0;
                            CenterDriver.neighbor_indices := [1%nat];
                            CenterDriver.bfs_layer := [0] |})
      by (vm_compute; reflexivity).
    assert (HL : Forall (vertex 2) [0]) by (constructor; [left; exact Hv0|constructor]).
    destruct (Hcenter 1 _ _ Hsz HiC HL) as (islC' & H1 & H2 & H3 & H4 & _).
    exists islC'. split; [exact H1|]. split; [exact H2|]. split; [exact H3|].
    exact (H4 1 Hv1).
  - cbv zeta.
    assert (Hk30 : (2 <= 30)%nat) by lia.
    assert (Hsz : sized3 2 (P1M1Driver.seeded 2 [0; 15]).2).
    { split; [|split]; vm_compute; reflexivity. }
    assert (HiP : (P1M1Driver.seeded 2 [0; 15]).1 !! 0%nat
                  = Some (P1M1Driver.IslandInit 0)) by reflexivity.
    assert (HL : Forall (vertex3 2) [0]) by (constructor; [left; exact Hv0|constructor]).
    destruct (Hp1m1 _ _ Hk30 Hsz HiP HL) as (islP' & H1 & H2 & H3 & _).
    exists islP'. split; [exact H1|]. split; [exact H2|].
    exact (H3 1 (or_introl Hv1)).
Defined.

(** C9 as stated fails in the driver with three arrays.  With [k = 1],
    [p = 3] and the centers A and C, the (k+1)-mer AG is admitted to the
    frontier of island 0 in round 1 and labelled GRAY; the island carries
    it into round 2, where nothing is expanded from it: the loop body of
    [getNextLayer] leaves every state as it is on AG, and the island's
    call of [getNextLayer] returns what it returns on the frontier without
    its (k+1)-mers.  The GRAY k-mer G of the same frontier is expanded
    from: its insertion GG, UNASSIGNED before, is in the new layer. *)
Lemma gray_kp1mer_not_expanded :
  let st := P1M1Driver.round 1 3 (P1M1Driver.seeded 1 [0; 1]) in
  let AG := Z.lor 2 luSMSB in
  let GG := Z.lor 10 luSMSB in
  exists isl,
    st.1 !! 0%nat = Some isl /\
    In AG (P1M1Driver.bfs_layer isl) /\ label3 st.2 AG = -1 /\
    (forall e, P1M1Driver.expand 1 e AG = e) /\
    P1M1Driver.getNextLayer isl 1 st.2.1.1 st.2.1.2 st.2.2
    = P1M1Driver.getNextLayer
        {| P1M1Driver.center := P1M1Driver.center isl;
           P1M1Driver.bfs_layer :=
             List.filter (fun s => (s <? luSMSB) || (s >=? luMSB))
                         (P1M1Driver.bfs_layer isl) |}
        1 st.2.1.1 st.2.1.2 st.2.2 /\
    In 2 (P1M1Driver.bfs_layer isl) /\ label3 st.2 2 = -1 /\
    label3 st.2 GG = -3 /\ In 10 (Layers.insertions 2 2) /\
    In GG (P1M1Driver.bfs_layer
             (P1M1Driver.getNextLayer isl 1 st.2.1.1 st.2.1.2 st.2.2).1).
Proof.
  cbv zeta. eexists. split; [vm_compute; reflexivity|].
  split; [vm_compute; tauto|]. split; [vm_compute; reflexivity|].
  split; [intros e; reflexivity|]. split; [vm_compute; reflexivity|].
  split; [vm_compute; tauto|]. split; [vm_compute; reflexivity|].
  split; [vm_compute; reflexivity|]. split; vm_compute; tauto.
Qed.
